(** * Shannon coding with ordered output: encoder, wire protocol and
      ticket-ordered emission

    Shallow embedding of the encoders of [src/mutex.cpp],
    [src/multiThreading.cpp] and [src/server.cpp], of the request and
    response framing of [src/client.cpp], [src/server.cpp] and
    [src/src/network/client.cpp], and of the thread coordination of
    [src/mutex.cpp].

    Conventions.
    - [char] is an 8-bit character ([ascii]); whether it is signed is
      implementation-defined, so the encoder is parameterised by
      [char_signed].
    - [std::string] is a [list ascii]; [c_str()] views are cut at the
      first NUL.
    - [int] is a [Z] with its 32-bit wrap-around written [wrap_int].
    - [float] is IEEE binary32 and [double] IEEE binary64, both through
      the standard library's [SpecFloat] operations with round to nearest
      even.
    - [std::map<char, V>] is an association list kept in ascending key
      order, the order in which the range-for loops traverse it. *)

From Stdlib Require Import ZArith Ascii String Bool Lia Arith.
From Stdlib Require Import List.
From Stdlib Require Import Floats.SpecFloat.
From Stdlib Require Import Sorting.Sorted Sorting.Permutation.
Import ListNotations.
Open Scope Z_scope.

(* ================================================================== *)
(** * Machine integers *)

Definition INT_MAX : Z := 2147483647.
Definition INT_MIN : Z := -2147483648.

(** Conversion of an integer to [int]: reduction modulo [2^32] into
    [INT_MIN .. INT_MAX]. *)
Definition wrap_int (z : Z) : Z := (z + 2147483648) mod 4294967296 - 2147483648.

(* ================================================================== *)
(** * Floating point: binary32 and binary64 *)

Module F32.
Definition prec : Z := 24.
Definition emax : Z := 128.
Definition zero : spec_float := S754_zero false.
Definition of_int (z : Z) : spec_float := binary_normalize prec emax z 0 false.
Definition add : spec_float -> spec_float -> spec_float := SFadd prec emax.
Definition mul : spec_float -> spec_float -> spec_float := SFmul prec emax.
Definition div : spec_float -> spec_float -> spec_float := SFdiv prec emax.
(** [x > y] *)
Definition gtb (x y : spec_float) : bool := SFltb y x.
(** Narrowing conversion from [double]. *)
Definition of_double (x : spec_float) : spec_float :=
  match x with
  | S754_finite s m e => binary_normalize prec emax (cond_Zopp s (Zpos m)) e s
  | _ => x
  end.
End F32.

Module F64.
Definition prec : Z := 53.
Definition emax : Z := 1024.
Definition of_int (z : Z) : spec_float := binary_normalize prec emax z 0 false.
Definition sub : spec_float -> spec_float -> spec_float := SFsub prec emax.
(** [x >= y] *)
Definition geb (x y : spec_float) : bool := SFleb y x.
(** Widening conversion from [float]; exact. *)
Definition of_float (x : spec_float) : spec_float :=
  match x with
  | S754_finite s m e => binary_normalize prec emax (cond_Zopp s (Zpos m)) e s
  | _ => x
  end.
End F64.

(** [(int) ceil(log2(x))] for a [double] [x].  [log2] and [ceil] are the
    C library's.  For a positive finite [x = m * 2^e] the value is the
    exact ceiling of the binary logarithm, [e + ceil(log2 m)]: a [log2]
    that is exact on powers of two and faithful elsewhere cannot move the
    ceiling, since a binary32 argument that is not a power of two is at
    least one part in [2^24] away from one.  For zero, negative, infinite
    and NaN arguments [ceil(log2(x))] is infinite or NaN and its
    conversion to [int] is undefined; the model returns [INT_MIN], the
    value the x86-64 conversion instruction yields. *)
Definition ceil_log2 (x : spec_float) : Z :=
  match x with
  | S754_finite false m e => e + Z.log2_up (Zpos m)
  | _ => INT_MIN
  end.

(* ================================================================== *)
(** * Strings and ordered maps keyed by [char] *)

Definition str := list ascii.

Definition lit (s : string) : str := list_ascii_of_string s.

Definition NUL : ascii := Ascii.zero.

Definition char_code (c : ascii) : Z := Z.of_N (N_of_ascii c).

(** Value of a [char] in comparisons. *)
Definition char_val (char_signed : bool) (c : ascii) : Z :=
  if char_signed && (128 <=? char_code c) then char_code c - 256 else char_code c.

Section OrderedMap.
Variable char_signed : bool.
Context {V : Type}.

Definition char_ltb (a b : ascii) : bool :=
  char_val char_signed a <? char_val char_signed b.

(** [m.find(k)] *)
Fixpoint map_find (k : ascii) (m : list (ascii * V)) : option V :=
  match m with
  | [] => None
  | (k', v) :: m' =>
      if char_ltb k k' then None
      else if char_ltb k' k then map_find k m'
      else Some v
  end.

(** [m[k] = v]: assignment through [operator[]], inserting the key at
    its place in key order when it is absent. *)
Fixpoint map_set (k : ascii) (v : V) (m : list (ascii * V)) : list (ascii * V) :=
  match m with
  | [] => [(k, v)]
  | (k', v') :: m' =>
      if char_ltb k k' then (k, v) :: m
      else if char_ltb k' k then (k', v') :: map_set k v m'
      else (k', v) :: m'
  end.

(** Value read through [operator[]]: a value-initialised [V] when the
    key is absent. *)
Definition map_get (dflt : V) (k : ascii) (m : list (ascii * V)) : V :=
  match map_find k m with
  | Some v => v
  | None => dflt
  end.
End OrderedMap.

(* ================================================================== *)
(** * The encoder *)

(** [struct CharCode]. *)
Record CharCode := mkCharCode {
  character : ascii;
  freq : Z;
  code : str
}.

(** ** [decimalToBinary] ([src/mutex.cpp], [src/multiThreading.cpp],
       [src/server.cpp]) *)

(** The second loop: [precision] padding zeros. *)
Fixpoint pad_zeros (precision : nat) (binary : str) : str :=
  match precision with
  | O => binary
  | S p => pad_zeros p (binary ++ lit "0")
  end.

(** The first loop, entered with [precision > 0] iterations left at most;
    it hands over to the padding loop as soon as [decimal > 0] fails. *)
Fixpoint decimalToBinary_loop (precision : nat) (decimal : spec_float) (binary : str) : str :=
  match precision with
  | O => binary
  | S p =>
      if F32.gtb decimal F32.zero then
        let temp := F64.of_float (F32.mul decimal (F32.of_int 2)) in
        if F64.geb temp (F64.of_int 1)
        then decimalToBinary_loop p (F32.of_double (F64.sub temp (F64.of_int 1))) (binary ++ lit "1")
        else decimalToBinary_loop p (F32.of_double temp) (binary ++ lit "0")
      else pad_zeros (S p) binary
  end.

(** [std::string decimalToBinary(float decimal, int precision)].  Both
    loops are guarded by [precision > 0], so a non-positive [precision]
    yields the empty string. *)
Definition decimalToBinary (decimal : spec_float) (precision : Z) : str :=
  decimalToBinary_loop (Z.to_nat precision) decimal [].

(** [float probability = ((float)charCode.freq/lineSize);] *)
Definition probability_of (freq lineSize : Z) : spec_float :=
  F32.div (F32.of_int freq) (F32.of_int lineSize).

(** [int precision = ceil(log2(1/probability));] *)
Definition precision_of (probability : spec_float) : Z :=
  ceil_log2 (F64.of_float (F32.div (F32.of_int 1) probability)).

Section Encoder.
Variable char_signed : bool.

(** [bool compareFreqChar(CharCode a, CharCode b)] *)
Definition compareFreqChar (a b : CharCode) : bool :=
  if negb (freq a =? freq b) then freq a >? freq b
  else char_val char_signed a.(character) >? char_val char_signed b.(character).

(** [++charCountMap[c]] *)
Definition count_incr (c : ascii) (m : list (ascii * Z)) : list (ascii * Z) :=
  map_set char_signed c (wrap_int (map_get char_signed 0 c m + 1)) m.

(** The counting loop over the characters of [s]. *)
Definition charCountMap (s : str) : list (ascii * Z) :=
  fold_left (fun m c => count_incr c m) s [].

(** The loop that pushes one [CharCode] per map entry, in key order;
    [temp.code] is still the empty string. *)
Definition push_entries (m : list (ascii * Z)) (vec : list CharCode) : list CharCode :=
  vec ++ map (fun kv => mkCharCode (fst kv) (snd kv) []) m.

(** [std::sort(..., compareFreqChar)].  The library's algorithm is
    unspecified; the model is insertion sort.  On entries with pairwise
    distinct characters the comparator is a strict total order and every
    sorting algorithm returns the same vector (see
    [sorted_permutation_unique]). *)
Fixpoint sort_insert (x : CharCode) (l : list CharCode) : list CharCode :=
  match l with
  | [] => [x]
  | y :: l' => if compareFreqChar y x then y :: sort_insert x l' else x :: l
  end.

Fixpoint sortCharCodes (l : list CharCode) : list CharCode :=
  match l with
  | [] => []
  | x :: l' => sort_insert x (sortCharCodes l')
  end.

(** The loop over the sorted vector: fills in [code] for each entry,
    records it in [charCodeMap], and advances
    [cumulativeProbability]. *)
Fixpoint assignCodes (lineSize : Z) (vec : list CharCode)
    (cumulativeProbability : spec_float) (charCodeMap : list (ascii * str))
    : list CharCode * list (ascii * str) :=
  match vec with
  | [] => ([], charCodeMap)
  | charCode :: rest =>
      let probability := probability_of (freq charCode) lineSize in
      let precision := precision_of probability in
      let ShannonCode := decimalToBinary cumulativeProbability precision in
      let '(rest', charCodeMap') :=
        assignCodes lineSize rest (F32.add cumulativeProbability probability)
          (map_set char_signed (character charCode) ShannonCode charCodeMap) in
      (mkCharCode (character charCode) (freq charCode) ShannonCode :: rest', charCodeMap')
  end.

(** The final loop: [encodedLine += charCodeMap[line[i]]] for
    [i < lineSize], appended to [acc]. *)
Definition appendCodes (charCodeMap : list (ascii * str)) (visited : str) (acc : str) : str :=
  fold_left (fun out c => out ++ map_get char_signed [] c charCodeMap) visited acc.

(** The same loop with the lookup made explicit: [None] as soon as a
    character has no entry. *)
Fixpoint appendCodes_checked (charCodeMap : list (ascii * str)) (visited : str) (acc : str)
    : option str :=
  match visited with
  | [] => Some acc
  | c :: rest =>
      match map_find char_signed c charCodeMap with
      | Some s => appendCodes_checked charCodeMap rest (acc ++ s)
      | None => None
      end
  end.

End Encoder.

(** Characters visited by [for (int i = 0; i < lineSize; ++i) ... line[i]]
    with [int lineSize = line.length()]. *)
Definition lineSize_of (line : str) : Z := wrap_int (Z.of_nat (length line)).

Definition indexed (line : str) : str := firstn (Z.to_nat (lineSize_of line)) line.

(** ** [src/mutex.cpp] *)
Module Mutex.
Section Compute.
Variable char_signed : bool.

(** What [shannonCode] computes between releasing [mutex1] and acquiring
    [mutex2]: the sorted [charCodeVec] with its codes, the
    [charCodeMap], and [encodedLine]. *)
Definition codeTable (line : str) : list CharCode * list (ascii * str) :=
  let lineSize := lineSize_of line in
  let counts := charCountMap char_signed (indexed line) in
  let charCodeVec := sortCharCodes char_signed (push_entries counts []) in
  assignCodes char_signed lineSize charCodeVec F32.zero [].

Definition charCodeVec (line : str) : list CharCode := fst (codeTable line).

Definition charCodeMap (line : str) : list (ascii * str) := snd (codeTable line).

Definition encodedLine (line : str) : str :=
  appendCodes char_signed (charCodeMap line) (indexed line) [].

(** [encodedLine] with the map lookup checked. *)
Definition encodedLine_checked (line : str) : option str :=
  appendCodes_checked char_signed (charCodeMap line) (indexed line) [].
End Compute.
End Mutex.

(** [struct EncodedMsg] ([src/server.cpp], [src/multiThreading.cpp]). *)
Record EncodedMsg := mkEncodedMsg {
  line : str;
  charCodeVec : list CharCode;
  encodedLine : str
}.

(** Assignments to the two result fields of an [EncodedMsg]. *)
Definition set_charCodeVec (v : list CharCode) (msg : EncodedMsg) : EncodedMsg :=
  {| line := line msg; charCodeVec := v; encodedLine := encodedLine msg |}.

Definition set_encodedLine (s : str) (msg : EncodedMsg) : EncodedMsg :=
  {| line := line msg; charCodeVec := charCodeVec msg; encodedLine := s |}.

Section EncodedMsgSteps.
Variable char_signed : bool.

(** [msg.charCodeVec.push_back(temp)] for every entry of the count map. *)
Definition pushCounts (counts : list (ascii * Z)) (msg : EncodedMsg) : EncodedMsg :=
  fold_left
    (fun m kv => set_charCodeVec (charCodeVec m ++ [mkCharCode (fst kv) (snd kv) []]) m)
    counts msg.

(** [std::sort(msg.charCodeVec.begin(), msg.charCodeVec.end(), compareFreqChar)] *)
Definition sortMsg (msg : EncodedMsg) : EncodedMsg :=
  set_charCodeVec (sortCharCodes char_signed (charCodeVec msg)) msg.

(** The code loop over [msg.charCodeVec], by reference; returns the
    local [charCodeMap] with the message. *)
Definition codeMsg (lineSize : Z) (msg : EncodedMsg) : EncodedMsg * list (ascii * str) :=
  let r := assignCodes char_signed lineSize (charCodeVec msg) F32.zero [] in
  (set_charCodeVec (fst r) msg, snd r).

(** [msg.encodedLine += charCodeMap[msg.line[i]]] for [i < lineSize]. *)
Definition appendMsg (lineSize : Z) (charCodeMap : list (ascii * str)) (msg : EncodedMsg)
    : EncodedMsg :=
  fold_left
    (fun m c => set_encodedLine (encodedLine m ++ map_get char_signed [] c charCodeMap) m)
    (firstn (Z.to_nat lineSize) (line msg)) msg.
End EncodedMsgSteps.

(** ** [src/server.cpp] *)
Module Server.
Section Encode.
Variable char_signed : bool.

(** [void shannonCode(EncodedMsg& msg)]: the counting loop is a
    range-for over all of [msg.line]; the vector and the encoded line
    are extended in place. *)
Definition shannonCode (msg : EncodedMsg) : EncodedMsg :=
  let lineSize := lineSize_of (line msg) in
  let counts := charCountMap char_signed (line msg) in
  let msg := pushCounts counts msg in
  let msg := sortMsg char_signed msg in
  let '(msg, charCodeMap) := codeMsg char_signed lineSize msg in
  appendMsg char_signed lineSize charCodeMap msg.

(** The local [charCodeMap] as it stands when the last loop starts. *)
Definition charCodeMap (msg : EncodedMsg) : list (ascii * str) :=
  snd (codeMsg char_signed (lineSize_of (line msg))
         (sortMsg char_signed (pushCounts (charCountMap char_signed (line msg)) msg))).
End Encode.
End Server.

(** ** [src/multiThreading.cpp] *)
Module MultiThreading.
Section Encode.
Variable char_signed : bool.

(** [void *shannonCode(void *void_ptr)] on the [EncodedMsg] it points
    to: the counting loop runs over [i < lineSize], and [encodedLine] is
    reset before the last loop. *)
Definition shannonCode (msg : EncodedMsg) : EncodedMsg :=
  let lineSize := lineSize_of (line msg) in
  let counts := charCountMap char_signed (indexed (line msg)) in
  let msg := pushCounts counts msg in
  let msg := sortMsg char_signed msg in
  let '(msg, charCodeMap) := codeMsg char_signed lineSize msg in
  let msg := set_encodedLine [] msg in
  appendMsg char_signed lineSize charCodeMap msg.
End Encode.
End MultiThreading.

(* ================================================================== *)
(** * The connection protocol *)

(** The characters of a [std::string] seen through [c_str()] by a
    C-string function: everything before the first NUL. *)
Fixpoint c_str (s : str) : str :=
  match s with
  | [] => []
  | c :: r => if Ascii.eqb c NUL then [] else c :: c_str r
  end.

(** [true] when the buffer holds a NUL, that is, a terminated C string. *)
Definition has_nul (buf : list ascii) : bool := existsb (Ascii.eqb NUL) buf.

(** An uninitialised [char buf[n]]: [n] bytes of arbitrary previous
    content, drawn from [stale]. *)
Definition uninit (n : nat) (stale : list ascii) : list ascii :=
  firstn n (stale ++ repeat NUL n).

(** [strcpy(dst, src)]: writes the characters of [src] and the terminator
    over the start of [dst].  A source that does not fit writes past the
    end of [dst]; that is undefined and modelled as [None]. *)
Definition strcpy (dst : list ascii) (src : str) : option (list ascii) :=
  let s := c_str src ++ [NUL] in
  if (length s <=? length dst)%nat then Some (s ++ skipn (length s) dst) else None.

(** [strncpy(dst, src, n)] with [n <= length dst]: at most [n]
    characters of [src], padded with NULs up to [n]; the rest of [dst] is
    untouched. *)
Definition strncpy (dst : list ascii) (src : str) (n : nat) : list ascii :=
  let s := firstn n (c_str src) in
  s ++ repeat NUL (n - length s) ++ skipn n dst.

(** [buf[i] = c] *)
Fixpoint store (buf : list ascii) (i : nat) (c : ascii) : list ascii :=
  match buf, i with
  | [], _ => []
  | _ :: r, O => c :: r
  | b :: r, S j => b :: store r j c
  end.

(** An [int] as it is written by [write(fd, &x, sizeof(int))]: four bytes,
    least significant first (the byte order of the x86-64 host; both ends
    of the connection use the same one). *)
Definition byte_of (z : Z) : ascii := ascii_of_N (Z.to_N (z mod 256)).

Definition int_bytes (x : Z) : list ascii :=
  let u := x mod 4294967296 in
  [byte_of u; byte_of (u / 256); byte_of (u / 65536); byte_of (u / 16777216)].

(** The [int] read back from four bytes. *)
Definition bytes_int (b : list ascii) : Z :=
  match b with
  | [b0; b1; b2; b3] =>
      wrap_int (char_code b0 + 256 * char_code b1 + 65536 * char_code b2
                + 16777216 * char_code b3)
  | _ => 0
  end.

(** [read(fd, buf, n)] on a stream that still holds at least [n] bytes.
    A shorter stream leaves part of [buf] unwritten; the protocol has no
    provision for it and the model stops with [None]. *)
Definition read_n (n : nat) (stream : list ascii) : option (list ascii * list ascii) :=
  if (n <=? length stream)%nat then Some (firstn n stream, skipn n stream) else None.

Definition BUFFER_SIZE : nat := 32.

(** ** [src/client.cpp] *)
Module Client.

(** The request of [communicateWithServer]:
    [char message[32]; strcpy(message, curr_ptr->line.c_str());] followed
    by [write(sockfd, &message, sizeof(message))].  The result is the
    32 bytes handed to [write], or [None] when [strcpy] overruns
    [message]. *)
Definition request (stale : list ascii) (line : str) : option (list ascii) :=
  strcpy (uninit BUFFER_SIZE stale) line.

(** One iteration of the receiving loop: character, frequency, code
    length, then the code into a zeroed buffer of [codeLength + 1]
    bytes, read back as a C string.  A negative [codeLength] makes the
    allocation fail. *)
Definition recv_entry (stream : list ascii) : option (CharCode * list ascii) :=
  match read_n 1 stream with
  | Some ([c], s1) =>
      match read_n 4 s1 with
      | Some (fb, s2) =>
          match read_n 4 s2 with
          | Some (lb, s3) =>
              let codeLength := bytes_int lb in
              if codeLength <? 0 then None
              else
                match read_n (Z.to_nat codeLength) s3 with
                | Some (cb, s4) =>
                    Some (mkCharCode c (bytes_int fb) (c_str (cb ++ [NUL])), s4)
                | None => None
                end
          | None => None
          end
      | None => None
      end
  | _ => None
  end.

(** [for (int i = 0; i < charCodeVecSize; i++)] *)
Fixpoint recv_entries (n : nat) (stream : list ascii)
    : option (list CharCode * list ascii) :=
  match n with
  | O => Some ([], stream)
  | S n' =>
      match recv_entry stream with
      | Some (cc, s1) =>
          match recv_entries n' s1 with
          | Some (ccs, s2) => Some (cc :: ccs, s2)
          | None => None
          end
      | None => None
      end
  end.

(** The receiving half of [communicateWithServer]: the pair stored in
    [curr_ptr->charCodeVec] and [curr_ptr->encodedLine]. *)
Definition receive (stream : list ascii) : option (list CharCode * str) :=
  match read_n 4 stream with
  | Some (nb, s1) =>
      match recv_entries (Z.to_nat (bytes_int nb)) s1 with
      | Some (vec, s2) =>
          match read_n 4 s2 with
          | Some (eb, s3) =>
              let encodedSize := bytes_int eb in
              if encodedSize <? 0 then None
              else
                match read_n (Z.to_nat encodedSize) s3 with
                | Some (enc, _) => Some (vec, c_str (enc ++ [NUL]))
                | None => None
                end
          | None => None
          end
      | None => None
      end
  | None => None
  end.
End Client.

(** ** [src/src/network/client.cpp] *)
Module NetworkClient.

(** The buffer [sendMessage] hands to [write]:
    [strncpy(buffer, message.c_str(), sizeof(buffer) - 1);
     buffer[sizeof(buffer) - 1] = '\0';] *)
Definition sendMessage_buffer (stale : list ascii) (message : str) : list ascii :=
  store (strncpy (uninit BUFFER_SIZE stale) message (BUFFER_SIZE - 1)) (BUFFER_SIZE - 1) NUL.

(** [void sendMessage(const std::string& message)]: the bytes written, or
    the exception thrown when [write] reports a failure ([write_ok] is
    the environment's answer). *)
Definition sendMessage (write_ok : bool) (stale : list ascii) (message : str)
    : list ascii + string :=
  if write_ok then inl (sendMessage_buffer stale message)
  else inr "Error writing to socket"%string.
End NetworkClient.

(** ** [src/server.cpp]: the child's handling of one connection *)
Module Handler.
Section Handle.
Variable char_signed : bool.

(** [msg.line = message;] after [read(newsockfd, &message, 32)]: the
    C string held in the 32 bytes received.  Without a NUL among them
    the assignment reads past the array. *)
Definition request_line (message : list ascii) : option str :=
  if has_nul message then Some (c_str message) else None.

(** The bytes written for one [CharCode]. *)
Definition entry_bytes (cc : CharCode) : list ascii :=
  let codeLength := wrap_int (Z.of_nat (length (code cc))) in
  [character cc] ++ int_bytes (freq cc) ++ int_bytes codeLength
    ++ firstn (Z.to_nat codeLength) (code cc ++ [NUL]).

(** The bytes written for the encoded line: it is first copied with
    [strcpy] into [char encodedLine[encodedSize + 1]], of which
    [encodedSize] bytes are sent. *)
Definition encoded_bytes (stale : list ascii) (enc : str) : option (list ascii) :=
  let encodedSize := wrap_int (Z.of_nat (length enc)) in
  match strcpy (uninit (Z.to_nat (encodedSize + 1)) stale) enc with
  | Some buf => Some (int_bytes encodedSize ++ firstn (Z.to_nat encodedSize) buf)
  | None => None
  end.

(** The whole response for an encoded message. *)
Definition response (stale : list ascii) (msg : EncodedMsg) : option (list ascii) :=
  match encoded_bytes stale (encodedLine msg) with
  | Some eb =>
      Some (int_bytes (wrap_int (Z.of_nat (length (charCodeVec msg))))
              ++ flat_map entry_bytes (charCodeVec msg) ++ eb)
  | None => None
  end.

(** Request to response: [EncodedMsg msg; msg.line = message;
    shannonCode(msg);] and the writes. *)
Definition handle (stale : list ascii) (message : list ascii) : option (list ascii) :=
  match request_line message with
  | Some l => response stale (Server.shannonCode char_signed (mkEncodedMsg l [] []))
  | None => None
  end.
End Handle.
End Handler.

(** The networked round trip of one line: the client's request, the
    server's handling of it, and the client's parse of the response. *)
Definition round_trip (char_signed : bool) (stale_c stale_s : list ascii) (l : str)
    : option (list CharCode * str) :=
  match Client.request stale_c l with
  | Some req =>
      match Handler.handle char_signed stale_s req with
      | Some resp => Client.receive resp
      | None => None
      end
  | None => None
  end.

(** The encoder run locally on a line: [shannonCode] on a fresh
    [EncodedMsg]. *)
Definition encode (char_signed : bool) (l : str) : EncodedMsg :=
  Server.shannonCode char_signed (mkEncodedMsg l [] []).

(* ================================================================== *)
(** * [decimalToBinary] of the refactored sources *)

(** ** [src/src/sync/mutex.cpp] (the same text is in
       [src/src/threading/multiThreading.cpp] and
       [src/src/network/server.cpp]) *)
Module SyncMutex.

(** [std::string decimalToBinary(float decimal, int precision)]: the
    result, or the message of the [std::invalid_argument] it throws.
    After the guard, the conversion loop and [binary.append(precision,
    '0')] are the two loops of the original. *)
Definition decimalToBinary (decimal : spec_float) (precision : Z) : str + string :=
  if precision <? 0 then inr "Precision cannot be negative"%string
  else inl (decimalToBinary_loop (Z.to_nat precision) decimal []).
End SyncMutex.

(* ================================================================== *)
(** * The ordering coordinator of [src/mutex.cpp] *)

Module Coordinator.

(** One output statement of the printing block of [shannonCode]. *)
Inductive printed :=
| PMessage (l : str)                 (* "Message: " << line << endl *)
| PBlank                             (* cout << endl *)
| PAlphabet                          (* "Alphabet:" << endl *)
| PSymbol (cc : CharCode)            (* "Symbol: " ... ", Shannon code: " ... *)
| PEncoded (e : str).                (* "Encoded message: " << encodedLine << endl *)

(** Program points of a worker thread running [shannonCode]. *)
Inductive pc :=
| CopyLine      (* std::string line = data->line; *)
| CopyId        (* int localID = data->id; *)
| Unlock1       (* pthread_mutex_unlock(data->mutex1); *)
| Encode        (* the encoding of [line] *)
| Lock2a        (* pthread_mutex_lock(data->mutex2); *)
| Check         (* while (localID != *(data->counter)) *)
| Waiting       (* asleep inside pthread_cond_wait, mutex2 released *)
| Woken         (* inside pthread_cond_wait, re-acquiring mutex2 *)
| Unlock2a      (* pthread_mutex_unlock(data->mutex2); *)
| Print (rest : list printed)   (* the output statements still to run *)
| Lock2b        (* pthread_mutex_lock(data->mutex2); *)
| Incr          (* ++ on the int data->counter points to *)
| Broadcast     (* pthread_cond_broadcast(data->condition); *)
| Unlock2b      (* pthread_mutex_unlock(data->mutex2); *)
| Done.         (* return nullptr; *)

(** A worker with its private copies. *)
Record thread := mkThread {
  t_pc : pc;
  t_line : str;        (* line *)
  t_localID : Z        (* localID *)
}.

(** Program points of [main]. *)
Inductive mpc :=
| MLoop (i : nat)      (* loop test and pthread_mutex_lock(&mutex1) *)
| MSetLine (i : nat)   (* sharedData.line = inputLines[i]; *)
| MSetId (i : nat)     (* sharedData.id = i; *)
| MCreate (i : nat)    (* pthread_create(&tid, nullptr, shannonCode, &sharedData) *)
| MJoin (i : nat)      (* pthread_join(threadVector[i], nullptr) *)
| MExit.               (* return 0; *)

(** The shared memory and every thread's state. *)
Record state := mkState {
  sd_line : str;                  (* sharedData.line *)
  sd_id : Z;                      (* sharedData.id *)
  mutex1 : bool;                  (* locked? *)
  mutex2 : bool;                  (* locked? *)
  counter : Z;
  main_pc : mpc;
  threads : list thread;          (* threadVector, in creation order *)
  out : list (Z * printed)        (* what reached the console, tagged
                                     with the printing thread's localID *)
}.

(** Replace the [k]-th thread. *)
Fixpoint set_thread (k : nat) (t : thread) (ts : list thread) : list thread :=
  match ts, k with
  | [], _ => []
  | _ :: r, O => t :: r
  | x :: r, S j => x :: set_thread j t r
  end.

(** [pthread_cond_broadcast]: every sleeper leaves its sleep. *)
Definition wake (t : thread) : thread :=
  match t_pc t with
  | Waiting => mkThread Woken (t_line t) (t_localID t)
  | _ => t
  end.

Definition at_pc (p : pc) (t : thread) : thread := mkThread p (t_line t) (t_localID t).

Section Run.
Variable char_signed : bool.
Variable inputLines : list str.

(** The output statements of one thread, in program order. *)
Definition display (l : str) : list printed :=
  [PMessage l; PBlank; PAlphabet]
    ++ map PSymbol (Mutex.charCodeVec char_signed l)
    ++ [PBlank; PEncoded (Mutex.encodedLine char_signed l); PBlank].

Definition threadSize : nat := length inputLines.

Definition init : state :=
  mkState [] 0 false false 0 (MLoop 0) [] [].

(** Steps of [main]. *)
Inductive main_step : state -> state -> Prop :=
| StepLock1 s i :
    main_pc s = MLoop i -> (i < threadSize)%nat -> mutex1 s = false ->
    main_step s (mkState (sd_line s) (sd_id s) true (mutex2 s) (counter s)
                   (MSetLine i) (threads s) (out s))
| StepLoopEnd s i :
    main_pc s = MLoop i -> (threadSize <= i)%nat ->
    main_step s (mkState (sd_line s) (sd_id s) (mutex1 s) (mutex2 s) (counter s)
                   (MJoin 0) (threads s) (out s))
| StepSetLine s i :
    main_pc s = MSetLine i ->
    main_step s (mkState (nth i inputLines []) (sd_id s) (mutex1 s) (mutex2 s) (counter s)
                   (MSetId i) (threads s) (out s))
| StepSetId s i :
    main_pc s = MSetId i ->
    main_step s (mkState (sd_line s) (Z.of_nat i) (mutex1 s) (mutex2 s) (counter s)
                   (MCreate i) (threads s) (out s))
| StepCreate s i :
    main_pc s = MCreate i ->
    main_step s (mkState (sd_line s) (sd_id s) (mutex1 s) (mutex2 s) (counter s)
                   (MLoop (S i)) (threads s ++ [mkThread CopyLine [] 0]) (out s))
| StepJoin s i t :
    main_pc s = MJoin i -> (i < threadSize)%nat ->
    nth_error (threads s) i = Some t -> t_pc t = Done ->
    main_step s (mkState (sd_line s) (sd_id s) (mutex1 s) (mutex2 s) (counter s)
                   (MJoin (S i)) (threads s) (out s))
| StepJoinEnd s i :
    main_pc s = MJoin i -> (threadSize <= i)%nat ->
    main_step s (mkState (sd_line s) (sd_id s) (mutex1 s) (mutex2 s) (counter s)
                   MExit (threads s) (out s)).

(** Steps of the [k]-th worker, [t] being its current state. *)
Inductive thread_step (k : nat) (t : thread) : state -> state -> Prop :=
| StepCopyLine s :
    t_pc t = CopyLine ->
    thread_step k t s
      (mkState (sd_line s) (sd_id s) (mutex1 s) (mutex2 s) (counter s) (main_pc s)
         (set_thread k (mkThread CopyId (sd_line s) (t_localID t)) (threads s)) (out s))
| StepCopyId s :
    t_pc t = CopyId ->
    thread_step k t s
      (mkState (sd_line s) (sd_id s) (mutex1 s) (mutex2 s) (counter s) (main_pc s)
         (set_thread k (mkThread Unlock1 (t_line t) (sd_id s)) (threads s)) (out s))
| StepUnlock1 s :
    t_pc t = Unlock1 ->
    thread_step k t s
      (mkState (sd_line s) (sd_id s) false (mutex2 s) (counter s) (main_pc s)
         (set_thread k (at_pc Encode t) (threads s)) (out s))
| StepEncode s :
    t_pc t = Encode ->
    thread_step k t s
      (mkState (sd_line s) (sd_id s) (mutex1 s) (mutex2 s) (counter s) (main_pc s)
         (set_thread k (at_pc Lock2a t) (threads s)) (out s))
| StepLock2a s :
    t_pc t = Lock2a -> mutex2 s = false ->
    thread_step k t s
      (mkState (sd_line s) (sd_id s) (mutex1 s) true (counter s) (main_pc s)
         (set_thread k (at_pc Check t) (threads s)) (out s))
| StepCheckWait s :
    t_pc t = Check -> t_localID t <> counter s ->
    thread_step k t s
      (mkState (sd_line s) (sd_id s) (mutex1 s) false (counter s) (main_pc s)
         (set_thread k (at_pc Waiting t) (threads s)) (out s))
| StepCheckPass s :
    t_pc t = Check -> t_localID t = counter s ->
    thread_step k t s
      (mkState (sd_line s) (sd_id s) (mutex1 s) (mutex2 s) (counter s) (main_pc s)
         (set_thread k (at_pc Unlock2a t) (threads s)) (out s))
| StepReacquire s :
    t_pc t = Woken -> mutex2 s = false ->
    thread_step k t s
      (mkState (sd_line s) (sd_id s) (mutex1 s) true (counter s) (main_pc s)
         (set_thread k (at_pc Check t) (threads s)) (out s))
| StepUnlock2a s :
    t_pc t = Unlock2a ->
    thread_step k t s
      (mkState (sd_line s) (sd_id s) (mutex1 s) false (counter s) (main_pc s)
         (set_thread k (at_pc (Print (display (t_line t))) t) (threads s)) (out s))
| StepPrint s x rest :
    t_pc t = Print (x :: rest) ->
    thread_step k t s
      (mkState (sd_line s) (sd_id s) (mutex1 s) (mutex2 s) (counter s) (main_pc s)
         (set_thread k (at_pc (Print rest) t) (threads s))
         (out s ++ [(t_localID t, x)]))
| StepPrintEnd s :
    t_pc t = Print [] ->
    thread_step k t s
      (mkState (sd_line s) (sd_id s) (mutex1 s) (mutex2 s) (counter s) (main_pc s)
         (set_thread k (at_pc Lock2b t) (threads s)) (out s))
| StepLock2b s :
    t_pc t = Lock2b -> mutex2 s = false ->
    thread_step k t s
      (mkState (sd_line s) (sd_id s) (mutex1 s) true (counter s) (main_pc s)
         (set_thread k (at_pc Incr t) (threads s)) (out s))
| StepIncr s :
    t_pc t = Incr ->
    thread_step k t s
      (mkState (sd_line s) (sd_id s) (mutex1 s) (mutex2 s) (wrap_int (counter s + 1))
         (main_pc s) (set_thread k (at_pc Broadcast t) (threads s)) (out s))
| StepBroadcast s :
    t_pc t = Broadcast ->
    thread_step k t s
      (mkState (sd_line s) (sd_id s) (mutex1 s) (mutex2 s) (counter s) (main_pc s)
         (set_thread k (at_pc Unlock2b t) (map wake (threads s))) (out s))
| StepUnlock2b s :
    t_pc t = Unlock2b ->
    thread_step k t s
      (mkState (sd_line s) (sd_id s) (mutex1 s) false (counter s) (main_pc s)
         (set_thread k (at_pc Done t) (threads s)) (out s)).

(** One step of the program text: [main] or any created worker moves;
    the scheduler is free to pick any enabled one. *)
Inductive program_step : state -> state -> Prop :=
| StepMain s s' : main_step s s' -> program_step s s'
| StepThread s s' k t :
    nth_error (threads s) k = Some t -> thread_step k t s s' -> program_step s s'.

(** [pthread_cond_wait] may also return without any broadcast. *)
Inductive spurious_wakeup : state -> state -> Prop :=
| SpuriousWake s k t :
    nth_error (threads s) k = Some t -> t_pc t = Waiting ->
    spurious_wakeup s
      (mkState (sd_line s) (sd_id s) (mutex1 s) (mutex2 s) (counter s) (main_pc s)
         (set_thread k (at_pc Woken t) (threads s)) (out s)).

(** One step of a run. *)
Inductive step : state -> state -> Prop :=
| StepProgram s s' : program_step s s' -> step s s'
| StepSpurious s s' : spurious_wakeup s s' -> step s s'.

(** States of the runs from [init]. *)
Inductive reachable : state -> Prop :=
| ReachInit : reachable init
| ReachStep s s' : reachable s -> step s s' -> reachable s'.

(** The line indices seen at the console: the tag of every
    ["Message: "] statement, the first one of each printing block. *)
Fixpoint emitted (o : list (Z * printed)) : list Z :=
  match o with
  | [] => []
  | (i, PMessage _) :: r => i :: emitted r
  | _ :: r => emitted r
  end.

(** The console contents when the blocks of lines [0 .. n-1] have been
    printed one after the other. *)
Definition blocks (n : nat) : list (Z * printed) :=
  flat_map (fun i => map (pair (Z.of_nat i)) (display (nth i inputLines []))) (seq 0 n).

(** A deterministic scheduler used to run the model: the first enabled
    worker in preference order [prefer], else [main]. *)
Definition run_thread (k : nat) (t : thread) (s : state) : option state :=
  let upd m1 m2 c ts o :=
    Some (mkState (sd_line s) (sd_id s) m1 m2 c (main_pc s) ts o) in
  let go p := set_thread k (at_pc p t) (threads s) in
  match t_pc t with
  | CopyLine => upd (mutex1 s) (mutex2 s) (counter s)
                  (set_thread k (mkThread CopyId (sd_line s) (t_localID t)) (threads s)) (out s)
  | CopyId => upd (mutex1 s) (mutex2 s) (counter s)
                  (set_thread k (mkThread Unlock1 (t_line t) (sd_id s)) (threads s)) (out s)
  | Unlock1 => upd false (mutex2 s) (counter s) (go Encode) (out s)
  | Encode => upd (mutex1 s) (mutex2 s) (counter s) (go Lock2a) (out s)
  | Lock2a => if mutex2 s then None
              else upd (mutex1 s) true (counter s) (go Check) (out s)
  | Check => if t_localID t =? counter s
             then upd (mutex1 s) (mutex2 s) (counter s) (go Unlock2a) (out s)
             else upd (mutex1 s) false (counter s) (go Waiting) (out s)
  | Waiting => None
  | Woken => if mutex2 s then None
             else upd (mutex1 s) true (counter s) (go Check) (out s)
  | Unlock2a => upd (mutex1 s) false (counter s) (go (Print (display (t_line t)))) (out s)
  | Print (x :: rest) => upd (mutex1 s) (mutex2 s) (counter s) (go (Print rest))
                           (out s ++ [(t_localID t, x)])
  | Print [] => upd (mutex1 s) (mutex2 s) (counter s) (go Lock2b) (out s)
  | Lock2b => if mutex2 s then None
              else upd (mutex1 s) true (counter s) (go Incr) (out s)
  | Incr => upd (mutex1 s) (mutex2 s) (wrap_int (counter s + 1)) (go Broadcast) (out s)
  | Broadcast => upd (mutex1 s) (mutex2 s) (counter s)
                   (set_thread k (at_pc Unlock2b t) (map wake (threads s))) (out s)
  | Unlock2b => upd (mutex1 s) false (counter s) (go Done) (out s)
  | Done => None
  end.

Definition run_main (s : state) : option state :=
  let upd l i m1 p ts :=
    Some (mkState l i m1 (mutex2 s) (counter s) p ts (out s)) in
  match main_pc s with
  | MLoop i =>
      if (i <? threadSize)%nat
      then if mutex1 s then None
           else upd (sd_line s) (sd_id s) true (MSetLine i) (threads s)
      else upd (sd_line s) (sd_id s) (mutex1 s) (MJoin 0) (threads s)
  | MSetLine i => upd (nth i inputLines []) (sd_id s) (mutex1 s) (MSetId i) (threads s)
  | MSetId i => upd (sd_line s) (Z.of_nat i) (mutex1 s) (MCreate i) (threads s)
  | MCreate i => upd (sd_line s) (sd_id s) (mutex1 s) (MLoop (S i))
                   (threads s ++ [mkThread CopyLine [] 0])
  | MJoin i =>
      if (i <? threadSize)%nat
      then match nth_error (threads s) i with
           | Some t => match t_pc t with
                       | Done => upd (sd_line s) (sd_id s) (mutex1 s) (MJoin (S i)) (threads s)
                       | _ => None
                       end
           | None => None
           end
      else upd (sd_line s) (sd_id s) (mutex1 s) MExit (threads s)
  | MExit => None
  end.

(** The first move available, workers tried in the order [prefer] before
    [main]. *)
Fixpoint first_enabled (prefer : list nat) (s : state) : option state :=
  match prefer with
  | [] => run_main s
  | k :: r =>
      match nth_error (threads s) k with
      | Some t =>
          match run_thread k t s with
          | Some s' => Some s'
          | None => first_enabled r s
          end
      | None => first_enabled r s
      end
  end.

(** At most [fuel] moves of that scheduler. *)
Fixpoint run (fuel : nat) (prefer : list nat) (s : state) : state :=
  match fuel with
  | O => s
  | S f =>
      match first_enabled prefer s with
      | Some s' => run f prefer s'
      | None => s
      end
  end.
End Run.
End Coordinator.

(* ================================================================== *)
(** * Vocabulary of the statements *)

(** Occurrences of [c] in [s]. *)
Definition occ (c : ascii) (s : str) : Z := Z.of_nat (count_occ ascii_dec s c).

(** Keys in strictly ascending order. *)
Definition keys_sorted (cs : bool) {V : Type} (m : list (ascii * V)) : Prop :=
  StronglySorted (fun a b => char_ltb cs a b = true) (map fst m).

(** The comparator spelled out: higher frequency first, and among equal
    frequencies the greater character first. *)
Definition freq_char_desc (cs : bool) (a b : CharCode) : Prop :=
  freq a > freq b \/
  (freq a = freq b /\ char_val cs (character a) > char_val cs (character b)).

(** A vector in comparator order. *)
Definition sorted_desc (cs : bool) (l : list CharCode) : Prop :=
  StronglySorted (fun a b => compareFreqChar cs a b = true) l.

(** A binary digit. *)
Definition is_bit (c : ascii) : Prop := c = "0"%char \/ c = "1"%char.

(** What the code loop leaves in each entry: the character and the
    frequency are kept, and the code is the binary expansion of the
    cumulative probability reached before the entry. *)
Inductive coded (lineSize : Z) : spec_float -> list CharCode -> list CharCode -> Prop :=
| coded_nil cum : coded lineSize cum [] []
| coded_cons cum e rest rest' :
    coded lineSize (F32.add cum (probability_of (freq e) lineSize)) rest rest' ->
    coded lineSize cum (e :: rest)
      (mkCharCode (character e) (freq e)
         (decimalToBinary cum (precision_of (probability_of (freq e) lineSize))) :: rest').

(** [code a] is a prefix of [code b]. *)
Definition is_prefix (a b : str) : Prop := exists t, b = a ++ t.

(** The integers [lo, lo + 1, ..., lo + n - 1]. *)
Definition zrange (lo : Z) (n : nat) : list Z := map (fun i => lo + Z.of_nat i) (seq 0 n).

(** Every frequency [f] and line size [n] with [1 <= f <= n <= bound]
    yields a precision between [0] and [hi]. *)
Definition precisions_within (bound : nat) (hi : Z) : bool :=
  forallb (fun n =>
    forallb (fun f =>
      let p := precision_of (probability_of f n) in (0 <=? p) && (p <=? hi))
      (zrange 1 (Z.to_nat n)))
    (zrange 1 bound).

(** [a] is a prefix of [b], decided. *)
Fixpoint prefixb (a b : str) : bool :=
  match a, b with
  | [], _ => true
  | x :: a', y :: b' => Ascii.eqb x y && prefixb a' b'
  | _ :: _, [] => false
  end.

(** Some entry's code is a prefix of the code of a later entry with
    another character. *)
Fixpoint clashb (vec : list CharCode) : bool :=
  match vec with
  | [] => false
  | x :: rest =>
      existsb (fun y => negb (Ascii.eqb (character x) (character y))
                        && prefixb (code x) (code y)) rest
      || clashb rest
  end.

(** The 95 printable ASCII characters, and those other than [a]. *)
Definition printable : str := map (fun i => ascii_of_nat (32 + i)) (seq 0 95).

Definition printable_but_a : str :=
  filter (fun c => negb (Ascii.eqb c "a"%char)) printable.

(* ================================================================== *)
(** * Invariant of the coordinator *)

Module CoordinatorInv.
Import Coordinator.

(** Phases of a worker. *)
Definition copying (p : pc) : bool :=
  match p with CopyLine | CopyId | Unlock1 => true | _ => false end.

(** Between passing the test of the [while] and incrementing the
    counter. *)
Definition turn (p : pc) : bool :=
  match p with Unlock2a | Print _ | Lock2b | Incr => true | _ => false end.

(** Program points at which the worker holds [mutex2]. *)
Definition holds2 (p : pc) : bool :=
  match p with Check | Unlock2a | Incr | Broadcast | Unlock2b => true | _ => false end.

(** Program points of [main] between locking [mutex1] and the creation
    of the thread. *)
Definition setting (p : mpc) : bool :=
  match p with MSetLine _ | MSetId _ | MCreate _ => true | _ => false end.

(** [mutex2] is locked exactly when some worker is at a program point
    where it holds it, and at most one worker is. *)
Definition m2_ok (m2 : bool) (ts : list thread) : Prop :=
  (m2 = true -> exists k t, nth_error ts k = Some t /\ holds2 (t_pc t) = true)
  /\ (forall k t, nth_error ts k = Some t -> holds2 (t_pc t) = true -> m2 = true)
  /\ (forall j k tj tk,
        nth_error ts j = Some tj -> nth_error ts k = Some tk ->
        holds2 (t_pc tj) = true -> holds2 (t_pc tk) = true -> j = k).

(** Output statements other than the first one of a block. *)
Definition not_message (p : printed) : Prop :=
  match p with PMessage _ => False | _ => True end.

(** A worker that has no move: asleep, finished, or in front of a locked
    [mutex2]. *)
Definition blockedb (s : state) (t : thread) : bool :=
  match t_pc t with
  | Waiting | Done => true
  | Lock2a | Woken | Lock2b => mutex2 s
  | _ => false
  end.

Section Inv.
Variable cs : bool.
Variable inputLines : list str.

Definition line_of (k : nat) : str := nth k inputLines [].

(** The worker's private copies are those of its own line. *)
Definition own (t : thread) (k : nat) : Prop :=
  t_line t = line_of k /\ t_localID t = Z.of_nat k.

(** The staging record is reserved for worker [k]: [mutex1] is locked,
    [k] is the last thread created, and [main] is not writing. *)
Definition handoff (s : state) (k : nat) : Prop :=
  mutex1 s = true /\ length (threads s) = S k /\ setting (main_pc s) = false.

(** Some worker is about to broadcast. *)
Definition broadcasting (s : state) : Prop :=
  exists j tj, nth_error (threads s) j = Some tj /\ t_pc tj = Broadcast.

(** What holds of the [k]-th worker at each of its program points. *)
Definition tinv (s : state) (k : nat) (t : thread) : Prop :=
  match t_pc t with
  | CopyLine =>
      sd_line s = line_of k /\ sd_id s = Z.of_nat k /\ handoff s k
      /\ counter s <= Z.of_nat k
  | CopyId =>
      t_line t = line_of k /\ sd_id s = Z.of_nat k /\ handoff s k
      /\ counter s <= Z.of_nat k
  | Unlock1 => own t k /\ handoff s k /\ counter s <= Z.of_nat k
  | Encode | Lock2a | Check | Woken => own t k /\ counter s <= Z.of_nat k
  | Waiting =>
      own t k /\ counter s <= Z.of_nat k
      /\ (counter s = Z.of_nat k -> broadcasting s)
  | Unlock2a => own t k /\ counter s = Z.of_nat k /\ out s = blocks cs inputLines k
  | Print rest =>
      own t k /\ counter s = Z.of_nat k
      /\ exists done, display cs (line_of k) = done ++ rest
                      /\ out s = blocks cs inputLines k ++ map (pair (Z.of_nat k)) done
  | Lock2b | Incr =>
      own t k /\ counter s = Z.of_nat k /\ out s = blocks cs inputLines (S k)
  | Broadcast | Unlock2b | Done => own t k /\ Z.of_nat k < counter s
  end.

(** What holds at each program point of [main]. *)
Definition main_inv (s : state) : Prop :=
  let n := length (threads s) in
  let N := threadSize inputLines in
  match main_pc s with
  | MLoop i => n = i /\ (i <= N)%nat
  | MSetLine i => n = i /\ (i < N)%nat /\ mutex1 s = true
  | MSetId i => n = i /\ (i < N)%nat /\ mutex1 s = true /\ sd_line s = line_of i
  | MCreate i =>
      n = i /\ (i < N)%nat /\ mutex1 s = true /\ sd_line s = line_of i
      /\ sd_id s = Z.of_nat i
  | MJoin j =>
      n = N /\ forall k t, (k < j)%nat -> nth_error (threads s) k = Some t -> t_pc t = Done
  | MExit => n = N /\ forall k t, nth_error (threads s) k = Some t -> t_pc t = Done
  end.

Record inv (s : state) : Prop := mkInv {
  inv_threads : forall k t, nth_error (threads s) k = Some t -> tinv s k t;
  inv_counter : 0 <= counter s <= Z.of_nat (length (threads s));
  inv_main : main_inv s;
  inv_out :
    (forall k t, nth_error (threads s) k = Some t -> turn (t_pc t) = false) ->
    out s = blocks cs inputLines (Z.to_nat (counter s));
  inv_m1 :
    mutex1 s = true ->
    setting (main_pc s) = true
    \/ exists k t, nth_error (threads s) k = Some t /\ copying (t_pc t) = true;
  inv_m2 : m2_ok (mutex2 s) (threads s)
}.

(** ** A measure of the work left *)

(** Workers that have not yet broadcast. *)
Definition before_broadcast (t : thread) : bool :=
  match t_pc t with Unlock2b | Done => false | _ => true end.

(** Broadcasts still to come: one for every worker not yet created and
    one for every worker that has not reached its own. *)
Definition broadcasts_left (s : state) : nat :=
  ((threadSize inputLines - length (threads s))
   + length (filter before_broadcast (threads s)))%nat.

(** Steps the [k]-th worker can still take when [B] broadcasts are to
    come: every broadcast may send it once more around the loop of
    [pthread_cond_wait]. *)
Definition thread_rank (B k : nat) (t : thread) : nat :=
  let D := length (display cs (line_of k)) in
  let N := threadSize inputLines in
  (match t_pc t with
   | Done => 0
   | Unlock2b => 1
   | Broadcast => 2
   | Incr => 3
   | Lock2b => 4
   | Print rest => 5 + length rest
   | Unlock2a => 6 + D
   | Waiting => 7 + D + 3 * B
   | Check => 8 + D + 3 * B
   | Woken => 9 + D + 3 * B
   | Lock2a => 10 + D + 3 * N
   | Encode => 11 + D + 3 * N
   | Unlock1 => 12 + D + 3 * N
   | CopyId => 13 + D + 3 * N
   | CopyLine => 14 + D + 3 * N
   end)%nat.

(** The ranks of the workers [k], [k + 1], ... *)
Fixpoint ranks (B k : nat) (ts : list thread) : nat :=
  match ts with
  | [] => 0
  | t :: r => (thread_rank B k t + ranks B (S k) r)%nat
  end.

(** The steps of the workers [i], ..., [N - 1] still to be created, and
    of [main] for creating them. *)
Definition future (i : nat) : nat :=
  list_sum
    (map (fun k => (20 + length (display cs (line_of k)) + 3 * threadSize inputLines)%nat)
       (seq i (threadSize inputLines - i)%nat)).

Definition main_rank (p : mpc) : nat :=
  let N := threadSize inputLines in
  (match p with
   | MExit => 0
   | MJoin i => 1 + (N - i)
   | MLoop i => N + 5 + future i
   | MSetLine i => N + 4 + future i
   | MSetId i => N + 3 + future i
   | MCreate i => N + 2 + future i
   end)%nat.

Definition measure (s : state) : nat :=
  (main_rank (main_pc s) + ranks (broadcasts_left s) 0 (threads s))%nat.

(** [n] steps of the program text in a row. *)
Inductive program_steps : nat -> state -> state -> Prop :=
| StepsDone s : program_steps 0 s s
| StepsMore n s s' s'' :
    program_step cs inputLines s s' -> program_steps n s' s'' ->
    program_steps (S n) s s''.
End Inv.
End CoordinatorInv.

(* ================================================================== *)
(** * Vocabulary of the floating-point facts *)

(** A shift record stands for a value between [shr_m] and [shr_hi],
    strictly above [shr_m] exactly when a non-zero bit was shifted out. *)
Definition shr_inexact (x : shr_record) : bool := shr_r x || shr_s x.

Definition shr_hi (x : shr_record) : Z := shr_m x + (if shr_inexact x then 1 else 0).

(** [n] one-bit right shifts. *)
Fixpoint shr_n (n : nat) (x : shr_record) : shr_record :=
  match n with
  | O => x
  | S n' => shr_1 (shr_n n' x)
  end.

(** The mantissa of a normal binary32 number. *)
Definition canonical32 (m : positive) : Prop := 2 ^ 23 <= Zpos m < 2 ^ 24.

(** The specification's [ceil(log2(1/probability))] with
    [probability = freq / lineSize], as an exact quantity: the binary
    logarithm, rounded up, of the quotient [lineSize / freq] rounded
    up. *)
Definition shannon_length (freq lineSize : Z) : Z :=
  Z.log2_up ((lineSize + freq - 1) / freq).

(* ================================================================== *)
(** * Vocabulary of the further properties *)

(** The sum of a list of integers. *)
Definition zsum (l : list Z) : Z := fold_right Z.add 0 l.

(** The code the map holds for a character; the empty string when the
    character has no entry. *)
Definition code_of (cs : bool) (l : str) (c : ascii) : str :=
  map_get cs [] c (Mutex.charCodeMap cs l).


(** ** [src/src/network/server.cpp]: the writes of [handleClient] *)
Module NetworkServer.

(** What [handleClient] writes for a message that [shannonCode] has
    filled in: the number of entries, every entry as the original server
    frames it, the size of the encoded line and that many bytes from
    [msg.encodedLine.c_str()]; there is no intermediate buffer. *)
Definition response (msg : EncodedMsg) : list ascii :=
  let encodedSize := wrap_int (Z.of_nat (length (encodedLine msg))) in
  int_bytes (wrap_int (Z.of_nat (length (charCodeVec msg))))
    ++ flat_map Handler.entry_bytes (charCodeVec msg)
    ++ int_bytes encodedSize
    ++ firstn (Z.to_nat encodedSize) (encodedLine msg ++ [NUL]).
End NetworkServer.

(* ================================================================== *)
(** * The programs that print after joining their threads *)

(** [v[i] = x] on a vector; nothing changes out of range. *)
Fixpoint set_nth {A : Type} (i : nat) (x : A) (v : list A) {struct v} : list A :=
  match v, i with
  | [], _ => []
  | _ :: r, O => x :: r
  | y :: r, S j => y :: set_nth j x r
  end.

(** ** [src/multiThreading.cpp]: [main] *)
Module MultiThreadingMain.
Import Coordinator.

(** [while (std::getline(std::cin, input.line)) threadData.push_back(input);]
    where the other two fields of [input] stay empty. *)
Definition threadData (inputLines : list str) : list EncodedMsg :=
  map (fun l => mkEncodedMsg l [] []) inputLines.

Section Main.
Variable char_signed : bool.

(** The effect of the thread created with [&threadData[i]]. *)
Definition run_thread (i : nat) (td : list EncodedMsg) : list EncodedMsg :=
  match nth_error td i with
  | Some msg => set_nth i (MultiThreading.shannonCode char_signed msg) td
  | None => td
  end.

(** The threads between [pthread_create] and [pthread_join].  Each one
    reads and writes only the element it was given, so a run is
    described by the order in which the threads take effect. *)
Definition run_threads (order : list nat) (td : list EncodedMsg) : list EncodedMsg :=
  fold_left (fun td i => run_thread i td) order td.

(** The output statements for [currData]. *)
Definition display_msg (currData : EncodedMsg) : list printed :=
  [PMessage (line currData); PBlank; PAlphabet]
    ++ map PSymbol (charCodeVec currData)
    ++ [PBlank; PEncoded (encodedLine currData); PBlank].

(** The printing loop, from index [i] on; every statement is tagged with
    the index of its element. *)
Fixpoint print_from (i : nat) (td : list EncodedMsg) : list (Z * printed) :=
  match td with
  | [] => []
  | currData :: r => map (pair (Z.of_nat i)) (display_msg currData) ++ print_from (S i) r
  end.

(** What [main] has printed when it returns. *)
Definition main (inputLines : list str) (order : list nat) : list (Z * printed) :=
  print_from 0 (run_threads order (threadData inputLines)).
End Main.
End MultiThreadingMain.

(** ** [src/client.cpp]: [main] *)
Module ClientMain.
Import Coordinator.

(** [struct ThreadData] *)
Record ThreadData := mkThreadData {
  portno : Z;
  hostname : str;
  line : str;
  encodedLine : str;
  charCodeVec : list CharCode
}.

(** [input.hostname = argv[1]; input.portno = atoi(argv[2]);] and the
    [getline] loop pushing copies of [input]. *)
Definition threadData (host : str) (port : Z) (inputLines : list str) : list ThreadData :=
  map (fun l => mkThreadData port host l [] []) inputLines.

Section Main.
Variable char_signed : bool.
(** What the buffers of the [i]-th connection held before, on the client
    and in the server's child. *)
Variable stale_c stale_s : nat -> list ascii.

(** [communicateWithServer] against a server running [src/server.cpp]:
    the two fields it stores, or [None] when the exchange leaves the
    defined behaviour. *)
Definition communicateWithServer (i : nat) (curr : ThreadData) : option ThreadData :=
  match round_trip char_signed (stale_c i) (stale_s i) (line curr) with
  | Some (vec, enc) => Some (mkThreadData (portno curr) (hostname curr) (line curr) enc vec)
  | None => None
  end.

Definition run_thread (i : nat) (td : list ThreadData) : option (list ThreadData) :=
  match nth_error td i with
  | Some curr =>
      match communicateWithServer i curr with
      | Some curr' => Some (set_nth i curr' td)
      | None => None
      end
  | None => Some td
  end.

(** The threads, taking effect in the given order. *)
Fixpoint run_threads (order : list nat) (td : list ThreadData) : option (list ThreadData) :=
  match order with
  | [] => Some td
  | i :: r =>
      match run_thread i td with
      | Some td' => run_threads r td'
      | None => None
      end
  end.

Definition display_data (currData : ThreadData) : list printed :=
  [PMessage (line currData); PBlank; PAlphabet]
    ++ map PSymbol (charCodeVec currData)
    ++ [PBlank; PEncoded (encodedLine currData); PBlank].

Fixpoint print_from (i : nat) (td : list ThreadData) : list (Z * printed) :=
  match td with
  | [] => []
  | currData :: r => map (pair (Z.of_nat i)) (display_data currData) ++ print_from (S i) r
  end.

Definition main (host : str) (port : Z) (inputLines : list str) (order : list nat)
    : option (list (Z * printed)) :=
  match run_threads order (threadData host port inputLines) with
  | Some td => Some (print_from 0 td)
  | None => None
  end.
End Main.
End ClientMain.

(* ================================================================== *)
(** * Binary expansions *)

(** The [p] low binary digits of [k], most significant first. *)
Fixpoint binary_digits (p : nat) (k : Z) : str :=
  match p with
  | O => []
  | S q => (if Z.testbit k (Z.of_nat q) then "1"%char else "0"%char) :: binary_digits q k
  end.

(** [floor (x * 2^p)] for a non-negative finite [x = m * 2^e]. *)
Definition scaled_floor (x : spec_float) (p : Z) : Z :=
  match x with
  | S754_finite false m e => Z.shiftl (Zpos m) (e + p)
  | _ => 0
  end.

(** The number a string of binary digits denotes. *)
Definition binary_value (s : str) : Z :=
  fold_left (fun v c => 2 * v + (if Ascii.eqb c "1"%char then 1 else 0)) s 0.

(** The value of a non-negative binary32 number in units of [2^-47]:
    an integer for every number whose exponent is at least [-47]. *)
Definition val47 (x : spec_float) : Z :=
  match x with
  | S754_finite false m e => Zpos m * 2 ^ (e + 47)
  | _ => 0
  end.

(** [ceil (f * 2^24 / n)]: the probability [f / n] in units of [2^-24],
    rounded up. *)
Definition ceil24 (f n : Z) : Z := (f * 2 ^ 24 + n - 1) / n.

(** Neither code is a prefix of the other. *)
Definition prefix_unrelated (x y : CharCode) : Prop :=
  ~ is_prefix (code x) (code y) /\ ~ is_prefix (code y) (code x).

(* ================================================================== *)
(** * Facts about characters and ordered maps *)

Lemma char_code_range (c : ascii) : 0 <= char_code c < 256.
Proof.
  unfold char_code. pose proof (N_ascii_bounded c). lia.
Qed.

Lemma char_code_inj (a b : ascii) : char_code a = char_code b -> a = b.
Proof.
  unfold char_code. intros H.
  rewrite <- (ascii_N_embedding a), <- (ascii_N_embedding b).
  f_equal. lia.
Qed.

Lemma char_val_inj (cs : bool) (a b : ascii) :
  char_val cs a = char_val cs b -> a = b.
Proof.
  unfold char_val. intros H. apply char_code_inj.
  pose proof (char_code_range a). pose proof (char_code_range b).
  destruct cs; simpl in H;
    destruct (128 <=? char_code a) eqn:Ea; destruct (128 <=? char_code b) eqn:Eb;
    try apply Z.leb_le in Ea; try apply Z.leb_le in Eb;
    try apply Z.leb_gt in Ea; try apply Z.leb_gt in Eb; lia.
Qed.

Section MapFacts.
Variable cs : bool.
Context {V : Type}.
Implicit Types (m : list (ascii * V)) (k : ascii) (v : V).

Lemma char_ltb_irrefl k : char_ltb cs k k = false.
Proof. unfold char_ltb. apply Z.ltb_irrefl. Qed.

Lemma char_ltb_trans a b c :
  char_ltb cs a b = true -> char_ltb cs b c = true -> char_ltb cs a c = true.
Proof. unfold char_ltb. rewrite !Z.ltb_lt. lia. Qed.

Lemma char_ltb_asym a b : char_ltb cs a b = true -> char_ltb cs b a = false.
Proof. unfold char_ltb. rewrite Z.ltb_lt, Z.ltb_ge. lia. Qed.

Lemma char_ltb_eq a b :
  char_ltb cs a b = false -> char_ltb cs b a = false -> a = b.
Proof.
  unfold char_ltb. rewrite !Z.ltb_ge. intros. apply (char_val_inj cs). lia.
Qed.

Lemma char_ltb_total a b : a <> b -> char_ltb cs a b = true \/ char_ltb cs b a = true.
Proof.
  intros Hne. destruct (char_ltb cs a b) eqn:E1; [now left|].
  destruct (char_ltb cs b a) eqn:E2; [now right|].
  elim Hne. now apply char_ltb_eq.
Qed.

(** Reading back the key just written. *)
Lemma map_find_set_same k v m : map_find cs k (map_set cs k v m) = Some v.
Proof.
  induction m as [|[k' v'] m IH]; simpl.
  - now rewrite char_ltb_irrefl.
  - destruct (char_ltb cs k k') eqn:E1; simpl.
    + now rewrite char_ltb_irrefl.
    + destruct (char_ltb cs k' k) eqn:E2; simpl.
      * now rewrite E1, E2.
      * now rewrite E1, E2.
Qed.

(** Writing a key leaves every other key as it was. *)
Lemma map_find_set_other k k' v m :
  k <> k' -> map_find cs k' (map_set cs k v m) = map_find cs k' m.
Proof.
  intros Hne. induction m as [|[k0 v0] m IH]; simpl.
  - destruct (char_ltb cs k' k) eqn:E1; [reflexivity|].
    destruct (char_ltb cs k k') eqn:E2; [reflexivity|].
    elim Hne. now apply char_ltb_eq.
  - destruct (char_ltb cs k k0) eqn:E1; simpl.
    + destruct (char_ltb cs k' k) eqn:E2.
      * now rewrite (char_ltb_trans _ _ _ E2 E1).
      * destruct (char_ltb cs k k') eqn:E3; [reflexivity|].
        elim Hne. now apply char_ltb_eq.
    + destruct (char_ltb cs k0 k) eqn:E2; simpl.
      * destruct (char_ltb cs k' k0); [reflexivity|].
        destruct (char_ltb cs k0 k'); [apply IH|reflexivity].
      * assert (k = k0) by now apply char_ltb_eq. subst k0.
        destruct (char_ltb cs k' k) eqn:E3; [reflexivity|].
        destruct (char_ltb cs k k') eqn:E4; [reflexivity|].
        elim Hne. now apply char_ltb_eq.
Qed.

Lemma map_find_In k v m : map_find cs k m = Some v -> In (k, v) m.
Proof.
  induction m as [|[k' v'] m IH]; simpl; [discriminate|].
  destruct (char_ltb cs k k') eqn:E1; [discriminate|].
  destruct (char_ltb cs k' k) eqn:E2.
  - intros H. right. now apply IH.
  - intros H. injection H as ->. left. f_equal. now apply char_ltb_eq.
Qed.

Lemma keys_sorted_nil : keys_sorted cs (@nil (ascii * V)).
Proof. constructor. Qed.

Lemma map_set_keys k v m k' :
  In k' (map fst (map_set cs k v m)) <-> k' = k \/ In k' (map fst m).
Proof.
  induction m as [|[k0 v0] m IH]; simpl.
  - intuition congruence.
  - destruct (char_ltb cs k k0) eqn:E1; simpl.
    + intuition congruence.
    + destruct (char_ltb cs k0 k) eqn:E2; simpl.
      * rewrite IH. intuition congruence.
      * assert (k = k0) by now apply char_ltb_eq. subst k0.
        intuition congruence.
Qed.

Lemma map_set_keys_sorted k v m : keys_sorted cs m -> keys_sorted cs (map_set cs k v m).
Proof.
  unfold keys_sorted.
  induction m as [|[k0 v0] m IH]; simpl; intros Hs.
  - repeat constructor.
  - inversion Hs as [|? ? Hs' Hall]; subst.
    destruct (char_ltb cs k k0) eqn:E1; simpl.
    + constructor; [exact Hs|]. constructor; [exact E1|].
      rewrite Forall_forall in *. intros x Hx.
      eapply char_ltb_trans; [exact E1|]. now apply Hall.
    + destruct (char_ltb cs k0 k) eqn:E2; simpl.
      * constructor; [now apply IH|].
        rewrite Forall_forall in *. intros x Hx.
        apply map_set_keys in Hx. destruct Hx as [->|Hx]; [exact E2|now apply Hall].
      * constructor; assumption.
Qed.

Lemma keys_sorted_NoDup m : keys_sorted cs m -> NoDup (map fst m).
Proof.
  unfold keys_sorted. induction 1 as [|a l Hs IH Hall]; constructor; [|exact IH].
  intros Hin. rewrite Forall_forall in Hall.
  specialize (Hall _ Hin). now rewrite char_ltb_irrefl in Hall.
Qed.

Lemma map_find_None k m : map_find cs k m = None -> keys_sorted cs m -> ~ In k (map fst m).
Proof.
  unfold keys_sorted.
  induction m as [|[k' v'] m IH]; simpl; intros Hf Hs; [tauto|].
  inversion Hs as [|? ? Hs' Hall]; subst.
  destruct (char_ltb cs k k') eqn:E1.
  - intros [->|Hin]; [now rewrite char_ltb_irrefl in E1|].
    rewrite Forall_forall in Hall. specialize (Hall _ Hin).
    rewrite (char_ltb_asym _ _ E1) in Hall. discriminate.
  - destruct (char_ltb cs k' k) eqn:E2; [|discriminate].
    intros [->|Hin]; [now rewrite char_ltb_irrefl in E2|].
    now apply IH.
Qed.

(** In a map with ascending keys, every key of the list is found. *)
Lemma map_find_key k m :
  keys_sorted cs m -> In k (map fst m) -> exists v, map_find cs k m = Some v.
Proof.
  intros Hs Hin. destruct (map_find cs k m) eqn:E; [eauto|].
  now elim (map_find_None _ _ E Hs).
Qed.
End MapFacts.

(* ================================================================== *)
(** * Counting *)

Lemma wrap_int_small (z : Z) : INT_MIN <= z <= INT_MAX -> wrap_int z = z.
Proof.
  unfold wrap_int, INT_MIN, INT_MAX. intros H.
  rewrite Z.mod_small by lia. lia.
Qed.

Lemma firstn_In {A : Type} (n : nat) (l : list A) (x : A) : In x (firstn n l) -> In x l.
Proof.
  intros H. rewrite <- (firstn_skipn n l). apply in_or_app. now left.
Qed.


Lemma occ_app c s t : occ c (s ++ t) = occ c s + occ c t.
Proof. unfold occ. rewrite count_occ_app. lia. Qed.

Lemma occ_le_length c s : 0 <= occ c s <= Z.of_nat (length s).
Proof. unfold occ. pose proof (count_occ_bound ascii_dec c s). lia. Qed.

Lemma occ_pos c s : In c s -> 1 <= occ c s.
Proof.
  unfold occ. intros H. apply (count_occ_In ascii_dec) in H. lia.
Qed.

Section CountFacts.
Variable cs : bool.

Lemma count_incr_sorted c m : keys_sorted cs m -> keys_sorted cs (count_incr cs c m).
Proof. apply map_set_keys_sorted. Qed.

Lemma count_fold_sorted s m :
  keys_sorted cs m -> keys_sorted cs (fold_left (fun m c => count_incr cs c m) s m).
Proof.
  revert m. induction s as [|c s IH]; simpl; intros m Hm; [exact Hm|].
  apply IH. now apply count_incr_sorted.
Qed.

Lemma charCountMap_sorted s : keys_sorted cs (charCountMap cs s).
Proof. apply count_fold_sorted. apply keys_sorted_nil. Qed.

Lemma count_fold_keys s m k :
  In k (map fst (fold_left (fun m c => count_incr cs c m) s m))
  <-> In k s \/ In k (map fst m).
Proof.
  revert m. induction s as [|c s IH]; simpl; intros m; [tauto|].
  rewrite IH. unfold count_incr. rewrite map_set_keys. intuition congruence.
Qed.

(** The keys of the count map are the characters of the string. *)
Lemma charCountMap_keys s k : In k (map fst (charCountMap cs s)) <-> In k s.
Proof. unfold charCountMap. rewrite count_fold_keys. simpl. tauto. Qed.

Lemma count_fold_get pre s m :
  Z.of_nat (length (pre ++ s)) <= INT_MAX ->
  (forall c, map_get cs 0 c m = occ c pre) ->
  forall c, map_get cs 0 c (fold_left (fun m c => count_incr cs c m) s m)
            = occ c (pre ++ s).
Proof.
  revert pre m. induction s as [|a s IH]; simpl; intros pre m Hlen Hm c.
  - rewrite app_nil_r. apply Hm.
  - replace (pre ++ a :: s) with ((pre ++ [a]) ++ s) in * by now rewrite <- app_assoc.
    apply IH; [exact Hlen|]. clear c. intros c.
    unfold count_incr, map_get at 1.
    rewrite Hm. rewrite occ_app.
    assert (Hb : occ a [a] = 1).
    { unfold occ. simpl. destruct (ascii_dec a a); [reflexivity|congruence]. }
    destruct (ascii_dec a c) as [->|Hne].
    + rewrite map_find_set_same, Hb.
      apply wrap_int_small.
      pose proof (occ_le_length c pre).
      rewrite !length_app in Hlen. simpl in Hlen. unfold INT_MIN, INT_MAX in *. lia.
    + rewrite map_find_set_other by exact Hne.
      fold (map_get cs 0 c m). rewrite Hm.
      unfold occ at 3. simpl. destruct (ascii_dec a c); [congruence|]. simpl. lia.
Qed.

(** Without overflow of the counters, every entry of the count map is
    the number of occurrences of its key. *)
Lemma charCountMap_occ s k v :
  Z.of_nat (length s) <= INT_MAX ->
  In (k, v) (charCountMap cs s) -> v = occ k s /\ In k s.
Proof.
  intros Hlen Hin.
  assert (Hk : In k (map fst (charCountMap cs s))) by (apply in_map_iff; now exists (k, v)).
  pose proof (charCountMap_sorted s) as Hs.
  destruct (map_find_key cs k _ Hs Hk) as [v' Hv'].
  assert (v' = v).
  { apply map_find_In in Hv'.
    pose proof (keys_sorted_NoDup cs _ Hs) as Hnd.
    clear - Hv' Hin Hnd. induction (charCountMap cs s) as [|[k0 v0] m IH]; [contradiction|].
    simpl in *. inversion Hnd as [|? ? Hn Hnd']; subst.
    destruct Hv' as [E1|H1]; destruct Hin as [E2|H2].
    - congruence.
    - injection E1 as -> ->. elim Hn. apply in_map_iff. now exists (k, v).
    - injection E2 as -> ->. elim Hn. apply in_map_iff. now exists (k, v').
    - now apply IH. }
  subst v'. split; [|now apply charCountMap_keys].
  pose proof (count_fold_get [] s [] Hlen (fun c => eq_refl) k) as Hg.
  simpl in Hg. unfold charCountMap in Hv'. unfold map_get in Hg.
  rewrite Hv' in Hg. exact Hg.
Qed.
End CountFacts.

(* ================================================================== *)
(** * Sorting *)

Section SortFacts.
Variable cs : bool.
Implicit Types (a b c x y : CharCode) (l : list CharCode).

Lemma compareFreqChar_spec a b : compareFreqChar cs a b = true <-> freq_char_desc cs a b.
Proof.
  unfold compareFreqChar, freq_char_desc.
  destruct (freq a =? freq b) eqn:E; simpl.
  - apply Z.eqb_eq in E. rewrite Z.gtb_gt. lia.
  - apply Z.eqb_neq in E. rewrite Z.gtb_gt. lia.
Qed.

Lemma compareFreqChar_trans a b c :
  compareFreqChar cs a b = true -> compareFreqChar cs b c = true ->
  compareFreqChar cs a c = true.
Proof. rewrite !compareFreqChar_spec. unfold freq_char_desc. lia. Qed.

Lemma compareFreqChar_asym a b :
  compareFreqChar cs a b = true -> compareFreqChar cs b a = false.
Proof.
  intros H. destruct (compareFreqChar cs b a) eqn:E; [|reflexivity].
  apply compareFreqChar_spec in H, E. unfold freq_char_desc in *. lia.
Qed.

(** On entries with different characters the comparator is total. *)
Lemma compareFreqChar_total a b :
  character a <> character b ->
  compareFreqChar cs a b = false -> compareFreqChar cs b a = true.
Proof.
  intros Hne H. apply compareFreqChar_spec.
  assert (~ freq_char_desc cs a b) as Hn.
  { intros Hc. apply compareFreqChar_spec in Hc. congruence. }
  unfold freq_char_desc in *.
  assert (char_val cs (character a) <> char_val cs (character b)).
  { intros Hc. apply Hne. now apply (char_val_inj cs). }
  lia.
Qed.

Lemma sort_insert_perm x l : Permutation (x :: l) (sort_insert cs x l).
Proof.
  induction l as [|y l IH]; simpl; [reflexivity|].
  destruct (compareFreqChar cs y x); [|reflexivity].
  rewrite perm_swap. now constructor.
Qed.

Lemma sortCharCodes_perm l : Permutation l (sortCharCodes cs l).
Proof.
  induction l as [|x l IH]; simpl; [constructor|].
  rewrite <- sort_insert_perm. now constructor.
Qed.

Lemma sort_insert_sorted x l :
  (forall y, In y l -> character y <> character x) ->
  sorted_desc cs l -> sorted_desc cs (sort_insert cs x l).
Proof.
  unfold sorted_desc. intros Hne Hs.
  induction Hs as [|y l Hs IH Hall]; simpl.
  - repeat constructor.
  - destruct (compareFreqChar cs y x) eqn:E.
    + constructor.
      * apply IH. intros z Hz. apply Hne. now right.
      * rewrite Forall_forall in *. intros z Hz.
        apply (Permutation_in _ (Permutation_sym (sort_insert_perm x l))) in Hz.
        destruct Hz as [<-|Hz]; [exact E|now apply Hall].
    + assert (Hxy : compareFreqChar cs x y = true).
      { apply compareFreqChar_total; [|exact E]. intros Hc. apply (Hne y); [now left|congruence]. }
      constructor; [now constructor|].
      constructor; [exact Hxy|].
      rewrite Forall_forall in *. intros z Hz.
      eapply compareFreqChar_trans; [exact Hxy|now apply Hall].
Qed.

(** Sorting entries with pairwise distinct characters yields a vector
    in which the comparator holds between every earlier and every later
    entry. *)
Lemma sortCharCodes_sorted l :
  NoDup (map character l) -> sorted_desc cs (sortCharCodes cs l).
Proof.
  induction l as [|x l IH]; simpl; intros Hnd.
  - constructor.
  - inversion Hnd as [|? ? Hn Hnd']; subst.
    apply sort_insert_sorted; [|now apply IH].
    intros y Hy Hc. apply Hn. rewrite <- Hc. apply in_map.
    now apply (Permutation_in _ (Permutation_sym (sortCharCodes_perm l))).
Qed.

(** Any two vectors with the same entries that are both in comparator
    order are equal: the outcome of [std::sort] does not depend on the
    algorithm. *)
Lemma sorted_permutation_unique l l' :
  Permutation l l' -> sorted_desc cs l -> sorted_desc cs l' -> l = l'.
Proof.
  unfold sorted_desc. intros Hp Hs. revert l' Hp.
  induction Hs as [|x l Hs IH Hall]; intros l' Hp Hs'.
  - now apply Permutation_nil in Hp.
  - destruct l' as [|x' l'].
    { apply Permutation_sym, Permutation_nil in Hp. discriminate. }
    inversion Hs' as [|? ? Hs'' Hall']; subst.
    assert (x = x').
    { assert (Hx : In x (x' :: l')) by (eapply Permutation_in; [exact Hp|now left]).
      assert (Hx' : In x' (x :: l))
        by (eapply Permutation_in; [exact (Permutation_sym Hp)|now left]).
      destruct Hx as [E|Hx]; [congruence|].
      destruct Hx' as [E|Hx']; [congruence|].
      rewrite Forall_forall in Hall, Hall'.
      specialize (Hall _ Hx'). specialize (Hall' _ Hx).
      apply compareFreqChar_asym in Hall. congruence. }
    subst x'. f_equal. apply IH; [|exact Hs''].
    now apply Permutation_cons_inv in Hp.
Qed.
End SortFacts.

(* ================================================================== *)
(** * Code assignment *)

Lemma pad_zeros_length p b : length (pad_zeros p b) = (length b + p)%nat.
Proof.
  revert b. induction p as [|p IH]; intros b; simpl; [lia|].
  rewrite IH, length_app. simpl. lia.
Qed.

Lemma decimalToBinary_loop_length p d b :
  length (decimalToBinary_loop p d b) = (length b + p)%nat.
Proof.
  revert d b. induction p as [|p IH]; intros d b; simpl; [lia|].
  destruct (F32.gtb d F32.zero).
  - destruct (F64.geb _ _); rewrite IH, length_app; simpl; lia.
  - rewrite pad_zeros_length, length_app. simpl. lia.
Qed.

(** [decimalToBinary] returns exactly [precision] characters, none for a
    non-positive [precision]. *)
Lemma decimalToBinary_length d precision :
  length (decimalToBinary d precision) = Z.to_nat precision.
Proof. unfold decimalToBinary. now rewrite decimalToBinary_loop_length. Qed.

Lemma bits_0 : Forall is_bit (lit "0").
Proof. constructor; [now left|constructor]. Qed.

Lemma bits_1 : Forall is_bit (lit "1").
Proof. constructor; [now right|constructor]. Qed.

Lemma pad_zeros_bits p b : Forall is_bit b -> Forall is_bit (pad_zeros p b).
Proof.
  revert b. induction p as [|p IH]; intros b Hb; simpl; [exact Hb|].
  apply IH. apply Forall_app. split; [exact Hb|apply bits_0].
Qed.

Lemma decimalToBinary_loop_bits p d b :
  Forall is_bit b -> Forall is_bit (decimalToBinary_loop p d b).
Proof.
  revert d b. induction p as [|p IH]; intros d b Hb; simpl; [exact Hb|].
  destruct (F32.gtb d F32.zero).
  - destruct (F64.geb _ _); apply IH; apply Forall_app; (split; [exact Hb|]);
      [apply bits_1|apply bits_0].
  - apply (pad_zeros_bits (S p)). exact Hb.
Qed.

Lemma decimalToBinary_bits d precision : Forall is_bit (decimalToBinary d precision).
Proof. apply decimalToBinary_loop_bits. constructor. Qed.

Section AssignFacts.
Variable cs : bool.

Lemma assignCodes_coded lineSize vec cum m :
  coded lineSize cum vec (fst (assignCodes cs lineSize vec cum m)).
Proof.
  revert cum m. induction vec as [|e vec IH]; intros cum m; simpl.
  - constructor.
  - specialize (IH (F32.add cum (probability_of (freq e) lineSize))
                  (map_set cs (character e)
                     (decimalToBinary cum (precision_of (probability_of (freq e) lineSize))) m)).
    destruct (assignCodes cs lineSize vec _ _) as [rest' m'] eqn:E. simpl in *.
    now constructor.
Qed.

Lemma coded_characters lineSize cum vec vec' :
  coded lineSize cum vec vec' -> map character vec' = map character vec.
Proof. induction 1; simpl; congruence. Qed.

Lemma coded_freqs lineSize cum vec vec' :
  coded lineSize cum vec vec' -> map freq vec' = map freq vec.
Proof. induction 1; simpl; congruence. Qed.

Lemma coded_code lineSize cum vec vec' e :
  coded lineSize cum vec vec' -> In e vec' ->
  exists cum', code e = decimalToBinary cum' (precision_of (probability_of (freq e) lineSize)).
Proof.
  induction 1 as [|cum e0 rest rest' Hc IH]; simpl; [tauto|].
  intros [<-|Hin]; [now exists cum|]. now apply IH.
Qed.

(** The comparator looks at characters and frequencies only, so the
    order established by the sort survives the assignment of codes. *)
Lemma sorted_desc_ext l l' :
  map character l' = map character l -> map freq l' = map freq l ->
  sorted_desc cs l -> sorted_desc cs l'.
Proof.
  unfold sorted_desc. intros Hc Hf Hs. revert l' Hc Hf.
  induction Hs as [|x l Hs IH Hall]; intros [|x' l'] Hc Hf; simpl in *;
    try discriminate; [constructor|].
  injection Hc as Hc1 Hc. injection Hf as Hf1 Hf.
  constructor; [now apply IH|].
  clear IH Hs. revert l' Hc Hf.
  induction Hall as [|y l Hy Hall IH]; intros [|y' l'] Hc Hf; simpl in *;
    try discriminate; constructor.
  - injection Hc as Hc2 _. injection Hf as Hf2 _.
    unfold compareFreqChar in *. rewrite Hc1, Hf1, Hc2, Hf2. exact Hy.
  - injection Hc as _ Hc. injection Hf as _ Hf. now apply IH.
Qed.

(** The map built by the loop: every entry's character is mapped to that
    entry's code, and other keys are as before. *)
Lemma assignCodes_map lineSize vec cum m :
  NoDup (map character vec) ->
  (forall e, In e (fst (assignCodes cs lineSize vec cum m)) ->
     map_find cs (character e) (snd (assignCodes cs lineSize vec cum m)) = Some (code e))
  /\ (forall c, ~ In c (map character vec) ->
        map_find cs c (snd (assignCodes cs lineSize vec cum m)) = map_find cs c m).
Proof.
  revert cum m. induction vec as [|e vec IH]; intros cum m Hnd; simpl.
  - split; [tauto|reflexivity].
  - inversion Hnd as [|? ? Hn Hnd']; subst.
    set (sc := decimalToBinary cum (precision_of (probability_of (freq e) lineSize))).
    specialize (IH (F32.add cum (probability_of (freq e) lineSize))
                  (map_set cs (character e) sc m) Hnd').
    pose proof (assignCodes_coded lineSize vec
                  (F32.add cum (probability_of (freq e) lineSize))
                  (map_set cs (character e) sc m)) as Hcoded.
    destruct (assignCodes cs lineSize vec _ _) as [rest' m'] eqn:E. simpl in *.
    destruct IH as [IH1 IH2]. split.
    + intros e' [<-|Hin]; simpl.
      * rewrite IH2 by exact Hn. apply map_find_set_same.
      * now apply IH1.
    + intros c Hc. rewrite IH2 by tauto.
      apply map_find_set_other. intros Heq. apply Hc. now left.
Qed.

Lemma appendCodes_checked_total m visited acc :
  (forall c, In c visited -> map_find cs c m <> None) ->
  appendCodes_checked cs m visited acc = Some (appendCodes cs m visited acc).
Proof.
  revert acc. induction visited as [|c r IH]; intros acc H; simpl; [reflexivity|].
  unfold appendCodes, map_get, str in *. simpl.
  destruct (map_find cs c m) as [s|] eqn:E.
  - apply IH. intros c' Hc'. apply H. now right.
  - elim (H c); [now left|exact E].
Qed.
End AssignFacts.

(* ================================================================== *)
(** * The alphabet of [src/mutex.cpp] *)

Section MutexFacts.
Variable cs : bool.

Lemma push_entries_characters m :
  map character (push_entries m []) = map fst m.
Proof. unfold push_entries. simpl. rewrite map_map. reflexivity. Qed.

Lemma push_entries_In m e :
  In e (push_entries m []) <-> code e = [] /\ In (character e, freq e) m.
Proof.
  unfold push_entries. simpl. rewrite in_map_iff. split.
  - intros [[k v] [<- Hin]]. simpl. now split.
  - intros [Hc Hin]. exists (character e, freq e). split; [|exact Hin].
    destruct e; simpl in *. now subst.
Qed.

Lemma sorted_vec_NoDup line :
  NoDup (map character
           (sortCharCodes cs (push_entries (charCountMap cs (indexed line)) []))).
Proof.
  eapply Permutation_NoDup.
  - apply Permutation_map. apply sortCharCodes_perm.
  - rewrite push_entries_characters. apply (keys_sorted_NoDup cs).
    apply charCountMap_sorted.
Qed.

Lemma charCodeVec_coded line :
  coded (lineSize_of line) F32.zero
    (sortCharCodes cs (push_entries (charCountMap cs (indexed line)) []))
    (Mutex.charCodeVec cs line).
Proof. apply assignCodes_coded. Qed.

(** The characters of the alphabet are exactly the characters visited
    by the counting loop. *)
Lemma charCodeVec_characters line c :
  In c (map character (Mutex.charCodeVec cs line)) <-> In c (indexed line).
Proof.
  rewrite (coded_characters _ _ _ _ (charCodeVec_coded line)).
  transitivity (In c (map character (push_entries (charCountMap cs (indexed line)) []))).
  - split; apply Permutation_in; [apply Permutation_sym|];
      apply Permutation_map, sortCharCodes_perm.
  - rewrite push_entries_characters. apply charCountMap_keys.
Qed.

Lemma charCodeVec_sorted line : sorted_desc cs (Mutex.charCodeVec cs line).
Proof.
  pose proof (charCodeVec_coded line) as Hc.
  eapply sorted_desc_ext.
  - exact (coded_characters _ _ _ _ Hc).
  - exact (coded_freqs _ _ _ _ Hc).
  - apply sortCharCodes_sorted. rewrite push_entries_characters.
    apply (keys_sorted_NoDup cs). apply charCountMap_sorted.
Qed.

Lemma indexed_full line :
  Z.of_nat (length line) <= INT_MAX -> indexed line = line.
Proof.
  intros H. unfold indexed, lineSize_of.
  rewrite wrap_int_small by (unfold INT_MIN, INT_MAX in *; lia).
  rewrite Nat2Z.id. apply firstn_all.
Qed.

(** Without overflow, the frequency of every entry of the alphabet is
    the number of occurrences of its character in the line. *)
Lemma charCodeVec_freq line e :
  Z.of_nat (length line) <= INT_MAX ->
  In e (Mutex.charCodeVec cs line) ->
  freq e = occ (character e) line /\ In (character e) line.
Proof.
  intros Hlen Hin.
  pose proof (charCodeVec_coded line) as Hc.
  assert (Hpair : In (character e, freq e)
                    (map (fun x => (character x, freq x)) (Mutex.charCodeVec cs line))).
  { apply in_map_iff. now exists e. }
  assert (Heq : map (fun x => (character x, freq x)) (Mutex.charCodeVec cs line)
                = map (fun x => (character x, freq x))
                    (sortCharCodes cs (push_entries (charCountMap cs (indexed line)) []))).
  { clear - Hc. induction Hc; simpl; [reflexivity|]. now f_equal. }
  rewrite Heq in Hpair. apply in_map_iff in Hpair. destruct Hpair as [e0 [He0 Hin0]].
  apply (Permutation_in _ (Permutation_sym (sortCharCodes_perm cs _))) in Hin0.
  apply push_entries_In in Hin0. destruct Hin0 as [_ Hin0].
  injection He0 as Hc0 Hf0. rewrite Hc0, Hf0 in Hin0.
  rewrite indexed_full in Hin0 by exact Hlen.
  now apply charCountMap_occ in Hin0.
Qed.
End MutexFacts.

(* ================================================================== *)
(** * The steps on an [EncodedMsg] *)

Section MsgFacts.
Variable cs : bool.

Lemma pushCounts_spec counts msg :
  pushCounts counts msg
  = mkEncodedMsg (line msg) (push_entries counts (charCodeVec msg)) (encodedLine msg).
Proof.
  unfold pushCounts, push_entries. revert msg.
  induction counts as [|kv counts IH]; intros msg; simpl.
  - rewrite app_nil_r. now destruct msg.
  - rewrite IH. unfold set_charCodeVec. simpl. now rewrite <- app_assoc.
Qed.

Lemma appendMsg_spec lineSize m msg :
  appendMsg cs lineSize m msg
  = mkEncodedMsg (line msg) (charCodeVec msg)
      (appendCodes cs m (firstn (Z.to_nat lineSize) (line msg)) (encodedLine msg)).
Proof.
  unfold appendMsg, appendCodes.
  generalize (firstn (Z.to_nat lineSize) (line msg)) as visited.
  intros visited. revert msg.
  induction visited as [|c r IH]; intros msg; simpl.
  - now destruct msg.
  - rewrite IH. reflexivity.
Qed.

(** The local map of the code loop finds every character of the vector
    it ran over. *)
Lemma map_set_found {V : Type} k (v : V) m c :
  map_find cs c m <> None -> map_find cs c (map_set cs k v m) <> None.
Proof.
  intros H. destruct (ascii_dec k c) as [->|Hne].
  - now rewrite map_find_set_same.
  - now rewrite map_find_set_other.
Qed.

Lemma assignCodes_keeps lineSize vec cum m c :
  map_find cs c m <> None ->
  map_find cs c (snd (assignCodes cs lineSize vec cum m)) <> None.
Proof.
  revert cum m. induction vec as [|e vec IH]; intros cum m H; simpl; [exact H|].
  specialize (IH (F32.add cum (probability_of (freq e) lineSize))
                (map_set cs (character e)
                   (decimalToBinary cum (precision_of (probability_of (freq e) lineSize))) m)
                (map_set_found _ _ _ _ H)).
  destruct (assignCodes cs lineSize vec _ _) as [rest' m']. exact IH.
Qed.

Lemma assignCodes_found lineSize vec cum m c :
  In c (map character vec) ->
  map_find cs c (snd (assignCodes cs lineSize vec cum m)) <> None.
Proof.
  revert cum m. induction vec as [|e vec IH]; intros cum m H; simpl in *; [tauto|].
  set (m1 := map_set cs (character e)
               (decimalToBinary cum (precision_of (probability_of (freq e) lineSize))) m).
  pose proof (IH (F32.add cum (probability_of (freq e) lineSize)) m1) as IH1.
  pose proof (assignCodes_keeps lineSize vec
                (F32.add cum (probability_of (freq e) lineSize)) m1 c) as Hk.
  destruct (assignCodes cs lineSize vec _ _) as [rest' m'].
  destruct H as [<-|H]; simpl in *.
  - apply Hk. subst m1. now rewrite map_find_set_same.
  - now apply IH1.
Qed.

(** [shannonCode] of [src/server.cpp], field by field. *)
Lemma server_shannonCode_spec msg :
  let lineSize := lineSize_of (line msg) in
  let vec := sortCharCodes cs (push_entries (charCountMap cs (line msg)) (charCodeVec msg)) in
  let r := assignCodes cs lineSize vec F32.zero [] in
  Server.shannonCode cs msg
  = mkEncodedMsg (line msg) (fst r)
      (appendCodes cs (snd r) (indexed (line msg)) (encodedLine msg))
  /\ Server.charCodeMap cs msg = snd r.
Proof.
  unfold Server.shannonCode, Server.charCodeMap, codeMsg, sortMsg.
  rewrite pushCounts_spec. simpl. split; [|reflexivity].
  rewrite appendMsg_spec. reflexivity.
Qed.

(** [shannonCode] of [src/multiThreading.cpp], field by field. *)
Lemma mt_shannonCode_spec msg :
  let lineSize := lineSize_of (line msg) in
  let vec := sortCharCodes cs
               (push_entries (charCountMap cs (indexed (line msg))) (charCodeVec msg)) in
  let r := assignCodes cs lineSize vec F32.zero [] in
  MultiThreading.shannonCode cs msg
  = mkEncodedMsg (line msg) (fst r) (appendCodes cs (snd r) (indexed (line msg)) []).
Proof.
  unfold MultiThreading.shannonCode, codeMsg, sortMsg.
  rewrite pushCounts_spec. simpl.
  rewrite appendMsg_spec. reflexivity.
Qed.

(** On a fresh message of a line whose length fits an [int], the server's
    encoder computes what the threaded one does. *)
Lemma encode_fresh l :
  Z.of_nat (length l) <= INT_MAX ->
  encode cs l = mkEncodedMsg l (Mutex.charCodeVec cs l) (Mutex.encodedLine cs l).
Proof.
  intros Hlen. unfold encode.
  destruct (server_shannonCode_spec (mkEncodedMsg l [] [])) as [-> _]. simpl.
  unfold Mutex.charCodeVec, Mutex.encodedLine, Mutex.charCodeMap, Mutex.codeTable.
  rewrite (indexed_full l Hlen). reflexivity.
Qed.
End MsgFacts.

(* ================================================================== *)
(** * The connection protocol: framing lemmas *)

Lemma char_code_byte_of (z : Z) : char_code (byte_of z) = z mod 256.
Proof.
  unfold char_code, byte_of.
  pose proof (Z.mod_pos_bound z 256 ltac:(lia)) as Hb.
  rewrite N_ascii_embedding by lia. lia.
Qed.

Lemma wrap_int_mod (x : Z) : wrap_int (x mod 4294967296) = wrap_int x.
Proof.
  unfold wrap_int. now rewrite Z.add_mod_idemp_l by lia.
Qed.

(** An [int] survives being written and read back. *)
Lemma bytes_int_int_bytes (x : Z) :
  INT_MIN <= x <= INT_MAX -> bytes_int (int_bytes x) = x.
Proof.
  intros Hx. unfold bytes_int, int_bytes.
  rewrite !char_code_byte_of.
  set (u := x mod 4294967296).
  assert (Hu : 0 <= u < 4294967296) by (apply Z.mod_pos_bound; lia).
  assert (H1 : u = 256 * (u / 256) + u mod 256) by (apply Z.div_mod; lia).
  assert (H2 : u / 256 = 256 * (u / 65536) + (u / 256) mod 256).
  { replace (u / 65536) with (u / 256 / 256) by (rewrite Z.div_div by lia; reflexivity).
    apply Z.div_mod. lia. }
  assert (H3 : u / 65536 = 256 * (u / 16777216) + (u / 65536) mod 256).
  { replace (u / 16777216) with (u / 65536 / 256) by (rewrite Z.div_div by lia; reflexivity).
    apply Z.div_mod. lia. }
  assert (H4 : (u / 16777216) mod 256 = u / 16777216).
  { apply Z.mod_small. split; [apply Z.div_pos; lia|].
    apply Z.div_lt_upper_bound; lia. }
  rewrite H4.
  replace (u mod 256 + 256 * ((u / 256) mod 256) + 65536 * ((u / 65536) mod 256)
           + 16777216 * (u / 16777216)) with u by lia.
  unfold u. rewrite wrap_int_mod. now apply wrap_int_small.
Qed.

Lemma int_bytes_length (x : Z) : length (int_bytes x) = 4%nat.
Proof. reflexivity. Qed.

Lemma firstn_exact {A : Type} (a r : list A) : firstn (length a) (a ++ r) = a.
Proof.
  rewrite firstn_app, Nat.sub_diag, firstn_all. simpl. apply app_nil_r.
Qed.

Lemma read_n_app (a r : list ascii) : read_n (length a) (a ++ r) = Some (a, r).
Proof.
  unfold read_n. rewrite length_app.
  replace (length a <=? length a + length r)%nat with true
    by (symmetry; apply Nat.leb_le; lia).
  rewrite firstn_app, Nat.sub_diag, firstn_all. simpl. rewrite app_nil_r.
  rewrite skipn_app, Nat.sub_diag, skipn_all. reflexivity.
Qed.

Lemma read_int_app (x : Z) (r : list ascii) :
  read_n 4 (int_bytes x ++ r) = Some (int_bytes x, r).
Proof. exact (read_n_app (int_bytes x) r). Qed.

(** A string without NUL is its own C string, whatever follows its
    terminator. *)
Lemma c_str_terminated (s r : list ascii) :
  ~ In NUL s -> c_str (s ++ NUL :: r) = s.
Proof.
  induction s as [|c s IH]; simpl; intros Hn.
  - reflexivity.
  - destruct (Ascii.eqb c NUL) eqn:E.
    + apply Ascii.eqb_eq in E. elim Hn. now left.
    + f_equal. apply IH. tauto.
Qed.

Lemma c_str_no_nul (s : list ascii) : ~ In NUL s -> c_str s = s.
Proof.
  induction s as [|c s IH]; simpl; intros Hn; [reflexivity|].
  destruct (Ascii.eqb c NUL) eqn:E.
  - apply Ascii.eqb_eq in E. elim Hn. now left.
  - f_equal. apply IH. tauto.
Qed.

Lemma c_str_length (s : list ascii) : (length (c_str s) <= length s)%nat.
Proof.
  induction s as [|c s IH]; simpl; [lia|].
  destruct (Ascii.eqb c NUL); simpl; lia.
Qed.

Lemma c_str_is_c_string (s : list ascii) : ~ In NUL (c_str s).
Proof.
  induction s as [|c s IH]; simpl; [tauto|].
  destruct (Ascii.eqb c NUL) eqn:E; simpl; [tauto|].
  intros [H|H]; [|tauto]. subst c. now rewrite Ascii.eqb_refl in E.
Qed.

Lemma has_nul_app (s r : list ascii) : has_nul (s ++ NUL :: r) = true.
Proof.
  unfold has_nul. rewrite existsb_app. simpl. now rewrite orb_true_r.
Qed.

Lemma bits_no_nul (s : str) : Forall is_bit s -> ~ In NUL s.
Proof.
  intros Hb Hin. rewrite Forall_forall in Hb.
  destruct (Hb _ Hin) as [H|H]; discriminate H.
Qed.

Lemma uninit_length (n : nat) (stale : list ascii) : length (uninit n stale) = n.
Proof.
  unfold uninit. rewrite length_firstn, length_app, repeat_length. lia.
Qed.

(** [strcpy] into a buffer with room for the string and its terminator. *)
Lemma strcpy_fits (dst : list ascii) (src : str) :
  (length (c_str src) < length dst)%nat ->
  exists rest, strcpy dst src = Some (c_str src ++ NUL :: rest)
               /\ length (c_str src ++ NUL :: rest) = length dst.
Proof.
  intros Hlen. unfold strcpy.
  rewrite length_app. simpl.
  replace (length (c_str src) + 1 <=? length dst)%nat with true
    by (symmetry; apply Nat.leb_le; lia).
  exists (skipn (length (c_str src) + 1) dst). split.
  - now rewrite <- app_assoc.
  - rewrite length_app. simpl. rewrite length_skipn. lia.
Qed.

Lemma strcpy_overrun (dst : list ascii) (src : str) :
  (length dst <= length (c_str src))%nat -> strcpy dst src = None.
Proof.
  intros Hlen. unfold strcpy. rewrite length_app. simpl.
  replace (length (c_str src) + 1 <=? length dst)%nat with false
    by (symmetry; apply Nat.leb_gt; lia).
  reflexivity.
Qed.

(** ** The refactored client always sends a terminated, truncated line *)

Lemma store_length (buf : list ascii) (i : nat) (c : ascii) :
  length (store buf i c) = length buf.
Proof.
  revert i. induction buf as [|b r IH]; intros [|i]; simpl; auto.
Qed.

Lemma store_app_last (a : list ascii) (x c : ascii) :
  store (a ++ [x]) (length a) c = a ++ [c].
Proof.
  induction a as [|b a IH]; simpl; [reflexivity|]. now rewrite IH.
Qed.

Lemma sendMessage_buffer_spec (stale : list ascii) (message : str) :
  let s := firstn 31 (c_str message) in
  NetworkClient.sendMessage_buffer stale message
  = s ++ repeat NUL (32 - length s).
Proof.
  intros s. unfold NetworkClient.sendMessage_buffer, strncpy, BUFFER_SIZE.
  change (32 - 1)%nat with 31%nat. fold s.
  assert (Hs : (length s <= 31)%nat) by (unfold s; apply firstn_le_length).
  pose proof (uninit_length 32 stale) as Hu.
  assert (Hk : exists x, skipn 31 (uninit 32 stale) = [x]).
  { pose proof (length_skipn 31 (uninit 32 stale)) as Hl. rewrite Hu in Hl.
    destruct (skipn 31 (uninit 32 stale)) as [|x [|y r]]; simpl in Hl; try lia.
    now exists x. }
  destruct Hk as [x ->].
  replace (s ++ repeat NUL (31 - length s) ++ [x])
    with ((s ++ repeat NUL (31 - length s)) ++ [x]) by now rewrite <- app_assoc.
  replace 31%nat with (length (s ++ repeat NUL (31 - length s))) at 2
    by (rewrite length_app, repeat_length; lia).
  rewrite store_app_last. rewrite <- app_assoc. f_equal.
  replace (32 - length s)%nat with ((31 - length s) + 1)%nat by lia.
  now rewrite repeat_app.
Qed.

(** The request of [src/src/network/client.cpp]: for every line, 32
    bytes, the last one NUL, holding as a C string the first 31
    characters of the line's C string; length alone never raises an
    error. *)
Lemma sendMessage_truncates (stale : list ascii) (message : str) :
  exists buf,
    NetworkClient.sendMessage true stale message = inl buf
    /\ length buf = 32%nat
    /\ nth 31 buf "x"%char = NUL
    /\ c_str buf = firstn 31 (c_str message).
Proof.
  unfold NetworkClient.sendMessage. eexists. split; [reflexivity|].
  rewrite sendMessage_buffer_spec.
  set (s := firstn 31 (c_str message)).
  assert (Hs : (length s <= 31)%nat) by (unfold s; apply firstn_le_length).
  assert (Hn : ~ In NUL s).
  { intros H. apply firstn_In in H. now apply c_str_is_c_string in H. }
  repeat split.
  - rewrite length_app, repeat_length. lia.
  - destruct (Nat.eq_dec (length s) 31) as [E|E].
    + rewrite app_nth2 by lia. rewrite E. reflexivity.
    + rewrite app_nth2 by lia. apply nth_repeat_lt. lia.
  - replace (32 - length s)%nat with (S (31 - length s)) by lia. simpl.
    now apply c_str_terminated.
Qed.

(** The request of [src/client.cpp] for a line whose C string has at
    most 31 characters. *)
Lemma request_fits (stale : list ascii) (l : str) :
  (length (c_str l) <= 31)%nat ->
  exists rest, Client.request stale l = Some (c_str l ++ NUL :: rest)
               /\ length (c_str l ++ NUL :: rest) = 32%nat.
Proof.
  intros Hlen. unfold Client.request.
  destruct (strcpy_fits (uninit BUFFER_SIZE stale) l) as [rest [H1 H2]].
  - rewrite uninit_length. unfold BUFFER_SIZE. lia.
  - exists rest. split; [exact H1|]. now rewrite H2, uninit_length.
Qed.

(** ** Receiving what was sent *)

Lemma recv_entry_entry_bytes (cc : CharCode) (r : list ascii) :
  INT_MIN <= freq cc <= INT_MAX ->
  Z.of_nat (length (code cc)) <= INT_MAX ->
  ~ In NUL (code cc) ->
  Client.recv_entry (Handler.entry_bytes cc ++ r) = Some (cc, r).
Proof.
  intros Hf Hl Hn. unfold Handler.entry_bytes, Client.recv_entry.
  rewrite wrap_int_small by (unfold INT_MIN, INT_MAX in *; lia).
  rewrite Nat2Z.id, firstn_exact.
  rewrite <- !app_assoc.
  change ([character cc] ++ int_bytes (freq cc) ++ int_bytes (Z.of_nat (length (code cc)))
            ++ code cc ++ r)
    with ([character cc] ++ (int_bytes (freq cc) ++ int_bytes (Z.of_nat (length (code cc)))
            ++ code cc ++ r)).
  rewrite (read_n_app [character cc]).
  rewrite read_int_app, read_int_app.
  rewrite !bytes_int_int_bytes by (unfold INT_MIN, INT_MAX in *; lia).
  replace (Z.of_nat (length (code cc)) <? 0) with false by (symmetry; apply Z.ltb_ge; lia).
  rewrite Nat2Z.id, read_n_app.
  rewrite c_str_terminated by exact Hn.
  now destruct cc.
Qed.

Lemma recv_entries_flat_map (vec : list CharCode) (r : list ascii) :
  Forall (fun cc => INT_MIN <= freq cc <= INT_MAX
                    /\ Z.of_nat (length (code cc)) <= INT_MAX
                    /\ ~ In NUL (code cc)) vec ->
  Client.recv_entries (length vec) (flat_map Handler.entry_bytes vec ++ r) = Some (vec, r).
Proof.
  induction 1 as [|cc vec [Hf [Hl Hn]] Hall IH];
    cbn [flat_map Client.recv_entries length]; [reflexivity|].
  rewrite <- app_assoc.
  rewrite recv_entry_entry_bytes by assumption.
  now rewrite IH.
Qed.

(** The client parses the response to the vector and the encoded line
    the server held, provided the counts, the frequencies and the lengths
    fit an [int] and the codes are C strings. *)
Lemma receive_response (stale : list ascii) (msg : EncodedMsg) :
  Z.of_nat (length (charCodeVec msg)) <= INT_MAX ->
  Forall (fun cc => INT_MIN <= freq cc <= INT_MAX
                    /\ Z.of_nat (length (code cc)) <= INT_MAX
                    /\ ~ In NUL (code cc)) (charCodeVec msg) ->
  Z.of_nat (length (encodedLine msg)) < INT_MAX ->
  ~ In NUL (encodedLine msg) ->
  exists resp, Handler.response stale msg = Some resp
               /\ Client.receive resp = Some (charCodeVec msg, encodedLine msg).
Proof.
  intros Hv Hall He Hn.
  unfold Handler.response, Handler.encoded_bytes.
  rewrite (wrap_int_small (Z.of_nat (length (encodedLine msg))))
    by (unfold INT_MIN, INT_MAX in *; lia).
  destruct (strcpy_fits (uninit (Z.to_nat (Z.of_nat (length (encodedLine msg)) + 1)) stale)
              (encodedLine msg)) as [rest [Hcp Hlen]].
  { rewrite uninit_length. pose proof (c_str_length (encodedLine msg)). lia. }
  rewrite Hcp. rewrite (c_str_no_nul _ Hn).
  eexists. split; [reflexivity|].
  unfold Client.receive.
  rewrite read_int_app.
  rewrite wrap_int_small by (unfold INT_MIN, INT_MAX in *; lia).
  rewrite bytes_int_int_bytes by (unfold INT_MIN, INT_MAX in *; lia).
  rewrite Nat2Z.id.
  rewrite recv_entries_flat_map by exact Hall.
  rewrite read_int_app.
  rewrite bytes_int_int_bytes by (unfold INT_MIN, INT_MAX in *; lia).
  replace (Z.of_nat (length (encodedLine msg)) <? 0) with false
    by (symmetry; apply Z.ltb_ge; lia).
  rewrite Nat2Z.id, firstn_exact.
  rewrite <- (app_nil_r (encodedLine msg)) at 2.
  rewrite read_n_app.
  now rewrite c_str_terminated.
Qed.

(* ================================================================== *)
(** * Lines that fit a request *)

Lemma zrange_In (lo : Z) (n : nat) (z : Z) : lo <= z < lo + Z.of_nat n -> In z (zrange lo n).
Proof.
  intros H. unfold zrange. apply in_map_iff.
  exists (Z.to_nat (z - lo)). split; [lia|]. apply in_seq. lia.
Qed.

Lemma precisions_within_spec (bound : nat) (hi f n : Z) :
  precisions_within bound hi = true ->
  1 <= f <= n -> n <= Z.of_nat bound ->
  0 <= precision_of (probability_of f n) <= hi.
Proof.
  unfold precisions_within. intros H Hf Hn.
  rewrite forallb_forall in H. specialize (H n (zrange_In 1 bound n ltac:(lia))).
  rewrite forallb_forall in H. specialize (H f (zrange_In 1 (Z.to_nat n) f ltac:(lia))).
  simpl in H. apply andb_true_iff in H. destruct H as [H1 H2].
  apply Z.leb_le in H1, H2. lia.
Qed.

(** Checked by running the float operations on all 496 pairs. *)
Lemma precisions_31 : precisions_within 31 5 = true.
Proof. vm_compute. reflexivity. Qed.

Section SmallLines.
Variable cs : bool.

Lemma assignCodes_values lineSize vec cum m c v :
  map_find cs c (snd (assignCodes cs lineSize vec cum m)) = Some v ->
  (exists e, In e (fst (assignCodes cs lineSize vec cum m)) /\ v = code e)
  \/ map_find cs c m = Some v.
Proof.
  revert cum m. induction vec as [|e vec IH]; intros cum m; simpl; [now right|].
  set (sc := decimalToBinary cum (precision_of (probability_of (freq e) lineSize))).
  specialize (IH (F32.add cum (probability_of (freq e) lineSize))
                (map_set cs (character e) sc m)).
  destruct (assignCodes cs lineSize vec _ _) as [rest' m']. simpl in *.
  intros H. destruct (IH H) as [[e' [Hin ->]]|H1].
  - left. exists e'. split; [now right|reflexivity].
  - destruct (ascii_dec (character e) c) as [<-|Hne].
    + rewrite map_find_set_same in H1. injection H1 as <-.
      left. eexists. split; [now left|reflexivity].
    + rewrite map_find_set_other in H1 by exact Hne. now right.
Qed.

Lemma appendCodes_bits m visited acc :
  (forall c v, map_find cs c m = Some v -> Forall is_bit v) ->
  Forall is_bit acc -> Forall is_bit (appendCodes cs m visited acc).
Proof.
  intros Hm. unfold appendCodes. revert acc.
  induction visited as [|c r IH]; intros acc Hacc; simpl; [exact Hacc|].
  apply IH. apply Forall_app. split; [exact Hacc|].
  unfold map_get. destruct (map_find cs c m) eqn:E; [now apply (Hm c)|constructor].
Qed.

Lemma appendCodes_length m visited acc (k : nat) :
  (forall c v, map_find cs c m = Some v -> (length v <= k)%nat) ->
  (length (appendCodes cs m visited acc) <= length acc + k * length visited)%nat.
Proof.
  intros Hm. unfold appendCodes. revert acc.
  induction visited as [|c r IH]; intros acc; simpl; [lia|].
  specialize (IH (acc ++ map_get cs [] c m)). rewrite length_app in IH.
  assert (length (map_get cs [] c m) <= k)%nat.
  { unfold map_get. destruct (map_find cs c m) eqn:E; [now apply (Hm c)|simpl; lia]. }
  lia.
Qed.

Lemma charCodeVec_length l :
  Z.of_nat (length l) <= INT_MAX ->
  (length (Mutex.charCodeVec cs l) <= length l)%nat.
Proof.
  intros Hlen. rewrite <- (length_map character).
  apply NoDup_incl_length.
  - rewrite (coded_characters _ _ _ _ (charCodeVec_coded cs l)).
    apply sorted_vec_NoDup.
  - intros c Hc. apply charCodeVec_characters in Hc.
    now rewrite indexed_full in Hc.
Qed.

Lemma charCodeVec_bits l e : In e (Mutex.charCodeVec cs l) -> Forall is_bit (code e).
Proof.
  intros Hin. destruct (coded_code _ _ _ _ _ (charCodeVec_coded cs l) Hin) as [cum ->].
  apply decimalToBinary_bits.
Qed.

Lemma charCodeMap_values l c v :
  map_find cs c (Mutex.charCodeMap cs l) = Some v ->
  exists e, In e (Mutex.charCodeVec cs l) /\ v = code e.
Proof.
  intros H. unfold Mutex.charCodeMap, Mutex.charCodeVec, Mutex.codeTable in *.
  apply assignCodes_values in H. destruct H as [H|H]; [exact H|discriminate].
Qed.

Lemma encodedLine_bits l : Forall is_bit (Mutex.encodedLine cs l).
Proof.
  apply appendCodes_bits; [|constructor].
  intros c v H. apply charCodeMap_values in H. destruct H as [e [Hin ->]].
  now apply (charCodeVec_bits l).
Qed.

(** In a line of at most 31 characters every code has at most 5
    digits. *)
Lemma small_code_length l e :
  (length l <= 31)%nat -> In e (Mutex.charCodeVec cs l) -> (length (code e) <= 5)%nat.
Proof.
  intros Hlen Hin.
  assert (Hmax : Z.of_nat (length l) <= INT_MAX) by (unfold INT_MAX; lia).
  destruct (charCodeVec_freq cs l e Hmax Hin) as [Hf Hc].
  destruct (coded_code _ _ _ _ _ (charCodeVec_coded cs l) Hin) as [cum ->].
  rewrite decimalToBinary_length.
  unfold lineSize_of. rewrite wrap_int_small by (unfold INT_MIN, INT_MAX; lia).
  pose proof (occ_pos _ _ Hc). pose proof (occ_le_length (character e) l).
  pose proof (precisions_within_spec 31 5 (freq e) (Z.of_nat (length l)) precisions_31
                ltac:(lia) ltac:(lia)).
  lia.
Qed.

Lemma small_encodedLine_length l :
  (length l <= 31)%nat -> (length (Mutex.encodedLine cs l) <= 155)%nat.
Proof.
  intros Hlen. unfold Mutex.encodedLine.
  pose proof (appendCodes_length (Mutex.charCodeMap cs l) (indexed l) [] 5) as H.
  simpl in H.
  assert (length (indexed l) <= 31)%nat.
  { unfold indexed. rewrite length_firstn. lia. }
  etransitivity; [apply H|lia].
  intros c v Hv. apply charCodeMap_values in Hv. destruct Hv as [e [Hin ->]].
  now apply (small_code_length l).
Qed.

(** The round trip of a line without NUL and of at most 31 characters
    returns what the encoder computes on that line. *)
Lemma round_trip_fits stale_c stale_s l :
  (length l <= 31)%nat -> ~ In NUL l ->
  round_trip cs stale_c stale_s l
  = Some (charCodeVec (encode cs l), encodedLine (encode cs l)).
Proof.
  intros Hlen Hn. unfold round_trip.
  assert (Hmax : Z.of_nat (length l) <= INT_MAX) by (unfold INT_MAX; lia).
  destruct (request_fits stale_c l) as [rest [-> Hreq]].
  { rewrite c_str_no_nul by exact Hn. exact Hlen. }
  rewrite (c_str_no_nul l Hn).
  unfold Handler.handle, Handler.request_line.
  rewrite has_nul_app, c_str_terminated by exact Hn.
  fold (encode cs l).
  destruct (receive_response stale_s (encode cs l)) as [resp [-> Hrecv]].
  - rewrite encode_fresh by exact Hmax. simpl.
    pose proof (charCodeVec_length l Hmax). lia.
  - rewrite encode_fresh by exact Hmax. simpl.
    apply Forall_forall. intros e Hin.
    destruct (charCodeVec_freq cs l e Hmax Hin) as [Hf Hc].
    pose proof (occ_le_length (character e) l).
    pose proof (small_code_length l e Hlen Hin).
    repeat split; try (unfold INT_MIN, INT_MAX; lia).
    apply bits_no_nul. now apply (charCodeVec_bits l).
  - rewrite encode_fresh by exact Hmax. simpl.
    pose proof (small_encodedLine_length l Hlen). unfold INT_MAX. lia.
  - rewrite encode_fresh by exact Hmax. simpl.
    apply bits_no_nul, encodedLine_bits.
  - exact Hrecv.
Qed.
End SmallLines.

(* ================================================================== *)
(** * The coordinator: invariant and progress *)

Module CoordinatorFacts.
Import Coordinator CoordinatorInv.

Lemma set_thread_length k t ts : length (set_thread k t ts) = length ts.
Proof.
  revert k. induction ts as [|x r IH]; intros [|k]; simpl; auto.
Qed.

Lemma set_thread_nth k t t0 ts j :
  nth_error ts k = Some t0 ->
  nth_error (set_thread k t ts) j = if Nat.eqb j k then Some t else nth_error ts j.
Proof.
  revert k j. induction ts as [|x r IH]; intros [|k] [|j]; simpl; intros H;
    try discriminate; try reflexivity.
  now apply IH.
Qed.

Lemma nth_error_wake ts j : nth_error (map wake ts) j = option_map wake (nth_error ts j).
Proof. apply nth_error_map. Qed.

Lemma wake_pc_cases t :
  (t_pc t = Waiting /\ t_pc (wake t) = Woken) \/ (t_pc t <> Waiting /\ wake t = t).
Proof.
  unfold wake. destruct (t_pc t) eqn:E; simpl; try (right; split; [discriminate|reflexivity]).
  left. now split.
Qed.

Lemma wake_locals t : t_line (wake t) = t_line t /\ t_localID (wake t) = t_localID t.
Proof. unfold wake. destruct (t_pc t); simpl; auto. Qed.

Lemma wake_holds2 t : holds2 (t_pc (wake t)) = holds2 (t_pc t).
Proof. destruct (wake_pc_cases t) as [[-> ->]|[_ ->]]; reflexivity. Qed.

Lemma wake_copying t : copying (t_pc (wake t)) = copying (t_pc t).
Proof. destruct (wake_pc_cases t) as [[-> ->]|[_ ->]]; reflexivity. Qed.

Lemma wake_turn t : turn (t_pc (wake t)) = turn (t_pc t).
Proof. destruct (wake_pc_cases t) as [[-> ->]|[_ ->]]; reflexivity. Qed.

(** ** [mutex2] and its holder *)

(** A worker's step keeps [m2_ok] when it locks a free mutex, unlocks
    the mutex it holds, or leaves both as they are. *)
Lemma m2_ok_step (wk : bool) m2 m2' ts k t t' :
  m2_ok m2 ts -> nth_error ts k = Some t ->
  (holds2 (t_pc t') = holds2 (t_pc t) /\ m2' = m2)
  \/ (m2 = false /\ holds2 (t_pc t') = true /\ m2' = true)
  \/ (holds2 (t_pc t) = true /\ holds2 (t_pc t') = false /\ m2' = false) ->
  m2_ok m2' (set_thread k t' (if wk then map wake ts else ts)).
Proof.
  intros [Hheld [Hown Huniq]] Hk Hcase.
  set (ts0 := if wk then map wake ts else ts).
  assert (Hts0 : forall j, exists f, nth_error ts0 j = option_map f (nth_error ts j)
                                     /\ forall x, holds2 (t_pc (f x)) = holds2 (t_pc x)).
  { intros j. unfold ts0. destruct wk.
    - exists wake. split; [apply nth_error_wake|apply wake_holds2].
    - exists (fun x => x). split; [now destruct (nth_error ts j)|reflexivity]. }
  assert (Hk0 : exists t0, nth_error ts0 k = Some t0).
  { destruct (Hts0 k) as [f [Hf _]]. rewrite Hf, Hk. simpl. eauto. }
  destruct Hk0 as [t0 Hk0].
  assert (Hnth : forall j tj, nth_error (set_thread k t' ts0) j = Some tj ->
                   (j = k /\ tj = t')
                   \/ (j <> k /\ exists tj0, nth_error ts j = Some tj0
                                  /\ holds2 (t_pc tj) = holds2 (t_pc tj0))).
  { intros j tj Hj. rewrite (set_thread_nth _ _ _ _ _ Hk0) in Hj.
    destruct (Nat.eqb_spec j k) as [->|Hne].
    - left. split; [reflexivity|congruence].
    - right. split; [exact Hne|]. destruct (Hts0 j) as [f [Hf Hh]].
      rewrite Hf in Hj. destruct (nth_error ts j) as [tj0|]; [|discriminate].
      simpl in Hj. injection Hj as <-. exists tj0. split; [reflexivity|apply Hh]. }
  assert (Hnew : nth_error (set_thread k t' ts0) k = Some t').
  { rewrite (set_thread_nth _ _ _ _ _ Hk0). now rewrite Nat.eqb_refl. }
  assert (Hold : forall j tj0, j <> k -> nth_error ts j = Some tj0 ->
                   exists tj, nth_error (set_thread k t' ts0) j = Some tj
                              /\ holds2 (t_pc tj) = holds2 (t_pc tj0)).
  { intros j tj0 Hne Hj. rewrite (set_thread_nth _ _ _ _ _ Hk0).
    destruct (Nat.eqb_spec j k) as [|_]; [contradiction|].
    destruct (Hts0 j) as [f [Hf Hh]]. rewrite Hf, Hj. simpl. eauto. }
  repeat split.
  - intros Hm. destruct Hcase as [[Hh ->]|[[_ [Hh _]]|[_ [_ ->]]]]; [|eauto|discriminate].
    destruct (Hheld Hm) as [j [tj [Hj Hhj]]].
    destruct (Nat.eq_dec j k) as [->|Hne].
    + exists k, t'. split; [exact Hnew|]. congruence.
    + destruct (Hold j tj Hne Hj) as [tj' [Hj' Hh']]. exists j, tj'. split; congruence.
  - intros j tj Hj Hhj. destruct (Hnth j tj Hj) as [[-> ->]|[Hne [tj0 [Hj0 Hh0]]]].
    + destruct Hcase as [[Hh ->]|[[_ [_ ->]]|[_ [Hh _]]]]; [|reflexivity|congruence].
      apply (Hown k t Hk). congruence.
    + assert (Hm : m2 = true) by (apply (Hown j tj0 Hj0); congruence).
      destruct Hcase as [[_ ->]|[[Hf _]|[Hh _]]]; [exact Hm|congruence|].
      elim Hne. apply (Huniq j k tj0 t Hj0 Hk); congruence.
  - intros i j ti tj Hi Hj Hhi Hhj.
    destruct (Hnth i ti Hi) as [[-> ->]|[Hni [ti0 [Hi0 Hhi0]]]];
      destruct (Hnth j tj Hj) as [[-> ->]|[Hnj [tj0 [Hj0 Hhj0]]]].
    + reflexivity.
    + exfalso. assert (Hm : m2 = true) by (apply (Hown j tj0 Hj0); congruence).
      destruct Hcase as [[Hh _]|[[Hf _]|[_ [Hh _]]]]; [|congruence|congruence].
      apply Hnj. apply (Huniq j k tj0 t Hj0 Hk); congruence.
    + exfalso. assert (Hm : m2 = true) by (apply (Hown i ti0 Hi0); congruence).
      destruct Hcase as [[Hh _]|[[Hf _]|[_ [Hh _]]]]; [|congruence|congruence].
      apply Hni. apply (Huniq i k ti0 t Hi0 Hk); congruence.
    + apply (Huniq i j ti0 tj0 Hi0 Hj0); congruence.
Qed.

Lemma m2_ok_create m2 ts :
  m2_ok m2 ts -> m2_ok m2 (ts ++ [mkThread CopyLine [] 0]).
Proof.
  intros [Hheld [Hown Huniq]].
  assert (Hnth : forall j tj, nth_error (ts ++ [mkThread CopyLine [] 0]) j = Some tj ->
                   holds2 (t_pc tj) = true -> nth_error ts j = Some tj).
  { intros j tj Hj Hh. destruct (Nat.lt_ge_cases j (length ts)) as [Hlt|Hge].
    - now rewrite nth_error_app1 in Hj.
    - rewrite nth_error_app2 in Hj by exact Hge.
      destruct (j - length ts)%nat as [|d]; simpl in Hj.
      + injection Hj as <-. discriminate Hh.
      + destruct d; discriminate Hj. }
  repeat split.
  - intros Hm. destruct (Hheld Hm) as [j [tj [Hj Hh]]]. exists j, tj. split; [|exact Hh].
    rewrite nth_error_app1; [exact Hj|]. apply nth_error_Some. congruence.
  - intros j tj Hj Hh. eapply Hown; [apply (Hnth j tj Hj Hh)|exact Hh].
  - intros i j ti tj Hi Hj Hhi Hhj. eapply Huniq; eauto.
Qed.

Section Steps.
Variable cs : bool.
Variable inputLines : list str.
Hypothesis Hmax : Z.of_nat (threadSize inputLines) <= INT_MAX.

Local Abbreviation tinv := (tinv cs inputLines).
Local Abbreviation inv := (inv cs inputLines).
Local Abbreviation main_inv := (main_inv inputLines).
Local Abbreviation blocks := (blocks cs inputLines).
Local Abbreviation line_of := (line_of inputLines).
Local Abbreviation own := (own inputLines).
Local Abbreviation N := (threadSize inputLines).

Lemma blocks_S k :
  blocks (S k) = blocks k ++ map (pair (Z.of_nat k)) (display cs (line_of k)).
Proof.
  unfold Coordinator.blocks. rewrite seq_S, flat_map_app. simpl.
  now rewrite app_nil_r.
Qed.

Lemma created_le s : main_inv s -> (length (threads s) <= N)%nat.
Proof.
  unfold CoordinatorInv.main_inv. destruct (main_pc s); intros H; lia.
Qed.

(** ** Frame lemmas for the invariant of one worker *)

Lemma tinv_frame s s' j tj :
  (copying (t_pc tj) = true ->
     sd_line s' = sd_line s /\ sd_id s' = sd_id s /\ mutex1 s' = mutex1 s
     /\ setting (main_pc s') = setting (main_pc s)
     /\ length (threads s') = length (threads s)) ->
  counter s' = counter s ->
  (turn (t_pc tj) = true -> out s' = out s) ->
  (broadcasting s -> broadcasting s') ->
  tinv s j tj -> tinv s' j tj.
Proof.
  unfold CoordinatorInv.tinv, handoff. intros Hc Hn Ho Hb.
  destruct (t_pc tj); simpl in *; rewrite ?Hn;
    try (destruct (Hc eq_refl) as [E1 [E2 [E3 [E4 E5]]]]; rewrite ?E1, ?E2, ?E3, ?E4, ?E5);
    try rewrite (Ho eq_refl); tauto.
Qed.

(** [pthread_cond_broadcast] by another worker. *)
Lemma tinv_wake s s' j tj :
  (copying (t_pc tj) = true ->
     sd_line s' = sd_line s /\ sd_id s' = sd_id s /\ mutex1 s' = mutex1 s
     /\ setting (main_pc s') = setting (main_pc s)
     /\ length (threads s') = length (threads s)) ->
  counter s' = counter s ->
  out s' = out s ->
  tinv s j tj -> tinv s' j (wake tj).
Proof.
  intros Hc Hn Ho H.
  destruct (wake_pc_cases tj) as [[Hw Hw']|[Hw ->]].
  - unfold CoordinatorInv.tinv in *. rewrite Hw in H. rewrite Hw'.
    destruct (wake_locals tj) as [Hl Hi].
    unfold CoordinatorInv.own in *. rewrite Hl, Hi, Hn. tauto.
  - revert H. unfold CoordinatorInv.tinv, handoff.
    destruct (t_pc tj); simpl in *; rewrite ?Hn, ?Ho;
      try (destruct (Hc eq_refl) as [E1 [E2 [E3 [E4 E5]]]]; rewrite ?E1, ?E2, ?E3, ?E4, ?E5);
      tauto.
Qed.

(** The increment of the counter by the worker whose turn it is, seen
    from another worker. *)
Lemma tinv_incr s s' j tj :
  (copying (t_pc tj) = true ->
     sd_line s' = sd_line s /\ sd_id s' = sd_id s /\ mutex1 s' = mutex1 s
     /\ setting (main_pc s') = setting (main_pc s)
     /\ length (threads s') = length (threads s)) ->
  counter s' = counter s + 1 ->
  counter s <> Z.of_nat j ->
  broadcasting s' ->
  tinv s j tj -> tinv s' j tj.
Proof.
  unfold CoordinatorInv.tinv, handoff. intros Hc Hn Hne Hb.
  destruct (t_pc tj); simpl in *; rewrite ?Hn;
    try (destruct (Hc eq_refl) as [E1 [E2 [E3 [E4 E5]]]]; rewrite ?E1, ?E2, ?E3, ?E4, ?E5);
    intuition lia.
Qed.

Lemma broadcasting_keep s s' k t t' :
  nth_error (threads s) k = Some t -> t_pc t <> Broadcast ->
  threads s' = set_thread k t' (threads s) ->
  broadcasting s -> broadcasting s'.
Proof.
  intros Hk Hpc Hts [j [tj [Hj Hb]]]. exists j, tj. split; [|exact Hb].
  rewrite Hts, (set_thread_nth _ _ _ _ _ Hk).
  destruct (Nat.eqb_spec j k) as [->|_]; [congruence|exact Hj].
Qed.

(** Two workers that are both copying, or both at their turn, are the
    same worker. *)
Lemma copying_unique s j k tj tk :
  tinv s j tj -> tinv s k tk ->
  copying (t_pc tj) = true -> copying (t_pc tk) = true -> j = k.
Proof.
  unfold CoordinatorInv.tinv, handoff.
  destruct (t_pc tj); simpl; try discriminate;
    destruct (t_pc tk); simpl; try discriminate; intuition lia.
Qed.

Lemma turn_counter s k t : tinv s k t -> turn (t_pc t) = true -> counter s = Z.of_nat k.
Proof.
  unfold CoordinatorInv.tinv. destruct (t_pc t); simpl; try discriminate; tauto.
Qed.

Lemma copying_handoff s k t : tinv s k t -> copying (t_pc t) = true -> handoff s k.
Proof.
  unfold CoordinatorInv.tinv. destruct (t_pc t); simpl; try discriminate; tauto.
Qed.

(** ** Steps of a worker that leave the counter alone and wake nobody *)

Lemma inv_local_step s k t t' m1' m2' out' :
  inv s -> nth_error (threads s) k = Some t ->
  t_pc t <> Done -> t_pc t <> Broadcast ->
  (m1' = mutex1 s /\ copying (t_pc t') = copying (t_pc t))
  \/ (copying (t_pc t) = true /\ m1' = false /\ copying (t_pc t') = false) ->
  (holds2 (t_pc t') = holds2 (t_pc t) /\ m2' = mutex2 s)
  \/ (mutex2 s = false /\ holds2 (t_pc t') = true /\ m2' = true)
  \/ (holds2 (t_pc t) = true /\ holds2 (t_pc t') = false /\ m2' = false) ->
  (out' = out s /\ (turn (t_pc t') = true \/ turn (t_pc t) = false))
  \/ (turn (t_pc t) = true /\ turn (t_pc t') = true) ->
  tinv (mkState (sd_line s) (sd_id s) m1' m2' (counter s) (main_pc s)
          (set_thread k t' (threads s)) out') k t' ->
  inv (mkState (sd_line s) (sd_id s) m1' m2' (counter s) (main_pc s)
         (set_thread k t' (threads s)) out').
Proof.
  intros [HT HC HM HO H1 H2] Hk Hnd Hnb Hm1 Hm2 Hout Hnew.
  pose proof (HT k t Hk) as Htk.
  set (s' := mkState (sd_line s) (sd_id s) m1' m2' (counter s) (main_pc s)
               (set_thread k t' (threads s)) out') in *.
  assert (Hother : forall j tj, nth_error (threads s') j = Some tj -> j <> k ->
                                 nth_error (threads s) j = Some tj).
  { intros j tj Hj Hne. simpl in Hj. rewrite (set_thread_nth _ _ _ _ _ Hk) in Hj.
    destruct (Nat.eqb_spec j k); [contradiction|exact Hj]. }
  assert (Hself : nth_error (threads s') k = Some t').
  { simpl. rewrite (set_thread_nth _ _ _ _ _ Hk). now rewrite Nat.eqb_refl. }
  constructor.
  - (* workers *)
    intros j tj Hj. destruct (Nat.eq_dec j k) as [->|Hne].
    { rewrite Hself in Hj. injection Hj as <-. exact Hnew. }
    pose proof (Hother j tj Hj Hne) as Hj0. pose proof (HT j tj Hj0) as Htj.
    apply (tinv_frame s); try reflexivity; try exact Htj.
    + intros Hc. simpl. rewrite set_thread_length.
      destruct Hm1 as [[-> _]|[Hck _]]; [repeat split; reflexivity|].
      elim Hne. exact (copying_unique s j k tj t Htj Htk Hc Hck).
    + intros Hturn. simpl. destruct Hout as [[-> _]|[Hturnk _]]; [reflexivity|].
      elim Hne. pose proof (turn_counter s j tj Htj Hturn).
      pose proof (turn_counter s k t Htk Hturnk). lia.
    + apply (broadcasting_keep s s' k t t' Hk Hnb). reflexivity.
  - (* counter *)
    simpl. now rewrite set_thread_length.
  - (* main *)
    revert HM. unfold CoordinatorInv.main_inv. simpl. rewrite set_thread_length.
    assert (Hdone : forall (P : nat -> Prop),
               (forall i t0, P i -> nth_error (threads s) i = Some t0 -> t_pc t0 = Done) ->
               forall i t0, P i -> nth_error (set_thread k t' (threads s)) i = Some t0 ->
                            t_pc t0 = Done).
    { intros P HP i t0 Hi Hn. rewrite (set_thread_nth _ _ _ _ _ Hk) in Hn.
      destruct (Nat.eqb_spec i k) as [->|_]; [|now apply (HP i)].
      elim Hnd. now apply (HP k). }
    assert (Hset : setting (main_pc s) = true -> m1' = mutex1 s).
    { intros Hs. destruct Hm1 as [[-> _]|[Hck _]]; [reflexivity|].
      destruct (copying_handoff s k t Htk Hck) as [_ [_ Hf]]. congruence. }
    destruct (main_pc s) as [i|i|i|i|jn|]; simpl in *; intros HM';
      try rewrite (Hset eq_refl); try exact HM'.
    + destruct HM' as [Hn Hd]. split; [exact Hn|].
      intros x t0 Hx. apply (Hdone (fun x => (x < jn)%nat) Hd x t0 Hx).
    + destruct HM' as [Hn Hd]. split; [exact Hn|].
      intros x t0. apply (Hdone (fun _ => True) (fun x t0 _ => Hd x t0) x t0 I).
  - (* output *)
    simpl. intros Hno.
    destruct Hout as [[-> [Ht'|Ht]]|[_ Ht']];
      try (specialize (Hno k t' Hself); simpl in Hno; congruence).
    apply HO. intros j tj Hj. destruct (Nat.eq_dec j k) as [->|Hne].
    + congruence.
    + apply (Hno j tj). simpl. rewrite (set_thread_nth _ _ _ _ _ Hk).
      destruct (Nat.eqb_spec j k); [contradiction|exact Hj].
  - (* mutex1 *)
    simpl. intros Hm. destruct Hm1 as [[-> Hc]|[_ [-> _]]]; [|discriminate].
    destruct (H1 Hm) as [Hs|[j [tj [Hj Hcj]]]]; [now left|right].
    destruct (Nat.eq_dec j k) as [->|Hne].
    + exists k, t'. split; [exact Hself|]. congruence.
    + exists j, tj. split; [|exact Hcj]. rewrite (set_thread_nth _ _ _ _ _ Hk).
      destruct (Nat.eqb_spec j k); [contradiction|exact Hj].
  - (* mutex2 *)
    exact (m2_ok_step false _ _ _ _ _ _ H2 Hk Hm2).
Qed.

(** ** The increment and the broadcast *)

Lemma main_inv_threads s s' :
  main_inv s ->
  sd_line s' = sd_line s -> sd_id s' = sd_id s -> main_pc s' = main_pc s ->
  (setting (main_pc s) = true -> mutex1 s' = mutex1 s) ->
  length (threads s') = length (threads s) ->
  (forall j tj', nth_error (threads s') j = Some tj' ->
     exists tj, nth_error (threads s) j = Some tj /\ (t_pc tj = Done -> t_pc tj' = Done)) ->
  main_inv s'.
Proof.
  unfold CoordinatorInv.main_inv. intros HM El Ei Ep Em En Hth.
  rewrite Ep, En, El, Ei.
  destruct (main_pc s) as [i|i|i|i|jn|]; simpl in *;
    try rewrite (Em eq_refl); try exact HM.
  - destruct HM as [Hn Hd]. split; [exact Hn|]. intros x t0 Hx Hnth.
    destruct (Hth x t0 Hnth) as [tj [Hj Himp]]. apply Himp. now apply (Hd x).
  - destruct HM as [Hn Hd]. split; [exact Hn|]. intros x t0 Hnth.
    destruct (Hth x t0 Hnth) as [tj [Hj Himp]]. apply Himp. now apply (Hd x).
Qed.

Lemma wake_set_nth s k t t' j tj' :
  nth_error (threads s) k = Some t ->
  nth_error (set_thread k t' (map wake (threads s))) j = Some tj' ->
  (j = k /\ tj' = t')
  \/ (j <> k /\ exists tj, nth_error (threads s) j = Some tj /\ tj' = wake tj).
Proof.
  intros Hk Hj.
  assert (Hk' : nth_error (map wake (threads s)) k = Some (wake t))
    by (rewrite nth_error_wake, Hk; reflexivity).
  rewrite (set_thread_nth _ _ _ _ _ Hk') in Hj.
  destruct (Nat.eqb_spec j k) as [->|Hne].
  - left. split; [reflexivity|congruence].
  - right. split; [exact Hne|]. rewrite nth_error_wake in Hj.
    destruct (nth_error (threads s) j) as [tj|]; [|discriminate].
    exists tj. split; [reflexivity|]. simpl in Hj. congruence.
Qed.

Lemma wake_set_self s k t t' :
  nth_error (threads s) k = Some t ->
  nth_error (set_thread k t' (map wake (threads s))) k = Some t'.
Proof.
  intros Hk.
  assert (Hk' : nth_error (map wake (threads s)) k = Some (wake t))
    by (rewrite nth_error_wake, Hk; reflexivity).
  rewrite (set_thread_nth _ _ _ _ _ Hk'). now rewrite Nat.eqb_refl.
Qed.

Lemma wake_set_other s k t t' j tj :
  nth_error (threads s) k = Some t -> j <> k ->
  nth_error (threads s) j = Some tj ->
  nth_error (set_thread k t' (map wake (threads s))) j = Some (wake tj).
Proof.
  intros Hk Hne Hj.
  assert (Hk' : nth_error (map wake (threads s)) k = Some (wake t))
    by (rewrite nth_error_wake, Hk; reflexivity).
  rewrite (set_thread_nth _ _ _ _ _ Hk').
  destruct (Nat.eqb_spec j k); [contradiction|].
  rewrite nth_error_wake, Hj. reflexivity.
Qed.

Lemma inv_incr_step s k t :
  inv s -> nth_error (threads s) k = Some t -> t_pc t = Incr ->
  inv (mkState (sd_line s) (sd_id s) (mutex1 s) (mutex2 s) (wrap_int (counter s + 1))
         (main_pc s) (set_thread k (at_pc Broadcast t) (threads s)) (out s)).
Proof.
  intros [HT HC HM HO H1 H2] Hk Hpc.
  pose proof (HT k t Hk) as Htk.
  assert (Hturn : own t k /\ counter s = Z.of_nat k /\ out s = blocks (S k)).
  { revert Htk. unfold CoordinatorInv.tinv. now rewrite Hpc. }
  destruct Hturn as [Hown [Hc Ho]].
  assert (Hkn : (k < length (threads s))%nat) by (apply nth_error_Some; congruence).
  pose proof (created_le s HM) as HnN.
  rewrite wrap_int_small by (unfold INT_MIN, INT_MAX in *; lia).
  set (s' := mkState (sd_line s) (sd_id s) (mutex1 s) (mutex2 s) (counter s + 1)
               (main_pc s) (set_thread k (at_pc Broadcast t) (threads s)) (out s)).
  assert (Hself : nth_error (threads s') k = Some (at_pc Broadcast t)).
  { simpl. rewrite (set_thread_nth _ _ _ _ _ Hk). now rewrite Nat.eqb_refl. }
  assert (Hother : forall j tj, j <> k ->
             (nth_error (threads s') j = Some tj <-> nth_error (threads s) j = Some tj)).
  { intros j tj Hne. simpl. rewrite (set_thread_nth _ _ _ _ _ Hk).
    destruct (Nat.eqb_spec j k); [contradiction|reflexivity]. }
  constructor.
  - intros j tj Hj. destruct (Nat.eq_dec j k) as [->|Hne].
    + rewrite Hself in Hj. injection Hj as <-.
      unfold CoordinatorInv.tinv. simpl. split; [exact Hown|lia].
    + apply Hother in Hj; [|exact Hne].
      apply (tinv_incr s); try reflexivity.
      * intros _. simpl. rewrite set_thread_length. repeat split; reflexivity.
      * lia.
      * exists k, (at_pc Broadcast t). split; [exact Hself|reflexivity].
      * now apply HT.
  - simpl. rewrite set_thread_length. lia.
  - apply (main_inv_threads s); try reflexivity; try exact HM.
    + simpl. apply set_thread_length.
    + intros j tj' Hj. destruct (Nat.eq_dec j k) as [->|Hne].
      * exists t. split; [exact Hk|]. rewrite Hpc. discriminate.
      * apply Hother in Hj; [|exact Hne]. exists tj'. now split.
  - simpl. intros _. rewrite Ho. f_equal. lia.
  - simpl. intros Hm. destruct (H1 Hm) as [Hs|[j [tj [Hj Hcj]]]]; [now left|right].
    destruct (Nat.eq_dec j k) as [->|Hne].
    + rewrite Hk in Hj. injection Hj as <-. rewrite Hpc in Hcj. discriminate.
    + exists j, tj. split; [|exact Hcj]. now apply (Hother j tj Hne).
  - apply (m2_ok_step false _ _ _ _ _ _ H2 Hk). left. simpl. rewrite Hpc. now split.
Qed.

Lemma inv_broadcast_step s k t :
  inv s -> nth_error (threads s) k = Some t -> t_pc t = Broadcast ->
  inv (mkState (sd_line s) (sd_id s) (mutex1 s) (mutex2 s) (counter s) (main_pc s)
         (set_thread k (at_pc Unlock2b t) (map wake (threads s))) (out s)).
Proof.
  intros [HT HC HM HO H1 H2] Hk Hpc.
  pose proof (HT k t Hk) as Htk.
  set (s' := mkState (sd_line s) (sd_id s) (mutex1 s) (mutex2 s) (counter s) (main_pc s)
               (set_thread k (at_pc Unlock2b t) (map wake (threads s))) (out s)).
  assert (Hlen : length (threads s') = length (threads s)).
  { simpl. now rewrite set_thread_length, length_map. }
  constructor.
  - intros j tj Hj. simpl in Hj.
    destruct (wake_set_nth s k t _ j tj Hk Hj) as [[-> ->]|[Hne [tj0 [Hj0 ->]]]].
    + revert Htk. unfold CoordinatorInv.tinv. rewrite Hpc. simpl. tauto.
    + apply (tinv_wake s); try reflexivity; [|now apply HT].
      intros _. rewrite Hlen. repeat split; reflexivity.
  - rewrite Hlen. exact HC.
  - apply (main_inv_threads s); try reflexivity; try exact HM; [exact Hlen|].
    intros j tj' Hj. simpl in Hj.
    destruct (wake_set_nth s k t _ j tj' Hk Hj) as [[-> ->]|[Hne [tj0 [Hj0 ->]]]].
    + exists t. split; [exact Hk|]. rewrite Hpc. discriminate.
    + exists tj0. split; [exact Hj0|].
      destruct (wake_pc_cases tj0) as [[Hw _]|[_ ->]]; [congruence|tauto].
  - simpl. intros Hno. apply HO. intros j tj Hj.
    destruct (Nat.eq_dec j k) as [->|Hne].
    + rewrite Hk in Hj. injection Hj as <-. now rewrite Hpc.
    + rewrite <- wake_turn. apply (Hno j (wake tj)).
      now apply (wake_set_other s k t _ j tj Hk Hne).
  - simpl. intros Hm. destruct (H1 Hm) as [Hs|[j [tj [Hj Hcj]]]]; [now left|right].
    destruct (Nat.eq_dec j k) as [->|Hne].
    + rewrite Hk in Hj. injection Hj as <-. rewrite Hpc in Hcj. discriminate.
    + exists j, (wake tj). split; [now apply (wake_set_other s k t _ j tj Hk Hne)|].
      now rewrite wake_copying.
  - apply (m2_ok_step true _ _ _ _ _ _ H2 Hk). left. simpl. rewrite Hpc. now split.
Qed.

(** ** Every step preserves the invariant *)

(** When the counter shows [k] and worker [k] has not passed the test,
    the console holds the blocks of the lines before [k]. *)
Lemma out_before_turn s k t :
  inv s -> nth_error (threads s) k = Some t ->
  turn (t_pc t) = false -> counter s = Z.of_nat k -> out s = blocks k.
Proof.
  intros [HT HC HM HO H1 H2] Hk Hturn Hc.
  rewrite HO; [f_equal; lia|].
  intros j tj Hj. destruct (turn (t_pc tj)) eqn:E; [|reflexivity].
  pose proof (turn_counter s j tj (HT j tj Hj) E) as Hcj.
  assert (j = k) by lia. subst j. congruence.
Qed.

Ltac local_step Hinv Hk Hpc :=
  apply (inv_local_step _ _ _ _ _ _ _ Hinv Hk);
  [ rewrite Hpc; discriminate
  | rewrite Hpc; discriminate
  | try (left; split; [reflexivity|rewrite Hpc; reflexivity])
  | try (left; split; [rewrite Hpc; reflexivity|reflexivity])
  | try (left; split; [reflexivity|]; rewrite Hpc; simpl; auto; fail)
  | ].

Lemma inv_thread_step s s' k t :
  inv s -> nth_error (threads s) k = Some t -> thread_step cs k t s s' -> inv s'.
Proof.
  intros Hinv Hk Hstep.
  pose proof (inv_threads _ _ _ Hinv k t Hk) as Htk.
  unfold CoordinatorInv.tinv in Htk.
  destruct Hstep as [s Hpc|s Hpc|s Hpc|s Hpc|s Hpc Hm|s Hpc Hg|s Hpc Hg|s Hpc Hm
                    |s Hpc|s x rest Hpc|s Hpc|s Hpc Hm|s Hpc|s Hpc|s Hpc];
    rewrite Hpc in Htk.
  - (* CopyLine *)
    local_step Hinv Hk Hpc.
    unfold CoordinatorInv.tinv, handoff in *. simpl. rewrite set_thread_length. tauto.
  - (* CopyId *)
    local_step Hinv Hk Hpc.
    unfold CoordinatorInv.tinv, handoff, CoordinatorInv.own in *. simpl.
    rewrite set_thread_length. tauto.
  - (* Unlock1 *)
    local_step Hinv Hk Hpc.
    + right. rewrite Hpc. simpl. auto.
    + unfold CoordinatorInv.tinv, CoordinatorInv.own in *. simpl. tauto.
  - (* Encode *)
    local_step Hinv Hk Hpc.
    unfold CoordinatorInv.tinv, CoordinatorInv.own in *. simpl. tauto.
  - (* Lock2a *)
    local_step Hinv Hk Hpc.
    + right. left. auto.
    + unfold CoordinatorInv.tinv, CoordinatorInv.own in *. simpl. tauto.
  - (* Check, wait *)
    local_step Hinv Hk Hpc.
    + right. right. rewrite Hpc. simpl. auto.
    + unfold CoordinatorInv.tinv, CoordinatorInv.own in *. simpl.
      destruct Htk as [[Hl Hi] Hc]. repeat split; auto. intros Hck. congruence.
  - (* Check, pass *)
    local_step Hinv Hk Hpc.
    unfold CoordinatorInv.tinv, CoordinatorInv.own in *. simpl.
    destruct Htk as [[Hl Hi] Hc]. repeat split; auto; [congruence|].
    apply (out_before_turn s k t Hinv Hk); [now rewrite Hpc|congruence].
  - (* re-acquire *)
    local_step Hinv Hk Hpc.
    + right. left. auto.
    + unfold CoordinatorInv.tinv, CoordinatorInv.own in *. simpl. tauto.
  - (* Unlock2a *)
    local_step Hinv Hk Hpc.
    + right. right. rewrite Hpc. simpl. auto.
    + unfold CoordinatorInv.tinv, CoordinatorInv.own in *. simpl.
      destruct Htk as [[Hl Hi] [Hc Ho]]. repeat split; auto.
      exists []. simpl. rewrite app_nil_r. split; congruence.
  - (* Print *)
    local_step Hinv Hk Hpc.
    + right. rewrite Hpc. simpl. auto.
    + unfold CoordinatorInv.tinv, CoordinatorInv.own in *. simpl.
      destruct Htk as [[Hl Hi] [Hc [done [Hd Ho]]]]. repeat split; auto.
      exists (done ++ [x]). rewrite <- app_assoc. split; [exact Hd|].
      rewrite Ho, Hi, map_app, <- app_assoc. reflexivity.
  - (* end of the printing block *)
    local_step Hinv Hk Hpc.
    unfold CoordinatorInv.tinv, CoordinatorInv.own in *. simpl.
    destruct Htk as [[Hl Hi] [Hc [done [Hd Ho]]]]. repeat split; auto.
    rewrite blocks_S, Hd, app_nil_r. exact Ho.
  - (* Lock2b *)
    local_step Hinv Hk Hpc.
    + right. left. auto.
    + unfold CoordinatorInv.tinv, CoordinatorInv.own in *. simpl. tauto.
  - (* Incr *)
    now apply inv_incr_step.
  - (* Broadcast *)
    now apply inv_broadcast_step.
  - (* Unlock2b *)
    local_step Hinv Hk Hpc.
    + right. right. rewrite Hpc. simpl. auto.
    + unfold CoordinatorInv.tinv, CoordinatorInv.own in *. simpl. tauto.
Qed.

Lemma inv_spurious s s' : inv s -> spurious_wakeup s s' -> inv s'.
Proof.
  intros Hinv Hsp. revert Hinv. destruct Hsp as [s k t Hk Hpc]. intros Hinv.
  pose proof (inv_threads _ _ _ Hinv k t Hk) as Htk.
  unfold CoordinatorInv.tinv in Htk. rewrite Hpc in Htk.
  local_step Hinv Hk Hpc.
  unfold CoordinatorInv.tinv, CoordinatorInv.own in *. simpl. tauto.
Qed.

Lemma tinv_main_frame s s' j tj :
  (copying (t_pc tj) = true ->
     sd_line s' = sd_line s /\ sd_id s' = sd_id s /\ mutex1 s' = mutex1 s
     /\ setting (main_pc s') = setting (main_pc s)) ->
  threads s' = threads s -> counter s' = counter s -> out s' = out s ->
  tinv s j tj -> tinv s' j tj.
Proof.
  intros Hc Ht Hn Ho. apply tinv_frame; auto.
  - intros Hcop. destruct (Hc Hcop) as [E1 [E2 [E3 E4]]]. rewrite Ht. auto.
  - unfold broadcasting. now rewrite Ht.
Qed.

Lemma inv_main_step s s' : inv s -> main_step inputLines s s' -> inv s'.
Proof.
  intros Hinv Hstep. revert Hinv.
  destruct Hstep as [s i Hpc Hi Hm|s i Hpc Hi|s i Hpc|s i Hpc|s i Hpc|s i t Hpc Hi Ht Hd
                    |s i Hpc Hi];
    intros [HT HC HM HO H1 H2];
    pose proof HM as HM0; unfold CoordinatorInv.main_inv in HM0; rewrite Hpc in HM0;
    simpl in HM0.
  - (* lock mutex1 *)
    constructor; simpl; auto.
    + intros j tj Hj. apply (tinv_main_frame s); [|reflexivity|reflexivity|reflexivity|now apply HT].
      intros Hc. destruct (copying_handoff s j tj (HT j tj Hj) Hc) as [Hm1 _]. congruence.
    + unfold CoordinatorInv.main_inv. simpl. tauto.
  - (* leave the loop *)
    constructor; simpl; auto.
    + intros j tj Hj. apply (tinv_main_frame s); [|reflexivity|reflexivity|reflexivity|now apply HT].
      intros _. simpl. rewrite Hpc. auto.
    + unfold CoordinatorInv.main_inv. simpl. split; [lia|]. intros k t Hk. lia.
    + intros Hm. destruct (H1 Hm) as [Hs|He]; [|now right].
      rewrite Hpc in Hs. discriminate.
  - (* sharedData.line *)
    constructor; simpl; auto.
    + intros j tj Hj. apply (tinv_main_frame s); [|reflexivity|reflexivity|reflexivity|now apply HT].
      intros Hc. destruct (copying_handoff s j tj (HT j tj Hj) Hc) as [_ [_ Hs]].
      rewrite Hpc in Hs. discriminate.
    + unfold CoordinatorInv.main_inv. simpl. tauto.
  - (* sharedData.id *)
    constructor; simpl; auto.
    + intros j tj Hj. apply (tinv_main_frame s); [|reflexivity|reflexivity|reflexivity|now apply HT].
      intros Hc. destruct (copying_handoff s j tj (HT j tj Hj) Hc) as [_ [_ Hs]].
      rewrite Hpc in Hs. discriminate.
    + unfold CoordinatorInv.main_inv. simpl. tauto.
  - (* pthread_create *)
    destruct HM0 as [Hn [HiN [Hm1 [Hl Hid]]]].
    assert (Hnth : forall j tj,
               nth_error (threads s ++ [mkThread CopyLine [] 0]) j = Some tj ->
               nth_error (threads s) j = Some tj
               \/ (j = length (threads s) /\ tj = mkThread CopyLine [] 0)).
    { intros j tj Hj. destruct (Nat.lt_ge_cases j (length (threads s))) as [Hlt|Hge].
      - left. now rewrite nth_error_app1 in Hj.
      - right. rewrite nth_error_app2 in Hj by exact Hge.
        destruct (j - length (threads s))%nat as [|d] eqn:E; simpl in Hj.
        + split; [lia|congruence].
        + destruct d; discriminate Hj. }
    assert (Hold : forall j tj, nth_error (threads s) j = Some tj ->
               nth_error (threads s ++ [mkThread CopyLine [] 0]) j = Some tj).
    { intros j tj Hj. rewrite nth_error_app1; [exact Hj|].
      apply nth_error_Some. congruence. }
    constructor; simpl.
    + intros j tj Hj. destruct (Hnth j tj Hj) as [Hj0|[-> ->]].
      * apply (tinv_frame s); try reflexivity; [| |now apply HT].
        -- intros Hc. destruct (copying_handoff s j tj (HT j tj Hj0) Hc) as [_ [_ Hs]].
           rewrite Hpc in Hs. discriminate.
        -- intros [x [tx [Hx Hb]]]. exists x, tx. split; [now apply Hold|exact Hb].
      * unfold CoordinatorInv.tinv, handoff. simpl.
        rewrite length_app. simpl. rewrite Hn.
        repeat split; try assumption; lia.
    + rewrite length_app. simpl. lia.
    + unfold CoordinatorInv.main_inv. simpl. rewrite length_app. simpl. lia.
    + intros Hno. apply HO. intros j tj Hj. apply (Hno j tj). now apply Hold.
    + intros _. right. exists (length (threads s)), (mkThread CopyLine [] 0).
      split; [|reflexivity]. rewrite nth_error_app2 by lia.
      now rewrite Nat.sub_diag.
    + now apply m2_ok_create.
  - (* pthread_join *)
    constructor; simpl; auto.
    + intros j tj Hj. apply (tinv_main_frame s); [|reflexivity|reflexivity|reflexivity|now apply HT].
      intros _. simpl. rewrite Hpc. auto.
    + unfold CoordinatorInv.main_inv. simpl. destruct HM0 as [Hn Hdone].
      split; [exact Hn|]. intros k t0 Hk Hk0.
      destruct (Nat.eq_dec k i) as [->|Hne]; [congruence|].
      apply (Hdone k t0); [lia|exact Hk0].
    + intros Hm. destruct (H1 Hm) as [Hs|He]; [|now right].
      rewrite Hpc in Hs. discriminate.
  - (* all joined *)
    constructor; simpl; auto.
    + intros j tj Hj. apply (tinv_main_frame s); [|reflexivity|reflexivity|reflexivity|now apply HT].
      intros _. simpl. rewrite Hpc. auto.
    + unfold CoordinatorInv.main_inv. simpl. destruct HM0 as [Hn Hdone].
      split; [exact Hn|]. intros k t0 Hk0. apply (Hdone k t0); [|exact Hk0].
      assert (k < length (threads s))%nat by (apply nth_error_Some; congruence). lia.
    + intros Hm. destruct (H1 Hm) as [Hs|He]; [|now right].
      rewrite Hpc in Hs. discriminate.
Qed.

Lemma inv_init : inv init.
Proof.
  constructor; simpl.
  - intros [|k] t H; discriminate H.
  - lia.
  - unfold CoordinatorInv.main_inv. simpl. split; [reflexivity|lia].
  - reflexivity.
  - discriminate.
  - repeat split.
    + discriminate.
    + intros [|k] t H; discriminate H.
    + intros [|j] k tj tk H; discriminate H.
Qed.

Lemma inv_step s s' : inv s -> step cs inputLines s s' -> inv s'.
Proof.
  intros Hinv Hs. revert Hinv. destruct Hs as [a b Hp|a b Hsp]; intros Hinv.
  - revert Hinv. destruct Hp as [a b Hm|a b k t Hk Ht]; intros Hinv.
    + now apply (inv_main_step a).
    + now apply (inv_thread_step a b k t).
  - now apply (inv_spurious a).
Qed.

(** The invariant holds in every state of every run. *)
Lemma reachable_inv s : reachable cs inputLines s -> inv s.
Proof.
  induction 1 as [|s s' Hr IH Hs]; [apply inv_init|now apply (inv_step s)].
Qed.

(** ** What has been printed *)

Lemma emitted_app a b : emitted (a ++ b) = emitted a ++ emitted b.
Proof.
  induction a as [|[i p] a IH]; simpl; [reflexivity|].
  destruct p; simpl; now rewrite IH.
Qed.

Lemma emitted_tail K l : Forall not_message l -> emitted (map (pair K) l) = [].
Proof.
  induction 1 as [|p l Hp Hl IH]; simpl; [reflexivity|].
  destruct p; simpl in *; [contradiction|exact IH..].
Qed.

Lemma display_shape l :
  exists tail, display cs l = PMessage l :: tail /\ Forall not_message tail.
Proof.
  unfold display. simpl. eexists. split; [reflexivity|].
  repeat constructor. apply Forall_app. split.
  - apply Forall_forall. intros p Hp. apply in_map_iff in Hp.
    destruct Hp as [e [<- _]]. exact I.
  - repeat constructor.
Qed.

Lemma emitted_display K l : emitted (map (pair K) (display cs l)) = [K].
Proof.
  destruct (display_shape l) as [tail [-> Ht]]. simpl. now rewrite emitted_tail.
Qed.

Lemma emitted_blocks n : emitted (blocks n) = map Z.of_nat (seq 0 n).
Proof.
  induction n as [|n IH]; [reflexivity|].
  rewrite blocks_S, emitted_app, IH, emitted_display, seq_S, map_app. reflexivity.
Qed.

Lemma emitted_partial K l done rest :
  display cs l = done ++ rest ->
  emitted (map (pair K) done) = [] \/ emitted (map (pair K) done) = [K].
Proof.
  intros Hd. destruct (display_shape l) as [tail [Hs Ht]]. rewrite Hs in Hd.
  destruct done as [|p done]; [now left|right].
  simpl in Hd. injection Hd as <- Htail. simpl.
  rewrite emitted_tail; [reflexivity|].
  rewrite Htail in Ht. apply Forall_app in Ht. tauto.
Qed.

Lemma turn_decide (ts : list thread) :
  (forall k t, nth_error ts k = Some t -> turn (t_pc t) = false)
  \/ (exists k t, nth_error ts k = Some t /\ turn (t_pc t) = true).
Proof.
  induction ts as [|x ts [IH|[k [t [Hk Ht]]]]].
  - left. intros [|k] t H; discriminate H.
  - destruct (turn (t_pc x)) eqn:E.
    + right. exists 0%nat, x. now split.
    + left. intros [|k] t H; simpl in H; [congruence|now apply (IH k)].
  - right. exists (S k), t. now split.
Qed.

(** At every moment the indices seen at the console are [0, 1, ...,
    m - 1] for some [m]. *)
Lemma emitted_prefix s :
  inv s -> exists m, (m <= N)%nat /\ emitted (out s) = map Z.of_nat (seq 0 m).
Proof.
  intros Hinv. pose proof Hinv as [HT HC HM HO H1 H2].
  pose proof (created_le s HM) as HnN.
  destruct (turn_decide (threads s)) as [Hno|[k [t [Hk Ht]]]].
  - exists (Z.to_nat (counter s)). split; [lia|].
    rewrite (HO Hno). apply emitted_blocks.
  - assert (Hkn : (k < length (threads s))%nat) by (apply nth_error_Some; congruence).
    pose proof (HT k t Hk) as Htk. unfold CoordinatorInv.tinv in Htk.
    destruct (t_pc t) eqn:E; simpl in Ht; try discriminate.
    + exists k. split; [lia|]. destruct Htk as [_ [_ ->]]. apply emitted_blocks.
    + destruct Htk as [_ [_ [done [Hd ->]]]]. rewrite emitted_app, emitted_blocks.
      destruct (emitted_partial (Z.of_nat k) _ _ _ Hd) as [->| ->].
      * exists k. split; [lia|]. now rewrite app_nil_r.
      * exists (S k). split; [lia|]. now rewrite seq_S, map_app.
    + exists (S k). split; [lia|]. destruct Htk as [_ [_ ->]]. apply emitted_blocks.
    + exists (S k). split; [lia|]. destruct Htk as [_ [_ ->]]. apply emitted_blocks.
Qed.

(** When [main] returns, the console holds the blocks of all lines in
    input order. *)
Lemma out_at_exit s : inv s -> main_pc s = MExit -> out s = blocks N.
Proof.
  intros [HT HC HM HO H1 H2] Hpc.
  unfold CoordinatorInv.main_inv in HM. rewrite Hpc in HM. destruct HM as [Hn Hdone].
  rewrite HO.
  - f_equal. destruct N as [|n'] eqn:EN; [lia|].
    destruct (nth_error (threads s) n') as [t|] eqn:Ht.
    + pose proof (HT n' t Ht) as Htk. unfold CoordinatorInv.tinv in Htk.
      rewrite (Hdone n' t Ht) in Htk. lia.
    + apply nth_error_None in Ht. lia.
  - intros k t Hk. now rewrite (Hdone k t Hk).
Qed.

(** ** Progress *)

Lemma thread_can_step s k t :
  blockedb s t = false -> exists s', thread_step cs k t s s'.
Proof.
  unfold blockedb. intros Hb.
  destruct (t_pc t) as [| | | | | | | | |rest| | | | |] eqn:E; try discriminate Hb.
  - eexists. now apply StepCopyLine.
  - eexists. now apply StepCopyId.
  - eexists. now apply StepUnlock1.
  - eexists. now apply StepEncode.
  - eexists. now apply StepLock2a.
  - destruct (Z.eq_dec (t_localID t) (counter s)).
    + eexists. now apply StepCheckPass.
    + eexists. now apply StepCheckWait.
  - eexists. now apply StepReacquire.
  - eexists. now apply StepUnlock2a.
  - destruct rest as [|x rest].
    + eexists. now apply StepPrintEnd.
    + eexists. now apply (StepPrint cs k t s x rest).
  - eexists. now apply StepLock2b.
  - eexists. now apply StepIncr.
  - eexists. now apply StepBroadcast.
  - eexists. now apply StepUnlock2b.
Qed.

Lemma forallb_false {A : Type} (f : A -> bool) (l : list A) :
  forallb f l = false -> exists x, In x l /\ f x = false.
Proof.
  induction l as [|a l IH]; simpl; [discriminate|].
  destruct (f a) eqn:E; simpl.
  - intros H. destruct (IH H) as [x [Hx Hf]]. exists x. split; [now right|exact Hf].
  - intros _. exists a. split; [now left|exact E].
Qed.

(** As long as [main] has not returned, [main] or some worker can take
    a step of the program; no wake-up is lost. *)
Lemma progress s :
  inv s -> main_pc s <> MExit -> exists s', program_step cs inputLines s s'.
Proof.
  intros [HT HC HM HO H1 H2] Hne.
  destruct (forallb (blockedb s) (threads s)) eqn:Eall.
  2:{ destruct (forallb_false _ _ Eall) as [t [Hin Hb]].
      destruct (In_nth_error _ _ Hin) as [k Hk].
      destruct (thread_can_step s k t Hb) as [s' Hs'].
      exists s'. now apply (StepThread cs inputLines s s' k t). }
  assert (Hblocked : forall k t, nth_error (threads s) k = Some t -> blockedb s t = true).
  { intros k t Hk. rewrite forallb_forall in Eall. apply Eall.
    now apply (nth_error_In _ k). }
  assert (Hm2 : mutex2 s = false).
  { destruct (mutex2 s) eqn:E; [|reflexivity].
    destruct H2 as [Hheld _]. destruct (Hheld eq_refl) as [k [t [Hk Hh]]].
    pose proof (Hblocked k t Hk) as Hb. unfold blockedb in Hb.
    destruct (t_pc t); simpl in Hh; discriminate. }
  assert (Hrest : forall k t, nth_error (threads s) k = Some t ->
                              t_pc t = Waiting \/ t_pc t = Done).
  { intros k t Hk. pose proof (Hblocked k t Hk) as Hb. unfold blockedb in Hb.
    rewrite Hm2 in Hb. destruct (t_pc t); try discriminate; auto. }
  assert (Hnowait : forall k t, nth_error (threads s) k = Some t -> t_pc t = Done).
  { intros k t Hk. destruct (Hrest k t Hk) as [Hw|Hd]; [exfalso|exact Hd].
    pose proof (HT k t Hk) as Htk. unfold CoordinatorInv.tinv in Htk. rewrite Hw in Htk.
    destruct Htk as [_ [Hck _]].
    assert (Hkn : (k < length (threads s))%nat) by (apply nth_error_Some; congruence).
    destruct (nth_error (threads s) (Z.to_nat (counter s))) as [tc|] eqn:Hc.
    2:{ apply nth_error_None in Hc. lia. }
    pose proof (HT _ tc Hc) as Htc. unfold CoordinatorInv.tinv in Htc.
    destruct (Hrest _ tc Hc) as [Hcw|Hcd].
    - rewrite Hcw in Htc. destruct Htc as [_ [_ Hb]].
      destruct Hb as [j [tj [Hj Hbj]]]; [lia|].
      pose proof (Hblocked j tj Hj) as Hbl. unfold blockedb in Hbl.
      rewrite Hbj in Hbl. discriminate.
    - rewrite Hcd in Htc. lia. }
  unfold CoordinatorInv.main_inv in HM.
  destruct (main_pc s) as [i|i|i|i|j|] eqn:Hpc; [| | | | |congruence].
  - destruct (Nat.lt_ge_cases i N) as [Hlt|Hge].
    + destruct (mutex1 s) eqn:Em1.
      * exfalso. destruct (H1 eq_refl) as [Hs|[k [t [Hk Hc]]]]; [discriminate|].
        rewrite (Hnowait k t Hk) in Hc. discriminate.
      * eexists. apply StepMain. now apply (StepLock1 inputLines s i).
    + eexists. apply StepMain. now apply (StepLoopEnd inputLines s i).
  - eexists. apply StepMain. now apply (StepSetLine inputLines s i).
  - eexists. apply StepMain. now apply (StepSetId inputLines s i).
  - eexists. apply StepMain. now apply (StepCreate inputLines s i).
  - destruct (Nat.lt_ge_cases j N) as [Hlt|Hge].
    + destruct (nth_error (threads s) j) as [t|] eqn:Ht.
      * eexists. apply StepMain.
        apply (StepJoin inputLines s j t Hpc Hlt Ht). now apply (Hnowait j).
      * apply nth_error_None in Ht. lia.
    + eexists. apply StepMain. now apply (StepJoinEnd inputLines s j).
Qed.

(** ** The scheduler used to run the model takes steps of the model *)

Lemma run_thread_sound s s' k t :
  run_thread cs k t s = Some s' -> thread_step cs k t s s'.
Proof.
  unfold run_thread.
  destruct (t_pc t) as [| | | | | | | | |rest| | | | |] eqn:E.
  - intros [= <-]. now apply StepCopyLine.
  - intros [= <-]. now apply StepCopyId.
  - intros [= <-]. now apply StepUnlock1.
  - intros [= <-]. now apply StepEncode.
  - destruct (mutex2 s) eqn:Em; [discriminate|]. intros [= <-]. now apply StepLock2a.
  - destruct (Z.eqb_spec (t_localID t) (counter s)); intros [= <-].
    + now apply StepCheckPass.
    + now apply StepCheckWait.
  - discriminate.
  - destruct (mutex2 s) eqn:Em; [discriminate|]. intros [= <-]. now apply StepReacquire.
  - intros [= <-]. now apply StepUnlock2a.
  - destruct rest as [|x rest]; intros [= <-].
    + now apply StepPrintEnd.
    + now apply (StepPrint cs k t s x rest).
  - destruct (mutex2 s) eqn:Em; [discriminate|]. intros [= <-]. now apply StepLock2b.
  - intros [= <-]. now apply StepIncr.
  - intros [= <-]. now apply StepBroadcast.
  - intros [= <-]. now apply StepUnlock2b.
  - discriminate.
Qed.

Lemma run_main_sound s s' : run_main inputLines s = Some s' -> main_step inputLines s s'.
Proof.
  unfold run_main.
  destruct (main_pc s) as [i|i|i|i|j|] eqn:Hpc.
  - destruct (Nat.ltb_spec i N).
    + destruct (mutex1 s) eqn:Em; [discriminate|]. intros [= <-].
      now apply (StepLock1 inputLines s i).
    + intros [= <-]. now apply (StepLoopEnd inputLines s i).
  - intros [= <-]. now apply (StepSetLine inputLines s i).
  - intros [= <-]. now apply (StepSetId inputLines s i).
  - intros [= <-]. now apply (StepCreate inputLines s i).
  - destruct (Nat.ltb_spec j N).
    + destruct (nth_error (threads s) j) as [t|] eqn:Ht; [|discriminate].
      destruct (t_pc t) eqn:Et; try discriminate. intros [= <-].
      now apply (StepJoin inputLines s j t).
    + intros [= <-]. now apply (StepJoinEnd inputLines s j).
  - discriminate.
Qed.

Lemma first_enabled_sound prefer s s' :
  first_enabled cs inputLines prefer s = Some s' -> program_step cs inputLines s s'.
Proof.
  induction prefer as [|k r IH]; simpl.
  - intros H. apply StepMain. now apply run_main_sound.
  - destruct (nth_error (threads s) k) as [t|] eqn:Hk; [|exact IH].
    destruct (run_thread cs k t s) as [s1|] eqn:Hr; [|exact IH].
    intros [= <-]. apply (StepThread cs inputLines s s1 k t Hk). now apply run_thread_sound.
Qed.

Lemma run_reachable fuel prefer s :
  reachable cs inputLines s -> reachable cs inputLines (run cs inputLines fuel prefer s).
Proof.
  revert s. induction fuel as [|f IH]; intros s Hr; simpl; [exact Hr|].
  destruct (first_enabled cs inputLines prefer s) as [s'|] eqn:E; [|exact Hr].
  apply IH. apply (ReachStep cs inputLines s s' Hr).
  apply StepProgram. now apply (first_enabled_sound prefer).
Qed.
End Steps.
End CoordinatorFacts.

(* ================================================================== *)
(** * Termination of the coordinator *)

Module CoordinatorTermination.
Import Coordinator CoordinatorInv.

Section Measure.
Variable cs : bool.
Variable inputLines : list str.
Hypothesis Hmax : Z.of_nat (threadSize inputLines) <= INT_MAX.

Local Abbreviation thread_rank := (thread_rank cs inputLines).
Local Abbreviation ranks := (ranks cs inputLines).
Local Abbreviation measure := (measure cs inputLines).
Local Abbreviation future := (future cs inputLines).
Local Abbreviation broadcasts_left := (broadcasts_left inputLines).
Local Abbreviation inv := (inv cs inputLines).
Local Abbreviation N := (threadSize inputLines).
Local Abbreviation pending ts := (length (filter before_broadcast ts)).

Local Open Scope nat_scope.

Lemma thread_rank_mono B B' k t : B' <= B -> thread_rank B' k t <= thread_rank B k t.
Proof. intros H. unfold CoordinatorInv.thread_rank. destruct (t_pc t); lia. Qed.

Lemma ranks_mono B B' k ts : B' <= B -> ranks B' k ts <= ranks B k ts.
Proof.
  intros H. revert k. induction ts as [|t r IH]; intros k; simpl; [lia|].
  pose proof (thread_rank_mono B B' k t H). specialize (IH (S k)). lia.
Qed.

Lemma ranks_set_thread B k j t t' ts :
  nth_error ts j = Some t ->
  ranks B k (set_thread j t' ts) + thread_rank B (k + j) t
  = ranks B k ts + thread_rank B (k + j) t'.
Proof.
  revert k j. induction ts as [|x r IH]; intros k j Hj.
  - destruct j; discriminate.
  - destruct j as [|j]; simpl in *.
    + injection Hj as ->. rewrite !Nat.add_0_r. lia.
    + specialize (IH (S k) j Hj). replace (k + S j) with (S k + j) by lia. lia.
Qed.

Lemma ranks_app B k ts t :
  ranks B k (ts ++ [t]) = ranks B k ts + thread_rank B (k + length ts) t.
Proof.
  revert k. induction ts as [|x r IH]; intros k; simpl.
  - rewrite !Nat.add_0_r. lia.
  - rewrite IH. replace (S k + length r) with (k + S (length r)) by lia. lia.
Qed.

Lemma thread_rank_wake B B' k t :
  S B' <= B -> thread_rank B' k (wake t) <= thread_rank B k t.
Proof.
  intros H. unfold wake, CoordinatorInv.thread_rank.
  destruct (t_pc t) eqn:E; cbn [t_pc]; rewrite ?E; lia.
Qed.

Lemma ranks_wake B B' k ts : S B' <= B -> ranks B' k (map wake ts) <= ranks B k ts.
Proof.
  intros H. revert k. induction ts as [|t r IH]; intros k; simpl; [lia|].
  pose proof (thread_rank_wake B B' k t H). specialize (IH (S k)). lia.
Qed.

Lemma pending_set_thread j t t' ts :
  nth_error ts j = Some t ->
  pending (set_thread j t' ts) + (if before_broadcast t then 1 else 0)
  = pending ts + (if before_broadcast t' then 1 else 0).
Proof.
  revert j. induction ts as [|x r IH]; intros j Hj.
  - destruct j; discriminate.
  - destruct j as [|j]; simpl in *.
    + injection Hj as ->. destruct (before_broadcast t), (before_broadcast t'); simpl; lia.
    + specialize (IH j Hj). destruct (before_broadcast x); simpl; lia.
Qed.

Lemma before_broadcast_wake t : before_broadcast (wake t) = before_broadcast t.
Proof. unfold wake, before_broadcast. destruct (t_pc t) eqn:E; simpl; rewrite ?E; reflexivity. Qed.

Lemma pending_wake ts : pending (map wake ts) = pending ts.
Proof.
  induction ts as [|t r IH]; [reflexivity|]. simpl.
  rewrite before_broadcast_wake. destruct (before_broadcast t); simpl; lia.
Qed.

Lemma pending_le ts : pending ts <= length ts.
Proof.
  induction ts as [|t r IH]; [simpl; lia|]. simpl.
  destruct (before_broadcast t); simpl; lia.
Qed.

Lemma pending_app ts t :
  pending (ts ++ [t]) = pending ts + (if before_broadcast t then 1 else 0).
Proof.
  rewrite filter_app, length_app. simpl. destruct (before_broadcast t); reflexivity.
Qed.

Lemma future_step i : i < N -> future i = 20 + length (display cs (line_of inputLines i)) + 3 * N + future (S i).
Proof.
  intros Hi. unfold CoordinatorInv.future.
  replace (N - i) with (S (N - S i)) by lia. reflexivity.
Qed.

Lemma future_end i : N <= i -> future i = 0.
Proof.
  intros Hi. unfold CoordinatorInv.future. replace (N - i) with 0 by lia. reflexivity.
Qed.

(** A step of one worker that leaves the others alone. *)
Lemma measure_local s k t t' sl si m1 m2 c o :
  nth_error (threads s) k = Some t ->
  before_broadcast t' = before_broadcast t ->
  thread_rank (broadcasts_left s) k t' < thread_rank (broadcasts_left s) k t ->
  measure (mkState sl si m1 m2 c (main_pc s) (set_thread k t' (threads s)) o) < measure s.
Proof.
  intros Hk Hb Hr. unfold CoordinatorInv.measure, CoordinatorInv.broadcasts_left. simpl.
  rewrite CoordinatorFacts.set_thread_length.
  pose proof (pending_set_thread k t t' (threads s) Hk) as Hp. rewrite Hb in Hp.
  assert (Hp' : pending (set_thread k t' (threads s)) = pending (threads s)) by lia.
  rewrite Hp'.
  pose proof (ranks_set_thread (broadcasts_left s) 0 k t t' (threads s) Hk) as He.
  unfold CoordinatorInv.broadcasts_left in *. simpl in He. lia.
Qed.

Lemma broadcasts_left_le s : length (threads s) <= N -> broadcasts_left s <= N.
Proof.
  intros H. unfold CoordinatorInv.broadcasts_left. pose proof (pending_le (threads s)). lia.
Qed.

Ltac local_rank Hk Hpc :=
  apply measure_local with (1 := Hk);
  [ unfold before_broadcast, at_pc; cbn [t_pc]; rewrite Hpc; reflexivity
  | unfold CoordinatorInv.thread_rank, at_pc; cbn [t_pc]; rewrite Hpc; cbn [length]; lia ].

(** Every step of a worker decreases the measure. *)
Lemma measure_thread_step s s' k t :
  inv s -> nth_error (threads s) k = Some t -> thread_step cs k t s s' ->
  measure s' < measure s.
Proof.
  intros Hinv Hk Hstep.
  pose proof (inv_threads _ _ _ Hinv k t Hk) as Ht.
  assert (HB : broadcasts_left s <= N).
  { apply broadcasts_left_le. eapply CoordinatorFacts.created_le. apply (inv_main _ _ _ Hinv). }
  revert Hinv Hk Ht HB.
  destruct Hstep as [s Hpc|s Hpc|s Hpc|s Hpc|s Hpc Hm|s Hpc Hc|s Hpc Hc|s Hpc Hm|s Hpc
                    |s x rest Hpc|s Hpc|s Hpc Hm|s Hpc|s Hpc|s Hpc];
    intros Hinv Hk Ht HB; try (local_rank Hk Hpc).
  - (* Unlock2a *)
    unfold tinv in Ht. rewrite Hpc in Ht. destruct Ht as [[Hl _] _].
    apply measure_local with (1 := Hk).
    + unfold before_broadcast, at_pc. cbn [t_pc]. rewrite Hpc. reflexivity.
    + unfold CoordinatorInv.thread_rank, at_pc. cbn [t_pc t_line]. rewrite Hpc, Hl. lia.
  - (* Broadcast *)
    assert (Hw : wake t = t) by (unfold wake; rewrite Hpc; reflexivity).
    assert (Hk' : nth_error (map wake (threads s)) k = Some t).
    { rewrite CoordinatorFacts.nth_error_wake, Hk. simpl. now rewrite Hw. }
    unfold CoordinatorInv.measure, CoordinatorInv.broadcasts_left. simpl.
    rewrite CoordinatorFacts.set_thread_length, length_map.
    pose proof (pending_set_thread k t (at_pc Unlock2b t) _ Hk') as Hp.
    rewrite pending_wake in Hp.
    assert (Hb1 : before_broadcast t = true) by (unfold before_broadcast; now rewrite Hpc).
    assert (Hb2 : before_broadcast (at_pc Unlock2b t) = false) by reflexivity.
    rewrite Hb1, Hb2 in Hp.
    set (B := N - length (threads s) + length (filter before_broadcast (threads s))) in *.
    set (B' := N - length (threads s)
               + length (filter before_broadcast
                           (set_thread k (at_pc Unlock2b t) (map wake (threads s))))) in *.
    assert (HBB : S B' = B) by (unfold B, B'; lia).
    pose proof (ranks_set_thread B' 0 k t (at_pc Unlock2b t) _ Hk') as He.
    pose proof (ranks_wake B B' 0 (threads s) ltac:(lia)) as Hwk.
    assert (Hr1 : thread_rank B' (0 + k) t = 2)
      by (unfold CoordinatorInv.thread_rank; now rewrite Hpc).
    assert (Hr2 : thread_rank B' (0 + k) (at_pc Unlock2b t) = 1) by reflexivity.
    rewrite Hr1, Hr2 in He. lia.
Qed.

(** So does every step of [main]; the creation of a worker trades a part
    of [main]'s rank for the rank of the new worker. *)
Lemma measure_main_step s s' :
  inv s -> main_step inputLines s s' -> measure s' < measure s.
Proof.
  intros Hinv Hstep. pose proof (inv_main _ _ _ Hinv) as Hm.
  revert Hinv Hm.
  destruct Hstep as [s i Hpc Hi Hm1|s i Hpc Hi|s i Hpc|s i Hpc|s i Hpc|s i t Hpc Hi Ht Hd|s i Hpc Hi];
    intros Hinv Hm;
    unfold CoordinatorInv.measure, CoordinatorInv.broadcasts_left; simpl; rewrite Hpc;
    unfold CoordinatorInv.main_rank.
  - lia.
  - rewrite (future_end i Hi). lia.
  - lia.
  - lia.
  - unfold main_inv in Hm. rewrite Hpc in Hm. destruct Hm as (Hn & Hi & _).
    rewrite length_app, pending_app, ranks_app. simpl.
    rewrite (future_step i Hi).
    replace (N - (length (threads s) + 1) + (pending (threads s) + 1))
      with (N - length (threads s) + pending (threads s)) by lia.
    unfold CoordinatorInv.thread_rank. simpl. rewrite Hn. lia.
  - lia.
  - lia.
Qed.

Lemma measure_step s s' :
  inv s -> program_step cs inputLines s s' -> measure s' < measure s.
Proof.
  intros Hinv H. revert Hinv.
  destruct H as [s s' H|s s' k t Hk H]; intros Hinv.
  - apply measure_main_step; assumption.
  - apply measure_thread_step with k t; assumption.
Qed.

Lemma inv_program_steps n s s' :
  inv s -> program_steps cs inputLines n s s' -> inv s'.
Proof.
  intros Hinv H. induction H as [s|n s s1 s2 H1 H2 IH]; [exact Hinv|].
  apply IH. eapply CoordinatorFacts.inv_step; [exact Hmax|exact Hinv|].
  now constructor.
Qed.

(** No run of the program text takes more steps than the measure of the
    state it starts from. *)
Lemma program_steps_bounded n s s' :
  inv s -> program_steps cs inputLines n s s' -> n + measure s' <= measure s.
Proof.
  intros Hinv H. induction H as [s|n s s1 s2 H1 H2 IH]; [lia|].
  pose proof (measure_step s s1 Hinv H1).
  assert (Hinv1 : inv s1).
  { eapply CoordinatorFacts.inv_step; [exact Hmax|exact Hinv|]. now constructor. }
  specialize (IH Hinv1). lia.
Qed.

(** Every run can be continued up to the return of [main]. *)
Lemma program_completes s :
  inv s -> exists n s', program_steps cs inputLines n s s' /\ main_pc s' = MExit.
Proof.
  remember (measure s) as m eqn:Em. revert s Em.
  induction m as [m IH] using lt_wf_ind. intros s Em Hinv.
  assert (Hdec : main_pc s = MExit \/ main_pc s <> MExit).
  { destruct (main_pc s); (now left) || (right; discriminate). }
  destruct Hdec as [Hx|Hx].
  - exists 0, s. split; [constructor|exact Hx].
  - destruct (CoordinatorFacts.progress cs inputLines s Hinv Hx) as [s1 H1].
    pose proof (measure_step s s1 Hinv H1) as Hlt.
    assert (Hinv1 : inv s1).
    { eapply CoordinatorFacts.inv_step; [exact Hmax|exact Hinv|]. now constructor. }
    destruct (IH (measure s1) ltac:(lia) s1 eq_refl Hinv1) as (n & s2 & H2 & Hx2).
    exists (S n), s2. split; [|exact Hx2].
    econstructor; eassumption.
Qed.
End Measure.
End CoordinatorTermination.

(* ================================================================== *)
(** * A long line on which two codes coincide *)

Lemma prefixb_sound (a b : str) : prefixb a b = true -> is_prefix a b.
Proof.
  revert b. induction a as [|x a IH]; intros b H.
  - exists b. reflexivity.
  - destruct b as [|y b]; [discriminate|]. simpl in H.
    apply andb_true_iff in H. destruct H as [Hxy Hp].
    apply Ascii.eqb_eq in Hxy. subst y.
    destruct (IH b Hp) as [t ->]. exists t. reflexivity.
Qed.

Lemma clashb_sound (vec : list CharCode) :
  clashb vec = true ->
  exists x y, In x vec /\ In y vec /\ character x <> character y
              /\ is_prefix (code x) (code y).
Proof.
  induction vec as [|x rest IH]; simpl; [discriminate|].
  intros H. apply orb_true_iff in H. destruct H as [H|H].
  - apply existsb_exists in H. destruct H as [y [Hy Hc]].
    apply andb_true_iff in Hc. destruct Hc as [Hne Hp].
    exists x, y. split; [now left|]. split; [now right|]. split.
    + intros E. rewrite E, Ascii.eqb_refl in Hne. discriminate.
    + now apply prefixb_sound.
  - destruct (IH H) as [a [b [Ha [Hb Hab]]]].
    exists a, b. split; [now right|]. split; [now right|exact Hab].
Qed.

(** Counting a run of one character. *)
Lemma count_run (cs : bool) (a : ascii) (n : nat) (v : Z) :
  1 <= v -> v + Z.of_nat n <= INT_MAX ->
  fold_left (fun m c => count_incr cs c m) (repeat a n) [(a, v)] = [(a, v + Z.of_nat n)].
Proof.
  revert v. induction n as [|n IH]; intros v Hv Hmax.
  - simpl. f_equal. f_equal. lia.
  - cbn [repeat fold_left].
    assert (E : count_incr cs a [(a, v)] = [(a, v + 1)]).
    { unfold count_incr, map_get. simpl. rewrite char_ltb_irrefl.
      rewrite wrap_int_small by (unfold INT_MIN, INT_MAX in *; lia). reflexivity. }
    rewrite E, IH by lia. f_equal. f_equal. lia.
Qed.

Lemma charCountMap_run (cs : bool) (a : ascii) (n : nat) (rest : str) :
  (1 <= n)%nat -> Z.of_nat n <= INT_MAX ->
  charCountMap cs (repeat a n ++ rest)
  = fold_left (fun m c => count_incr cs c m) rest [(a, Z.of_nat n)].
Proof.
  intros Hn Hmax. destruct n as [|n]; [lia|].
  unfold charCountMap. rewrite fold_left_app. f_equal.
  cbn [repeat fold_left].
  assert (E : count_incr cs a [] = [(a, 1)]) by reflexivity.
  rewrite E, count_run by lia. f_equal. f_equal. lia.
Qed.


(* ================================================================== *)
(** * Floating point: bounds on rounded results *)

Lemma digits2_pos_bounds (m : positive) :
  2 ^ (Zpos (digits2_pos m) - 1) <= Zpos m < 2 ^ Zpos (digits2_pos m).
Proof.
  induction m as [m IH|m IH|]; cbn [digits2_pos].
  - rewrite Pos2Z.inj_succ.
    replace (Z.succ (Zpos (digits2_pos m)) - 1) with (Z.succ (Zpos (digits2_pos m) - 1)) by lia.
    rewrite !Z.pow_succ_r by lia. lia.
  - rewrite Pos2Z.inj_succ.
    replace (Z.succ (Zpos (digits2_pos m)) - 1) with (Z.succ (Zpos (digits2_pos m) - 1)) by lia.
    rewrite !Z.pow_succ_r by lia. lia.
  - simpl. lia.
Qed.

Lemma digits2_pos_unique (m : positive) (d : Z) :
  2 ^ (d - 1) <= Zpos m < 2 ^ d -> Zpos (digits2_pos m) = d.
Proof.
  intros [Hlo Hhi]. pose proof (digits2_pos_bounds m) as [Hlo' Hhi'].
  assert (Hd : 0 < d).
  { destruct (Z.lt_ge_cases 0 d) as [H|H]; [exact H|].
    assert (2 ^ d <= 1).
    { destruct (Z.eq_dec d 0) as [->|Hne]; [simpl; lia|].
      rewrite Z.pow_neg_r by lia. lia. }
    lia. }
  destruct (Z.lt_trichotomy (Zpos (digits2_pos m)) d) as [H|[H|H]]; [|exact H|].
  - assert (2 ^ Zpos (digits2_pos m) <= 2 ^ (d - 1)) by (apply Z.pow_le_mono_r; lia). lia.
  - assert (2 ^ d <= 2 ^ (Zpos (digits2_pos m) - 1)) by (apply Z.pow_le_mono_r; lia). lia.
Qed.

Lemma shr_1_m (x : shr_record) : 0 <= shr_m x -> shr_m (shr_1 x) = shr_m x / 2.
Proof.
  destruct x as [m r s]. simpl. intros Hm.
  destruct m as [|p|p]; [reflexivity| |lia].
  destruct p as [p|p|]; simpl.
  - rewrite Pos2Z.inj_xI. apply (Z.div_unique _ 2 _ 1); lia.
  - rewrite Pos2Z.inj_xO. apply (Z.div_unique _ 2 _ 0); lia.
  - reflexivity.
Qed.

Lemma shr_1_r (x : shr_record) : 0 <= shr_m x -> shr_r (shr_1 x) = Z.odd (shr_m x).
Proof.
  destruct x as [m r s]. simpl. intros Hm.
  destruct m as [|p|p]; [reflexivity| |lia].
  destruct p as [p|p|]; reflexivity.
Qed.

Lemma shr_1_s (x : shr_record) : shr_s (shr_1 x) = shr_inexact x.
Proof.
  destruct x as [m r s]. unfold shr_inexact. simpl.
  destruct m as [|p|p]; try reflexivity; destruct p; reflexivity.
Qed.

Lemma shr_1_hi (x : shr_record) : 0 <= shr_m x -> shr_hi (shr_1 x) = (shr_hi x + 1) / 2.
Proof.
  intros Hm. unfold shr_hi, shr_inexact at 1.
  rewrite shr_1_m, shr_1_r, shr_1_s by exact Hm.
  pose proof (Z.div_mod (shr_m x) 2 ltac:(lia)) as Hdm.
  pose proof (Z.mod_pos_bound (shr_m x) 2 ltac:(lia)) as Hb.
  rewrite Zmod_odd in Hdm, Hb.
  destruct (shr_inexact x).
  - rewrite orb_true_r. destruct (Z.odd (shr_m x)).
    + apply (Z.div_unique _ 2 _ 1); lia.
    + apply (Z.div_unique _ 2 _ 0); lia.
  - rewrite orb_false_r. destruct (Z.odd (shr_m x)).
    + apply (Z.div_unique _ 2 _ 0); lia.
    + apply (Z.div_unique _ 2 _ 1); lia.
Qed.

Lemma Zdigits2_unique (m d : Z) : 0 < m -> 2 ^ (d - 1) <= m < 2 ^ d -> Zdigits2 m = d.
Proof.
  intros Hm H. destruct m as [|p|p]; try lia. simpl. now apply digits2_pos_unique.
Qed.

Lemma iter_pos_nat {A : Type} (f : A -> A) (p : positive) (x : A) :
  iter_pos f p x = Nat.iter (Pos.to_nat p) f x.
Proof.
  revert x. induction p as [p IH|p IH|]; intros x; cbn [iter_pos].
  - rewrite !IH, Pos2Nat.inj_xI.
    replace (S (2 * Pos.to_nat p)) with (Pos.to_nat p + (Pos.to_nat p + 1))%nat by lia.
    rewrite !Nat.iter_add. reflexivity.
  - rewrite !IH, Pos2Nat.inj_xO.
    replace (2 * Pos.to_nat p)%nat with (Pos.to_nat p + Pos.to_nat p)%nat by lia.
    rewrite Nat.iter_add. reflexivity.
  - reflexivity.
Qed.

Lemma iter_pos_shr_n (p : positive) (x : shr_record) :
  iter_pos shr_1 p x = shr_n (Pos.to_nat p) x.
Proof.
  rewrite iter_pos_nat. induction (Pos.to_nat p) as [|n IH]; [reflexivity|].
  simpl. now rewrite IH.
Qed.

Lemma shr_n_m (n : nat) (x : shr_record) :
  0 <= shr_m x -> shr_m (shr_n n x) = shr_m x / 2 ^ Z.of_nat n.
Proof.
  intros Hm. induction n as [|n IH].
  - simpl. now rewrite Z.div_1_r.
  - cbn [shr_n].
    assert (H0 : 0 <= shr_m (shr_n n x)).
    { rewrite IH. apply Z.div_pos; [exact Hm|]. apply Z.pow_pos_nonneg; lia. }
    rewrite shr_1_m, IH by exact H0.
    rewrite Nat2Z.inj_succ, Z.pow_succ_r by lia.
    assert (Hp : 0 < 2 ^ Z.of_nat n) by (apply Z.pow_pos_nonneg; lia).
    rewrite Z.div_div by lia.
    f_equal. lia.
Qed.

Lemma shr_n_hi (n : nat) (x : shr_record) :
  0 <= shr_m x ->
  shr_hi (shr_n n x) = (shr_hi x + 2 ^ Z.of_nat n - 1) / 2 ^ Z.of_nat n.
Proof.
  intros Hm. induction n as [|n IH].
  - simpl. rewrite Z.div_1_r. lia.
  - assert (H0 : 0 <= shr_m (shr_n n x)).
    { rewrite shr_n_m by exact Hm. apply Z.div_pos; [exact Hm|]. apply Z.pow_pos_nonneg; lia. }
    cbn [shr_n].
    rewrite shr_1_hi, IH by exact H0.
    rewrite Nat2Z.inj_succ, Z.pow_succ_r by lia.
    assert (Hp : 0 < 2 ^ Z.of_nat n) by (apply Z.pow_pos_nonneg; lia).
    rewrite <- (Z.div_add _ 1) by lia.
    rewrite Z.div_div by lia.
    f_equal; lia.
Qed.

Lemma shr_n_r (n : nat) (x : shr_record) :
  0 <= shr_m x -> shr_r (shr_n (S n) x) = Z.odd (shr_m x / 2 ^ Z.of_nat n).
Proof.
  intros Hm. cbn [shr_n].
  rewrite shr_1_r, shr_n_m; [reflexivity|exact Hm|].
  rewrite shr_n_m by exact Hm. apply Z.div_pos; [exact Hm|]. apply Z.pow_pos_nonneg; lia.
Qed.

Lemma shr_n_s (n : nat) (x : shr_record) :
  shr_s (shr_n (S n) x) = shr_inexact (shr_n n x).
Proof. cbn [shr_n]. apply shr_1_s. Qed.

Lemma shr_record_of_loc_m (m : Z) (l : location) : shr_m (shr_record_of_loc m l) = m.
Proof. destruct l as [|[]]; reflexivity. Qed.

Lemma shr_record_of_loc_inexact (m : Z) (l : location) :
  shr_inexact (shr_record_of_loc m l) = match l with loc_Exact => false | _ => true end.
Proof. destruct l as [|[]]; reflexivity. Qed.

Lemma round_nearest_even_record (x : shr_record) :
  let m1 := round_nearest_even (shr_m x) (loc_of_shr_record x) in
  shr_m x <= m1 <= shr_hi x
  /\ (m1 = shr_m x + 1 -> shr_r x = true)
  /\ (m1 = shr_m x -> shr_r x = true -> shr_s x = false).
Proof.
  destruct x as [m r s]. unfold shr_hi, shr_inexact. cbn.
  destruct r, s; cbn; try destruct (Z.even m); repeat split; intros; try lia; try reflexivity;
    try congruence.
Qed.

Section RoundingNormal.
Variables prec emax : Z.
Hypothesis Hprec : 0 < prec.

Lemma shr_fexp_normal (m ex : Z) (l : location) :
  0 < m -> prec <= Zdigits2 m -> emin prec emax <= Zdigits2 m + ex - prec ->
  shr_fexp prec emax m ex l
  = (shr_n (Z.to_nat (Zdigits2 m - prec)) (shr_record_of_loc m l), ex + (Zdigits2 m - prec)).
Proof.
  intros Hm Hd He. unfold shr_fexp, fexp.
  rewrite Z.max_l by lia.
  replace (Zdigits2 m + ex - prec - ex) with (Zdigits2 m - prec) by lia.
  destruct (Zdigits2 m - prec) as [|k|k] eqn:E; [| |lia].
  - simpl. f_equal. lia.
  - unfold shr. rewrite iter_pos_shr_n. reflexivity.
Qed.

Lemma binary_round_aux_normal (sx : bool) (mx : positive) (ex : Z) (l : location) :
  let n := Zpos (digits2_pos mx) - prec in
  let x1 := shr_n (Z.to_nat n) (shr_record_of_loc (Zpos mx) l) in
  let m1 := round_nearest_even (shr_m x1) (loc_of_shr_record x1) in
  0 <= n -> emin prec emax <= ex + n -> ex + n + 1 <= emax - prec ->
  2 ^ (prec - 1) <= shr_m x1 < 2 ^ prec
  /\ exists m e,
      binary_round_aux prec emax sx (Zpos mx) ex l = S754_finite sx m e
      /\ 2 ^ (prec - 1) <= Zpos m < 2 ^ prec
      /\ ((Zpos m = m1 /\ e = ex + n)
          \/ (m1 = 2 ^ prec /\ Zpos m = 2 ^ (prec - 1) /\ e = ex + n + 1)).
Proof.
  intros n x1 m1 Hn Hlo Hhi.
  pose proof (digits2_pos_bounds mx) as [Hd1 Hd2].
  assert (Hq : 2 ^ (prec - 1) <= shr_m x1 < 2 ^ prec).
  { unfold x1. rewrite shr_n_m by (rewrite shr_record_of_loc_m; lia).
    rewrite shr_record_of_loc_m, Z2Nat.id by exact Hn.
    assert (Hp : 0 < 2 ^ n) by (apply Z.pow_pos_nonneg; lia).
    replace (Zpos (digits2_pos mx) - 1) with (prec - 1 + n) in Hd1 by (unfold n; lia).
    replace (Zpos (digits2_pos mx)) with (prec + n) in Hd2 by (unfold n; lia).
    rewrite Z.pow_add_r in Hd1, Hd2 by lia.
    split.
    - apply Z.div_le_lower_bound; lia.
    - apply Z.div_lt_upper_bound; lia. }
  split; [exact Hq|].
  pose proof (round_nearest_even_record x1) as (Hm1 & _ & _). fold m1 in Hm1.
  unfold shr_hi in Hm1.
  assert (Hpp : 0 < 2 ^ (prec - 1)) by (apply Z.pow_pos_nonneg; lia).
  assert (Hpw : 2 ^ prec = 2 * 2 ^ (prec - 1)).
  { replace prec with (Z.succ (prec - 1)) at 1 by lia. apply Z.pow_succ_r. lia. }
  unfold binary_round_aux.
  assert (En : Zpos (digits2_pos mx) = prec + n) by (unfold n; lia).
  rewrite shr_fexp_normal; [|lia|cbn [Zdigits2]; lia|cbn [Zdigits2]; lia].
  cbn [Zdigits2]. fold n. fold x1. fold m1.
  destruct (Z.eq_dec m1 (2 ^ prec)) as [Htop|Htop].
  - assert (Hdig : Zdigits2 m1 = prec + 1).
    { apply Zdigits2_unique; [lia|].
      replace (prec + 1 - 1) with prec by lia.
      rewrite Z.pow_add_r by lia. simpl (2 ^ 1). lia. }
    rewrite shr_fexp_normal; [|lia|lia|lia].
    rewrite Hdig. replace (prec + 1 - prec) with 1 by lia.
    assert (Hm : shr_m (shr_n (Z.to_nat 1) (shr_record_of_loc m1 loc_Exact)) = 2 ^ (prec - 1)).
    { rewrite shr_n_m by (rewrite shr_record_of_loc_m; lia).
      rewrite shr_record_of_loc_m, Htop, Hpw. simpl (2 ^ Z.of_nat (Z.to_nat 1)).
      rewrite Z.mul_comm. apply Z.div_mul. lia. }
    rewrite Hm.
    destruct (2 ^ (prec - 1)) as [|pm|pm] eqn:Epm; try lia.
    replace (ex + n + 1 <=? emax - prec) with true by (symmetry; apply Z.leb_le; lia).
    exists pm, (ex + n + 1). split; [reflexivity|]. split; [lia|]. right. lia.
  - assert (Hdig : Zdigits2 m1 = prec).
    { apply Zdigits2_unique; [lia|]. destruct (shr_inexact x1); lia. }
    rewrite shr_fexp_normal; [|lia|lia|lia].
    rewrite Hdig, Z.sub_diag. cbn [Z.to_nat shr_n shr_record_of_loc shr_m].
    destruct m1 as [|pm|pm] eqn:Epm; try lia.
    replace (ex + n + 0 <=? emax - prec) with true by (symmetry; apply Z.leb_le; lia).
    exists pm, (ex + n). split; [f_equal; lia|]. split.
    + destruct (shr_inexact x1); lia.
    + left. lia.
Qed.
End RoundingNormal.

Lemma pos_iter_xO (m d : positive) : Zpos (Pos.iter xO m d) = Zpos m * 2 ^ Zpos d.
Proof.
  induction d as [|d IH] using Pos.peano_ind.
  - simpl. lia.
  - rewrite Pos.iter_succ, Pos2Z.inj_xO, IH, Pos2Z.inj_succ, Z.pow_succ_r by lia. lia.
Qed.

Lemma pow2_pos (k : Z) : 0 <= k -> 0 < 2 ^ k.
Proof. intros Hk. apply Z.pow_pos_nonneg; lia. Qed.

Lemma pow2_le (a b : Z) : a <= b -> 2 ^ a <= 2 ^ b.
Proof.
  intros Hab. destruct (Z.lt_ge_cases a 0) as [Ha|Ha].
  - rewrite (Z.pow_neg_r 2 a) by exact Ha. apply Z.pow_nonneg. lia.
  - apply Z.pow_le_mono_r; lia.
Qed.

Lemma pow2_lt_inv (a b : Z) : 2 ^ a < 2 ^ b -> a < b.
Proof.
  intros H. destruct (Z.lt_ge_cases a b) as [Hab|Hab]; [exact Hab|].
  pose proof (pow2_le b a Hab). lia.
Qed.

Lemma pow2_split (a b : Z) : 0 <= a -> 0 <= b -> 2 ^ (a + b) = 2 ^ a * 2 ^ b.
Proof. intros. now apply Z.pow_add_r. Qed.

Section RoundingExact.
Variables prec emax : Z.
Hypothesis Hprec : 0 < prec.

(** A value that fits the mantissa is converted exactly: the mantissa
    is shifted up to [prec] digits. *)
Lemma binary_round_exact (sx : bool) (mx : positive) (ex : Z) :
  let d := Zpos (digits2_pos mx) in
  d <= prec -> emin prec emax <= d + ex - prec -> d + ex - prec + 1 <= emax - prec ->
  exists mz, binary_round prec emax sx mx ex = S754_finite sx mz (ex + d - prec)
             /\ Zpos mz = Zpos mx * 2 ^ (prec - d)
             /\ 2 ^ (prec - 1) <= Zpos mz < 2 ^ prec.
Proof.
  intros d Hd Hlo Hhi.
  pose proof (digits2_pos_bounds mx) as Hb. fold d in Hb.
  unfold binary_round, shl_align, fexp. fold d.
  assert (Hd0 : 0 < d) by (unfold d; lia). clearbody d.
  rewrite Z.max_l by lia.
  replace (d + ex - prec - ex) with (d - prec) by lia.
  assert (Hmz : exists mz, (match d - prec with
                            | Zneg k => (Pos.iter xO mx k, d + ex - prec)
                            | _ => (mx, ex)
                            end) = (mz, d + ex - prec)
                           /\ Zpos mz = Zpos mx * 2 ^ (prec - d)).
  { destruct (d - prec) as [|k|k] eqn:E; [|lia|].
    - exists mx. split; [f_equal; lia|].
      replace (prec - d) with 0 by lia. simpl. lia.
    - exists (Pos.iter xO mx k). split; [reflexivity|].
      rewrite pos_iter_xO. f_equal. f_equal. lia. }
  destruct Hmz as (mz & -> & Hmz).
  assert (Hdz : Zpos (digits2_pos mz) = prec).
  { assert (E1 : 2 ^ (prec - 1) = 2 ^ (d - 1) * 2 ^ (prec - d)).
    { rewrite <- pow2_split by lia. f_equal. lia. }
    assert (E2 : 2 ^ prec = 2 ^ d * 2 ^ (prec - d)).
    { rewrite <- pow2_split by lia. f_equal. lia. }
    apply digits2_pos_unique. rewrite Hmz, E1, E2.
    pose proof (pow2_pos (prec - d) ltac:(lia)). split.
    - apply Z.mul_le_mono_nonneg_r; lia.
    - apply Z.mul_lt_mono_pos_r; lia. }
  pose proof (binary_round_aux_normal prec emax Hprec sx mz (d + ex - prec) loc_Exact) as H.
  rewrite Hdz, Z.sub_diag in H. cbn [Z.to_nat shr_n shr_record_of_loc shr_m loc_of_shr_record
                                      round_nearest_even] in H.
  destruct H as (Hq & m & e & Heq & Hm & Hcase); [lia|lia|lia|].
  rewrite Heq. destruct Hcase as [[Hm1 ->]|[Hm1 _]]; [|lia].
  exists m. split; [f_equal; lia|]. split; lia.
Qed.
End RoundingExact.

Lemma new_location_inexact (nb k : Z) :
  match new_location nb k with loc_Exact => false | _ => true end = negb (k =? 0).
Proof.
  unfold new_location, new_location_even, new_location_odd.
  destruct (Z.even nb), (k =? 0); reflexivity.
Qed.

Lemma new_location_above (nb k : Z) :
  0 < nb -> nb < 2 * k -> new_location nb k = loc_Inexact Gt.
Proof.
  intros Hnb Hk. unfold new_location.
  destruct (Z.even nb); unfold new_location_even, new_location_odd;
    (destruct (Z.eqb_spec k 0) as [E|E]; [lia|]).
  - f_equal. apply Z.compare_gt_iff. lia.
  - destruct (Z.compare_spec (2 * k + 1) nb); try lia. reflexivity.
Qed.

(** Division of two normal binary32 numbers whose quotient is far from
    the ends of the exponent range: the integer quotient [q] of the
    aligned mantissas, scaled down by [n] bits and rounded to [m1]. *)
Lemma div_canonical (mX mY : positive) (eX eY : Z) :
  canonical32 mX -> canonical32 mY -> -125 <= eX - eY <= 126 ->
  exists q r n m1 m e,
    Zpos mX * 2 ^ 24 = Zpos mY * q + r /\ 0 <= r < Zpos mY
    /\ 0 <= n <= 1
    /\ 2 ^ 23 <= q / 2 ^ n < 2 ^ 24
    /\ q / 2 ^ n <= m1 <= (q + (if r =? 0 then 0 else 1) + 2 ^ n - 1) / 2 ^ n
    /\ (n = 0 -> Zpos mY < 2 * r -> m1 = q + 1)
    /\ F32.div (S754_finite false mX eX) (S754_finite false mY eY) = S754_finite false m e
    /\ canonical32 m
    /\ ((Zpos m = m1 /\ e = eX - eY - 24 + n)
        \/ (m1 = 2 ^ 24 /\ Zpos m = 2 ^ 23 /\ e = eX - eY - 24 + n + 1)).
Proof.
  unfold canonical32. intros HX HY He.
  unfold F32.div, SFdiv, SFdiv_core_binary.
  cbn [Zdigits2 xorb].
  rewrite (digits2_pos_unique mX 24), (digits2_pos_unique mY 24) by (simpl (24 - 1); lia).
  unfold fexp, emin, F32.prec, F32.emax.
  replace (24 + eX - (24 + eY) - 24) with (eX - eY - 24) by lia.
  rewrite Z.max_l, Z.min_l by lia.
  replace (eX - eY - (eX - eY - 24)) with 24 by lia.
  rewrite Z.shiftl_mul_pow2 by lia.
  pose proof (Z_div_mod (Zpos mX * 2 ^ 24) (Zpos mY) ltac:(lia)) as Hdm.
  destruct (Z.div_eucl (Zpos mX * 2 ^ 24) (Zpos mY)) as [q r]. destruct Hdm as [Hdm Hr].
  assert (Hq : 2 ^ 23 <= q < 2 ^ 25).
  { change (2 ^ 24) with 16777216 in *. change (2 ^ 23) with 8388608 in *.
    change (2 ^ 25) with 33554432. nia. }
  destruct q as [|pq|pq]; try (change (2 ^ 23) with 8388608 in Hq; lia).
  set (n := Zpos (digits2_pos pq) - 24).
  assert (Hn : 0 <= n <= 1).
  { pose proof (digits2_pos_bounds pq) as [Hb1 Hb2]. unfold n.
    assert (23 < Zpos (digits2_pos pq)) by (apply pow2_lt_inv; lia).
    assert (Zpos (digits2_pos pq) - 1 < 25) by (apply pow2_lt_inv; lia).
    lia. }
  pose proof (binary_round_aux_normal 24 128 ltac:(lia) false pq (eX - eY - 24)
                (new_location (Zpos mY) r)) as H.
  cbv zeta in H. fold n in H.
  destruct H as (Hq1 & m & e & Heq & Hm & Hcase); [lia|unfold emin; lia|lia|].
  set (x1 := shr_n (Z.to_nat n) (shr_record_of_loc (Zpos pq) (new_location (Zpos mY) r))) in *.
  pose proof (round_nearest_even_record x1) as (Hm1 & _ & _).
  exists (Zpos pq), r, n, (round_nearest_even (shr_m x1) (loc_of_shr_record x1)), m, e.
  assert (Hx1 : shr_m x1 = Zpos pq / 2 ^ n).
  { unfold x1. rewrite shr_n_m by (rewrite shr_record_of_loc_m; lia).
    rewrite shr_record_of_loc_m, Z2Nat.id by lia. reflexivity. }
  split; [exact Hdm|]. split; [exact Hr|]. split; [exact Hn|].
  split; [rewrite <- Hx1; exact Hq1|].
  split.
  { rewrite <- Hx1.
    replace ((Zpos pq + (if r =? 0 then 0 else 1) + 2 ^ n - 1) / 2 ^ n) with (shr_hi x1).
    2:{ unfold x1. rewrite shr_n_hi by (rewrite shr_record_of_loc_m; lia).
        rewrite Z2Nat.id by lia. unfold shr_hi at 1.
        rewrite shr_record_of_loc_m, shr_record_of_loc_inexact, new_location_inexact.
        destruct (r =? 0); reflexivity. }
    exact Hm1. }
  split.
  { intros En Hgt. unfold x1. rewrite En. cbn [Z.to_nat shr_n].
    rewrite (new_location_above (Zpos mY) r) by lia. reflexivity. }
  split; [exact Heq|]. split; [exact Hm|]. exact Hcase.
Qed.

(** A lower bound on a quotient that is a power of two survives the
    rounding: from [Y * 2^a <= X * 2^b] on the mantissas, the result is
    at least [2^(a - b + eX - eY)]. *)
Lemma div_lower (mX mY : positive) (eX eY a b : Z) :
  canonical32 mX -> canonical32 mY -> -125 <= eX - eY <= 126 ->
  0 <= a -> 0 <= b -> Zpos mY * 2 ^ a <= Zpos mX * 2 ^ b ->
  exists m e,
    F32.div (S754_finite false mX eX) (S754_finite false mY eY) = S754_finite false m e
    /\ canonical32 m /\ 2 ^ (a - b + eX - eY - e) <= Zpos m
    /\ eX - eY - 24 <= e <= eX - eY - 22.
Proof.
  intros HX HY He Ha Hb Hle.
  destruct (div_canonical mX mY eX eY HX HY He)
    as (q & r & n & m1 & m & e & Hdm & Hr & Hn & Hq1 & Hm1 & _ & Heq & Hm & Hcase).
  exists m, e. split; [exact Heq|]. split; [exact Hm|].
  set (t := 24 + a - b).
  assert (Hq0 : 0 <= q) by nia.
  assert (Hq : 2 ^ t <= q).
  { destruct (Z.lt_ge_cases t 0) as [Hneg|Hpos].
    - rewrite Z.pow_neg_r by exact Hneg. exact Hq0.
    - assert (E : 2 ^ t * 2 ^ b = 2 ^ a * 2 ^ 24).
      { rewrite <- !pow2_split by lia. f_equal. unfold t. lia. }
      pose proof (pow2_pos b Hb) as Hpb. pose proof (pow2_pos t Hpos) as Hpt.
      assert (H1 : Zpos mY * 2 ^ t * 2 ^ b <= Zpos mX * 2 ^ 24 * 2 ^ b).
      { rewrite <- Z.mul_assoc, E.
        replace (Zpos mX * 2 ^ 24 * 2 ^ b) with (Zpos mX * 2 ^ b * 2 ^ 24) by ring.
        rewrite Z.mul_assoc. apply Z.mul_le_mono_nonneg_r; [simpl; lia|exact Hle]. }
      apply Z.mul_le_mono_pos_r in H1; [|exact Hpb].
      nia. }
  assert (Hq1' : 2 ^ (t - n) <= m1).
  { assert (n = 0 \/ n = 1) as [->| ->] by lia.
    - rewrite Z.sub_0_r. change (2 ^ 0) with 1 in Hm1. rewrite !Z.div_1_r in Hm1. lia.
    - change (2 ^ 1) with 2 in Hm1.
      destruct (Z.lt_ge_cases (t - 1) 0) as [Hneg|Hpos].
      + rewrite Z.pow_neg_r by exact Hneg.
        assert (0 <= q / 2) by (apply Z.div_pos; lia). lia.
      + replace t with ((t - 1) + 1) in Hq by lia.
        rewrite pow2_split in Hq by lia. change (2 ^ 1) with 2 in Hq.
        assert (2 ^ (t - 1) <= q / 2) by (apply Z.div_le_lower_bound; lia).
        lia. }
  unfold canonical32 in Hm.
  destruct Hcase as [[E1 E2]|(E1 & E2 & E3)].
  - split; [|lia].
    replace (a - b + eX - eY - e) with (t - n) by (unfold t; lia). lia.
  - split; [|lia].
    replace (a - b + eX - eY - e) with (t - n - 1) by (unfold t; lia).
    rewrite E2. apply pow2_le.
    assert (t - n < 25); [|lia].
    apply pow2_lt_inv. change (2 ^ 25) with 33554432. change (2 ^ 24) with 16777216 in E1. lia.
Qed.

(** An upper bound [C * 2^c] with a mantissa [C] of 24 bits survives the
    rounding as well; [u] is the bound's exponent relative to the
    quotient's. *)
Lemma div_upper (mX mY : positive) (eX eY C u : Z) :
  canonical32 mX -> canonical32 mY -> -125 <= eX - eY <= 126 ->
  2 ^ 23 <= C < 2 ^ 24 -> 0 <= u -> Zpos mX * 2 ^ 24 <= C * 2 ^ u * Zpos mY ->
  exists m e,
    F32.div (S754_finite false mX eX) (S754_finite false mY eY) = S754_finite false m e
    /\ canonical32 m /\ eX - eY - 24 <= e <= eX - eY - 24 + u
    /\ Zpos m <= C * 2 ^ (eX - eY - 24 + u - e).
Proof.
  intros HX HY He HC Hu Hle.
  destruct (div_canonical mX mY eX eY HX HY He)
    as (q & r & n & m1 & m & e & Hdm & Hr & Hn & Hq1 & Hm1 & _ & Heq & Hm & Hcase).
  exists m, e. split; [exact Heq|]. split; [exact Hm|].
  pose proof (pow2_pos u Hu) as Hpu.
  change (2 ^ 23) with 8388608 in *. change (2 ^ 24) with 16777216 in *.
  assert (Hqi : q + (if r =? 0 then 0 else 1) <= C * 2 ^ u).
  { destruct (Z.eqb_spec r 0) as [E|E]; nia. }
  assert (Hnu : n <= u).
  { destruct (Z.le_gt_cases n u) as [H|H]; [exact H|exfalso].
    assert (n = 1) as -> by lia. assert (u = 0) as -> by lia.
    change (2 ^ 1) with 2 in *. change (2 ^ 0) with 1 in *.
    assert (0 <= (if r =? 0 then 0 else 1)) by (destruct (r =? 0); lia).
    assert (2 * 8388608 <= q); [|lia].
    pose proof (Z.mul_div_le q 2 ltac:(lia)). lia. }
  assert (Hm1' : m1 <= C * 2 ^ (u - n)).
  { assert (n = 0 \/ n = 1) as [->| ->] by lia.
    - rewrite Z.sub_0_r. change (2 ^ 0) with 1 in Hm1. rewrite !Z.div_1_r in Hm1. lia.
    - replace u with ((u - 1) + 1) in Hqi by lia.
      rewrite pow2_split in Hqi by lia. change (2 ^ 1) with 2 in *.
      pose proof (pow2_pos (u - 1) ltac:(lia)).
      assert ((q + (if r =? 0 then 0 else 1) + 2 - 1) / 2 <= C * 2 ^ (u - 1)).
      { apply Z.lt_succ_r. apply Z.div_lt_upper_bound; lia. }
      lia. }
  unfold canonical32 in Hm.
  change (2 ^ 23) with 8388608 in *. change (2 ^ 24) with 16777216 in *.
  destruct Hcase as [[E1 E2]|(E1 & E2 & E3)].
  - split; [lia|].
    replace (eX - eY - 24 + u - e) with (u - n) by lia. lia.
  - assert (Hgt : n < u).
    { destruct (Z.lt_ge_cases n u) as [H|H]; [exact H|exfalso].
      replace (u - n) with 0 in Hm1' by lia. change (2 ^ 0) with 1 in Hm1'. lia. }
    split; [lia|].
    replace (eX - eY - 24 + u - e) with (u - n - 1) by lia.
    replace (u - n) with ((u - n - 1) + 1) in Hm1' by lia.
    rewrite pow2_split in Hm1' by lia. change (2 ^ 1) with 2 in Hm1'. lia.
Qed.

(** A quotient of a smaller by a larger number is at most one. *)
Lemma div_le_one (mX mY : positive) (eX eY : Z) :
  canonical32 mX -> canonical32 mY -> -23 <= eX <= 8 -> -23 <= eY <= 8 ->
  Zpos mX * 2 ^ (eX + 23) <= Zpos mY * 2 ^ (eY + 23) ->
  exists m e,
    F32.div (S754_finite false mX eX) (S754_finite false mY eY) = S754_finite false m e
    /\ canonical32 m /\ Zpos m <= 2 ^ (- e) /\ -55 <= e <= -23.
Proof.
  intros HX HY HeX HeY Hle.
  assert (Hk : eX <= eY).
  { destruct (Z.le_gt_cases eX eY) as [H|H]; [exact H|exfalso].
    pose proof (pow2_le (eY + 24) (eX + 23) ltac:(lia)) as Hp.
    replace (eY + 24) with ((eY + 23) + 1) in Hp by lia.
    rewrite pow2_split in Hp by lia. change (2 ^ 1) with 2 in Hp.
    pose proof (pow2_pos (eY + 23) ltac:(lia)) as HA.
    unfold canonical32 in HX, HY.
    change (2 ^ 23) with 8388608 in *. change (2 ^ 24) with 16777216 in *.
    assert (8388608 * 2 ^ (eX + 23) <= Zpos mX * 2 ^ (eX + 23))
      by (apply Z.mul_le_mono_nonneg_r; lia).
    assert (Zpos mY * 2 ^ (eY + 23) < 16777216 * 2 ^ (eY + 23))
      by (apply Z.mul_lt_mono_pos_r; lia).
    lia. }
  set (k := eY - eX).
  assert (HmXY : Zpos mX <= Zpos mY * 2 ^ k).
  { replace (eY + 23) with (k + (eX + 23)) in Hle by (unfold k; lia).
    rewrite (pow2_split k (eX + 23)) in Hle by (unfold k; lia).
    rewrite Z.mul_assoc in Hle.
    apply Z.mul_le_mono_pos_r in Hle; [exact Hle|]. apply pow2_pos. lia. }
  destruct (div_upper mX mY eX eY (2 ^ 23) (k + 1) HX HY ltac:(lia))
    as (m & e & Heq & Hm & He & Hb).
  - change (2 ^ 23) with 8388608. change (2 ^ 24) with 16777216. lia.
  - unfold k. lia.
  - rewrite (pow2_split k 1) by (unfold k; lia).
    change (2 ^ 1) with 2. change (2 ^ 23) with 8388608. change (2 ^ 24) with 16777216. lia.
  - exists m, e. split; [exact Heq|]. split; [exact Hm|].
    split; [|unfold k in *; lia].
    replace (eX - eY - 24 + (k + 1) - e) with (- 23 - e) in Hb by (unfold k; lia).
    replace (- e) with (23 + (- 23 - e)) by lia.
    rewrite pow2_split by (unfold k in *; lia). exact Hb.
Qed.

(** The reciprocal of a number that is at most one is at least one. *)
Lemma div_one_ge_one (mP : positive) (eP : Z) :
  canonical32 mP -> Zpos mP <= 2 ^ (- eP) -> -149 <= eP <= -23 ->
  exists m e,
    F32.div (F32.of_int 1) (S754_finite false mP eP) = S754_finite false m e
    /\ canonical32 m /\ 2 ^ (- e) <= Zpos m /\ -24 <= e <= 104.
Proof.
  intros HP Hle HeP.
  change (F32.of_int 1) with (S754_finite false 8388608 (-23)).
  assert (H1 : canonical32 8388608) by (unfold canonical32; simpl; lia).
  destruct (div_lower 8388608 mP (-23) eP 0 (- eP - 23) H1 HP ltac:(lia) ltac:(lia) ltac:(lia))
    as (m & e & Heq & Hm & Hb & He).
  - change (Zpos 8388608) with (2 ^ 23). rewrite <- pow2_split by lia.
    replace (23 + (- eP - 23)) with (- eP) by lia. simpl (2 ^ 0). lia.
  - exists m, e. split; [exact Heq|]. split; [exact Hm|]. split; [|lia].
    replace (0 - (- eP - 23) + -23 - eP - e) with (- e) in Hb by lia. exact Hb.
Qed.

Lemma ceil_log2_of_float (m : positive) (e : Z) :
  canonical32 m -> -1000 <= e <= 900 ->
  ceil_log2 (F64.of_float (S754_finite false m e)) = e + Z.log2_up (Zpos m).
Proof.
  unfold canonical32. intros Hm He.
  unfold F64.of_float. cbn [cond_Zopp binary_normalize].
  assert (Hd : Zpos (digits2_pos m) = 24).
  { apply digits2_pos_unique. simpl (24 - 1). exact Hm. }
  destruct (binary_round_exact F64.prec F64.emax ltac:(unfold F64.prec; lia) false m e)
    as (mz & Heq & Hmz & _).
  - rewrite Hd. unfold F64.prec. lia.
  - rewrite Hd. unfold emin, F64.prec, F64.emax. lia.
  - rewrite Hd. unfold F64.prec, F64.emax. lia.
  - rewrite Hd in Heq, Hmz. rewrite Heq. unfold ceil_log2, F64.prec in *.
    replace (53 - 24) with 29 in Hmz by lia.
    rewrite Hmz, Z.log2_up_mul_pow2 by lia. lia.
Qed.

(** The precision computed from a number that is at least one is not
    negative. *)
Lemma ceil_log2_ge_one (m : positive) (e : Z) :
  canonical32 m -> 2 ^ (- e) <= Zpos m -> -1000 <= e <= 900 ->
  0 <= ceil_log2 (F64.of_float (S754_finite false m e)).
Proof.
  intros Hm Hge He. rewrite ceil_log2_of_float by assumption.
  destruct (Z.le_gt_cases 0 e) as [Hpos|Hneg].
  - pose proof (Z.log2_up_nonneg (Zpos m)). lia.
  - apply Z.log2_up_le_mono in Hge. rewrite Z.log2_up_pow2 in Hge by lia. lia.
Qed.

(** An [int] of at most 24 bits converts to [float] exactly. *)
Lemma of_int_small (z : Z) :
  1 <= z < 2 ^ 24 ->
  exists m e, F32.of_int z = S754_finite false m e /\ canonical32 m /\ -23 <= e <= 0
              /\ Zpos m * 2 ^ (e + 23) = z * 2 ^ 23.
Proof.
  intros Hz. destruct z as [|p|p]; try lia.
  unfold F32.of_int, binary_normalize.
  pose proof (digits2_pos_bounds p) as [Hb1 Hb2].
  assert (Hd : Zpos (digits2_pos p) <= 24).
  { assert (Zpos (digits2_pos p) - 1 < 24) by (apply pow2_lt_inv; lia). lia. }
  destruct (binary_round_exact F32.prec F32.emax ltac:(unfold F32.prec; lia) false p 0)
    as (mz & Heq & Hmz & Hcan).
  - exact Hd.
  - unfold emin, F32.prec, F32.emax. lia.
  - unfold F32.prec, F32.emax. lia.
  - rewrite Heq. unfold F32.prec in *. eexists _, _. split; [reflexivity|].
    split; [exact Hcan|]. split; [lia|].
    rewrite Hmz, <- Z.mul_assoc, <- pow2_split by lia.
    f_equal. f_equal. lia.
Qed.

(** A larger [int] loses its low [n] bits to rounding. *)
Lemma of_int_exact (z : Z) :
  1 <= z <= 2 ^ 24 ->
  exists m e, F32.of_int z = S754_finite false m e /\ canonical32 m /\ -23 <= e <= 1
              /\ Zpos m * 2 ^ (e + 23) = z * 2 ^ 23.
Proof.
  intros Hz. destruct (Z.eq_dec z (2 ^ 24)) as [->|Hne].
  - exists 8388608%positive, 1. split; [reflexivity|].
    split; [unfold canonical32; simpl; lia|]. split; [lia|reflexivity].
  - destruct (of_int_small z ltac:(lia)) as (m & e & H1 & H2 & H3 & H4).
    exists m, e. split; [exact H1|]. split; [exact H2|]. split; [lia|exact H4].
Qed.

Lemma of_int_large (z : Z) :
  2 ^ 24 <= z <= INT_MAX ->
  let n := Zdigits2 z - 24 in
  let x1 := shr_n (Z.to_nat n) (Build_shr_record z false false) in
  let m1 := round_nearest_even (shr_m x1) (loc_of_shr_record x1) in
  1 <= n <= 7 /\ 2 ^ 23 <= m1 <= 2 ^ 24
  /\ exists m e, F32.of_int z = S754_finite false m e /\ canonical32 m /\ 1 <= e <= 8
                 /\ Zpos m * 2 ^ (e + 23) = m1 * 2 ^ (n + 23).
Proof.
  intros Hz. destruct z as [|p|p]; try (change (2 ^ 24) with 16777216 in Hz; lia).
  cbv zeta. cbn [Zdigits2].
  set (n := Zpos (digits2_pos p) - 24).
  set (x1 := shr_n (Z.to_nat n) (Build_shr_record (Zpos p) false false)).
  set (m1 := round_nearest_even (shr_m x1) (loc_of_shr_record x1)).
  pose proof (digits2_pos_bounds p) as [Hb1 Hb2].
  assert (Hn : 1 <= n <= 7).
  { unfold n. unfold INT_MAX in Hz.
    assert (24 < Zpos (digits2_pos p)) by (apply pow2_lt_inv; lia).
    assert (Zpos (digits2_pos p) - 1 < 31).
    { apply pow2_lt_inv. change (2 ^ 31) with 2147483648. lia. }
    lia. }
  split; [exact Hn|].
  destruct (binary_round_aux_normal 24 128 ltac:(lia) false p 0 loc_Exact)
    as (Hq & m & e & Heq & Hm & Hcase).
  { fold n. lia. }
  { fold n. unfold emin. lia. }
  { fold n. lia. }
  fold n in Hq, Hcase. cbn [shr_record_of_loc] in Hq, Hcase. fold x1 in Hq, Hcase.
  fold m1 in Hcase.
  pose proof (round_nearest_even_record x1) as (Hm1 & _ & _). fold m1 in Hm1.
  assert (Hhi : shr_hi x1 <= shr_m x1 + 1).
  { unfold shr_hi. destruct (shr_inexact x1); lia. }
  change (24 - 1) with 23 in *.
  split; [lia|].
  exists m, e. split.
  { unfold F32.of_int, binary_normalize, binary_round, shl_align, fexp, F32.prec, F32.emax.
    rewrite Z.max_l by (unfold emin; lia).
    replace (Zpos (digits2_pos p) + 0 - 24 - 0) with n by (unfold n; lia).
    destruct n as [|k|k] eqn:En; try lia. exact Heq. }
  split; [exact Hm|].
  destruct Hcase as [[E1 E2]|(E1 & E2 & E3)].
  - split; [lia|]. rewrite E1, E2. reflexivity.
  - split; [lia|]. rewrite E1, E2, E3.
    replace (0 + n + 1 + 23) with (1 + (n + 23)) by lia.
    rewrite (pow2_split 1 (n + 23)) by lia.
    change (2 ^ 24) with (2 ^ 23 * 2 ^ 1). lia.
Qed.

(** Rounding after a shift by [k + 1] bits is monotone. *)
Lemma round_shift_mono (k : nat) (z1 z2 : Z) :
  0 <= z1 <= z2 ->
  let x1 := shr_n (S k) (Build_shr_record z1 false false) in
  let x2 := shr_n (S k) (Build_shr_record z2 false false) in
  round_nearest_even (shr_m x1) (loc_of_shr_record x1)
  <= round_nearest_even (shr_m x2) (loc_of_shr_record x2).
Proof.
  intros Hz x1 x2.
  destruct (Z.eq_dec z1 z2) as [->|Hne]; [reflexivity|].
  pose proof (round_nearest_even_record x1) as (Hb1 & Hup1 & _).
  pose proof (round_nearest_even_record x2) as (Hb2 & _ & Hdn2).
  set (m1 := round_nearest_even (shr_m x1) (loc_of_shr_record x1)) in *.
  set (m2 := round_nearest_even (shr_m x2) (loc_of_shr_record x2)) in *.
  assert (Hh1 : shr_hi x1 <= shr_m x1 + 1).
  { unfold shr_hi. destruct (shr_inexact x1); lia. }
  assert (Hp : 0 < 2 ^ Z.of_nat k) by (apply pow2_pos; lia).
  assert (Hq1 : shr_m x1 = z1 / 2 ^ Z.of_nat k / 2).
  { unfold x1. rewrite shr_n_m by (simpl; lia). cbn [shr_m].
    rewrite Nat2Z.inj_succ, Z.pow_succ_r, Z.mul_comm, Z.div_div by lia. reflexivity. }
  assert (Hq2 : shr_m x2 = z2 / 2 ^ Z.of_nat k / 2).
  { unfold x2. rewrite shr_n_m by (simpl; lia). cbn [shr_m].
    rewrite Nat2Z.inj_succ, Z.pow_succ_r, Z.mul_comm, Z.div_div by lia. reflexivity. }
  assert (Ha : z1 / 2 ^ Z.of_nat k <= z2 / 2 ^ Z.of_nat k) by (apply Z.div_le_mono; lia).
  set (a1 := z1 / 2 ^ Z.of_nat k) in *. set (a2 := z2 / 2 ^ Z.of_nat k) in *.
  assert (Hqq : a1 / 2 <= a2 / 2) by (apply Z.div_le_mono; lia).
  destruct (Z.eq_dec m1 (shr_m x1)) as [E1|E1]; [lia|].
  destruct (Z.eq_dec m2 (shr_m x2)) as [E2|E2]; [|lia].
  assert (Hr1 : shr_r x1 = true) by (apply Hup1; lia).
  unfold x1 in Hr1. rewrite shr_n_r in Hr1 by (simpl; lia). cbn [shr_m] in Hr1. fold a1 in Hr1.
  destruct (Z.eq_dec a1 a2) as [Ea|Ea].
  - exfalso.
    assert (Hr2 : shr_r x2 = true).
    { unfold x2. rewrite shr_n_r by (simpl; lia). cbn [shr_m]. fold a2. now rewrite <- Ea. }
    specialize (Hdn2 E2 Hr2). unfold x2 in Hdn2. rewrite shr_n_s in Hdn2.
    assert (Hex : z2 mod 2 ^ Z.of_nat k = 0).
    { pose proof (shr_n_hi k (Build_shr_record z2 false false) ltac:(simpl; lia)) as Hhi.
      pose proof (shr_n_m k (Build_shr_record z2 false false) ltac:(simpl; lia)) as Hmm.
      unfold shr_hi in Hhi. rewrite Hdn2 in Hhi. unfold shr_inexact in Hhi.
      cbn [shr_m shr_r shr_s orb] in Hhi, Hmm. rewrite Hmm in Hhi.
      pose proof (Z.div_mod z2 (2 ^ Z.of_nat k) ltac:(lia)) as Hdm.
      pose proof (Z.mod_pos_bound z2 (2 ^ Z.of_nat k) Hp) as Hmb.
      destruct (Z.eq_dec (z2 mod 2 ^ Z.of_nat k) 0) as [E|E]; [exact E|exfalso].
      assert (z2 / 2 ^ Z.of_nat k + 1 <= (z2 + 0 + 2 ^ Z.of_nat k - 1) / 2 ^ Z.of_nat k).
      { apply Z.div_le_lower_bound; lia. }
      lia. }
    pose proof (Z.div_mod z1 (2 ^ Z.of_nat k) ltac:(lia)) as Hdm1.
    pose proof (Z.mod_pos_bound z1 (2 ^ Z.of_nat k) Hp) as Hmb1.
    pose proof (Z.div_mod z2 (2 ^ Z.of_nat k) ltac:(lia)) as Hdm2.
    fold a1 in Hdm1. fold a2 in Hdm2. rewrite <- Ea in Hdm2. lia.
  - pose proof (Zmod_odd a1) as Ho. rewrite Hr1 in Ho.
    pose proof (Z.div_mod a1 2 ltac:(lia)).
    pose proof (Z.div_mod a2 2 ltac:(lia)).
    pose proof (Z.mod_pos_bound a2 2 ltac:(lia)).
    destruct (Z.eq_dec (a1 / 2) (a2 / 2)); lia.
Qed.

Lemma Zdigits2_mono (z1 z2 : Z) : 0 < z1 <= z2 -> Zdigits2 z1 <= Zdigits2 z2.
Proof.
  intros Hz. destruct z1 as [|p1|p1], z2 as [|p2|p2]; try lia. cbn [Zdigits2].
  pose proof (digits2_pos_bounds p1) as [Ha _].
  pose proof (digits2_pos_bounds p2) as [_ Hb].
  assert (Zpos (digits2_pos p1) - 1 < Zpos (digits2_pos p2)) by (apply pow2_lt_inv; lia).
  lia.
Qed.

(** The conversion of [int] to [float] is monotone, and its results are
    normal numbers. *)
Lemma of_int_mono (z1 z2 : Z) :
  1 <= z1 <= z2 -> z2 <= INT_MAX ->
  exists m1 e1 m2 e2,
    F32.of_int z1 = S754_finite false m1 e1 /\ F32.of_int z2 = S754_finite false m2 e2
    /\ canonical32 m1 /\ canonical32 m2 /\ -23 <= e1 <= 8 /\ -23 <= e2 <= 8
    /\ Zpos m1 * 2 ^ (e1 + 23) <= Zpos m2 * 2 ^ (e2 + 23).
Proof.
  intros Hz Hmax.
  destruct (Z.lt_ge_cases z2 (2 ^ 24)) as [Hs2|Hl2].
  - destruct (of_int_small z1 ltac:(lia)) as (m1 & e1 & Q1 & C1 & R1 & V1).
    destruct (of_int_small z2 ltac:(lia)) as (m2 & e2 & Q2 & C2 & R2 & V2).
    exists m1, e1, m2, e2. do 6 (split; [assumption || lia|]).
    rewrite V1, V2. apply Z.mul_le_mono_nonneg_r; [|lia]. apply Z.pow_nonneg. lia.
  - pose proof (of_int_large z2 ltac:(lia)) as H2. cbv zeta in H2.
    destruct H2 as (Hn2 & Hb2 & m2 & e2 & Q2 & C2 & R2 & V2).
    destruct (Z.lt_ge_cases z1 (2 ^ 24)) as [Hs1|Hl1].
    + destruct (of_int_small z1 ltac:(lia)) as (m1 & e1 & Q1 & C1 & R1 & V1).
      exists m1, e1, m2, e2. do 6 (split; [assumption || lia|]).
      rewrite V1, V2.
      set (n2 := Zdigits2 z2 - 24) in *.
      pose proof (pow2_le 24 (n2 + 23) ltac:(lia)) as Hp.
      assert (2 ^ 23 * 2 ^ (n2 + 23) <= round_nearest_even
                (shr_m (shr_n (Z.to_nat n2) (Build_shr_record z2 false false)))
                (loc_of_shr_record (shr_n (Z.to_nat n2) (Build_shr_record z2 false false)))
                * 2 ^ (n2 + 23)).
      { apply Z.mul_le_mono_nonneg_r; [|lia]. apply Z.pow_nonneg. lia. }
      assert (z1 * 2 ^ 23 <= 2 ^ 24 * 2 ^ 23) by (apply Z.mul_le_mono_nonneg_r; lia).
      assert (2 ^ 23 * 2 ^ 24 <= 2 ^ 23 * 2 ^ (n2 + 23))
        by (apply Z.mul_le_mono_nonneg_l; lia).
      lia.
    + pose proof (of_int_large z1 ltac:(lia)) as H1. cbv zeta in H1.
      destruct H1 as (Hn1 & Hb1 & m1 & e1 & Q1 & C1 & R1 & V1).
      exists m1, e1, m2, e2. do 6 (split; [assumption || lia|]).
      rewrite V1, V2.
      pose proof (Zdigits2_mono z1 z2 ltac:(lia)) as Hd.
      set (n1 := Zdigits2 z1 - 24) in *. set (n2 := Zdigits2 z2 - 24) in *.
      assert (Hn : n1 <= n2) by (unfold n1, n2; lia).
      destruct (Z.eq_dec n1 n2) as [En|En].
      * rewrite <- En in *.
        apply Z.mul_le_mono_nonneg_r; [apply Z.pow_nonneg; lia|].
        destruct (Z.to_nat n1) as [|k] eqn:Ek; [lia|].
        apply round_shift_mono. lia.
      * set (r1 := round_nearest_even (shr_m (shr_n (Z.to_nat n1) _)) _) in *.
        set (r2 := round_nearest_even (shr_m (shr_n (Z.to_nat n2) _)) _) in *.
        assert (r1 * 2 ^ (n1 + 23) <= 2 ^ 24 * 2 ^ (n1 + 23)).
        { apply Z.mul_le_mono_nonneg_r; [apply Z.pow_nonneg; lia|lia]. }
        assert (2 ^ 23 * 2 ^ (n2 + 23) <= r2 * 2 ^ (n2 + 23)).
        { apply Z.mul_le_mono_nonneg_r; [apply Z.pow_nonneg; lia|lia]. }
        pose proof (pow2_le (1 + (n1 + 23)) (n2 + 23) ltac:(lia)) as Hp.
        rewrite (pow2_split 1 (n1 + 23)) in Hp by lia.
        change (2 ^ 1) with 2 in Hp. change (2 ^ 24) with (2 * 2 ^ 23) in *.
        change (2 ^ 23) with 8388608 in *. lia.
Qed.

(** The probability of a symbol is at most one, its reciprocal at least
    one, and the precision derived from it not negative. *)
Lemma precision_nonneg (f n : Z) :
  1 <= f <= n -> n <= INT_MAX -> 0 <= precision_of (probability_of f n).
Proof.
  intros Hf Hn.
  destruct (of_int_mono f n Hf Hn) as (m1 & e1 & m2 & e2 & Q1 & Q2 & C1 & C2 & R1 & R2 & V).
  unfold precision_of, probability_of. rewrite Q1, Q2.
  destruct (div_le_one m1 m2 e1 e2 C1 C2 R1 R2 V) as (mp & ep & Qp & Cp & Vp & Rp).
  rewrite Qp.
  destruct (div_one_ge_one mp ep Cp Vp ltac:(lia)) as (mr & er & Qr & Cr & Vr & Rr).
  rewrite Qr. apply ceil_log2_ge_one; [exact Cr|exact Vr|lia].
Qed.

(** It is the least [k] with [lineSize <= freq * 2^k], that is, with
    [1 / 2^k <= freq / lineSize]. *)
Lemma shannon_length_spec (f n : Z) :
  1 <= f <= n ->
  0 <= shannon_length f n
  /\ n <= f * 2 ^ shannon_length f n
  /\ (1 <= shannon_length f n -> f * 2 ^ (shannon_length f n - 1) < n).
Proof.
  intros Hf. unfold shannon_length.
  set (c := (n + f - 1) / f).
  assert (Hc : f * (c - 1) < n <= f * c).
  { pose proof (Z.div_mod (n + f - 1) f ltac:(lia)) as Hdm.
    pose proof (Z.mod_pos_bound (n + f - 1) f ltac:(lia)) as Hmb.
    fold c in Hdm. nia. }
  assert (Hc1 : 1 <= c) by nia.
  split; [apply Z.log2_up_nonneg|].
  destruct (Z.eq_dec c 1) as [E|E].
  - rewrite E in *. simpl. split; lia.
  - pose proof (Z.log2_up_spec c ltac:(lia)) as [Hlo Hhi].
    replace (Z.pred (Z.log2_up c)) with (Z.log2_up c - 1) in Hlo by lia.
    split; nia.
Qed.

Lemma shannon_length_least (f n k : Z) :
  1 <= f <= n -> 0 <= k -> n <= f * 2 ^ k -> shannon_length f n <= k.
Proof.
  intros Hf Hk Hn. destruct (shannon_length_spec f n Hf) as (H0 & _ & Hlt).
  destruct (Z.le_gt_cases (shannon_length f n) k) as [H|H]; [exact H|exfalso].
  specialize (Hlt ltac:(lia)).
  pose proof (pow2_le k (shannon_length f n - 1) ltac:(lia)).
  nia.
Qed.

(** For a line of at most [2^24] characters the probability of a symbol
    of frequency [f] is a [float] in [[2^-k, 2^(1-k))], where [k] is its
    Shannon length. *)
Lemma probability_binade (f n : Z) :
  1 <= f <= n -> n <= 2 ^ 24 ->
  exists m, probability_of f n = S754_finite false m (- shannon_length f n - 23)
            /\ canonical32 m /\ 0 <= shannon_length f n <= 24.
Proof.
  intros Hf Hn.
  destruct (shannon_length_spec f n Hf) as (Hk0 & Hup & Hlow).
  set (k := shannon_length f n) in *.
  assert (Hk24 : k <= 24).
  { destruct (Z.le_gt_cases k 0) as [H|H]; [lia|].
    specialize (Hlow ltac:(lia)).
    pose proof (pow2_pos (k - 1) ltac:(lia)).
    assert (k - 1 < 24); [|lia]. apply pow2_lt_inv. nia. }
  destruct (of_int_exact f ltac:(lia)) as (mF & eF & QF & CF & RF & VF).
  destruct (of_int_exact n ltac:(lia)) as (mN & eN & QN & CN & RN & VN).
  unfold probability_of. rewrite QF, QN.
  pose proof (pow2_pos (eF + 23) ltac:(lia)) as HpF.
  pose proof (pow2_pos (eN + 23) ltac:(lia)) as HpN.
  pose proof (pow2_pos k Hk0) as Hpk.
  (* from below: 2^-k <= f / n *)
  destruct (div_lower mF mN eF eN (eN + 23) (eF + 23 + k) CF CN ltac:(lia) ltac:(lia) ltac:(lia))
    as (m & e & Heq & Hm & Hb & He).
  { rewrite (pow2_split (eF + 23) k) by lia. rewrite Z.mul_assoc, VF, VN.
    change (2 ^ 23) with 8388608. nia. }
  replace (eN + 23 - (eF + 23 + k) + eF - eN - e) with (- k - e) in Hb by lia.
  assert (Helo : - k - 23 <= e).
  { unfold canonical32 in Hm. assert (- k - e < 24); [|lia]. apply pow2_lt_inv. lia. }
  (* from above *)
  assert (Hehi : e <= - k - 23).
  { destruct (Z.eq_dec k 0) as [E0|E0].
    - destruct (div_le_one mF mN eF eN CF CN ltac:(lia) ltac:(lia)) as (m' & e' & Heq' & _ & _ & He').
      + rewrite VF, VN. apply Z.mul_le_mono_nonneg_r; lia.
      + rewrite Heq in Heq'. injection Heq' as _ <-. lia.
    - specialize (Hlow ltac:(lia)).
      pose proof (pow2_pos (k - 1) ltac:(lia)) as Hpk1.
      assert (Hu : eF + k - 1 <= eN).
      { destruct (Z.le_gt_cases (eF + k - 1) eN) as [H|H]; [exact H|exfalso].
        pose proof (pow2_le (eN + 23 + 1) (eF + 23 + (k - 1)) ltac:(lia)) as Hp.
        rewrite (pow2_split (eN + 23) 1), (pow2_split (eF + 23) (k - 1)) in Hp by lia.
        change (2 ^ 1) with 2 in Hp.
        unfold canonical32 in CF, CN.
        change (2 ^ 23) with 8388608 in *. change (2 ^ 24) with 16777216 in *.
        assert (8388608 * 2 ^ (eF + 23) <= f * 8388608) by nia.
        assert (n * 8388608 < 16777216 * 2 ^ (eN + 23)) by nia.
        nia. }
      destruct (div_upper mF mN eF eN (2 ^ 24 - 1) (eN - eF - k + 1) CF CN ltac:(lia))
        as (m' & e' & Heq' & _ & He' & _).
      + change (2 ^ 23) with 8388608. change (2 ^ 24) with 16777216. lia.
      + lia.
      + set (G := 2 ^ (eF + 23) * 2 ^ (k - 1)).
        assert (HG : 0 < G) by (unfold G; nia).
        assert (EN : 2 ^ (eN + 23) = 2 ^ (eN - eF - k + 1) * G).
        { unfold G. rewrite <- !pow2_split by lia. f_equal. lia. }
        assert (H1 : f * 2 ^ (k - 1) * 2 ^ 24 <= n * (2 ^ 24 - 1)).
        { change (2 ^ 24) with 16777216 in *. nia. }
        assert (H2 : Zpos mF * G * 2 ^ 24 <= Zpos mN * 2 ^ (eN + 23) * (2 ^ 24 - 1)).
        { unfold G. rewrite Z.mul_assoc, VF, VN.
          change (2 ^ 23) with 8388608 in *. change (2 ^ 24) with 16777216 in *. nia. }
        rewrite EN in H2.
        apply (Z.mul_le_mono_pos_r _ _ G HG).
        nia.
      + rewrite Heq in Heq'. injection Heq' as _ <-. lia. }
  exists m. split; [rewrite Heq; f_equal; lia|]. split; [exact Hm|lia].
Qed.

(** Its reciprocal lies in [(2^(k-1), 2^k]], so that the precision is
    exactly [k]. *)
Lemma precision_exact (f n : Z) :
  1 <= f <= n -> n <= 2 ^ 24 ->
  precision_of (probability_of f n) = shannon_length f n.
Proof.
  intros Hf Hn.
  destruct (probability_binade f n Hf Hn) as (mP & QP & CP & Hk).
  set (k := shannon_length f n) in *.
  unfold precision_of. rewrite QP.
  change (F32.of_int 1) with (S754_finite false 8388608 (-23)).
  assert (H1 : canonical32 8388608) by (unfold canonical32; simpl; lia).
  destruct (div_canonical 8388608 mP (-23) (- k - 23) H1 CP ltac:(lia))
    as (q & r & s & m1 & m & e & Hdm & Hr & Hs & Hq1 & Hm1 & Hup & Heq & Hm & Hcase).
  rewrite Heq.
  unfold canonical32 in CP, Hm.
  change (2 ^ 23) with 8388608 in *. change (2 ^ 24) with 16777216 in *.
  change (Zpos 8388608 * 16777216) with 140737488355328 in Hdm.
  assert (Hres : (e = k - 24 /\ 8388608 < Zpos m) \/ (e = k - 23 /\ Zpos m = 8388608)).
  { destruct (Z.eq_dec (Zpos mP) 8388608) as [E|E].
    - rewrite E in *.
      assert (q = 16777216) by lia. assert (r = 0) by lia. subst q r.
      assert (s = 1) as ->.
      { destruct (Z.eq_dec s 0) as [->|]; [|lia].
        change (2 ^ 0) with 1 in Hq1. rewrite Z.div_1_r in Hq1. lia. }
      change (2 ^ 1) with 2 in *. cbn in Hm1.
      change (16777216 / 2) with 8388608 in Hm1.
      change ((16777216 + 0 + 2 - 1) / 2) with 8388608 in Hm1.
      right. lia.
    - assert (Hq : q < 16777216) by nia.
      assert (s = 0) as ->.
      { destruct (Z.eq_dec s 1) as [->|]; [|lia].
        change (2 ^ 1) with 2 in Hq1.
        pose proof (Z.mul_div_le q 2 ltac:(lia)). lia. }
      change (2 ^ 0) with 1 in *. rewrite !Z.div_1_r in *.
      assert (Hm1' : 8388608 < m1).
      { destruct (Z.eq_dec q 8388608) as [Eq|Eq]; [|lia].
        rewrite Hup; [lia|reflexivity|]. subst q. lia. }
      destruct Hcase as [[E1 E2]|(E1 & E2 & E3)].
      + left. lia.
      + right. lia. }
  rewrite ceil_log2_of_float by (unfold canonical32; simpl (2 ^ 23); simpl (2 ^ 24); lia).
  destruct Hres as [[-> Hgt]|[-> Heq']].
  - rewrite (Z.log2_up_unique (Zpos m) 24); [lia|lia|].
    simpl (Z.pred 24). change (2 ^ 23) with 8388608. change (2 ^ 24) with 16777216. lia.
  - rewrite Heq'. change 8388608 with (2 ^ 23) at 1. rewrite Z.log2_up_pow2 by lia. lia.
Qed.

(* ================================================================== *)
(** * Code lengths *)

(** Every code has as many digits as the precision computed for its
    entry, and that precision is never negative. *)
Lemma code_length_precision (cs : bool) (l : str) (e : CharCode) :
  Z.of_nat (length l) <= INT_MAX -> In e (Mutex.charCodeVec cs l) ->
  1 <= freq e <= Z.of_nat (length l)
  /\ 0 <= precision_of (probability_of (freq e) (Z.of_nat (length l)))
  /\ Z.of_nat (length (code e))
     = precision_of (probability_of (freq e) (Z.of_nat (length l))).
Proof.
  intros Hlen Hin.
  destruct (charCodeVec_freq cs l e Hlen Hin) as [Hf Hc].
  assert (Hfreq : 1 <= freq e <= Z.of_nat (length l)).
  { rewrite Hf. pose proof (occ_pos _ _ Hc). pose proof (occ_le_length (character e) l). lia. }
  pose proof (precision_nonneg (freq e) (Z.of_nat (length l)) Hfreq Hlen) as Hp.
  split; [exact Hfreq|]. split; [exact Hp|].
  destruct (coded_code _ _ _ _ e (charCodeVec_coded cs l) Hin) as [cum Hcode].
  unfold lineSize_of in Hcode.
  rewrite wrap_int_small in Hcode by (unfold INT_MIN, INT_MAX in *; lia).
  rewrite Hcode, decimalToBinary_length. now apply Z2Nat.id.
Qed.




(* ================================================================== *)
(** * Further facts about the encoder *)

Lemma zsum_app (a b : list Z) : zsum (a ++ b) = zsum a + zsum b.
Proof. induction a as [|x a IH]; simpl; [reflexivity|]. rewrite IH. lia. Qed.

Lemma zsum_map_ext {A : Type} (f g : A -> Z) (l : list A) :
  (forall x, In x l -> f x = g x) -> zsum (map f l) = zsum (map g l).
Proof.
  induction l as [|x l IH]; intros H; simpl; [reflexivity|].
  rewrite (H x) by now left. rewrite IH; [reflexivity|]. intros y Hy. apply H. now right.
Qed.

Lemma zsum_map_le {A : Type} (f g : A -> Z) (l : list A) :
  (forall x, In x l -> f x <= g x) -> zsum (map f l) <= zsum (map g l).
Proof.
  induction l as [|x l IH]; intros H; simpl; [lia|].
  specialize (H x (or_introl eq_refl)) as Hx.
  assert (zsum (map f l) <= zsum (map g l)) by (apply IH; intros y Hy; apply H; now right).
  lia.
Qed.

Lemma zsum_map_scale {A : Type} (k : Z) (f : A -> Z) (l : list A) :
  zsum (map (fun x => k * f x) l) = k * zsum (map f l).
Proof. induction l as [|x l IH]; simpl; [lia|]. rewrite IH. lia. Qed.

Lemma zsum_map_add {A : Type} (f g : A -> Z) (l : list A) :
  zsum (map (fun x => f x + g x) l) = zsum (map f l) + zsum (map g l).
Proof. induction l as [|x l IH]; simpl; [lia|]. rewrite IH. lia. Qed.

Lemma zsum_permutation (a b : list Z) : Permutation a b -> zsum a = zsum b.
Proof. induction 1; simpl; lia. Qed.

Lemma occ_cons (c x : ascii) (s : str) :
  occ c (x :: s) = occ c s + (if ascii_dec x c then 1 else 0).
Proof. unfold occ. simpl. destruct (ascii_dec x c); lia. Qed.

Lemma occ_permutation (c : ascii) (s t : str) : Permutation s t -> occ c s = occ c t.
Proof.
  induction 1 as [|x s t Hp IH|x y s|s t u H1 IH1 H2 IH2].
  - reflexivity.
  - rewrite !occ_cons, IH. reflexivity.
  - rewrite !occ_cons. lia.
  - congruence.
Qed.

(** Summing a weight over the keys, once for each key equal to [c]. *)
Lemma zsum_indicator (g : ascii -> Z) (c : ascii) (ks : list ascii) :
  NoDup ks -> In c ks ->
  zsum (map (fun k => (if ascii_dec c k then 1 else 0) * g k) ks) = g c.
Proof.
  induction 1 as [|k ks Hk Hnd IH]; intros Hin; [contradiction|]. simpl.
  destruct (ascii_dec c k) as [E|E].
  - subst k.
    assert (H0 : zsum (map (fun k => (if ascii_dec c k then 1 else 0) * g k) ks) = 0).
    { clear IH Hin Hnd. induction ks as [|y ks IH]; [reflexivity|]. simpl.
      destruct (ascii_dec c y) as [->|Hy]; [exfalso; apply Hk; now left|].
      rewrite IH; [lia|]. intros H. apply Hk. now right. }
    rewrite H0. lia.
  - destruct Hin as [Hin|Hin]; [congruence|]. rewrite IH by exact Hin. lia.
Qed.

(** A sum over the characters of a string, regrouped by character. *)
Lemma zsum_by_character (g : ascii -> Z) (ks : list ascii) (s : str) :
  NoDup ks -> (forall c, In c s -> In c ks) ->
  zsum (map g s) = zsum (map (fun k => occ k s * g k) ks).
Proof.
  intros Hnd. induction s as [|c s IH]; intros Hin.
  - simpl. clear Hnd Hin. induction ks as [|k ks IHk]; [reflexivity|]. simpl.
    rewrite <- IHk. unfold occ. simpl. lia.
  - simpl. rewrite IH by (intros x Hx; apply Hin; now right).
    rewrite <- (zsum_indicator g c ks Hnd (Hin c (or_introl eq_refl))).
    rewrite <- zsum_map_add. apply zsum_map_ext. intros k _.
    rewrite occ_cons. lia.
Qed.

Section EncoderMore.
Variable cs : bool.

Lemma charCodeVec_NoDup (l : str) : NoDup (map character (Mutex.charCodeVec cs l)).
Proof.
  rewrite (coded_characters _ _ _ _ (charCodeVec_coded cs l)).
  apply sorted_vec_NoDup.
Qed.

(** The frequencies of the alphabet add up to the length of the line. *)
Lemma charCodeVec_freq_sum (l : str) :
  Z.of_nat (length l) <= INT_MAX ->
  zsum (map freq (Mutex.charCodeVec cs l)) = Z.of_nat (length l).
Proof.
  intros Hlen.
  transitivity (zsum (map (fun e => occ (character e) l * 1) (Mutex.charCodeVec cs l))).
  { apply zsum_map_ext. intros e He.
    destruct (charCodeVec_freq cs l e Hlen He) as [-> _]. lia. }
  rewrite <- (map_map character (fun k => occ k l * 1)).
  rewrite <- (zsum_by_character (fun _ => 1) _ l (charCodeVec_NoDup l)).
  - clear Hlen. induction l as [|c l IH]; [reflexivity|].
    cbn [map zsum fold_right length]. fold (zsum (map (fun _ : ascii => 1) l)).
    rewrite IH. lia.
  - intros c Hc. apply charCodeVec_characters. now rewrite indexed_full.
Qed.

Lemma appendCodes_concat (m : list (ascii * str)) (visited acc : str) :
  appendCodes cs m visited acc
  = acc ++ concat (map (fun c => map_get cs [] c m) visited).
Proof.
  unfold appendCodes. revert acc. induction visited as [|c r IH]; intros acc; simpl.
  - now rewrite app_nil_r.
  - rewrite IH, <- app_assoc. reflexivity.
Qed.

(** The map holds, for the character of every entry, the code of that
    entry. *)
Lemma code_of_entry (l : str) (e : CharCode) :
  In e (Mutex.charCodeVec cs l) -> code_of cs l (character e) = code e.
Proof.
  intros He. unfold Mutex.charCodeVec, Mutex.codeTable in He.
  pose proof (proj1 (assignCodes_map cs _ _ _ _ (sorted_vec_NoDup cs l)) e He) as H.
  unfold code_of, map_get, Mutex.charCodeMap, Mutex.codeTable. unfold str in *.
  now rewrite H.
Qed.

Lemma encodedLine_concat (l : str) :
  Z.of_nat (length l) <= INT_MAX ->
  Mutex.encodedLine cs l = concat (map (code_of cs l) l).
Proof.
  intros Hlen. unfold Mutex.encodedLine. rewrite appendCodes_concat, indexed_full by exact Hlen.
  reflexivity.
Qed.

Lemma length_concat_zsum {A B : Type} (f : A -> list B) (s : list A) :
  Z.of_nat (length (concat (map f s))) = zsum (map (fun c => Z.of_nat (length (f c))) s).
Proof.
  induction s as [|c s IH]; [reflexivity|]. simpl.
  rewrite length_app, Nat2Z.inj_add, IH. reflexivity.
Qed.

(** The length of the encoded line: every entry contributes its code as
    often as its character occurs. *)
Lemma encodedLine_length (l : str) :
  Z.of_nat (length l) <= INT_MAX ->
  Z.of_nat (length (Mutex.encodedLine cs l))
  = zsum (map (fun e => freq e * Z.of_nat (length (code e))) (Mutex.charCodeVec cs l)).
Proof.
  intros Hlen. rewrite encodedLine_concat by exact Hlen.
  pose proof (length_concat_zsum (B := ascii) (code_of cs l) l) as Hc.
  unfold str in *. rewrite Hc. clear Hc.
  rewrite (zsum_by_character _ (map character (Mutex.charCodeVec cs l)) l
             (charCodeVec_NoDup l)).
  - rewrite map_map. apply zsum_map_ext. intros e He.
    destruct (charCodeVec_freq cs l e Hlen He) as [-> _].
    now rewrite code_of_entry.
  - intros c Hc. apply charCodeVec_characters. now rewrite indexed_full.
Qed.
End EncoderMore.

Lemma shannon_length_antitone (f1 f2 n : Z) :
  1 <= f2 <= f1 -> f1 <= n -> shannon_length f1 n <= shannon_length f2 n.
Proof.
  intros Hf Hn.
  destruct (shannon_length_spec f2 n ltac:(lia)) as (H0 & Hup & _).
  apply shannon_length_least; [lia|exact H0|].
  pose proof (pow2_pos _ H0). nia.
Qed.

Lemma StronglySorted_weaken {A : Type} (R R' : A -> A -> Prop) (l : list A) :
  (forall a b, In a l -> In b l -> R a b -> R' a b) ->
  StronglySorted R l -> StronglySorted R' l.
Proof.
  intros H Hs. induction Hs as [|x l Hs IH Hall]; constructor.
  - apply IH. intros a b Ha Hb. apply H; now right.
  - rewrite Forall_forall in *. intros y Hy. apply H; [now left|now right|now apply Hall].
Qed.

Lemma pad_zeros_repeat (p : nat) (b : str) : pad_zeros p b = b ++ repeat "0"%char p.
Proof.
  revert b. induction p as [|p IH]; intros b; simpl; [now rewrite app_nil_r|].
  rewrite IH, <- app_assoc. reflexivity.
Qed.

(** From a cumulative probability of zero, every digit is a zero. *)
Lemma decimalToBinary_zero (precision : Z) :
  decimalToBinary F32.zero precision = repeat "0"%char (Z.to_nat precision).
Proof.
  unfold decimalToBinary. destruct (Z.to_nat precision) as [|p]; [reflexivity|].
  cbn [decimalToBinary_loop]. change (F32.gtb F32.zero F32.zero) with false.
  cbv iota. now rewrite pad_zeros_repeat.
Qed.

Section EncoderOrder.
Variable cs : bool.

Lemma entry_length_exact (l : str) (e : CharCode) :
  Z.of_nat (length l) <= 2 ^ 24 -> In e (Mutex.charCodeVec cs l) ->
  1 <= freq e <= Z.of_nat (length l)
  /\ Z.of_nat (length (code e)) = shannon_length (freq e) (Z.of_nat (length l)).
Proof.
  intros Hlen He.
  assert (Hint : Z.of_nat (length l) <= INT_MAX).
  { change (2 ^ 24) with 16777216 in Hlen. unfold INT_MAX. lia. }
  destruct (code_length_precision cs l e Hint He) as (Hf & _ & Hc).
  split; [exact Hf|]. now rewrite precision_exact in Hc.
Qed.

(** Code lengths never decrease along the alphabet. *)
Lemma code_lengths_ascend (l : str) :
  Z.of_nat (length l) <= 2 ^ 24 ->
  StronglySorted (fun a b => (length (code a) <= length (code b))%nat)
    (Mutex.charCodeVec cs l).
Proof.
  intros Hlen.
  apply StronglySorted_weaken with (2 := charCodeVec_sorted cs l).
  intros a b Ha Hb Hab. apply compareFreqChar_spec in Hab.
  destruct (entry_length_exact l a Hlen Ha) as [Hfa Hla].
  destruct (entry_length_exact l b Hlen Hb) as [Hfb Hlb].
  assert (Hf : freq b <= freq a) by (destruct Hab as [H|[H _]]; lia).
  pose proof (shannon_length_antitone (freq a) (freq b) (Z.of_nat (length l))
                ltac:(lia) ltac:(lia)). lia.
Qed.

(** The code of the first entry is made of zeros only. *)
Lemma first_code_zeros (l : str) (e : CharCode) (rest : list CharCode) :
  Mutex.charCodeVec cs l = e :: rest -> code e = repeat "0"%char (length (code e)).
Proof.
  intros Hv. pose proof (charCodeVec_coded cs l) as Hc. rewrite Hv in Hc.
  inversion Hc; subst. cbn [code].
  rewrite decimalToBinary_zero, repeat_length. reflexivity.
Qed.

(** Kraft's inequality for the code lengths, scaled by [2^24]. *)
Lemma code_lengths_kraft (l : str) :
  Z.of_nat (length l) <= 2 ^ 24 ->
  Forall (fun e => (length (code e) <= 24)%nat) (Mutex.charCodeVec cs l)
  /\ zsum (map (fun e => 2 ^ (24 - Z.of_nat (length (code e)))) (Mutex.charCodeVec cs l))
     <= 2 ^ 24.
Proof.
  intros Hlen.
  assert (Hint : Z.of_nat (length l) <= INT_MAX).
  { change (2 ^ 24) with 16777216 in Hlen. unfold INT_MAX. lia. }
  assert (Hall : forall e, In e (Mutex.charCodeVec cs l) ->
            0 <= Z.of_nat (length (code e)) <= 24
            /\ Z.of_nat (length l) * 2 ^ (24 - Z.of_nat (length (code e)))
               <= 2 ^ 24 * freq e).
  { intros e He. destruct (entry_length_exact l e Hlen He) as [Hf Hl].
    destruct (probability_binade (freq e) _ Hf Hlen) as (_ & _ & _ & Hk).
    destruct (shannon_length_spec _ _ Hf) as (_ & Hup & _).
    rewrite <- Hl in Hk, Hup. split; [lia|].
    set (k := Z.of_nat (length (code e))) in *.
    assert (E : 2 ^ 24 = 2 ^ k * 2 ^ (24 - k)).
    { rewrite <- pow2_split by lia. f_equal. lia. }
    rewrite E. pose proof (pow2_pos (24 - k) ltac:(lia)). nia. }
  split.
  { apply Forall_forall. intros e He. destruct (Hall e He) as [H _]. lia. }
  destruct (Mutex.charCodeVec cs l) as [|e0 r] eqn:Ev.
  { simpl. lia. }
  rewrite <- Ev in *.
  assert (Hn : 1 <= Z.of_nat (length l)).
  { destruct (entry_length_exact l e0 Hlen) as [Hf _]; [rewrite Ev; now left|lia]. }
  pose proof (zsum_map_le
                (fun e => Z.of_nat (length l) * 2 ^ (24 - Z.of_nat (length (code e))))
                (fun e => 2 ^ 24 * freq e) (Mutex.charCodeVec cs l)
                (fun e He => proj2 (Hall e He))) as Hs.
  rewrite (zsum_map_scale (Z.of_nat (length l))) in Hs.
  rewrite (zsum_map_scale (2 ^ 24) freq), charCodeVec_freq_sum in Hs by exact Hint.
  nia.
Qed.
End EncoderOrder.

Section CountOrder.
Variable cs : bool.

(** Two maps in key order with the same entries are the same map. *)
Lemma keys_sorted_unique {V : Type} (m m' : list (ascii * V)) :
  keys_sorted cs m -> keys_sorted cs m' ->
  (forall kv, In kv m <-> In kv m') -> m = m'.
Proof.
  unfold keys_sorted. revert m'.
  induction m as [|[k v] m IH]; intros m' Hs Hs' Hiff.
  - destruct m' as [|kv m']; [reflexivity|].
    exfalso. apply (proj2 (Hiff kv)). now left.
  - destruct m' as [|[k' v'] m'].
    { exfalso. apply (proj1 (Hiff (k, v))). now left. }
    simpl in Hs, Hs'.
    inversion Hs as [|? ? Hs1 Hall]; subst.
    inversion Hs' as [|? ? Hs1' Hall']; subst.
    rewrite Forall_forall in Hall, Hall'.
    assert (Hhead : (k, v) = (k', v')).
    { assert (H1 : In (k, v) ((k', v') :: m')) by (apply Hiff; now left).
      assert (H2 : In (k', v') ((k, v) :: m)) by (apply Hiff; now left).
      destruct H1 as [E|H1]; [now symmetry|].
      destruct H2 as [E|H2]; [exact E|].
      assert (L1 : char_ltb cs k' k = true) by (apply Hall'; apply in_map_iff; now exists (k, v)).
      assert (L2 : char_ltb cs k k' = true) by (apply Hall; apply in_map_iff; now exists (k', v')).
      rewrite (char_ltb_asym cs _ _ L1) in L2. discriminate. }
    injection Hhead as <- <-. f_equal.
    apply IH; [exact Hs1|exact Hs1'|].
    intros kv. split; intros Hin.
    + assert (H1 : In kv ((k, v) :: m')) by (apply Hiff; now right).
      destruct H1 as [E|H1]; [|exact H1]. subst kv. exfalso.
      assert (L : char_ltb cs k k = true) by (apply Hall; apply in_map_iff; now exists (k, v)).
      rewrite char_ltb_irrefl in L. discriminate.
    + assert (H1 : In kv ((k, v) :: m)) by (apply Hiff; now right).
      destruct H1 as [E|H1]; [|exact H1]. subst kv. exfalso.
      assert (L : char_ltb cs k k = true) by (apply Hall'; apply in_map_iff; now exists (k, v)).
      rewrite char_ltb_irrefl in L. discriminate.
Qed.

Lemma charCountMap_entry (s : str) (k : ascii) :
  Z.of_nat (length s) <= INT_MAX -> In k s -> In (k, occ k s) (charCountMap cs s).
Proof.
  intros Hlen Hk. apply (charCountMap_keys cs s k) in Hk.
  apply in_map_iff in Hk. destruct Hk as [[k' v] [E Hin]]. simpl in E. subst k'.
  destruct (charCountMap_occ cs s k v Hlen Hin) as [-> _]. exact Hin.
Qed.

(** The counts do not depend on the order of the characters. *)
Lemma charCountMap_permutation (s t : str) :
  Z.of_nat (length s) <= INT_MAX -> Permutation s t ->
  charCountMap cs s = charCountMap cs t.
Proof.
  intros Hlen Hp.
  assert (Hlen' : Z.of_nat (length t) <= INT_MAX)
    by now rewrite <- (Permutation_length Hp).
  apply keys_sorted_unique; try apply charCountMap_sorted.
  intros [k v]. split; intros Hin.
  - destruct (charCountMap_occ cs s k v Hlen Hin) as [-> Hk].
    rewrite (occ_permutation k s t Hp). apply charCountMap_entry; [exact Hlen'|].
    eapply Permutation_in; eassumption.
  - destruct (charCountMap_occ cs t k v Hlen' Hin) as [-> Hk].
    rewrite <- (occ_permutation k s t Hp). apply charCountMap_entry; [exact Hlen|].
    eapply Permutation_in; [apply Permutation_sym|]; eassumption.
Qed.

Lemma charCodeVec_permutation (s t : str) :
  Z.of_nat (length s) <= INT_MAX -> Permutation s t ->
  Mutex.charCodeVec cs s = Mutex.charCodeVec cs t
  /\ length (Mutex.encodedLine cs s) = length (Mutex.encodedLine cs t).
Proof.
  intros Hlen Hp.
  assert (Hlen' : Z.of_nat (length t) <= INT_MAX)
    by now rewrite <- (Permutation_length Hp).
  assert (Hv : Mutex.charCodeVec cs s = Mutex.charCodeVec cs t).
  { unfold Mutex.charCodeVec, Mutex.codeTable, lineSize_of.
    rewrite !indexed_full by assumption.
    rewrite (Permutation_length Hp), (charCountMap_permutation s t Hlen Hp). reflexivity. }
  split; [exact Hv|].
  apply Nat2Z.inj. rewrite !encodedLine_length by assumption. rewrite Hv. reflexivity.
Qed.
End CountOrder.

(* ================================================================== *)
(** * Further facts about the connection protocol *)

(** The request of [src/client.cpp] spelled out: the text up to its
    first NUL, the terminator, and whatever the buffer held before. *)
Lemma request_bytes (stale : list ascii) (l : str) :
  (length (c_str l) <= 31)%nat ->
  Client.request stale l
  = Some (c_str l ++ NUL :: skipn (length (c_str l) + 1) (uninit BUFFER_SIZE stale)).
Proof.
  intros Hlen. unfold Client.request, strcpy.
  rewrite length_app, uninit_length. simpl.
  replace (length (c_str l) + 1 <=? BUFFER_SIZE)%nat with true
    by (symmetry; apply Nat.leb_le; unfold BUFFER_SIZE; lia).
  now rewrite <- app_assoc.
Qed.

Lemma request_line_terminated (s r : list ascii) :
  ~ In NUL s -> Handler.request_line (s ++ NUL :: r) = Some s.
Proof.
  intros Hs. unfold Handler.request_line.
  now rewrite has_nul_app, c_str_terminated.
Qed.

Lemma has_nul_In (buf : list ascii) : has_nul buf = true <-> In NUL buf.
Proof.
  unfold has_nul. rewrite existsb_exists. split.
  - intros [x [Hx E]]. apply Ascii.eqb_eq in E. now subst x.
  - intros H. exists NUL. split; [exact H|apply Ascii.eqb_refl].
Qed.

Lemma c_str_split (buf : list ascii) :
  In NUL buf -> exists r, buf = c_str buf ++ NUL :: r.
Proof.
  induction buf as [|c buf IH]; intros H; [contradiction|]. simpl.
  destruct (Ascii.eqb_spec c NUL) as [->|Hc].
  - now exists buf.
  - destruct H as [H|H]; [congruence|]. destruct (IH H) as [r Hr].
    exists r. simpl. now rewrite <- Hr.
Qed.

Lemma entry_bytes_length (cc : CharCode) :
  Z.of_nat (length (code cc)) <= INT_MAX ->
  length (Handler.entry_bytes cc) = (9 + length (code cc))%nat.
Proof.
  intros H. unfold Handler.entry_bytes.
  rewrite wrap_int_small by (unfold INT_MIN, INT_MAX in *; lia).
  rewrite !length_app, !int_bytes_length, Nat2Z.id, firstn_exact. simpl. lia.
Qed.

(** The response of [src/server.cpp] spelled out. *)
Lemma response_bytes (stale : list ascii) (msg : EncodedMsg) :
  Z.of_nat (length (encodedLine msg)) < INT_MAX ->
  ~ In NUL (encodedLine msg) ->
  Handler.response stale msg
  = Some (int_bytes (wrap_int (Z.of_nat (length (charCodeVec msg))))
            ++ flat_map Handler.entry_bytes (charCodeVec msg)
            ++ int_bytes (Z.of_nat (length (encodedLine msg)))
            ++ encodedLine msg).
Proof.
  intros He Hn. unfold Handler.response, Handler.encoded_bytes.
  rewrite (wrap_int_small (Z.of_nat (length (encodedLine msg))))
    by (unfold INT_MIN, INT_MAX in *; lia).
  destruct (strcpy_fits (uninit (Z.to_nat (Z.of_nat (length (encodedLine msg)) + 1)) stale)
              (encodedLine msg)) as [rest [Hcp Hlen]].
  { rewrite uninit_length. pose proof (c_str_length (encodedLine msg)). lia. }
  rewrite Hcp, (c_str_no_nul _ Hn), Nat2Z.id, firstn_exact. reflexivity.
Qed.

Lemma network_response_bytes (msg : EncodedMsg) :
  Z.of_nat (length (encodedLine msg)) <= INT_MAX ->
  NetworkServer.response msg
  = int_bytes (wrap_int (Z.of_nat (length (charCodeVec msg))))
      ++ flat_map Handler.entry_bytes (charCodeVec msg)
      ++ int_bytes (Z.of_nat (length (encodedLine msg)))
      ++ encodedLine msg.
Proof.
  intros He. unfold NetworkServer.response.
  rewrite (wrap_int_small (Z.of_nat (length (encodedLine msg))))
    by (unfold INT_MIN, INT_MAX in *; lia).
  now rewrite Nat2Z.id, firstn_exact.
Qed.

Lemma flat_map_length_zsum {A B : Type} (f : A -> list B) (l : list A) :
  Z.of_nat (length (flat_map f l)) = zsum (map (fun x => Z.of_nat (length (f x))) l).
Proof.
  induction l as [|x l IH]; [reflexivity|]. simpl.
  rewrite length_app, Nat2Z.inj_add, IH. reflexivity.
Qed.

(* ================================================================== *)
(** * The encoders on a message that is not fresh, and the server on an
      arbitrary request *)

Section Reuse.
Variable cs : bool.

(** [src/server.cpp] appends to the encoded line the message already
    holds. *)
Lemma server_shannonCode_appends (l old : str) :
  Z.of_nat (length l) <= INT_MAX ->
  Server.shannonCode cs (mkEncodedMsg l [] old)
  = mkEncodedMsg l (Mutex.charCodeVec cs l) (old ++ Mutex.encodedLine cs l).
Proof.
  intros Hlen.
  destruct (server_shannonCode_spec cs (mkEncodedMsg l [] old)) as [-> _]. simpl.
  unfold Mutex.charCodeVec, Mutex.encodedLine, Mutex.charCodeMap, Mutex.codeTable.
  rewrite (indexed_full l Hlen).
  rewrite (appendCodes_concat cs _ l old), (appendCodes_concat cs _ l []).
  reflexivity.
Qed.

(** [src/multiThreading.cpp] resets it first. *)
Lemma mt_shannonCode_resets (l old : str) :
  MultiThreading.shannonCode cs (mkEncodedMsg l [] old)
  = mkEncodedMsg l (Mutex.charCodeVec cs l) (Mutex.encodedLine cs l).
Proof.
  rewrite (mt_shannonCode_spec cs (mkEncodedMsg l [] old)). reflexivity.
Qed.

(** The server's answer to a request that holds a terminator. *)
Lemma handle_terminated (stale message : list ascii) :
  (length message <= 32)%nat -> In NUL message ->
  exists resp,
    Handler.handle cs stale message = Some resp
    /\ Client.receive resp
       = Some (Mutex.charCodeVec cs (c_str message), Mutex.encodedLine cs (c_str message)).
Proof.
  intros Hlen Hnul.
  set (l := c_str message).
  assert (Hl : (length l <= 31)%nat).
  { destruct (c_str_split message Hnul) as [r Hr]. fold l in Hr.
    rewrite Hr, length_app in Hlen. simpl in Hlen. lia. }
  assert (Hmax : Z.of_nat (length l) <= INT_MAX) by (unfold INT_MAX; lia).
  unfold Handler.handle, Handler.request_line.
  rewrite (proj2 (has_nul_In message) Hnul). fold l. fold (encode cs l).
  rewrite (encode_fresh cs l Hmax).
  apply receive_response; simpl.
  - pose proof (charCodeVec_length cs l Hmax). lia.
  - apply Forall_forall. intros e Hin.
    destruct (charCodeVec_freq cs l e Hmax Hin) as [Hf Hc].
    pose proof (occ_le_length (character e) l).
    pose proof (small_code_length cs l e Hl Hin).
    repeat split; try (unfold INT_MIN, INT_MAX; lia).
    apply bits_no_nul. now apply (charCodeVec_bits cs l).
  - pose proof (small_encodedLine_length cs l Hl). unfold INT_MAX. lia.
  - apply bits_no_nul, encodedLine_bits.
Qed.

End Reuse.

(** The request of [src/client.cpp] fails exactly on a line of 32
    characters or more before its first NUL. *)
Lemma request_none (stale : list ascii) (l : str) :
  Client.request stale l = None <-> (32 <= length (c_str l))%nat.
Proof.
  split.
  - intros H. destruct (le_lt_dec 32 (length (c_str l))) as [Hge|Hlt]; [exact Hge|].
    rewrite request_bytes in H by lia. discriminate H.
  - intros H. unfold Client.request. apply strcpy_overrun.
    rewrite uninit_length. exact H.
Qed.

(* ================================================================== *)
(** * The programs that print after joining their threads: facts *)

Lemma set_nth_length {A : Type} (i : nat) (x : A) (v : list A) :
  length (set_nth i x v) = length v.
Proof.
  revert i. induction v as [|y r IH]; intros i; [reflexivity|].
  destruct i; simpl; [reflexivity|]. now rewrite IH.
Qed.

Lemma set_nth_same {A : Type} (i : nat) (x : A) (v : list A) :
  (i < length v)%nat -> nth_error (set_nth i x v) i = Some x.
Proof.
  revert i. induction v as [|y r IH]; intros i Hi; simpl in *; [lia|].
  destruct i; simpl; [reflexivity|]. apply IH. lia.
Qed.

Lemma set_nth_other {A : Type} (i j : nat) (x : A) (v : list A) :
  i <> j -> nth_error (set_nth i x v) j = nth_error v j.
Proof.
  revert i j. induction v as [|y r IH]; intros i j Hij; [reflexivity|].
  destruct i, j; simpl; try reflexivity; try lia. apply IH. lia.
Qed.

Lemma nth_error_eq {A : Type} (l l' : list A) :
  (forall n, nth_error l n = nth_error l' n) -> l = l'.
Proof.
  revert l'. induction l as [|x l IH]; intros l' H.
  - destruct l' as [|y l']; [reflexivity|]. specialize (H O). discriminate.
  - destruct l' as [|y l']; [specialize (H O); discriminate|].
    pose proof (H O) as H0. injection H0 as ->. f_equal.
    apply IH. intros n. exact (H (S n)).
Qed.

(** Updating the elements at the indices of [order], each at most once,
    by a function of the element. *)
Lemma fold_set_nth {A : Type} (f : nat -> A -> A) (order : list nat) (v : list A) (n : nat) :
  NoDup order ->
  nth_error
    (fold_left (fun v i => match nth_error v i with
                           | Some x => set_nth i (f i x) v
                           | None => v
                           end) order v) n
  = match nth_error v n with
    | Some x => Some (if in_dec Nat.eq_dec n order then f n x else x)
    | None => None
    end.
Proof.
  intros Hnd. revert v. induction Hnd as [|i order Hi Hnd IH]; intros v.
  - simpl. now destruct (nth_error v n).
  - cbn [fold_left]. rewrite IH.
    destruct (nth_error v i) as [x|] eqn:Ei.
    + destruct (Nat.eq_dec i n) as [->|Hne].
      * rewrite set_nth_same by (apply nth_error_Some; congruence).
        rewrite Ei.
        destruct (in_dec Nat.eq_dec n order) as [H|H]; [contradiction|].
        destruct (in_dec Nat.eq_dec n (n :: order)) as [H'|H']; [reflexivity|].
        exfalso. apply H'. now left.
      * rewrite set_nth_other by exact Hne.
        destruct (nth_error v n) as [y|]; [|reflexivity].
        destruct (in_dec Nat.eq_dec n order) as [H|H];
          destruct (in_dec Nat.eq_dec n (i :: order)) as [H'|H']; try reflexivity.
        -- exfalso. apply H'. now right.
        -- destruct H' as [E|H']; [congruence|contradiction].
    + destruct (nth_error v n) as [y|] eqn:En; [|reflexivity].
      assert (Hne : i <> n) by congruence.
      destruct (in_dec Nat.eq_dec n order) as [H|H];
        destruct (in_dec Nat.eq_dec n (i :: order)) as [H'|H']; try reflexivity.
      * exfalso. apply H'. now right.
      * destruct H' as [E|H']; [congruence|contradiction].
Qed.

Lemma fold_set_nth_map {A : Type} (f : nat -> A -> A) (g : A -> A)
    (order : list nat) (v : list A) :
  Permutation order (seq 0 (length v)) ->
  (forall i x, nth_error v i = Some x -> f i x = g x) ->
  fold_left (fun v i => match nth_error v i with
                        | Some x => set_nth i (f i x) v
                        | None => v
                        end) order v
  = map g v.
Proof.
  intros Hp Hfg. apply nth_error_eq. intros n.
  rewrite fold_set_nth
    by (apply (Permutation_NoDup (Permutation_sym Hp)), seq_NoDup).
  rewrite nth_error_map.
  destruct (nth_error v n) as [x|] eqn:En; [|reflexivity]. simpl.
  assert (Hn : (n < length v)%nat) by (apply nth_error_Some; congruence).
  destruct (in_dec Nat.eq_dec n order) as [H|H].
  - now rewrite (Hfg n x En).
  - exfalso. apply H. apply (Permutation_in n (Permutation_sym Hp)).
    apply in_seq. lia.
Qed.

Section Programs.
Variable cs : bool.

Lemma mt_shannonCode_fresh (l : str) :
  MultiThreading.shannonCode cs (mkEncodedMsg l [] [])
  = mkEncodedMsg l (Mutex.charCodeVec cs l) (Mutex.encodedLine cs l).
Proof. rewrite mt_shannonCode_spec. reflexivity. Qed.

Lemma mt_run_threads (inputLines : list str) (order : list nat) :
  Permutation order (seq 0 (length inputLines)) ->
  MultiThreadingMain.run_threads cs order (MultiThreadingMain.threadData inputLines)
  = map (fun l => mkEncodedMsg l (Mutex.charCodeVec cs l) (Mutex.encodedLine cs l))
      inputLines.
Proof.
  intros Hp. unfold MultiThreadingMain.run_threads, MultiThreadingMain.run_thread.
  rewrite (fold_set_nth_map (fun _ => MultiThreading.shannonCode cs)
             (MultiThreading.shannonCode cs)).
  - unfold MultiThreadingMain.threadData. rewrite map_map.
    apply map_ext. intros l. apply mt_shannonCode_fresh.
  - unfold MultiThreadingMain.threadData. now rewrite length_map.
  - reflexivity.
Qed.

Lemma mt_print_from (pre ls : list str) :
  MultiThreadingMain.print_from (length pre)
    (map (fun l => mkEncodedMsg l (Mutex.charCodeVec cs l) (Mutex.encodedLine cs l)) ls)
  = flat_map (fun i => map (pair (Z.of_nat i))
                         (Coordinator.display cs (nth i (pre ++ ls) [])))
      (seq (length pre) (length ls)).
Proof.
  revert pre. induction ls as [|l ls IH]; intros pre; [reflexivity|].
  cbn [map MultiThreadingMain.print_from length seq flat_map].
  f_equal.
  - rewrite app_nth2 by lia. rewrite Nat.sub_diag. reflexivity.
  - specialize (IH (pre ++ [l])). rewrite length_app in IH. simpl in IH.
    rewrite Nat.add_1_r, <- app_assoc in IH. exact IH.
Qed.
End Programs.

Section ClientProgram.
Variable cs : bool.
Variable stale_c stale_s : nat -> list ascii.

(** What a thread leaves in its element when the exchange succeeds. *)
Local Abbreviation answered curr :=
  (ClientMain.mkThreadData (ClientMain.portno curr) (ClientMain.hostname curr)
     (ClientMain.line curr) (Mutex.encodedLine cs (ClientMain.line curr))
     (Mutex.charCodeVec cs (ClientMain.line curr))).





End ClientProgram.

(* ================================================================== *)
(** * The coordinator: what the invariant gives *)

Module CoordinatorMore.
Import Coordinator CoordinatorInv.

Section More.
Variable cs : bool.
Variable inputLines : list str.

Local Abbreviation inv := (inv cs inputLines).
Local Abbreviation blocks := (blocks cs inputLines).

(** At most one worker is between the test of the [while] and the
    increment of the counter. *)
Lemma turn_unique s j k tj tk :
  inv s -> nth_error (threads s) j = Some tj -> nth_error (threads s) k = Some tk ->
  turn (t_pc tj) = true -> turn (t_pc tk) = true -> j = k.
Proof.
  intros Hinv Hj Hk Tj Tk.
  pose proof (CoordinatorFacts.turn_counter cs inputLines s j tj
                (inv_threads _ _ _ Hinv j tj Hj) Tj) as Cj.
  pose proof (CoordinatorFacts.turn_counter cs inputLines s k tk
                (inv_threads _ _ _ Hinv k tk Hk) Tk) as Ck.
  lia.
Qed.

(** Past the copying of the staging record a worker holds its own line
    and its own index. *)
Lemma own_after_copying s k t :
  inv s -> nth_error (threads s) k = Some t -> copying (t_pc t) = false ->
  t_line t = nth k inputLines [] /\ t_localID t = Z.of_nat k.
Proof.
  intros Hinv Hk Hc.
  pose proof (inv_threads _ _ _ Hinv k t Hk) as Htk.
  unfold tinv in Htk.
  destruct (t_pc t); simpl in Hc; try discriminate Hc;
    destruct Htk as [Ho _]; exact Ho.
Qed.

(** What a copying worker finds in the staging record: [main] has
    locked [mutex1] and is not writing, and the values not yet copied
    are still those of the worker's line. *)
Lemma staging_while_copying s k t :
  inv s -> nth_error (threads s) k = Some t -> copying (t_pc t) = true ->
  mutex1 s = true /\ setting (main_pc s) = false /\ length (threads s) = S k
  /\ (t_pc t = CopyLine -> sd_line s = nth k inputLines [])
  /\ (t_pc t <> CopyLine -> t_line t = nth k inputLines [])
  /\ (t_pc t <> Unlock1 -> sd_id s = Z.of_nat k)
  /\ (t_pc t = Unlock1 -> t_localID t = Z.of_nat k).
Proof.
  intros Hinv Hk Hc.
  pose proof (inv_threads _ _ _ Hinv k t Hk) as Htk.
  unfold tinv, handoff, own in Htk.
  destruct (t_pc t) eqn:E; simpl in Hc; try discriminate Hc.
  - destruct Htk as (Hl & Hi & (H1 & H2 & H3) & _).
    repeat split; auto; try discriminate. intros Hn. now elim Hn.
  - destruct Htk as (Hl & Hi & (H1 & H2 & H3) & _).
    repeat split; auto; discriminate.
  - destruct Htk as ((Hl & Hi') & (H1 & H2 & H3) & _).
    repeat split; auto; try discriminate. intros Hn. now elim Hn.
Qed.

(** The console holds the blocks of the lines before the counter and a
    part of the block of the line at the counter. *)
Lemma out_shape s :
  inv s ->
  exists done rest,
    display cs (nth (Z.to_nat (counter s)) inputLines []) = done ++ rest
    /\ out s = blocks (Z.to_nat (counter s)) ++ map (pair (counter s)) done.
Proof.
  intros Hinv. pose proof Hinv as [HT HC HM HO H1 H2].
  destruct (CoordinatorFacts.turn_decide (threads s)) as [Hno|[k [t [Hk Ht]]]].
  - exists [], (display cs (nth (Z.to_nat (counter s)) inputLines [])).
    split; [reflexivity|]. simpl. rewrite app_nil_r. exact (HO Hno).
  - pose proof (CoordinatorFacts.turn_counter cs inputLines s k t (HT k t Hk) Ht) as Hc.
    rewrite Hc, Nat2Z.id.
    pose proof (HT k t Hk) as Htk. unfold tinv in Htk.
    destruct (t_pc t) eqn:E; simpl in Ht; try discriminate.
    + exists [], (display cs (nth k inputLines [])). split; [reflexivity|].
      simpl. rewrite app_nil_r. tauto.
    + destruct Htk as (_ & _ & done & Hd & Ho). exists done, rest. split; assumption.
    + exists (display cs (nth k inputLines [])), []. split; [now rewrite app_nil_r|].
      destruct Htk as (_ & _ & ->). apply CoordinatorFacts.blocks_S.
    + exists (display cs (nth k inputLines [])), []. split; [now rewrite app_nil_r|].
      destruct Htk as (_ & _ & ->). apply CoordinatorFacts.blocks_S.
Qed.

(** The counter counts the workers that have finished printing. *)
Lemma counter_range s :
  inv s -> 0 <= counter s <= Z.of_nat (length (threads s))
           /\ (length (threads s) <= length inputLines)%nat.
Proof.
  intros Hinv. split; [apply (inv_counter _ _ _ Hinv)|].
  apply (CoordinatorFacts.created_le inputLines s (inv_main _ _ _ Hinv)).
Qed.


(** A sleeping worker whose turn has come is about to be woken: the
    broadcast that follows the increment is still to come. *)
Lemma no_lost_wakeup s k t :
  inv s -> nth_error (threads s) k = Some t -> t_pc t = Waiting ->
  counter s = Z.of_nat k ->
  exists j tj, nth_error (threads s) j = Some tj /\ t_pc tj = Broadcast /\ j <> k.
Proof.
  intros Hinv Hk Hpc Hc.
  pose proof (inv_threads _ _ _ Hinv k t Hk) as Htk.
  unfold tinv in Htk. rewrite Hpc in Htk.
  destruct Htk as (_ & _ & Hb). destruct (Hb Hc) as (j & tj & Hj & Hpj).
  exists j, tj. split; [exact Hj|]. split; [exact Hpj|].
  intros ->. congruence.
Qed.
End More.
End CoordinatorMore.

(* ================================================================== *)
(** * Exact floating-point steps of [decimalToBinary] *)

Section RoundingMultiple.
Variables prec emax : Z.
Hypothesis Hprec : 0 < prec.

(** A mantissa of [prec] digits followed by [n] zeros is rounded to
    itself. *)
Lemma binary_round_aux_multiple (sx : bool) (mx a : positive) (n ex : Z) :
  2 ^ (prec - 1) <= Zpos a < 2 ^ prec -> 0 <= n -> Zpos mx = Zpos a * 2 ^ n ->
  emin prec emax <= ex + n -> ex + n + 1 <= emax - prec ->
  binary_round_aux prec emax sx (Zpos mx) ex loc_Exact = S754_finite sx a (ex + n).
Proof.
  intros Ha Hn Hmx Hlo Hhi.
  assert (Hp : 0 < 2 ^ n) by (apply pow2_pos; lia).
  assert (Hd : Zpos (digits2_pos mx) = prec + n).
  { apply digits2_pos_unique. rewrite Hmx.
    replace (prec + n - 1) with (prec - 1 + n) by lia.
    rewrite !pow2_split by lia. split.
    - apply Z.mul_le_mono_nonneg_r; lia.
    - apply Z.mul_lt_mono_pos_r; lia. }
  pose proof (binary_round_aux_normal prec emax Hprec sx mx ex loc_Exact) as H.
  rewrite Hd in H. replace (prec + n - prec) with n in H by lia.
  cbv zeta in H. cbn [shr_record_of_loc] in H.
  destruct H as (Hq & m & e & Heq & Hm & Hcase); [lia|lia|lia|].
  set (x1 := shr_n (Z.to_nat n) (Build_shr_record (Zpos mx) false false)) in *.
  pose proof (round_nearest_even_record x1) as (Hm1 & _ & _).
  assert (Hlow : shr_m x1 = Zpos a).
  { unfold x1. rewrite shr_n_m by (simpl; lia). cbn [shr_m].
    rewrite Z2Nat.id by lia. rewrite Hmx. apply Z.div_mul. lia. }
  assert (Hhigh : shr_hi x1 = Zpos a).
  { unfold x1. rewrite shr_n_hi by (simpl; lia).
    unfold shr_hi at 1. cbn [shr_m shr_inexact shr_r shr_s orb].
    rewrite Z2Nat.id by lia. rewrite Hmx.
    replace (Zpos a * 2 ^ n + 0 + 2 ^ n - 1) with (2 ^ n - 1 + Zpos a * 2 ^ n) by lia.
    rewrite Z.div_add by lia. rewrite Z.div_small by lia. lia. }
  rewrite Heq. destruct Hcase as [[E1 E2]|(E1 & _)].
  - f_equal; [|exact E2]. apply Pos2Z.inj. lia.
  - lia.
Qed.

Lemma binary_round_multiple (sx : bool) (mx a : positive) (n ex : Z) :
  2 ^ (prec - 1) <= Zpos a < 2 ^ prec -> 0 <= n -> Zpos mx = Zpos a * 2 ^ n ->
  emin prec emax <= ex + n -> ex + n + 1 <= emax - prec ->
  binary_round prec emax sx mx ex = S754_finite sx a (ex + n).
Proof.
  intros Ha Hn Hmx Hlo Hhi.
  assert (Hp : 0 < 2 ^ n) by (apply pow2_pos; lia).
  assert (Hd : Zpos (digits2_pos mx) = prec + n).
  { apply digits2_pos_unique. rewrite Hmx.
    replace (prec + n - 1) with (prec - 1 + n) by lia.
    rewrite !pow2_split by lia. split.
    - apply Z.mul_le_mono_nonneg_r; lia.
    - apply Z.mul_lt_mono_pos_r; lia. }
  unfold binary_round, shl_align, fexp. rewrite Hd.
  rewrite Z.max_l by lia.
  replace (prec + n + ex - prec - ex) with n by lia.
  destruct n as [|k|k] eqn:En; try lia.
  - now apply (binary_round_aux_multiple sx mx a 0 ex).
  - now apply (binary_round_aux_multiple sx mx a (Zpos k) ex).
Qed.
End RoundingMultiple.

Lemma canonical32_digits (m : positive) : canonical32 m -> Zpos (digits2_pos m) = 24.
Proof.
  intros Hm. apply digits2_pos_unique. exact Hm.
Qed.

(** [decimal * 2] is exact. *)
Lemma mul_two_exact (m : positive) (e : Z) :
  canonical32 m -> -149 <= e <= 100 ->
  F32.mul (S754_finite false m e) (F32.of_int 2) = S754_finite false m (e + 1).
Proof.
  intros Hm He.
  change (F32.of_int 2) with (S754_finite false 8388608 (-22)).
  unfold F32.mul, SFmul, F32.prec, F32.emax. cbn [xorb].
  rewrite (binary_round_aux_multiple 24 128 ltac:(lia) false (m * 8388608) m 23 (e + -22)).
  - f_equal. lia.
  - exact Hm.
  - lia.
  - rewrite Pos2Z.inj_mul. reflexivity.
  - unfold emin. lia.
  - lia.
Qed.

(** The widening to [double] is exact. *)
Lemma of_float_exact (m : positive) (e : Z) :
  canonical32 m -> -1000 <= e <= 900 ->
  exists mz, F64.of_float (S754_finite false m e) = S754_finite false mz (e - 29)
             /\ Zpos mz = Zpos m * 2 ^ 29.
Proof.
  intros Hm He. unfold F64.of_float, binary_normalize. cbn [cond_Zopp].
  destruct (binary_round_exact 53 1024 ltac:(lia) false m e) as (mz & Heq & Hmz & _).
  - rewrite (canonical32_digits m Hm). lia.
  - rewrite (canonical32_digits m Hm). unfold emin. lia.
  - rewrite (canonical32_digits m Hm). lia.
  - rewrite (canonical32_digits m Hm) in Heq, Hmz.
    exists mz. split; [|exact Hmz].
    unfold F64.prec, F64.emax. rewrite Heq. f_equal. lia.
Qed.

(** The narrowing of a [double] that holds a binary32 number is exact. *)
Lemma of_double_exact (mz a : positive) (E : Z) :
  canonical32 a -> Zpos mz = Zpos a * 2 ^ 29 -> -178 <= E <= 70 ->
  F32.of_double (S754_finite false mz E) = S754_finite false a (E + 29).
Proof.
  intros Ha Hmz HE. unfold F32.of_double, binary_normalize. cbn [cond_Zopp].
  apply (binary_round_multiple 24 128 ltac:(lia) false mz a 29 E); try lia.
  - exact Ha.
  - unfold F32.prec, F32.emax, emin. lia.
Qed.

(** [temp >= 1] for a [double] with a full mantissa. *)
Lemma geb_one (mz : positive) (E : Z) :
  2 ^ 52 <= Zpos mz ->
  F64.geb (S754_finite false mz E) (F64.of_int 1) = (-52 <=? E).
Proof.
  intros Hmz.
  change (F64.of_int 1) with (S754_finite false 4503599627370496 (-52)).
  unfold F64.geb, SFleb, SFcompare.
  destruct (Z.compare_spec (-52) E) as [H|H|H].
  - subst E. change (2 ^ 52) with 4503599627370496 in Hmz.
    assert (Hc : (4503599627370496 <= mz)%positive) by lia.
    destruct (Pos.compare_cont Eq 4503599627370496 mz) eqn:C.
    + reflexivity.
    + reflexivity.
    + exfalso. apply Hc. exact C.
  - symmetry. apply Z.leb_le. lia.
  - symmetry. apply Z.leb_gt. lia.
Qed.

(** [temp - 1] for [temp] in [1, 2), narrowed back to [float], is
    exact. *)
Lemma sub_one_exact (mz m : positive) :
  canonical32 m -> Zpos mz = Zpos m * 2 ^ 29 ->
  let r := F32.of_double (F64.sub (S754_finite false mz (-52)) (F64.of_int 1)) in
  (Zpos m = 2 ^ 23 -> r = S754_zero false)
  /\ (2 ^ 23 < Zpos m ->
      exists a e, r = S754_finite false a e /\ canonical32 a /\ -46 <= e <= -24
                  /\ Zpos a = (Zpos m - 2 ^ 23) * 2 ^ (-23 - e)).
Proof.
  intros Hm Hmz r.
  assert (Hsub : F64.sub (S754_finite false mz (-52)) (F64.of_int 1)
                 = binary_normalize 53 1024 (Zpos mz - 2 ^ 52) (-52) false) by reflexivity.
  assert (HD : Zpos mz - 2 ^ 52 = (Zpos m - 2 ^ 23) * 2 ^ 29).
  { rewrite Hmz. change (2 ^ 52) with (2 ^ 23 * 2 ^ 29). lia. }
  unfold r. rewrite Hsub, HD. split.
  - intros E. rewrite E, Z.sub_diag. reflexivity.
  - intros Hgt. unfold canonical32 in Hm.
    destruct (Zpos m - 2 ^ 23) as [|q|q] eqn:Eq; try lia.
    set (d := Zpos (digits2_pos q)).
    pose proof (digits2_pos_bounds q) as Hq. fold d in Hq.
    assert (Hd : 1 <= d <= 23).
    { split; [unfold d; lia|].
      assert (d - 1 < 23); [|lia]. apply pow2_lt_inv.
      change (2 ^ 24) with (2 * 2 ^ 23) in Hm. lia. }
    destruct (Z.eq_dec 1 1) as [_|]; [|lia].
    assert (Hpd : exists pd, Zpos q * 2 ^ 29 = Zpos pd /\ Zpos (digits2_pos pd) = d + 29).
    { destruct (Zpos q * 2 ^ 29) as [|pd|pd] eqn:Epd; try lia.
      exists pd. split; [reflexivity|]. apply digits2_pos_unique. rewrite <- Epd.
      replace (d + 29 - 1) with (d - 1 + 29) by lia.
      rewrite !pow2_split by lia. lia. }
    destruct Hpd as (pd & Epd & Hdpd). rewrite Epd.
    unfold binary_normalize.
    destruct (binary_round_exact 53 1024 ltac:(lia) false pd (-52)) as (mz2 & Heq & Hmz2 & _).
    + rewrite Hdpd. lia.
    + rewrite Hdpd. unfold emin. lia.
    + rewrite Hdpd. lia.
    + rewrite Hdpd in Heq, Hmz2. rewrite Heq.
      assert (Hpa : exists a, Zpos q * 2 ^ (24 - d) = Zpos a /\ canonical32 a).
      { destruct (Zpos q * 2 ^ (24 - d)) as [|a|a] eqn:Ea;
          try (pose proof (pow2_pos (24 - d) ltac:(lia)); lia).
        exists a. split; [reflexivity|]. unfold canonical32. rewrite <- Ea.
        assert (E1 : 2 ^ 23 = 2 ^ (d - 1) * 2 ^ (24 - d)).
        { rewrite <- pow2_split by lia. f_equal. lia. }
        assert (E2 : 2 ^ 24 = 2 ^ d * 2 ^ (24 - d)).
        { rewrite <- pow2_split by lia. f_equal. lia. }
        rewrite E1, E2.
        pose proof (pow2_pos (24 - d) ltac:(lia)). split.
        - apply Z.mul_le_mono_nonneg_r; lia.
        - apply Z.mul_lt_mono_pos_r; lia. }
      destruct Hpa as (a & Ea & Ha).
      exists a, (d - 47).
      split; [|split; [exact Ha|split; [lia|]]].
      * rewrite (of_double_exact mz2 a (-52 + (d + 29) - 53) Ha); [f_equal; lia| |lia].
        rewrite Hmz2, <- Epd, <- Ea.
        replace (53 - (d + 29)) with (24 - d) by lia.
        rewrite <- !Z.mul_assoc. f_equal. apply Z.mul_comm.
      * rewrite <- Ea. f_equal. f_equal. lia.
Qed.

(** An iteration of the conversion loop whose digit is 0: the doubling
    is exact. *)
Lemma loop_step_zero (m : positive) (e : Z) :
  canonical32 m -> -149 <= e <= -25 ->
  let temp := F64.of_float (F32.mul (S754_finite false m e) (F32.of_int 2)) in
  F64.geb temp (F64.of_int 1) = false
  /\ F32.of_double temp = S754_finite false m (e + 1).
Proof.
  intros Hm He temp. unfold temp.
  rewrite mul_two_exact by (assumption || lia).
  destruct (of_float_exact m (e + 1) Hm ltac:(lia)) as (mz & -> & Hmz).
  unfold canonical32 in Hm. split.
  - rewrite geb_one by (rewrite Hmz; change (2 ^ 52) with (2 ^ 23 * 2 ^ 29); lia).
    apply Z.leb_gt. lia.
  - rewrite (of_double_exact mz m (e + 1 - 29) Hm Hmz) by lia. f_equal. lia.
Qed.

(** An iteration whose digit is 1: the doubling and the subtraction are
    exact. *)
Lemma loop_step_one (m : positive) :
  canonical32 m ->
  let temp := F64.of_float (F32.mul (S754_finite false m (-24)) (F32.of_int 2)) in
  let r := F32.of_double (F64.sub temp (F64.of_int 1)) in
  F64.geb temp (F64.of_int 1) = true
  /\ (Zpos m = 2 ^ 23 -> r = S754_zero false)
  /\ (2 ^ 23 < Zpos m ->
      exists a e, r = S754_finite false a e /\ canonical32 a /\ -46 <= e <= -24
                  /\ Zpos a = (Zpos m - 2 ^ 23) * 2 ^ (-23 - e)).
Proof.
  intros Hm temp r. unfold r, temp.
  rewrite mul_two_exact by (assumption || lia).
  destruct (of_float_exact m (-24 + 1) Hm ltac:(lia)) as (mz & -> & Hmz).
  change (-24 + 1 - 29) with (-52).
  split.
  - unfold canonical32 in Hm.
    rewrite geb_one by (rewrite Hmz; change (2 ^ 52) with (2 ^ 23 * 2 ^ 29); lia).
    reflexivity.
  - exact (sub_one_exact mz m Hm Hmz).
Qed.

(* ================================================================== *)
(** * [decimalToBinary] writes the binary expansion *)

Lemma binary_digits_length (p : nat) (k : Z) : length (binary_digits p k) = p.
Proof. induction p as [|p IH]; simpl; [reflexivity|now rewrite IH]. Qed.

Lemma binary_digits_ext (p : nat) (k k' : Z) :
  (forall i, 0 <= i < Z.of_nat p -> Z.testbit k i = Z.testbit k' i) ->
  binary_digits p k = binary_digits p k'.
Proof.
  induction p as [|p IH]; intros H; [reflexivity|].
  cbn [binary_digits]. rewrite (H (Z.of_nat p)) by lia. f_equal.
  apply IH. intros i Hi. apply H. lia.
Qed.

Lemma binary_digits_zero (p : nat) (k : Z) :
  (forall i, 0 <= i < Z.of_nat p -> Z.testbit k i = false) ->
  binary_digits p k = repeat "0"%char p.
Proof.
  induction p as [|p IH]; intros H; [reflexivity|].
  cbn [binary_digits repeat]. rewrite (H (Z.of_nat p)) by lia. f_equal.
  apply IH. intros i Hi. apply H. lia.
Qed.

(** Digits differ as soon as the numbers differ below [2^p]. *)
Lemma binary_digits_inj (p : nat) (k k' : Z) :
  0 <= k < 2 ^ Z.of_nat p -> 0 <= k' < 2 ^ Z.of_nat p ->
  binary_digits p k = binary_digits p k' -> k = k'.
Proof.
  intros Hk Hk' H. apply Z.bits_inj'. intros i Hi.
  destruct (Z.lt_ge_cases i (Z.of_nat p)) as [Hlt|Hge].
  - clear Hk Hk'. revert H. induction p as [|p IH]; intros H; [lia|].
    cbn [binary_digits] in H. injection H as Hd Hr.
    destruct (Z.eq_dec i (Z.of_nat p)) as [->|Hne].
    + destruct (Z.testbit k (Z.of_nat p)), (Z.testbit k' (Z.of_nat p));
        try reflexivity; discriminate Hd.
    + apply IH; [lia|exact Hr].
  - assert (Hb : forall x, 0 <= x < 2 ^ Z.of_nat p -> Z.testbit x i = false).
    { intros x Hx. destruct (Z.eq_dec x 0) as [->|Hx0]; [apply Z.bits_0|].
      apply Z.bits_above_log2; [lia|].
      assert (Z.log2 x < Z.of_nat p); [|lia].
      apply Z.log2_lt_pow2; lia. }
    now rewrite (Hb k Hk), (Hb k' Hk').
Qed.

(** The first [q] of [p] digits are the digits of the number shifted
    down. *)
Lemma binary_digits_firstn (q d : nat) (k : Z) :
  firstn q (binary_digits (q + d) k) = binary_digits q (Z.shiftr k (Z.of_nat d)).
Proof.
  induction q as [|q IH]; [reflexivity|].
  cbn [Nat.add binary_digits firstn]. rewrite IH. f_equal.
  rewrite Z.shiftr_spec by lia. rewrite Nat2Z.inj_add. rewrite (Z.add_comm _ (Z.of_nat d)).
  reflexivity.
Qed.

Lemma binary_value_app (s : str) (v : Z) :
  fold_left (fun v c => 2 * v + (if Ascii.eqb c "1"%char then 1 else 0)) s v
  = v * 2 ^ Z.of_nat (length s) + binary_value s.
Proof.
  unfold binary_value. revert v. induction s as [|c s IH]; intros v.
  - simpl. lia.
  - cbn [fold_left length]. rewrite IH, (IH (2 * 0 + _)).
    rewrite Nat2Z.inj_succ, Z.pow_succ_r by lia. lia.
Qed.

(** Reading the digits back gives the number, below [2^p]. *)
Lemma binary_value_digits (p : nat) (k : Z) :
  binary_value (binary_digits p k) = k mod 2 ^ Z.of_nat p.
Proof.
  induction p as [|p IH].
  - simpl. now rewrite Z.mod_1_r.
  - cbn [binary_digits]. unfold binary_value. cbn [fold_left].
    rewrite binary_value_app, binary_digits_length, IH.
    rewrite Nat2Z.inj_succ, Z.pow_succ_r by lia.
    set (P := 2 ^ Z.of_nat p). assert (HP : 0 < P) by (apply pow2_pos; lia).
    pose proof (Z.testbit_spec' k (Z.of_nat p) ltac:(lia)) as Hb. fold P in Hb.
    rewrite (Z.mul_comm 2 P), Z.rem_mul_r by lia.
    rewrite <- Hb.
    destruct (Z.testbit k (Z.of_nat p)); simpl Ascii.eqb; cbv iota; simpl Z.b2z; lia.
Qed.

Lemma loop_from_zero (p : nat) (acc : str) :
  decimalToBinary_loop p (S754_zero false) acc = acc ++ repeat "0"%char p.
Proof.
  destruct p as [|p]; [simpl; now rewrite app_nil_r|].
  cbn [decimalToBinary_loop]. change (F32.gtb (S754_zero false) F32.zero) with false.
  cbv iota. apply pad_zeros_repeat.
Qed.

Lemma canonical32_log2 (m : positive) : canonical32 m -> Z.log2 (Zpos m) = 23.
Proof.
  intros Hm. apply Z.log2_unique; [lia|]. exact Hm.
Qed.

Lemma loop_expansion (p : nat) :
  forall (m : positive) (e : Z) (acc : str),
    canonical32 m -> -149 <= e <= -24 ->
    decimalToBinary_loop p (S754_finite false m e) acc
    = acc ++ binary_digits p (Z.shiftl (Zpos m) (e + Z.of_nat p)).
Proof.
  induction p as [|p IH]; intros m e acc Hm He.
  - simpl. now rewrite app_nil_r.
  - cbn [decimalToBinary_loop binary_digits].
    change (F32.gtb (S754_finite false m e) F32.zero) with true. cbv iota.
    pose proof (canonical32_log2 m Hm) as Hlog.
    rewrite Z.shiftl_spec by lia.
    destruct (Z.eq_dec e (-24)) as [->|Hne].
    + destruct (loop_step_one m Hm) as (Hg & Hz & Hp).
      cbv zeta in Hg, Hz, Hp. rewrite Hg.
      replace (Z.of_nat p - (-24 + Z.of_nat (S p))) with 23 by lia.
      rewrite <- Hlog at 1. rewrite Z.bit_log2 by lia.
      unfold canonical32 in Hm.
      destruct (Z.eq_dec (Zpos m) (2 ^ 23)) as [E|E].
      * rewrite (Hz E), loop_from_zero, <- app_assoc. f_equal. cbn [app lit list_ascii_of_string].
        f_equal. symmetry. apply binary_digits_zero. intros i Hi.
        rewrite Z.shiftl_spec by lia. rewrite E.
        destruct (Z.lt_ge_cases (i - (-24 + Z.of_nat (S p))) 0) as [Hneg|Hpos].
        -- now apply Z.testbit_neg_r.
        -- apply Z.pow2_bits_false. lia.
      * destruct (Hp ltac:(lia)) as (a & e' & Hr & Ha & He' & Hval).
        rewrite Hr, (IH a e' _ Ha ltac:(lia)), <- app_assoc. f_equal.
        cbn [app lit list_ascii_of_string]. f_equal.
        apply binary_digits_ext. intros i Hi.
        rewrite !Z.shiftl_spec by lia.
        destruct (Z.lt_ge_cases (i - (e' + Z.of_nat p)) 0) as [Hneg|Hpos].
        -- rewrite Z.testbit_neg_r by exact Hneg.
           symmetry. apply Z.testbit_neg_r. lia.
        -- rewrite Hval, <- Z.shiftl_mul_pow2 by lia.
           rewrite Z.shiftl_spec by lia.
           replace (i - (e' + Z.of_nat p) - (-23 - e')) with (i - (-24 + Z.of_nat (S p))) by lia.
           set (t := i - (-24 + Z.of_nat (S p))).
           assert (Ht : t < 23) by (unfold t; lia).
           assert (Hmod : Zpos m - 2 ^ 23 = Zpos m mod 2 ^ 23).
           { apply (Z.mod_unique_pos _ _ 1); [|lia].
             change (2 ^ 24) with (2 * 2 ^ 23) in Hm. lia. }
           rewrite Hmod. destruct (Z.lt_ge_cases t 0) as [Ht0|Ht0].
           ++ now rewrite !Z.testbit_neg_r by exact Ht0.
           ++ apply Z.mod_pow2_bits_low. lia.
    + destruct (loop_step_zero m e Hm ltac:(lia)) as (Hg & Hn).
      cbv zeta in Hg, Hn. rewrite Hg, Hn.
      rewrite Z.bits_above_log2 by lia.
      rewrite (IH m (e + 1) _ Hm ltac:(lia)), <- app_assoc. f_equal.
      cbn [app lit list_ascii_of_string]. f_equal. f_equal. f_equal. lia.
Qed.

(** For a normal binary32 number [decimal] of (0, 1), [decimalToBinary]
    writes the first [precision] digits of its binary expansion: the
    digits of [floor (decimal * 2^precision)]. *)
Lemma decimalToBinary_digits (m : positive) (e precision : Z) :
  canonical32 m -> -149 <= e <= -24 ->
  decimalToBinary (S754_finite false m e) precision
  = binary_digits (Z.to_nat precision)
      (scaled_floor (S754_finite false m e) (Z.of_nat (Z.to_nat precision))).
Proof.
  intros Hm He. unfold decimalToBinary, scaled_floor.
  now rewrite (loop_expansion _ m e [] Hm He).
Qed.

(** [scaled_floor] is the floor of the scaled value and lies below
    [2^p]. *)
Lemma scaled_floor_spec (m : positive) (e p : Z) :
  canonical32 m -> -149 <= e <= -24 -> 0 <= p ->
  let K := scaled_floor (S754_finite false m e) p in
  0 <= K < 2 ^ p
  /\ K * 2 ^ (- e) <= Zpos m * 2 ^ p < (K + 1) * 2 ^ (- e).
Proof.
  intros Hm He Hp K. unfold K, scaled_floor. unfold canonical32 in Hm.
  assert (HE : 0 < 2 ^ (- e)) by (apply pow2_pos; lia).
  assert (HP : 0 < 2 ^ p) by (apply pow2_pos; lia).
  assert (HK : Z.shiftl (Zpos m) (e + p) = Zpos m * 2 ^ p / 2 ^ (- e)).
  { destruct (Z.lt_ge_cases (e + p) 0) as [Hn|Hn].
    - rewrite <- (Z.opp_involutive (e + p)), Z.shiftl_opp_r, Z.shiftr_div_pow2 by lia.
      replace (- e) with (p + - (e + p)) by lia.
      rewrite pow2_split by lia. rewrite (Z.mul_comm (Zpos m)).
      pose proof (pow2_pos (- (e + p)) ltac:(lia)).
      rewrite Z.div_mul_cancel_l by lia. reflexivity.
    - rewrite Z.shiftl_mul_pow2 by lia.
      assert (E : 2 ^ p = 2 ^ (e + p) * 2 ^ (- e)).
      { rewrite <- pow2_split by lia. f_equal. lia. }
      rewrite E at 1. rewrite Z.mul_assoc, Z.div_mul by lia. reflexivity. }
  rewrite HK.
  pose proof (Z.mul_div_le (Zpos m * 2 ^ p) (2 ^ (- e)) HE) as H1.
  pose proof (Z.mul_succ_div_gt (Zpos m * 2 ^ p) (2 ^ (- e)) HE) as H2.
  split; [split|split].
  - apply Z.div_pos; lia.
  - apply Z.div_lt_upper_bound; [lia|].
    assert (2 ^ 24 <= 2 ^ (- e)) by (apply pow2_le; lia).
    nia.
  - lia.
  - lia.
Qed.

(* ================================================================== *)
(** * Rounding is monotone against representable bounds *)

(** A value [c * 2^g] with [c <= 2^P] below the number [S * 2^w] stays
    below it after [S] is shortened by [n] bits, whichever way the
    shortening rounds. *)
Lemma grid_lower (P S n m1 c g w : Z) :
  0 < P -> 0 <= n -> 2 ^ (P - 1) * 2 ^ n <= S -> S / 2 ^ n <= m1 ->
  0 <= c <= 2 ^ P -> 0 <= g -> 0 <= w ->
  c * 2 ^ g <= S * 2 ^ w -> c * 2 ^ g <= m1 * 2 ^ (w + n).
Proof.
  intros HP Hn HS Hm1 Hc Hg Hw Hle.
  pose proof (pow2_pos n Hn) as Hpn. pose proof (pow2_pos w Hw) as Hpw.
  pose proof (pow2_pos g Hg) as Hpg. pose proof (pow2_pos (P - 1) ltac:(lia)) as HpP.
  assert (Hfl : 2 ^ (P - 1) <= S / 2 ^ n).
  { apply Z.div_le_lower_bound; lia. }
  rewrite (pow2_split w n) by lia.
  destruct (Z.le_gt_cases (w + n) g) as [Hge|Hlt].
  - assert (Eg : 2 ^ g = 2 ^ (g - w - n) * 2 ^ n * 2 ^ w).
    { rewrite <- !pow2_split by lia. f_equal. lia. }
    pose proof (pow2_pos (g - w - n) ltac:(lia)) as Hpd.
    rewrite Eg in Hle |- *.
    assert (H1 : c * 2 ^ (g - w - n) * 2 ^ n <= S).
    { apply (Z.mul_le_mono_pos_r _ _ (2 ^ w) Hpw). lia. }
    assert (H2 : c * 2 ^ (g - w - n) <= S / 2 ^ n).
    { apply Z.div_le_lower_bound; lia. }
    assert (H3 : c * 2 ^ (g - w - n) <= m1) by lia.
    assert (H4 : c * 2 ^ (g - w - n) * (2 ^ n * 2 ^ w) <= m1 * (2 ^ n * 2 ^ w)).
    { apply Z.mul_le_mono_nonneg_r; lia. }
    lia.
  - assert (Eg : 2 ^ (w + n) = 2 ^ (w + n - 1 - g) * 2 * 2 ^ g).
    { replace (2 ^ (w + n - 1 - g) * 2) with (2 ^ (w + n - 1 - g) * 2 ^ 1) by reflexivity.
      rewrite <- !pow2_split by lia. f_equal. lia. }
    rewrite (pow2_split w n) in Eg by lia.
    pose proof (pow2_pos (w + n - 1 - g) ltac:(lia)) as Hpd.
    assert (EP : 2 ^ P = 2 * 2 ^ (P - 1)).
    { replace P with (Z.succ (P - 1)) at 1 by lia. apply Z.pow_succ_r. lia. }
    rewrite (Z.mul_comm (2 ^ w) (2 ^ n)). rewrite (Z.mul_comm (2 ^ w) (2 ^ n)) in Eg.
    rewrite Eg.
    assert (H1 : c * 2 ^ g <= 2 * 2 ^ (P - 1) * 2 ^ g).
    { apply Z.mul_le_mono_nonneg_r; lia. }
    assert (H2 : 2 ^ (P - 1) * (2 * 2 ^ g) <= m1 * (2 ^ (w + n - 1 - g) * 2 * 2 ^ g)).
    { assert (2 ^ (P - 1) <= m1 * 2 ^ (w + n - 1 - g)) by nia.
      nia. }
    lia.
Qed.

(** The same from above. *)
Lemma grid_upper (P S n m1 c g w : Z) :
  0 < P -> 0 <= n -> 2 ^ (P - 1) * 2 ^ n <= S -> m1 <= (S + 2 ^ n - 1) / 2 ^ n ->
  0 <= m1 -> 0 <= c <= 2 ^ P -> 0 <= g -> 0 <= w ->
  S * 2 ^ w <= c * 2 ^ g -> m1 * 2 ^ (w + n) <= c * 2 ^ g.
Proof.
  intros HP Hn HS Hm1 Hm0 Hc Hg Hw Hle.
  pose proof (pow2_pos n Hn) as Hpn. pose proof (pow2_pos w Hw) as Hpw.
  pose proof (pow2_pos g Hg) as Hpg. pose proof (pow2_pos (P - 1) ltac:(lia)) as HpP.
  rewrite (pow2_split w n) by lia.
  destruct (Z.le_gt_cases (w + n) g) as [Hge|Hlt].
  - assert (Eg : 2 ^ g = 2 ^ (g - w - n) * 2 ^ n * 2 ^ w).
    { rewrite <- !pow2_split by lia. f_equal. lia. }
    pose proof (pow2_pos (g - w - n) ltac:(lia)) as Hpd.
    rewrite Eg in Hle |- *.
    assert (H1 : S <= c * 2 ^ (g - w - n) * 2 ^ n).
    { apply (Z.mul_le_mono_pos_r _ _ (2 ^ w) Hpw). lia. }
    assert (H2 : (S + 2 ^ n - 1) / 2 ^ n <= c * 2 ^ (g - w - n)).
    { apply Z.lt_succ_r. apply Z.div_lt_upper_bound; lia. }
    assert (H4 : m1 * (2 ^ n * 2 ^ w) <= c * 2 ^ (g - w - n) * (2 ^ n * 2 ^ w)).
    { apply Z.mul_le_mono_nonneg_r; lia. }
    lia.
  - assert (Eg : 2 ^ (w + n) = 2 ^ (w + n - 1 - g) * 2 * 2 ^ g).
    { replace (2 ^ (w + n - 1 - g) * 2) with (2 ^ (w + n - 1 - g) * 2 ^ 1) by reflexivity.
      rewrite <- !pow2_split by lia. f_equal. lia. }
    rewrite (pow2_split w n) in Eg by lia.
    pose proof (pow2_pos (w + n - 1 - g) ltac:(lia)) as Hpd.
    assert (EP : 2 ^ P = 2 * 2 ^ (P - 1)).
    { replace P with (Z.succ (P - 1)) at 1 by lia. apply Z.pow_succ_r. lia. }
    (* the bound is so low that [S] is the power of two itself *)
    assert (H1 : S * 2 ^ w <= 2 ^ (P - 1) * 2 ^ n * 2 ^ w).
    { assert (c * 2 ^ g <= 2 * 2 ^ (P - 1) * 2 ^ g) by (apply Z.mul_le_mono_nonneg_r; lia).
      assert (2 * 2 ^ (P - 1) * 2 ^ g <= 2 ^ (P - 1) * (2 ^ (w + n - 1 - g) * 2 * 2 ^ g)) by nia.
      rewrite <- Eg in H0. lia. }
    assert (H2 : S <= 2 ^ (P - 1) * 2 ^ n).
    { apply (Z.mul_le_mono_pos_r _ _ (2 ^ w) Hpw). lia. }
    assert (ES : S = 2 ^ (P - 1) * 2 ^ n) by lia.
    assert (H3 : (S + 2 ^ n - 1) / 2 ^ n = 2 ^ (P - 1)).
    { rewrite ES. replace (2 ^ (P - 1) * 2 ^ n + 2 ^ n - 1)
        with (2 ^ n - 1 + 2 ^ (P - 1) * 2 ^ n) by lia.
      rewrite Z.div_add by lia. rewrite Z.div_small by lia. lia. }
    assert (H4 : m1 * (2 ^ w * 2 ^ n) <= 2 ^ (P - 1) * (2 ^ w * 2 ^ n)).
    { apply Z.mul_le_mono_nonneg_r; lia. }
    lia.
Qed.

Section RoundingLong.
Variables prec emax : Z.
Hypothesis Hprec : 0 < prec.

(** A mantissa of [prec + n] digits is shortened by [n] bits to a
    mantissa between the quotient by [2^n] rounded down and rounded
    up. *)
Lemma binary_round_long (mx : positive) (ex : Z) :
  let n := Zpos (digits2_pos mx) - prec in
  0 <= n -> emin prec emax <= ex + n -> ex + n + 1 <= emax - prec ->
  exists m e m1,
    binary_round prec emax false mx ex = S754_finite false m e
    /\ 2 ^ (prec - 1) <= Zpos m < 2 ^ prec
    /\ ex + n <= e <= ex + n + 1
    /\ Zpos mx / 2 ^ n <= m1 <= (Zpos mx + 2 ^ n - 1) / 2 ^ n
    /\ (forall o, 0 <= ex + n + o -> Zpos m * 2 ^ (e + o) = m1 * 2 ^ (ex + n + o)).
Proof.
  intros n Hn Hlo Hhi.
  pose proof (binary_round_aux_normal prec emax Hprec false mx ex loc_Exact) as H.
  fold n in H. cbv zeta in H. cbn [shr_record_of_loc] in H.
  destruct H as (Hq & m & e & Heq & Hm & Hcase); [lia|lia|lia|].
  set (x1 := shr_n (Z.to_nat n) (Build_shr_record (Zpos mx) false false)) in *.
  pose proof (round_nearest_even_record x1) as (Hm1 & _ & _).
  set (m1 := round_nearest_even (shr_m x1) (loc_of_shr_record x1)) in *.
  assert (Hlow : shr_m x1 = Zpos mx / 2 ^ n).
  { unfold x1. rewrite shr_n_m by (simpl; lia). cbn [shr_m].
    now rewrite Z2Nat.id by lia. }
  assert (Hhigh : shr_hi x1 = (Zpos mx + 2 ^ n - 1) / 2 ^ n).
  { unfold x1. rewrite shr_n_hi by (simpl; lia).
    unfold shr_hi at 1. cbn [shr_m shr_inexact shr_r shr_s orb].
    rewrite Z2Nat.id by lia. f_equal; lia. }
  exists m, e, m1.
  split.
  { unfold binary_round, shl_align, fexp.
    rewrite Z.max_l by (unfold n in *; lia).
    replace (Zpos (digits2_pos mx) + ex - prec - ex) with n by (unfold n; lia).
    destruct n as [|k|k] eqn:En; try lia; exact Heq. }
  split; [exact Hm|].
  split; [destruct Hcase as [[_ ->]|(_ & _ & ->)]; lia|].
  split; [lia|].
  intros o Ho. destruct Hcase as [[E1 E2]|(E1 & E2 & E3)].
  - rewrite E1, E2. reflexivity.
  - rewrite E1, E2, E3.
    replace (ex + n + 1 + o) with (1 + (ex + n + o)) by lia.
    rewrite (pow2_split 1 (ex + n + o)) by lia.
    replace prec with (prec - 1 + 1) at 2 by lia.
    rewrite (pow2_split (prec - 1) 1) by lia. lia.
Qed.
End RoundingLong.

Lemma shl_align_value (mx : positive) (ex ez : Z) :
  ez <= ex -> Zpos (fst (shl_align mx ex ez)) = Zpos mx * 2 ^ (ex - ez).
Proof.
  intros H. unfold shl_align.
  destruct (ez - ex) as [|d|d] eqn:E; cbn [fst].
  - replace (ex - ez) with 0 by lia. simpl. lia.
  - lia.
  - rewrite pos_iter_xO. f_equal. f_equal. lia.
Qed.

(** The sum of two positive binary32 numbers with fine enough last
    bits: it is again such a number, and it is on the same side of every
    representable bound as the exact sum. *)
Lemma add_bounds (mx my : positive) (ex ey : Z) :
  canonical32 mx -> canonical32 my -> -47 <= ex <= -20 -> -47 <= ey <= -20 ->
  exists m e,
    F32.add (S754_finite false mx ex) (S754_finite false my ey) = S754_finite false m e
    /\ canonical32 m /\ -47 <= e <= 10
    /\ (forall c g, 0 <= c <= 2 ^ 24 -> 0 <= g ->
          c * 2 ^ g <= Zpos mx * 2 ^ (ex + 47) + Zpos my * 2 ^ (ey + 47) ->
          c * 2 ^ g <= Zpos m * 2 ^ (e + 47))
    /\ (forall c g, 0 <= c <= 2 ^ 24 -> 0 <= g ->
          Zpos mx * 2 ^ (ex + 47) + Zpos my * 2 ^ (ey + 47) <= c * 2 ^ g ->
          Zpos m * 2 ^ (e + 47) <= c * 2 ^ g).
Proof.
  intros Hx Hy Hex Hey.
  set (ez := Z.min ex ey).
  pose proof (shl_align_value mx ex ez ltac:(unfold ez; lia)) as Vx.
  pose proof (shl_align_value my ey ez ltac:(unfold ez; lia)) as Vy.
  set (px := fst (shl_align mx ex ez)) in *. set (py := fst (shl_align my ey ez)) in *.
  assert (Hadd : F32.add (S754_finite false mx ex) (S754_finite false my ey)
                 = binary_round 24 128 false (px + py) ez) by reflexivity.
  unfold canonical32 in Hx, Hy.
  pose proof (pow2_pos (ex - ez) ltac:(unfold ez; lia)) as Hpx.
  pose proof (pow2_pos (ey - ez) ltac:(unfold ez; lia)) as Hpy.
  assert (Hbx : 2 ^ (ex - ez) <= 2 ^ 27) by (apply pow2_le; unfold ez; lia).
  assert (Hby : 2 ^ (ey - ez) <= 2 ^ 27) by (apply pow2_le; unfold ez; lia).
  set (Sm := Zpos (px + py)).
  assert (HS : Sm = Zpos mx * 2 ^ (ex - ez) + Zpos my * 2 ^ (ey - ez)).
  { unfold Sm. rewrite Pos2Z.inj_add, Vx, Vy. reflexivity. }
  pose proof (digits2_pos_bounds (px + py)) as [Hd1 Hd2]. fold Sm in Hd1, Hd2.
  set (d := Zpos (digits2_pos (px + py))) in *.
  assert (Hd : 24 <= d <= 52).
  { split.
    - assert (23 < d); [|lia]. apply pow2_lt_inv.
      assert (2 ^ 23 <= Sm) by nia. lia.
    - assert (d - 1 < 52); [|lia]. apply pow2_lt_inv.
      assert (Sm < 2 ^ 52); [|lia].
      change (2 ^ 52) with (2 ^ 24 * 2 ^ 27 + 2 ^ 24 * 2 ^ 27). nia. }
  destruct (binary_round_long 24 128 ltac:(lia) (px + py) ez)
    as (m & e & m1 & Heq & Hm & He & Hm1 & Hval).
  { fold d. lia. }
  { fold d. unfold emin, ez. lia. }
  { fold d. unfold ez. lia. }
  fold d in He, Hm1, Hval. fold Sm in Hm1.
  set (n := d - 24) in *.
  exists m, e. split; [now rewrite Hadd|]. split; [exact Hm|].
  split; [unfold ez, n in *; lia|].
  assert (Hw : 0 <= ez + 47) by (unfold ez; lia).
  assert (Hsum : Zpos mx * 2 ^ (ex + 47) + Zpos my * 2 ^ (ey + 47) = Sm * 2 ^ (ez + 47)).
  { rewrite HS.
    replace (ex + 47) with (ex - ez + (ez + 47)) by lia.
    replace (ey + 47) with (ey - ez + (ez + 47)) by lia.
    rewrite (pow2_split (ex - ez) (ez + 47)), (pow2_split (ey - ez) (ez + 47))
      by (unfold ez; lia).
    ring. }
  assert (Hdig : 2 ^ (24 - 1) * 2 ^ n <= Sm).
  { rewrite <- pow2_split by (unfold n; lia).
    replace (24 - 1 + n) with (d - 1) by (unfold n; lia). exact Hd1. }
  rewrite Hsum. rewrite (Hval 47) by (unfold n; lia).
  replace (ez + n + 47) with (ez + 47 + n) by lia.
  split.
  - intros c g Hc Hg Hle.
    apply (grid_lower 24 Sm n m1 c g (ez + 47)); try lia; unfold n; lia.
  - intros c g Hc Hg Hle.
    assert (0 <= Sm / 2 ^ n).
    { apply Z.div_pos; [lia|]. apply pow2_pos. unfold n; lia. }
    apply (grid_upper 24 Sm n m1 c g (ez + 47)); try lia; unfold n; lia.
Qed.

(** [ceil (f * 2^24 / n)]: the probability [f / n] rounded up to a
    multiple of [2^-24]. *)
Lemma ceil_div_spec (a n : Z) :
  0 < n -> 0 <= a -> a <= n * ((a + n - 1) / n) < a + n.
Proof.
  intros Hn Ha.
  pose proof (Z.mul_div_le (a + n - 1) n Hn).
  pose proof (Z.mul_succ_div_gt (a + n - 1) n Hn). lia.
Qed.

(** The probability of an entry lies between [2^-L], for its code
    length [L], and [f / n] rounded up to a multiple of [2^-24]. *)
Lemma probability_bounds (f n : Z) :
  1 <= f < n -> n <= 2 ^ 24 ->
  let L := shannon_length f n in
  exists m,
    probability_of f n = S754_finite false m (- L - 23)
    /\ canonical32 m /\ 1 <= L <= 24
    /\ 2 ^ (47 - L) <= Zpos m * 2 ^ (- L - 23 + 47)
    /\ Zpos m * 2 ^ (- L - 23 + 47) <= (f * 2 ^ 24 + n - 1) / n * 2 ^ 23.
Proof.
  intros Hf Hn L.
  destruct (probability_binade f n ltac:(lia) Hn) as (m & Heq & Hm & HL). fold L in Heq, HL.
  destruct (shannon_length_spec f n ltac:(lia)) as (_ & Hup & _). fold L in Hup.
  assert (HL1 : 1 <= L).
  { destruct (Z.eq_dec L 0) as [E|E]; [|lia]. rewrite E in Hup. simpl in Hup. lia. }
  exists m. split; [exact Heq|]. split; [exact Hm|]. split; [lia|].
  replace (- L - 23 + 47) with (24 - L) by lia.
  pose proof (pow2_pos (24 - L) ltac:(lia)) as HpL.
  unfold canonical32 in Hm.
  split.
  { replace (47 - L) with (23 + (24 - L)) by lia. rewrite pow2_split by lia.
    apply Z.mul_le_mono_nonneg_r; lia. }
  set (c0 := (f * 2 ^ 24 + n - 1) / n).
  pose proof (ceil_div_spec (f * 2 ^ 24) n ltac:(lia) ltac:(lia)) as Hc0. fold c0 in Hc0.
  assert (Hc1 : 1 <= c0 < 2 ^ 24).
  { change (2 ^ 24) with 16777216 in *. nia. }
  destruct (of_int_exact f ltac:(lia)) as (mF & eF & QF & CF & RF & VF).
  destruct (of_int_exact n ltac:(lia)) as (mN & eN & QN & CN & RN & VN).
  pose proof CF as CF'. pose proof CN as CN'. unfold canonical32 in CF', CN'.
  pose proof (pow2_pos (eF + 23) ltac:(lia)) as HpF.
  pose proof (pow2_pos (eN + 23) ltac:(lia)) as HpN.
  assert (E24 : 2 ^ (eN + 24) = 2 ^ (eN + 23) * 2).
  { replace (eN + 24) with (eN + 23 + 1) by lia. rewrite pow2_split by lia. reflexivity. }
  assert (HeFN : eF <= eN).
  { assert (eF + 23 < eN + 24); [|lia]. apply pow2_lt_inv. rewrite E24.
    change (2 ^ 23) with 8388608 in *. change (2 ^ 24) with 16777216 in *. nia. }
  (* the digits of the bound *)
  set (dc := Zdigits2 c0).
  assert (Hdc : 2 ^ (dc - 1) <= c0 < 2 ^ dc).
  { unfold dc. destruct c0 as [|p|p] eqn:E; try lia. apply digits2_pos_bounds. }
  assert (Hdc24 : 1 <= dc <= 24).
  { split.
    - unfold dc. destruct c0 as [|p|p]; try lia. simpl. lia.
    - assert (dc - 1 < 24); [|lia]. apply pow2_lt_inv. lia. }
  assert (Hu : eF - eN + 24 <= dc).
  { destruct (Z.le_gt_cases (eF - eN + 24) dc) as [H|H]; [exact H|exfalso].
    assert (Hle : 2 ^ dc <= 2 ^ (eF - eN + 23)) by (apply pow2_le; lia).
    assert (E1 : 2 ^ (eF + 23) * 2 ^ 24 = 2 ^ (eF - eN + 23) * (2 ^ (eN + 23) * 2)).
    { rewrite <- E24, <- !pow2_split by lia. f_equal. lia. }
    pose proof (pow2_pos (eF - eN + 23) ltac:(lia)) as Hpd.
    change (2 ^ 23) with 8388608 in *. change (2 ^ 24) with 16777216 in *.
    assert (H0 : 8388608 * 2 ^ (eF + 23) <= Zpos mF * 2 ^ (eF + 23)).
    { apply Z.mul_le_mono_nonneg_r; lia. }
    assert (H1 : 2 ^ (eF + 23) * 16777216 * 8388608 <= c0 * (n * 8388608)) by lia.
    assert (H2 : c0 * (n * 8388608) < 2 ^ (eF - eN + 23) * (2 ^ (eN + 23) * 2) * 8388608).
    { rewrite <- VN.
      assert (c0 * (Zpos mN * 2 ^ (eN + 23)) < 2 ^ (eF - eN + 23) * (16777216 * 2 ^ (eN + 23))).
      { apply Z.mul_lt_mono_nonneg.
        - lia.
        - lia.
        - apply Z.mul_nonneg_nonneg; lia.
        - apply Z.mul_lt_mono_pos_r; lia. }
      lia. }
    rewrite <- E1 in H2. lia. }
  set (C := c0 * 2 ^ (24 - dc)).
  pose proof (pow2_pos (24 - dc) ltac:(lia)) as HpC.
  assert (HC : 2 ^ 23 <= C < 2 ^ 24).
  { unfold C.
    assert (E1 : 2 ^ 23 = 2 ^ (dc - 1) * 2 ^ (24 - dc)).
    { rewrite <- pow2_split by lia. f_equal. lia. }
    assert (E2 : 2 ^ 24 = 2 ^ dc * 2 ^ (24 - dc)).
    { rewrite <- pow2_split by lia. f_equal. lia. }
    rewrite E1, E2. split.
    - apply Z.mul_le_mono_nonneg_r; lia.
    - apply Z.mul_lt_mono_pos_r; lia. }
  set (u := dc - 24 + eN - eF).
  assert (ECu : C * 2 ^ u = c0 * 2 ^ (eN - eF)).
  { unfold C, u. rewrite <- Z.mul_assoc, <- pow2_split by lia. f_equal. f_equal. lia. }
  destruct (div_upper mF mN eF eN C u CF CN ltac:(lia) HC ltac:(unfold u; lia))
    as (m' & e' & Heq' & _ & He' & Hm').
  { rewrite ECu.
    apply (Z.mul_le_mono_pos_r _ _ (2 ^ (eF + 23)) HpF).
    assert (E3 : 2 ^ (eN - eF) * 2 ^ (eF + 23) = 2 ^ (eN + 23)).
    { rewrite <- pow2_split by lia. f_equal. lia. }
    replace (Zpos mF * 2 ^ 24 * 2 ^ (eF + 23)) with (Zpos mF * 2 ^ (eF + 23) * 2 ^ 24) by ring.
    replace (c0 * 2 ^ (eN - eF) * Zpos mN * 2 ^ (eF + 23))
      with (c0 * (Zpos mN * (2 ^ (eN - eF) * 2 ^ (eF + 23)))) by ring.
    rewrite E3, VF, VN.
    change (2 ^ 23) with 8388608 in *. change (2 ^ 24) with 16777216 in *. nia. }
  unfold probability_of in Heq. rewrite QF, QN in Heq. rewrite Heq in Heq'.
  injection Heq' as Em Ee. subst m' e'.
  fold c0.
  assert (E4 : C * 2 ^ (eF - eN - 24 + u - (- L - 23)) * 2 ^ (24 - L) = c0 * 2 ^ 23).
  { unfold C, u. rewrite <- !Z.mul_assoc, <- !pow2_split by lia. f_equal. f_equal. lia. }
  rewrite <- E4. apply Z.mul_le_mono_nonneg_r; lia.
Qed.

(* ================================================================== *)
(** * The codes of a line of at most 65536 characters are prefix-free *)

Lemma binary_digits_0 (p : nat) : binary_digits p 0 = repeat "0"%char p.
Proof. apply binary_digits_zero. intros i _. apply Z.bits_0. Qed.

(** [scaled_floor] in units of [2^-47]. *)
Lemma scaled_floor_val (m : positive) (e L : Z) :
  -47 <= e -> 0 <= L <= 47 ->
  scaled_floor (S754_finite false m e) L = Zpos m * 2 ^ (e + 47) / 2 ^ (47 - L).
Proof.
  intros He HL. unfold scaled_floor.
  pose proof (pow2_pos (47 - L) ltac:(lia)) as Hp.
  destruct (Z.lt_ge_cases (e + L) 0) as [Hn|Hn].
  - rewrite <- (Z.opp_involutive (e + L)), Z.shiftl_opp_r, Z.shiftr_div_pow2 by lia.
    assert (E : 2 ^ (47 - L) = 2 ^ (e + 47) * 2 ^ (- (e + L))).
    { rewrite <- pow2_split by lia. f_equal. lia. }
    pose proof (pow2_pos (e + 47) ltac:(lia)). pose proof (pow2_pos (- (e + L)) ltac:(lia)).
    rewrite E, (Z.mul_comm (Zpos m)), Z.div_mul_cancel_l by lia. reflexivity.
  - rewrite Z.shiftl_mul_pow2 by lia.
    assert (E : 2 ^ (e + 47) = 2 ^ (e + L) * 2 ^ (47 - L)).
    { rewrite <- pow2_split by lia. f_equal. lia. }
    rewrite E, Z.mul_assoc, Z.div_mul by lia. reflexivity.
Qed.

(** The code written for a cumulative probability below one. *)
Lemma head_code (cum : spec_float) (L : Z) :
  cum = S754_zero false
  \/ (exists m e, cum = S754_finite false m e /\ canonical32 m /\ -47 <= e) ->
  val47 cum < 2 ^ 47 -> 0 <= L <= 24 ->
  exists K, decimalToBinary cum L = binary_digits (Z.to_nat L) K
            /\ 0 <= K < 2 ^ L
            /\ K * 2 ^ (47 - L) <= val47 cum < (K + 1) * 2 ^ (47 - L).
Proof.
  intros Hc Hv HL.
  pose proof (pow2_pos (47 - L) ltac:(lia)) as Hp.
  pose proof (pow2_pos L ltac:(lia)) as HpL.
  destruct Hc as [->|(m & e & -> & Hm & He)].
  - exists 0. split; [|cbn [val47]; lia].
    change (S754_zero false) with F32.zero.
    now rewrite decimalToBinary_zero, binary_digits_0.
  - cbn [val47] in Hv |- *.
    pose proof (pow2_pos (e + 47) ltac:(lia)) as Hpe.
    assert (He24 : e <= -24).
    { unfold canonical32 in Hm. assert (e + 47 < 24); [|lia]. apply pow2_lt_inv.
      change (2 ^ 47) with (2 ^ 23 * 2 ^ 24) in Hv. nia. }
    exists (scaled_floor (S754_finite false m e) L).
    split.
    { rewrite (decimalToBinary_digits m e L Hm ltac:(lia)), Z2Nat.id by lia. reflexivity. }
    rewrite scaled_floor_val by lia.
    set (V := Zpos m * 2 ^ (e + 47)) in *.
    pose proof (Z.mul_div_le V (2 ^ (47 - L)) Hp).
    pose proof (Z.mul_succ_div_gt V (2 ^ (47 - L)) Hp).
    assert (E : 2 ^ 47 = 2 ^ L * 2 ^ (47 - L)).
    { rewrite <- pow2_split by lia. f_equal. lia. }
    split; [split|lia].
    + apply Z.div_pos; lia.
    + apply Z.div_lt_upper_bound; lia.
Qed.

(** Two expansions of which the later one is at least one unit of the
    shorter length ahead are unrelated by prefix. *)
Lemma digits_unrelated (L L' K K' : Z) :
  0 <= L <= L' -> 0 <= K < 2 ^ L -> 0 <= K' < 2 ^ L' ->
  (K + 1) * 2 ^ (L' - L) <= K' ->
  ~ is_prefix (binary_digits (Z.to_nat L) K) (binary_digits (Z.to_nat L') K')
  /\ ~ is_prefix (binary_digits (Z.to_nat L') K') (binary_digits (Z.to_nat L) K).
Proof.
  intros HL HK HK' Hsep.
  pose proof (pow2_pos (L' - L) ltac:(lia)) as Hp.
  assert (Hq : K + 1 <= K' / 2 ^ (L' - L)) by (apply Z.div_le_lower_bound; lia).
  assert (Hq2 : K' / 2 ^ (L' - L) < 2 ^ L).
  { apply Z.div_lt_upper_bound; [lia|]. rewrite <- pow2_split by lia.
    replace (L' - L + L) with L' by lia. lia. }
  split; intros [t Ht].
  - assert (Hf : firstn (Z.to_nat L) (binary_digits (Z.to_nat L') K')
                 = binary_digits (Z.to_nat L) K).
    { rewrite Ht. rewrite <- (binary_digits_length (Z.to_nat L) K) at 1. apply firstn_exact. }
    replace (Z.to_nat L') with (Z.to_nat L + Z.to_nat (L' - L))%nat in Hf by lia.
    rewrite binary_digits_firstn, Z.shiftr_div_pow2, Z2Nat.id in Hf by lia.
    apply binary_digits_inj in Hf; rewrite ?Z2Nat.id by lia; lia.
  - assert (Hlen : length (binary_digits (Z.to_nat L) K)
                   = (length (binary_digits (Z.to_nat L') K') + length t)%nat).
    { rewrite Ht. apply length_app. }
    rewrite !binary_digits_length in Hlen.
    assert (L' = L) by lia. subst L'.
    destruct t as [|c t]; [|simpl in Hlen; lia].
    rewrite app_nil_r in Ht. symmetry in Ht.
    apply binary_digits_inj in Ht; rewrite ?Z2Nat.id by lia; try lia.
    rewrite Z.sub_diag in Hsep. simpl in Hsep. lia.
Qed.

Lemma ceil24_bounds (f n : Z) :
  1 <= f <= n -> n <= 2 ^ 16 ->
  2 ^ 8 <= ceil24 f n
  /\ f * 2 ^ 24 <= n * ceil24 f n <= f * 2 ^ 24 + n - 1.
Proof.
  intros Hf Hn. unfold ceil24.
  pose proof (ceil_div_spec (f * 2 ^ 24) n ltac:(lia) ltac:(lia)) as H.
  change (2 ^ 16) with 65536 in *. change (2 ^ 24) with 16777216 in *.
  change (2 ^ 8) with 256. split; [nia|lia].
Qed.

Lemma ceil24_full (n : Z) : 1 <= n -> ceil24 n n = 2 ^ 24.
Proof.
  intros Hn. unfold ceil24.
  replace (n * 2 ^ 24 + n - 1) with (n - 1 + 2 ^ 24 * n) by lia.
  rewrite Z.div_add by lia. rewrite Z.div_small by lia. lia.
Qed.

(** Adding the probability of an entry to the cumulative probability. *)
Lemma add_probability (cum : spec_float) (mp : positive) (ep : Z) :
  cum = S754_zero false
  \/ (exists m e, cum = S754_finite false m e /\ canonical32 m /\ -47 <= e <= -20) ->
  canonical32 mp -> -47 <= ep <= -20 ->
  exists m' e',
    F32.add cum (S754_finite false mp ep) = S754_finite false m' e'
    /\ canonical32 m' /\ -47 <= e'
    /\ (forall c g, 0 <= c <= 2 ^ 24 -> 0 <= g ->
          c * 2 ^ g <= val47 cum + Zpos mp * 2 ^ (ep + 47) ->
          c * 2 ^ g <= Zpos m' * 2 ^ (e' + 47))
    /\ (forall c g, 0 <= c <= 2 ^ 24 -> 0 <= g ->
          val47 cum + Zpos mp * 2 ^ (ep + 47) <= c * 2 ^ g ->
          Zpos m' * 2 ^ (e' + 47) <= c * 2 ^ g).
Proof.
  intros Hc Hp Hep. destruct Hc as [->|(m & e & -> & Hm & He)].
  - exists mp, ep. split; [reflexivity|]. split; [exact Hp|]. split; [lia|].
    cbn [val47]. split; intros c g _ _ H; lia.
  - destruct (add_bounds m mp e ep Hm Hp He Hep) as (m' & e' & Heq & Hm' & He' & Hlo & Hhi).
    exists m', e'. split; [exact Heq|]. split; [exact Hm'|]. split; [lia|].
    cbn [val47]. split; assumption.
Qed.

Section Chain.
Variable n : Z.
Hypothesis Hn : 1 <= n <= 2 ^ 16.

Local Abbreviation len f := (shannon_length f n).

(** What holds of an entry coded after the cumulative probability has
    passed [t * 2^-l0]. *)
Local Abbreviation ahead t l0 :=
  (fun e' : CharCode =>
     l0 <= len (freq e')
     /\ exists K, code e' = binary_digits (Z.to_nat (len (freq e'))) K
                  /\ 0 <= K < 2 ^ len (freq e')
                  /\ t * 2 ^ (len (freq e') - l0) <= K).

Lemma budget_nonneg (vec : list CharCode) :
  Forall (fun e => 1 <= freq e <= n) vec ->
  0 <= zsum (map (fun e => ceil24 (freq e) n) vec).
Proof.
  induction 1 as [|e vec He _ IH]; simpl; [lia|].
  pose proof (ceil24_bounds (freq e) n He ltac:(lia)) as [H _].
  change (2 ^ 8) with 256 in H. lia.
Qed.

Lemma coded_chain (vec : list CharCode) :
  forall (cum : spec_float) (W : Z) (vec' : list CharCode),
    coded n cum vec vec' ->
    cum = S754_zero false
    \/ (exists m e, cum = S754_finite false m e /\ canonical32 m /\ -47 <= e) ->
    0 <= W -> val47 cum <= W * 2 ^ 23 ->
    W + zsum (map (fun e => ceil24 (freq e) n) vec) < 2 ^ 24 + 2 ^ 8 ->
    Forall (fun e => 1 <= freq e <= n) vec ->
    StronglySorted (fun a b => freq b <= freq a) vec ->
    (forall t l0, 0 <= l0 <= 24 -> 0 <= t <= 2 ^ l0 ->
       Forall (fun e => l0 <= len (freq e)) vec ->
       t * 2 ^ (47 - l0) <= val47 cum ->
       Forall (ahead t l0) vec')
    /\ ForallOrdPairs prefix_unrelated vec'.
Proof.
  induction vec as [|e rest IH]; intros cum W vec' Hcoded Hcum HW Hval Hbud Hfreq Hsort.
  - inversion Hcoded; subst. split; [intros; constructor|constructor].
  - inversion Hcoded as [|cum0 e0 rest0 rest' Hrest]; subst.
    inversion Hfreq as [|? ? Hf Hfreq']; subst.
    inversion Hsort as [|? ? Hsort' Hall]; subst.
    set (f := freq e) in *. set (L := len f).
    pose proof (ceil24_bounds f n Hf ltac:(lia)) as (Hc8 & Hc1 & Hc2).
    pose proof (budget_nonneg rest Hfreq') as Hb0.
    cbn [map zsum fold_right] in Hbud. fold (zsum (map (fun e => ceil24 (freq e) n) rest)) in Hbud.
    fold f in Hbud.
    assert (Hn24 : n <= 2 ^ 24).
    { change (2 ^ 16) with 65536 in Hn. change (2 ^ 24) with 16777216. lia. }
    assert (HW24 : W < 2 ^ 24) by lia.
    assert (Hv47 : val47 cum < 2 ^ 47).
    { change (2 ^ 47) with (2 ^ 24 * 2 ^ 23).
      change (2 ^ 23) with 8388608 in *. lia. }
    rewrite (precision_exact f n Hf Hn24). fold L.
    destruct (shannon_length_spec f n Hf) as (HL0 & _ & _). fold L in HL0.
    destruct (probability_binade f n Hf Hn24) as (mp0 & _ & _ & HL24). fold L in HL24.
    destruct (head_code cum L Hcum Hv47 ltac:(lia)) as (K & Hcode & HK & HKv).
    pose proof (pow2_pos (47 - L) ltac:(lia)) as HpL.
    (* the head entry against a lower bound *)
    assert (Hhead : forall t l0, 0 <= l0 <= 24 -> 0 <= t <= 2 ^ l0 -> l0 <= L ->
                      t * 2 ^ (47 - l0) <= val47 cum ->
                      ahead t l0 (mkCharCode (character e) f (decimalToBinary cum L))).
    { intros t l0 Hl0 Ht Hle Hlow. cbn [freq code]. fold L.
      split; [exact Hle|]. exists K. split; [exact Hcode|]. split; [exact HK|].
      assert (E : 2 ^ (47 - l0) = 2 ^ (L - l0) * 2 ^ (47 - L)).
      { rewrite <- pow2_split by lia. f_equal. lia. }
      rewrite E in Hlow.
      assert (t * 2 ^ (L - l0) < K + 1); [|lia].
      apply (Z.mul_lt_mono_pos_r (2 ^ (47 - L))); lia. }
    destruct rest as [|e2 rest2].
    { inversion Hrest; subst. split.
      - intros t l0 Hl0 Ht Hlen Hlow. constructor; [|constructor].
        inversion Hlen; subst. now apply Hhead.
      - constructor; constructor. }
    (* a further entry exists: this one has a probability below one *)
    set (rest := e2 :: rest2) in *.
    assert (Hb8 : 2 ^ 8 <= zsum (map (fun e => ceil24 (freq e) n) rest)).
    { unfold rest. cbn [map zsum fold_right].
      fold (zsum (map (fun e => ceil24 (freq e) n) rest2)).
      inversion Hfreq' as [|? ? Hf2 Hfreq2]; subst.
      pose proof (ceil24_bounds (freq e2) n Hf2 ltac:(lia)) as (H8 & _).
      pose proof (budget_nonneg rest2 Hfreq2). lia. }
    assert (Hfn : f < n).
    { destruct (Z.eq_dec f n) as [E|E]; [|lia].
      rewrite E, ceil24_full in Hbud by lia. lia. }
    destruct (probability_bounds f n ltac:(lia) Hn24) as (mp & Hp & Hmp & HL1 & Hplo & Phi).
    fold L in Hp, HL1, Hplo, Phi. fold (ceil24 f n) in Phi.
    assert (Hcum' : cum = S754_zero false
                    \/ (exists m e, cum = S754_finite false m e /\ canonical32 m
                                    /\ -47 <= e <= -20)).
    { destruct Hcum as [->|(m & e0 & -> & Hm & He0)]; [now left|right].
      exists m, e0. split; [reflexivity|]. split; [exact Hm|]. split; [lia|].
      cbn [val47] in Hv47. unfold canonical32 in Hm.
      assert (e0 + 47 < 24); [|lia]. apply pow2_lt_inv.
      pose proof (pow2_pos (e0 + 47) ltac:(lia)).
      change (2 ^ 47) with (2 ^ 23 * 2 ^ 24) in Hv47. nia. }
    destruct (add_probability cum mp (- L - 23) Hcum' Hmp ltac:(lia))
      as (m' & e' & Hadd & Hm' & He' & Hlo & Hhi).
    rewrite Hp, Hadd in Hrest.
    set (cum' := S754_finite false m' e') in *.
    assert (Hval' : val47 cum' <= (W + ceil24 f n) * 2 ^ 23).
    { unfold cum'. cbn [val47]. apply Hhi; [lia|lia|].
      change (2 ^ 23) with 8388608 in *. lia. }
    destruct (IH cum' (W + ceil24 f n) _ Hrest) as (IH1 & IH2).
    { right. exists m', e'. auto. }
    { lia. }
    { exact Hval'. }
    { lia. }
    { exact Hfreq'. }
    { exact Hsort'. }
    assert (Hmono : forall t l0, 0 <= l0 <= 24 -> 0 <= t <= 2 ^ l0 ->
                      t * 2 ^ (47 - l0) <= val47 cum + Zpos mp * 2 ^ (- L - 23 + 47) ->
                      t * 2 ^ (47 - l0) <= val47 cum').
    { intros t l0 Hl0 Ht Hlow. unfold cum'. cbn [val47].
      apply Hlo; try lia.
      assert (2 ^ l0 <= 2 ^ 24) by (apply pow2_le; lia). lia. }
    split.
    + intros t l0 Hl0 Ht Hlen Hlow. inversion Hlen as [|? ? Hle Hlen']; subst.
      constructor; [now apply Hhead|].
      apply IH1; try assumption. apply Hmono; try assumption.
      pose proof (pow2_pos (- L - 23 + 47) ltac:(lia)). nia.
    + constructor; [|exact IH2].
      assert (Hah : Forall (ahead (K + 1) L) rest').
      { apply IH1; try lia.
        - apply Forall_forall. intros x Hx. rewrite Forall_forall in Hall, Hfreq'.
          apply shannon_length_antitone; [|lia].
          specialize (Hall x Hx). specialize (Hfreq' x Hx). fold f. lia.
        - apply Hmono; try lia. }
      apply Forall_forall. intros y Hy. rewrite Forall_forall in Hah.
      destruct (Hah y Hy) as (Hle & K' & Hcy & HK' & Hsep).
      unfold prefix_unrelated. cbn [code]. rewrite Hcode, Hcy.
      apply digits_unrelated; lia.
Qed.
End Chain.

(** There are 256 characters. *)
Lemma NoDup_ascii_length (l : list ascii) : NoDup l -> (length l <= 256)%nat.
Proof.
  intros Hnd.
  replace 256%nat with (length (map ascii_of_nat (seq 0 256)))
    by (now rewrite length_map, length_seq).
  apply NoDup_incl_length; [exact Hnd|].
  intros c _. apply in_map_iff. exists (nat_of_ascii c).
  split; [apply ascii_nat_embedding|].
  apply in_seq. pose proof (nat_ascii_bounded c). lia.
Qed.

(** The rounded-up probabilities of [k] entries exceed their exact sum
    by less than [k] units of [2^-24]. *)
Lemma budget_total (n : Z) (vec : list CharCode) :
  1 <= n <= 2 ^ 16 ->
  Forall (fun e => 1 <= freq e <= n) vec ->
  n * zsum (map (fun e => ceil24 (freq e) n) vec)
  <= 2 ^ 24 * zsum (map freq vec) + Z.of_nat (length vec) * (n - 1).
Proof.
  intros Hn. induction 1 as [|e vec He _ IH].
  - simpl. lia.
  - cbn [map zsum fold_right length].
    fold (zsum (map (fun e => ceil24 (freq e) n) vec)). fold (zsum (map freq vec)).
    pose proof (ceil24_bounds (freq e) n He ltac:(lia)) as (_ & _ & H).
    rewrite Nat2Z.inj_succ. lia.
Qed.

Lemma Forall_freq_transfer (P : Z -> Prop) (vec vec' : list CharCode) :
  map freq vec' = map freq vec ->
  Forall (fun e => P (freq e)) vec' -> Forall (fun e => P (freq e)) vec.
Proof.
  intros Hm H.
  apply (Forall_map freq P vec). rewrite <- Hm. now apply (Forall_map freq P vec').
Qed.

Section PrefixFree.
Variable cs : bool.

(** No two codes of the alphabet of a line of at most 65536 characters
    are related by prefix. *)
Lemma charCodeVec_prefix_free (l : str) :
  Z.of_nat (length l) <= 2 ^ 16 ->
  ForallOrdPairs prefix_unrelated (Mutex.charCodeVec cs l).
Proof.
  intros Hlen.
  assert (Hmax : Z.of_nat (length l) <= INT_MAX).
  { change (2 ^ 16) with 65536 in Hlen. unfold INT_MAX. lia. }
  assert (H24 : Z.of_nat (length l) <= 2 ^ 24).
  { change (2 ^ 16) with 65536 in Hlen. change (2 ^ 24) with 16777216. lia. }
  destruct (Nat.eq_dec (length l) 0) as [E0|E0].
  { apply length_zero_iff_nil in E0. subst l. constructor. }
  set (n := Z.of_nat (length l)).
  assert (Hn : 1 <= n <= 2 ^ 16) by (unfold n; lia).
  pose proof (charCodeVec_coded cs l) as Hcoded.
  assert (Els : lineSize_of l = n).
  { unfold lineSize_of. apply wrap_int_small. unfold INT_MIN, INT_MAX in *. lia. }
  rewrite Els in Hcoded.
  set (vec := sortCharCodes cs (push_entries (charCountMap cs (indexed l)) [])) in *.
  pose proof (coded_freqs _ _ _ _ Hcoded) as Hfreqs.
  assert (Hfreq : Forall (fun e => 1 <= freq e <= n) vec).
  { apply (Forall_freq_transfer (fun f => 1 <= f <= n) vec (Mutex.charCodeVec cs l) Hfreqs).
    apply Forall_forall. intros e He.
    exact (proj1 (entry_length_exact cs l e H24 He)). }
  assert (Hk : (length vec <= 256)%nat).
  { rewrite <- (length_map character). apply NoDup_ascii_length. apply sorted_vec_NoDup. }
  assert (Hsum : zsum (map freq vec) = n).
  { rewrite <- Hfreqs. now apply charCodeVec_freq_sum. }
  apply (coded_chain n Hn vec F32.zero 0 _ Hcoded).
  - now left.
  - lia.
  - simpl. lia.
  - pose proof (budget_total n vec Hn Hfreq) as Hb. rewrite Hsum in Hb.
    change (2 ^ 16) with 65536 in *. change (2 ^ 24) with 16777216 in *.
    change (2 ^ 8) with 256. nia.
  - exact Hfreq.
  - apply (StronglySorted_weaken (fun a b => compareFreqChar cs a b = true)).
    + intros a b _ _ Hab. apply compareFreqChar_spec in Hab.
      unfold freq_char_desc in Hab. lia.
    + apply sortCharCodes_sorted. rewrite push_entries_characters.
      apply (keys_sorted_NoDup cs). apply charCountMap_sorted.
Qed.

(** The same for any two entries with different characters. *)
Lemma codes_prefix_free (l : str) (x y : CharCode) :
  Z.of_nat (length l) <= 2 ^ 16 ->
  In x (Mutex.charCodeVec cs l) -> In y (Mutex.charCodeVec cs l) ->
  character x <> character y -> ~ is_prefix (code x) (code y).
Proof.
  intros Hlen Hx Hy Hne.
  pose proof (charCodeVec_prefix_free l Hlen) as H.
  destruct (ForallOrdPairs_In H x y Hx Hy) as [E|[[H1 _]|[_ H2]]].
  - subst y. now elim Hne.
  - exact H1.
  - exact H2.
Qed.
End PrefixFree.

(* ================================================================== *)
(** * The encoded line determines the line *)

(** Concatenating the codes of a prefix-free code is injective on
    messages of the same length. *)
Lemma prefix_code_injective (g : ascii -> str) (A : list ascii) :
  (forall c d, In c A -> In d A -> c <> d -> ~ is_prefix (g c) (g d)) ->
  forall s t : str,
    length s = length t ->
    (forall c, In c s -> In c A) -> (forall c, In c t -> In c A) ->
    concat (map g s) = concat (map g t) -> s = t.
Proof.
  intros Hpf. induction s as [|c s IH]; intros [|d t] Hlen Hs Ht Heq;
    try discriminate Hlen; [reflexivity|].
  cbn [map concat] in Heq.
  assert (Hcd : c = d).
  { destruct (ascii_dec c d) as [E|E]; [exact E|exfalso].
    destruct (app_eq_app _ _ _ _ Heq) as [r [[H1 _]|[H1 _]]].
    - apply (Hpf d c); [apply Ht; now left|apply Hs; now left|congruence|].
      now exists r.
    - apply (Hpf c d); [apply Hs; now left|apply Ht; now left|exact E|].
      now exists r. }
  subst d. f_equal. apply IH.
  - simpl in Hlen. congruence.
  - intros x Hx. apply Hs. now right.
  - intros x Hx. apply Ht. now right.
  - now apply app_inv_head in Heq.
Qed.

Section Decodable.
Variable cs : bool.

(** The code of a character of the line, read off the alphabet. *)
Lemma code_of_alphabet (l : str) (c : ascii) :
  Z.of_nat (length l) <= INT_MAX -> In c l ->
  exists e, In e (Mutex.charCodeVec cs l) /\ character e = c /\ code_of cs l c = code e.
Proof.
  intros Hmax Hc.
  assert (Hin : In c (map character (Mutex.charCodeVec cs l))).
  { apply charCodeVec_characters. now rewrite indexed_full. }
  apply in_map_iff in Hin. destruct Hin as (e & He & Hin).
  exists e. split; [exact Hin|]. split; [exact He|].
  rewrite <- He. now apply code_of_entry.
Qed.

(** Two lines of at most 65536 characters with the same alphabet and
    the same encoded line are the same line. *)
Lemma encodedLine_injective (s t : str) :
  Z.of_nat (length s) <= 2 ^ 16 -> Z.of_nat (length t) <= 2 ^ 16 ->
  Mutex.charCodeVec cs s = Mutex.charCodeVec cs t ->
  Mutex.encodedLine cs s = Mutex.encodedLine cs t ->
  s = t.
Proof.
  intros Hs Ht Hvec Henc.
  assert (Hsm : Z.of_nat (length s) <= INT_MAX).
  { change (2 ^ 16) with 65536 in Hs. unfold INT_MAX. lia. }
  assert (Htm : Z.of_nat (length t) <= INT_MAX).
  { change (2 ^ 16) with 65536 in Ht. unfold INT_MAX. lia. }
  set (A := map character (Mutex.charCodeVec cs s)).
  assert (HAs : forall c, In c s -> In c A).
  { intros c Hc. unfold A. apply charCodeVec_characters. now rewrite indexed_full. }
  assert (HAt : forall c, In c t -> In c A).
  { intros c Hc. unfold A. rewrite Hvec. apply charCodeVec_characters.
    now rewrite indexed_full. }
  assert (Hg : forall c, In c t -> code_of cs t c = code_of cs s c).
  { intros c Hc.
    destruct (code_of_alphabet t c Htm Hc) as (e & He & Hce & ->).
    rewrite <- Hvec in He. rewrite <- Hce. symmetry. now apply code_of_entry. }
  rewrite (encodedLine_concat cs s Hsm), (encodedLine_concat cs t Htm) in Henc.
  rewrite (map_ext_in (code_of cs t) (code_of cs s) t Hg) in Henc.
  apply (prefix_code_injective (code_of cs s) A); try assumption.
  - intros c d Hc Hd Hne.
    unfold A in Hc, Hd. apply in_map_iff in Hc, Hd.
    destruct Hc as (x & Hxc & Hx). destruct Hd as (y & Hyd & Hy).
    rewrite <- Hxc, <- Hyd, !code_of_entry by assumption.
    apply (codes_prefix_free cs s x y Hs Hx Hy). congruence.
  - apply Nat2Z.inj.
    rewrite <- (charCodeVec_freq_sum cs s Hsm), <- (charCodeVec_freq_sum cs t Htm).
    now rewrite Hvec.
Qed.
End Decodable.

(* ================================================================== *)
(** * [decimalToBinary] outside the interval [0, 1) *)





(* ================================================================== *)
(** * The encoder: worked example, order of the alphabet, lookups, frame *)

(** C1.  For the line "aab" the encoder counts a:2 and b:1 and orders the
    alphabet as [a, b]; the precision of a is 1 and its code, taken from
    the cumulative probability 0.0, is "0"; the precision of b is 2 and
    its code, taken from the cumulative probability 2/3 (as rounded to
    binary32), is "10"; the encoded line is "0010". *)
Theorem aab_encoding (cs : bool) :
  Mutex.charCodeVec cs (lit "aab")
    = [mkCharCode "a" 2 (lit "0"); mkCharCode "b" 1 (lit "10")]
  /\ Mutex.encodedLine cs (lit "aab") = lit "0010"
  /\ precision_of (probability_of 2 3) = 1
  /\ decimalToBinary F32.zero 1 = lit "0"
  /\ precision_of (probability_of 1 3) = 2
  /\ F32.add F32.zero (probability_of 2 3) = F32.div (F32.of_int 2) (F32.of_int 3)
  /\ decimalToBinary (F32.div (F32.of_int 2) (F32.of_int 3)) 2 = lit "10".
Proof.
  destruct cs; repeat split; vm_compute; reflexivity.
Qed.


(** C9.  For every line, every character visited by the final loop has an
    entry in [charCodeMap], and that entry is the code of the character's
    alphabet entry; the loop with a checked lookup therefore never meets
    [None] and builds the same encoded line.  The same holds for the local
    map of [shannonCode] in [src/server.cpp]. *)
Theorem lookup_never_misses (cs : bool) (l : str) :
  Forall (fun c => exists e, In e (Mutex.charCodeVec cs l) /\ character e = c
                     /\ map_find cs c (Mutex.charCodeMap cs l) = Some (code e))
         (indexed l)
  /\ Mutex.encodedLine_checked cs l = Some (Mutex.encodedLine cs l)
  /\ forall msg : EncodedMsg,
       Forall (fun c => map_find cs c (Server.charCodeMap cs msg) <> None)
              (indexed (line msg)).
Proof.
  assert (H1 : Forall (fun c => exists e, In e (Mutex.charCodeVec cs l) /\ character e = c
                     /\ map_find cs c (Mutex.charCodeMap cs l) = Some (code e)) (indexed l)).
  { apply Forall_forall. intros c Hc.
    apply (charCodeVec_characters cs) in Hc. apply in_map_iff in Hc.
    destruct Hc as [e [He Hin]]. exists e. repeat split; [exact Hin|exact He|].
    subst c. unfold Mutex.charCodeMap, Mutex.charCodeVec, Mutex.codeTable in *.
    apply (proj1 (assignCodes_map cs _ _ _ _ (sorted_vec_NoDup cs l))). exact Hin. }
  split; [exact H1|]. split.
  - unfold Mutex.encodedLine_checked, Mutex.encodedLine.
    apply appendCodes_checked_total. intros c Hc.
    rewrite Forall_forall in H1. destruct (H1 c Hc) as [e [_ [_ He]]]. congruence.
  - intros msg. apply Forall_forall. intros c Hc.
    destruct (server_shannonCode_spec cs msg) as [_ ->].
    apply assignCodes_found.
    eapply Permutation_in; [apply Permutation_map, sortCharCodes_perm|].
    unfold push_entries. rewrite map_app, in_app_iff. right.
    rewrite map_map. simpl. apply charCountMap_keys.
    unfold indexed in Hc. exact (firstn_In _ _ _ Hc).
Qed.

(** C10.  [shannonCode(EncodedMsg&)] leaves the [line] field of its
    message as it found it, in [src/server.cpp] and in
    [src/multiThreading.cpp]: each of its steps assigns to [charCodeVec]
    or to [encodedLine] only. *)
Theorem shannonCode_frame (cs : bool) (msg : EncodedMsg) :
  line (Server.shannonCode cs msg) = line msg
  /\ line (MultiThreading.shannonCode cs msg) = line msg
  /\ (forall counts m, line (pushCounts counts m) = line m)
  /\ (forall m, line (sortMsg cs m) = line m)
  /\ (forall n m, line (fst (codeMsg cs n m)) = line m)
  /\ (forall n cm m, line (appendMsg cs n cm m) = line m).
Proof.
  split; [|split]; [| |repeat split].
  - now destruct (server_shannonCode_spec cs msg) as [-> _].
  - now rewrite mt_shannonCode_spec.
  - intros. now rewrite pushCounts_spec.
  - intros. now rewrite appendMsg_spec.
Qed.

(* ================================================================== *)
(** * The connection protocol *)

(** C6.  On a line of 32 characters the request of [src/client.cpp] is not
    a truncated 32-byte field: its [strcpy] writes 33 bytes into
    [char message[32]].  The request of [src/src/network/client.cpp] for
    the same line is 32 bytes, the first 31 characters and a NUL, whatever
    the buffer held before. *)
Theorem request_of_32_characters (stale : list ascii) :
  let l := lit "abcdefghijklmnopqrstuvwxyz012345" in
  length l = 32%nat
  /\ Client.request stale l = None
  /\ NetworkClient.sendMessage true stale l
     = inl (lit "abcdefghijklmnopqrstuvwxyz01234" ++ [NUL]).
Proof.
  intros l. split; [reflexivity|]. split.
  - unfold Client.request. apply strcpy_overrun.
    rewrite uninit_length. vm_compute. lia.
  - unfold NetworkClient.sendMessage.
    rewrite sendMessage_buffer_spec. reflexivity.
Qed.

(** C7, as amended.  For every line of fewer than 31 characters, none of
    them NUL, what the client parses from the server's response, the
    entries in order and the encoded line, is what the encoder computes on
    that line. *)
Theorem round_trip_identity (cs : bool) (stale_c stale_s : list ascii) (l : str) :
  (length l < 31)%nat -> ~ In NUL l ->
  round_trip cs stale_c stale_s l
  = Some (charCodeVec (encode cs l), encodedLine (encode cs l)).
Proof.
  intros Hlen Hn. apply round_trip_fits; [lia|exact Hn].
Qed.

Lemma round_trip_identity_witness :
  (length (lit "aab") < 31)%nat /\ ~ In NUL (lit "aab")
  /\ round_trip true [] [] (lit "aab")
     = Some (charCodeVec (encode true (lit "aab")), encodedLine (encode true (lit "aab"))).
Proof.
  assert (H1 : (length (lit "aab") < 31)%nat) by (simpl; lia).
  assert (H2 : ~ In NUL (lit "aab")) by (simpl; intuition discriminate).
  split; [exact H1|]. split; [exact H2|].
  exact (round_trip_identity true [] [] (lit "aab") H1 H2).
Defined.

(** C7 as stated fails on a line with a NUL in it: of the three
    characters a, NUL, b only the first reaches the server. *)
Lemma round_trip_nul_counterexample :
  ~ (forall (cs : bool) (stale_c stale_s : list ascii) (l : str),
       (length l < 31)%nat ->
       round_trip cs stale_c stale_s l
       = Some (charCodeVec (encode cs l), encodedLine (encode cs l))).
Proof.
  intros H.
  specialize (H true [] [] ["a"%char; NUL; "b"%char] ltac:(simpl; lia)).
  vm_compute in H. discriminate H.
Qed.

(* ================================================================== *)
(** * Ordered emission *)

(** C4.  In every run of [src/mutex.cpp] over N input lines, whatever the
    interleaving of the workers: at every moment the line indices seen at
    the console are 0, 1, ..., m-1 for some m <= N; when [main] returns
    the console holds the printing blocks of lines 0, ..., N-1 one after
    the other, so the indices seen are exactly 0, 1, ..., N-1; until
    [main] returns some thread can always take a step; every step of the
    program text decreases a measure, so that no run takes more steps
    than the measure allows, spurious wake-ups apart; and every run can
    be continued up to the return of [main], where the indices seen are
    0, 1, ..., N-1. *)
Theorem emission_in_input_order
    (cs : bool) (inputLines : list str) (s : Coordinator.state) :
  Z.of_nat (length inputLines) <= INT_MAX ->
  Coordinator.reachable cs inputLines s ->
  (exists m, (m <= length inputLines)%nat
             /\ Coordinator.emitted (Coordinator.out s) = map Z.of_nat (seq 0 m))
  /\ (Coordinator.main_pc s = Coordinator.MExit ->
        Coordinator.out s = Coordinator.blocks cs inputLines (length inputLines)
        /\ Coordinator.emitted (Coordinator.out s)
           = map Z.of_nat (seq 0 (length inputLines)))
  /\ (Coordinator.main_pc s <> Coordinator.MExit ->
        exists s', Coordinator.program_step cs inputLines s s')
  /\ (forall n s', CoordinatorInv.program_steps cs inputLines n s s' ->
        (n + CoordinatorInv.measure cs inputLines s'
         <= CoordinatorInv.measure cs inputLines s)%nat)
  /\ (exists n s', CoordinatorInv.program_steps cs inputLines n s s'
                   /\ Coordinator.main_pc s' = Coordinator.MExit
                   /\ Coordinator.emitted (Coordinator.out s')
                      = map Z.of_nat (seq 0 (length inputLines))).
Proof.
  intros Hmax Hr.
  assert (Hinv : CoordinatorInv.inv cs inputLines s)
    by (apply CoordinatorFacts.reachable_inv; assumption).
  split; [|split; [|split; [|split]]].
  - eapply CoordinatorFacts.emitted_prefix; eassumption.
  - intros Hpc.
    assert (Ho : Coordinator.out s = Coordinator.blocks cs inputLines (length inputLines))
      by (eapply CoordinatorFacts.out_at_exit; eassumption).
    split; [exact Ho|]. rewrite Ho. apply CoordinatorFacts.emitted_blocks.
  - eapply CoordinatorFacts.progress; eassumption.
  - intros n s' Hs. eapply CoordinatorTermination.program_steps_bounded; eassumption.
  - destruct (CoordinatorTermination.program_completes cs inputLines Hmax s Hinv)
      as (n & s' & Hs & Hx).
    exists n, s'. split; [exact Hs|]. split; [exact Hx|].
    assert (Hinv' : CoordinatorInv.inv cs inputLines s')
      by (eapply CoordinatorTermination.inv_program_steps; eassumption).
    assert (Ho : Coordinator.out s' = Coordinator.blocks cs inputLines (length inputLines))
      by (eapply CoordinatorFacts.out_at_exit; eassumption).
    rewrite Ho. apply CoordinatorFacts.emitted_blocks.
Qed.

Lemma emission_in_input_order_witness :
  let inputLines := [lit "aab"; lit "aaaa"; lit "xy"] in
  let s := Coordinator.run true inputLines 200 [2; 1; 0]%nat Coordinator.init in
  Z.of_nat (length inputLines) <= INT_MAX
  /\ Coordinator.reachable true inputLines s
  /\ Coordinator.main_pc s = Coordinator.MExit
  /\ Coordinator.emitted (Coordinator.out s) = [0; 1; 2].
Proof.
  intros inputLines s.
  assert (H1 : Z.of_nat (length inputLines) <= INT_MAX) by (vm_compute; discriminate).
  assert (H2 : Coordinator.reachable true inputLines s)
    by (apply CoordinatorFacts.run_reachable; constructor).
  assert (H3 : Coordinator.main_pc s = Coordinator.MExit) by (vm_compute; reflexivity).
  split; [exact H1|]. split; [exact H2|]. split; [exact H3|].
  exact (proj2 (proj1 (proj2 (emission_in_input_order true inputLines s H1 H2)) H3)).
Defined.

(* ================================================================== *)
(** * Prefix freedom *)

(** C5.  On the line made of 435498 times the letter a followed by the 94
    other printable ASCII characters, once each, the alphabet of
    [src/mutex.cpp] holds two entries with different characters of which
    one code is a prefix of the other: the cumulative probability, kept
    in binary32, reaches 1.0 before the last entry, and the last two
    entries, for '!' and ' ', both receive nineteen ones. *)
Theorem prefix_clash_on_long_line (cs : bool) :
  let l := repeat "a"%char (Z.to_nat 435498) ++ printable_but_a in
  Z.of_nat (length l) = 435592
  /\ (exists x y, In x (Mutex.charCodeVec cs l) /\ In y (Mutex.charCodeVec cs l)
                  /\ character x <> character y /\ is_prefix (code x) (code y))
  /\ nth_error (Mutex.charCodeVec cs l) 93
     = Some (mkCharCode "!" 1 (lit "1111111111111111111"))
  /\ nth_error (Mutex.charCodeVec cs l) 94
     = Some (mkCharCode " " 1 (lit "1111111111111111111")).
Proof.
  intros l.
  assert (Hlen : Z.of_nat (length l) = 435592).
  { unfold l. rewrite length_app, repeat_length, Nat2Z.inj_add.
    replace (Z.of_nat (length printable_but_a)) with 94 by (vm_compute; reflexivity).
    lia. }
  assert (Hvec : Mutex.charCodeVec cs l
                 = fst (assignCodes cs 435592
                          (sortCharCodes cs
                             (push_entries
                                (fold_left (fun m c => count_incr cs c m) printable_but_a
                                   [("a"%char, 435498)]) []))
                          F32.zero [])).
  { unfold Mutex.charCodeVec, Mutex.codeTable.
    rewrite indexed_full by (rewrite Hlen; unfold INT_MAX; lia).
    unfold lineSize_of. rewrite Hlen.
    rewrite wrap_int_small by (unfold INT_MIN, INT_MAX; lia).
    unfold l. rewrite charCountMap_run by (unfold INT_MAX; lia).
    replace (Z.of_nat (Z.to_nat 435498)) with 435498 by lia. reflexivity. }
  split; [exact Hlen|]. rewrite Hvec. split; [|split].
  - apply clashb_sound. destruct cs; vm_compute; reflexivity.
  - destruct cs; vm_compute; reflexivity.
  - destruct cs; vm_compute; reflexivity.
Qed.

(* ================================================================== *)
(** * Code lengths and the precision *)






(* ================================================================== *)
(** * Further properties of the encoder *)

(** X1.  For every line whose length fits an [int], the alphabet that
    [shannonCode] of [src/mutex.cpp] builds holds every character of the
    line exactly once and no other character, and the frequency of an
    entry is the number of occurrences of its character in the line,
    which is at least one. *)
Theorem alphabet_counts_occurrences (cs : bool) (l : str) :
  Z.of_nat (length l) <= INT_MAX ->
  NoDup (map character (Mutex.charCodeVec cs l))
  /\ (forall c, In c (map character (Mutex.charCodeVec cs l)) <-> In c l)
  /\ Forall (fun e => freq e = occ (character e) l /\ 1 <= freq e)
       (Mutex.charCodeVec cs l).
Proof.
  intros Hmax. split; [apply charCodeVec_NoDup|]. split.
  - intros c. rewrite charCodeVec_characters. now rewrite indexed_full.
  - apply Forall_forall. intros e Hin.
    destruct (charCodeVec_freq cs l e Hmax Hin) as [Hf Hc].
    split; [exact Hf|]. rewrite Hf. now apply occ_pos.
Qed.

Lemma alphabet_counts_occurrences_witness :
  Z.of_nat (length (lit "hello world")) <= INT_MAX
  /\ NoDup (map character (Mutex.charCodeVec true (lit "hello world")))
  /\ Forall (fun e => freq e = occ (character e) (lit "hello world") /\ 1 <= freq e)
       (Mutex.charCodeVec true (lit "hello world")).
Proof.
  assert (H : Z.of_nat (length (lit "hello world")) <= INT_MAX)
    by (vm_compute; discriminate).
  split; [exact H|].
  split; [exact (proj1 (alphabet_counts_occurrences true _ H))|].
  exact (proj2 (proj2 (alphabet_counts_occurrences true _ H))).
Defined.

(** X2.  The frequencies of the alphabet add up to the length of the
    line, the alphabet has no more entries than the line has characters,
    and it is empty exactly for the empty line. *)
Theorem frequencies_sum_to_length (cs : bool) (l : str) :
  Z.of_nat (length l) <= INT_MAX ->
  zsum (map freq (Mutex.charCodeVec cs l)) = Z.of_nat (length l)
  /\ (length (Mutex.charCodeVec cs l) <= length l)%nat
  /\ (Mutex.charCodeVec cs l = [] <-> l = []).
Proof.
  intros Hmax.
  pose proof (charCodeVec_freq_sum cs l Hmax) as Hs.
  pose proof (charCodeVec_length cs l Hmax) as Hl.
  split; [exact Hs|]. split; [exact Hl|]. split.
  - intros E. rewrite E in Hs. simpl in Hs. destruct l; [reflexivity|simpl in Hs; lia].
  - intros ->. reflexivity.
Qed.

Lemma frequencies_sum_to_length_witness :
  Z.of_nat (length (lit "hello world")) <= INT_MAX
  /\ zsum (map freq (Mutex.charCodeVec true (lit "hello world"))) = 11.
Proof.
  assert (H : Z.of_nat (length (lit "hello world")) <= INT_MAX)
    by (vm_compute; discriminate).
  split; [exact H|].
  exact (proj1 (frequencies_sum_to_length true (lit "hello world") H)).
Defined.

(** X3.  Whatever the line, every code of the alphabet and the encoded
    line are made of the digits 0 and 1 only. *)
Theorem codes_are_binary (cs : bool) (l : str) :
  Forall (fun e => Forall is_bit (code e)) (Mutex.charCodeVec cs l)
  /\ Forall is_bit (Mutex.encodedLine cs l).
Proof.
  split; [|apply encodedLine_bits].
  apply Forall_forall. intros e Hin. now apply (charCodeVec_bits cs l).
Qed.

(** X4.  The encoded line is the concatenation, in line order, of the
    codes of the characters of the line, the code of a character being
    the one stored in its entry of the alphabet; so the length of the
    encoded line is the sum over the alphabet of frequency times code
    length. *)
Theorem encoded_line_is_concatenation (cs : bool) (l : str) :
  Z.of_nat (length l) <= INT_MAX ->
  Mutex.encodedLine cs l = concat (map (code_of cs l) l)
  /\ Forall (fun e => code_of cs l (character e) = code e) (Mutex.charCodeVec cs l)
  /\ Z.of_nat (length (Mutex.encodedLine cs l))
     = zsum (map (fun e => freq e * Z.of_nat (length (code e))) (Mutex.charCodeVec cs l)).
Proof.
  intros Hmax. split; [now apply encodedLine_concat|]. split.
  - apply Forall_forall. intros e Hin. now apply code_of_entry.
  - now apply encodedLine_length.
Qed.

Lemma encoded_line_is_concatenation_witness :
  Z.of_nat (length (lit "aab")) <= INT_MAX
  /\ Mutex.encodedLine true (lit "aab")
     = concat (map (code_of true (lit "aab")) (lit "aab")).
Proof.
  assert (H : Z.of_nat (length (lit "aab")) <= INT_MAX) by (vm_compute; discriminate).
  split; [exact H|].
  exact (proj1 (encoded_line_is_concatenation true (lit "aab") H)).
Defined.

(** X5.  On a line of at most 2^24 characters the codes get no shorter
    along the alphabet: an entry never has a longer code than an entry
    after it. *)
Theorem code_lengths_nondecreasing (cs : bool) (l : str) :
  Z.of_nat (length l) <= 2 ^ 24 ->
  StronglySorted (fun a b => (length (code a) <= length (code b))%nat)
    (Mutex.charCodeVec cs l).
Proof. apply code_lengths_ascend. Qed.

Lemma code_lengths_nondecreasing_witness :
  Z.of_nat (length (lit "hello world")) <= 2 ^ 24
  /\ StronglySorted (fun a b => (length (code a) <= length (code b))%nat)
       (Mutex.charCodeVec true (lit "hello world")).
Proof.
  assert (H : Z.of_nat (length (lit "hello world")) <= 2 ^ 24)
    by (vm_compute; discriminate).
  split; [exact H|].
  exact (code_lengths_nondecreasing true (lit "hello world") H).
Defined.

(** X6.  The first entry of the alphabet, the most frequent character,
    always has a code made of zeros only. *)
Theorem first_code_is_zeros (cs : bool) (l : str) (e : CharCode) (rest : list CharCode) :
  Mutex.charCodeVec cs l = e :: rest ->
  code e = repeat "0"%char (length (code e)).
Proof. apply first_code_zeros. Qed.

Lemma first_code_is_zeros_witness :
  Mutex.charCodeVec true (lit "abcab")
  = mkCharCode "b" 2 (lit "00") :: [mkCharCode "a" 2 (lit "01"); mkCharCode "c" 1 (lit "110")]
  /\ lit "00" = repeat "0"%char 2.
Proof.
  assert (H : Mutex.charCodeVec true (lit "abcab")
              = mkCharCode "b" 2 (lit "00")
                  :: [mkCharCode "a" 2 (lit "01"); mkCharCode "c" 1 (lit "110")])
    by (vm_compute; reflexivity).
  split; [exact H|].
  exact (first_code_is_zeros true (lit "abcab") _ _ H).
Defined.

(** X7.  On a line of at most 2^24 characters no code is longer than 24
    digits and the code lengths satisfy Kraft's inequality: the sum of
    [2^(-length)] over the alphabet is at most 1 (stated with the common
    denominator 2^24). *)
Theorem kraft_inequality (cs : bool) (l : str) :
  Z.of_nat (length l) <= 2 ^ 24 ->
  Forall (fun e => (length (code e) <= 24)%nat) (Mutex.charCodeVec cs l)
  /\ zsum (map (fun e => 2 ^ (24 - Z.of_nat (length (code e)))) (Mutex.charCodeVec cs l))
     <= 2 ^ 24.
Proof. apply code_lengths_kraft. Qed.

Lemma kraft_inequality_witness :
  Z.of_nat (length (lit "hello world")) <= 2 ^ 24
  /\ zsum (map (fun e => 2 ^ (24 - Z.of_nat (length (code e))))
             (Mutex.charCodeVec true (lit "hello world")))
     <= 2 ^ 24.
Proof.
  assert (H : Z.of_nat (length (lit "hello world")) <= 2 ^ 24)
    by (vm_compute; discriminate).
  split; [exact H|].
  exact (proj2 (kraft_inequality true (lit "hello world") H)).
Defined.

(** X8.  The alphabet, codes included, depends only on how often each
    character occurs: two lines that are rearrangements of one another
    have the same alphabet and encoded lines of the same length. *)
Theorem alphabet_ignores_character_order (cs : bool) (s t : str) :
  Z.of_nat (length s) <= INT_MAX -> Permutation s t ->
  Mutex.charCodeVec cs s = Mutex.charCodeVec cs t
  /\ length (Mutex.encodedLine cs s) = length (Mutex.encodedLine cs t).
Proof. apply charCodeVec_permutation. Qed.

Lemma alphabet_ignores_character_order_witness :
  Z.of_nat (length (lit "aab")) <= INT_MAX
  /\ Permutation (lit "aab") (lit "aba")
  /\ Mutex.charCodeVec true (lit "aab") = Mutex.charCodeVec true (lit "aba").
Proof.
  assert (H : Z.of_nat (length (lit "aab")) <= INT_MAX) by (vm_compute; discriminate).
  assert (P : Permutation (lit "aab") (lit "aba")).
  { unfold lit. simpl. apply perm_skip. apply perm_swap. }
  split; [exact H|]. split; [exact P|].
  exact (proj1 (alphabet_ignores_character_order true _ _ H P)).
Defined.

(** X9.  On a message with an empty alphabet the encoders of
    [src/server.cpp] and [src/multiThreading.cpp] compute the alphabet
    and the encoded line of [src/mutex.cpp]; the server's one appends
    the encoded line to what the message already holds, the threaded one
    replaces it. *)
Theorem server_appends_threads_replace (cs : bool) (l old : str) :
  Z.of_nat (length l) <= INT_MAX ->
  Server.shannonCode cs (mkEncodedMsg l [] old)
  = mkEncodedMsg l (Mutex.charCodeVec cs l) (old ++ Mutex.encodedLine cs l)
  /\ MultiThreading.shannonCode cs (mkEncodedMsg l [] old)
     = mkEncodedMsg l (Mutex.charCodeVec cs l) (Mutex.encodedLine cs l).
Proof.
  intros Hmax. split; [now apply server_shannonCode_appends|apply mt_shannonCode_resets].
Qed.

Lemma server_appends_threads_replace_witness :
  Z.of_nat (length (lit "aab")) <= INT_MAX
  /\ encodedLine (Server.shannonCode true (mkEncodedMsg (lit "aab") [] (lit "111")))
     = lit "1110010"
  /\ encodedLine (MultiThreading.shannonCode true (mkEncodedMsg (lit "aab") [] (lit "111")))
     = lit "0010".
Proof.
  assert (H : Z.of_nat (length (lit "aab")) <= INT_MAX) by (vm_compute; discriminate).
  split; [exact H|].
  destruct (server_appends_threads_replace true (lit "aab") (lit "111") H) as [-> ->].
  split; vm_compute; reflexivity.
Defined.

(** X10.  [compareFreqChar] is a strict weak ordering, as [std::sort]
    requires: it is irreflexive and transitive, and two entries that it
    does not order either way have the same frequency and the same
    character.  Hence the entries of an alphabet, whose characters are
    distinct, have only one arrangement in comparator order: the one the
    sort of [shannonCode] leaves. *)
Theorem comparator_is_strict_weak_order (cs : bool) :
  (forall a, compareFreqChar cs a a = false)
  /\ (forall a b c, compareFreqChar cs a b = true -> compareFreqChar cs b c = true ->
                    compareFreqChar cs a c = true)
  /\ (forall a b, compareFreqChar cs a b = false -> compareFreqChar cs b a = false ->
                  freq a = freq b /\ character a = character b)
  /\ (forall vec vec', NoDup (map character vec) -> Permutation vec vec' ->
        StronglySorted (fun a b => compareFreqChar cs a b = true) vec' ->
        vec' = sortCharCodes cs vec).
Proof.
  split; [|split; [|split]].
  - intros a. destruct (compareFreqChar cs a a) eqn:E; [|reflexivity].
    pose proof (compareFreqChar_asym cs a a E). congruence.
  - apply compareFreqChar_trans.
  - intros a b Hab Hba.
    assert (Hc : character a = character b).
    { destruct (ascii_dec (character a) (character b)) as [E|E]; [exact E|].
      pose proof (compareFreqChar_total cs a b E Hab). congruence. }
    split; [|exact Hc].
    unfold compareFreqChar in Hab, Hba.
    destruct (freq a =? freq b) eqn:E1; [now apply Z.eqb_eq in E1|].
    destruct (freq b =? freq a) eqn:E2; [apply Z.eqb_eq in E2; now symmetry|].
    simpl in Hab, Hba. apply Z.eqb_neq in E1.
    rewrite Z.gtb_ltb in Hab, Hba. apply Z.ltb_ge in Hab, Hba. lia.
  - intros vec vec' Hnd Hp Hs.
    apply (sorted_permutation_unique cs).
    + apply Permutation_sym in Hp. apply (Permutation_trans Hp). apply sortCharCodes_perm.
    + exact Hs.
    + now apply sortCharCodes_sorted.
Qed.

(* ================================================================== *)
(** * Further properties of the connection protocol *)

(** X11.  The request of [src/client.cpp] fails when the line holds 32
    characters or more before its first NUL.  Otherwise it is 32 bytes:
    the characters of the line up to its first NUL, a terminator, and
    then whatever the uninitialised buffer held at those places; the
    server reads the characters before the terminator as the line. *)
Theorem request_sends_stale_bytes (stale : list ascii) (l : str) :
  ((32 <= length (c_str l))%nat /\ Client.request stale l = None)
  \/ ((length (c_str l) <= 31)%nat
      /\ exists req,
           Client.request stale l = Some req /\ length req = 32%nat
           /\ req = c_str l ++ NUL :: skipn (length (c_str l) + 1) (uninit BUFFER_SIZE stale)
           /\ Handler.request_line req = Some (c_str l)).
Proof.
  destruct (le_lt_dec 32 (length (c_str l))) as [Hge|Hlt].
  - left. split; [exact Hge|]. now apply request_none.
  - right. split; [lia|].
    destruct (request_fits stale l ltac:(lia)) as (rest & Hreq & Hlen).
    pose proof (request_bytes stale l ltac:(lia)) as Hb.
    rewrite Hb in Hreq. injection Hreq as Hreq.
    eexists. split; [exact Hb|]. split; [|split; [reflexivity|]].
    + rewrite Hreq. exact Hlen.
    + apply request_line_terminated. apply c_str_is_c_string.
Qed.

(** X12.  [sendMessage] of [src/src/network/client.cpp] always writes 32
    bytes that do not depend on the previous content of its buffer: the
    first 31 characters of the message before its first NUL, padded with
    NULs. *)
Theorem sendMessage_pads_with_nul (stale : list ascii) (message : str) :
  exists buf,
    NetworkClient.sendMessage true stale message = inl buf
    /\ buf = firstn 31 (c_str message)
             ++ repeat NUL (32 - length (firstn 31 (c_str message)))
    /\ length buf = 32%nat
    /\ c_str buf = firstn 31 (c_str message)
    /\ NetworkClient.sendMessage true [] message = inl buf.
Proof.
  destruct (sendMessage_truncates stale message) as (buf & Hs & Hl & _ & Hc).
  exists buf. split; [exact Hs|].
  unfold NetworkClient.sendMessage in *. injection Hs as Hs.
  split; [rewrite <- Hs; apply sendMessage_buffer_spec|].
  split; [exact Hl|]. split; [exact Hc|].
  rewrite <- Hs. f_equal.
  rewrite (sendMessage_buffer_spec [] message), (sendMessage_buffer_spec stale message).
  reflexivity.
Qed.

(** X13.  The response format round-trips: for every alphabet whose
    frequencies fit an [int] and whose codes hold no NUL, and every
    encoded line without NUL, the receiving loop of [src/client.cpp]
    reads back from the bytes the server of [src/server.cpp] writes
    exactly that alphabet and that encoded line. *)
Theorem response_round_trip (stale : list ascii) (msg : EncodedMsg) :
  Z.of_nat (length (charCodeVec msg)) <= INT_MAX ->
  Forall (fun cc => INT_MIN <= freq cc <= INT_MAX
                    /\ Z.of_nat (length (code cc)) <= INT_MAX
                    /\ ~ In NUL (code cc)) (charCodeVec msg) ->
  Z.of_nat (length (encodedLine msg)) < INT_MAX ->
  ~ In NUL (encodedLine msg) ->
  exists resp, Handler.response stale msg = Some resp
               /\ Client.receive resp = Some (charCodeVec msg, encodedLine msg).
Proof. apply receive_response. Qed.

Lemma response_round_trip_witness :
  let msg := mkEncodedMsg (lit "zz")
               [mkCharCode "q" (-7) (lit "hello"); mkCharCode "r" 0 []] (lit "xyz") in
  Z.of_nat (length (charCodeVec msg)) <= INT_MAX
  /\ Forall (fun cc => INT_MIN <= freq cc <= INT_MAX
                       /\ Z.of_nat (length (code cc)) <= INT_MAX
                       /\ ~ In NUL (code cc)) (charCodeVec msg)
  /\ Z.of_nat (length (encodedLine msg)) < INT_MAX
  /\ ~ In NUL (encodedLine msg)
  /\ exists resp, Handler.response (lit "stale") msg = Some resp
                  /\ Client.receive resp = Some (charCodeVec msg, encodedLine msg).
Proof.
  intros msg.
  assert (H1 : Z.of_nat (length (charCodeVec msg)) <= INT_MAX) by (vm_compute; discriminate).
  assert (H2 : Forall (fun cc => INT_MIN <= freq cc <= INT_MAX
                                 /\ Z.of_nat (length (code cc)) <= INT_MAX
                                 /\ ~ In NUL (code cc)) (charCodeVec msg)).
  { repeat constructor; try (vm_compute; discriminate); simpl; intuition discriminate. }
  assert (H3 : Z.of_nat (length (encodedLine msg)) < INT_MAX) by (vm_compute; reflexivity).
  assert (H4 : ~ In NUL (encodedLine msg)) by (simpl; intuition discriminate).
  split; [exact H1|]. split; [exact H2|]. split; [exact H3|]. split; [exact H4|].
  exact (response_round_trip (lit "stale") msg H1 H2 H3 H4).
Defined.



(** X15.  For an encoded line without NUL, [handleClient] of
    [src/src/network/server.cpp], which writes the encoded line straight
    from the string, sends the bytes that [src/server.cpp] sends after
    copying it with [strcpy] into an array of its own. *)
Theorem refactored_server_writes_same_bytes (stale : list ascii) (msg : EncodedMsg) :
  Z.of_nat (length (encodedLine msg)) < INT_MAX ->
  ~ In NUL (encodedLine msg) ->
  Handler.response stale msg = Some (NetworkServer.response msg).
Proof.
  intros Hlen Hn.
  rewrite (response_bytes stale msg Hlen Hn).
  rewrite (network_response_bytes msg) by lia. reflexivity.
Qed.

Lemma refactored_server_writes_same_bytes_witness :
  let msg := mkEncodedMsg (lit "aab")
               [mkCharCode "a" 2 (lit "0"); mkCharCode "b" 1 (lit "10")] (lit "0010") in
  Z.of_nat (length (encodedLine msg)) < INT_MAX
  /\ ~ In NUL (encodedLine msg)
  /\ Handler.response (lit "stale") msg = Some (NetworkServer.response msg).
Proof.
  intros msg.
  assert (H1 : Z.of_nat (length (encodedLine msg)) < INT_MAX) by (vm_compute; reflexivity).
  assert (H2 : ~ In NUL (encodedLine msg)) by (simpl; intuition discriminate).
  split; [exact H1|]. split; [exact H2|].
  exact (refactored_server_writes_same_bytes (lit "stale") msg H1 H2).
Defined.

(* ================================================================== *)
(** * Further properties of the ordering coordinator *)

(** X16.  In every reachable state of [src/mutex.cpp], [mutex2] is locked
    exactly when some worker is between locking and unlocking it, at
    most one worker is; and at most one worker is between leaving the
    [while] loop and incrementing the counter, so the printing blocks of
    two workers never overlap. *)
Theorem one_worker_at_a_time
    (cs : bool) (inputLines : list str) (s : Coordinator.state) :
  Z.of_nat (length inputLines) <= INT_MAX ->
  Coordinator.reachable cs inputLines s ->
  (Coordinator.mutex2 s = true <->
   exists k t, nth_error (Coordinator.threads s) k = Some t
               /\ CoordinatorInv.holds2 (Coordinator.t_pc t) = true)
  /\ (forall j k tj tk,
        nth_error (Coordinator.threads s) j = Some tj ->
        nth_error (Coordinator.threads s) k = Some tk ->
        CoordinatorInv.holds2 (Coordinator.t_pc tj) = true ->
        CoordinatorInv.holds2 (Coordinator.t_pc tk) = true -> j = k)
  /\ (forall j k tj tk,
        nth_error (Coordinator.threads s) j = Some tj ->
        nth_error (Coordinator.threads s) k = Some tk ->
        CoordinatorInv.turn (Coordinator.t_pc tj) = true ->
        CoordinatorInv.turn (Coordinator.t_pc tk) = true -> j = k).
Proof.
  intros Hmax Hr.
  assert (Hinv : CoordinatorInv.inv cs inputLines s)
    by (apply CoordinatorFacts.reachable_inv; assumption).
  destruct (CoordinatorInv.inv_m2 _ _ _ Hinv) as (H1 & H2 & H3).
  split; [|split].
  - split; [exact H1|]. intros (k & t & Hk & Hh). exact (H2 k t Hk Hh).
  - exact H3.
  - intros j k tj tk Hj Hk Tj Tk.
    exact (CoordinatorMore.turn_unique cs inputLines s j k tj tk Hinv Hj Hk Tj Tk).
Qed.

Lemma one_worker_at_a_time_witness :
  let inputLines := [lit "aab"; lit "aaaa"; lit "xy"] in
  let s := Coordinator.run true inputLines 9 [2; 1; 0]%nat Coordinator.init in
  Z.of_nat (length inputLines) <= INT_MAX
  /\ Coordinator.reachable true inputLines s
  /\ Coordinator.mutex2 s = true
  /\ exists k t, nth_error (Coordinator.threads s) k = Some t
                 /\ CoordinatorInv.holds2 (Coordinator.t_pc t) = true.
Proof.
  intros inputLines s.
  assert (H1 : Z.of_nat (length inputLines) <= INT_MAX) by (vm_compute; discriminate).
  assert (H2 : Coordinator.reachable true inputLines s)
    by (apply CoordinatorFacts.run_reachable; constructor).
  assert (H3 : Coordinator.mutex2 s = true) by (vm_compute; reflexivity).
  split; [exact H1|]. split; [exact H2|]. split; [exact H3|].
  exact (proj1 (proj1 (one_worker_at_a_time true inputLines s H1 H2)) H3).
Defined.

(** X17.  In every reachable state, a worker that has left the copying
    of the staging record holds the line and the index of its own
    position in the input, whatever the other threads did in between;
    and while a worker is still copying, [mutex1] is locked, [main] is
    not at one of its writes to the record, the worker is the last one
    created, and the part of the record it has not copied yet holds its
    line or its index. *)
Theorem handoff_delivers_own_line
    (cs : bool) (inputLines : list str) (s : Coordinator.state)
    (k : nat) (t : Coordinator.thread) :
  Z.of_nat (length inputLines) <= INT_MAX ->
  Coordinator.reachable cs inputLines s ->
  nth_error (Coordinator.threads s) k = Some t ->
  (CoordinatorInv.copying (Coordinator.t_pc t) = false ->
   Coordinator.t_line t = nth k inputLines []
   /\ Coordinator.t_localID t = Z.of_nat k)
  /\ (CoordinatorInv.copying (Coordinator.t_pc t) = true ->
      Coordinator.mutex1 s = true
      /\ CoordinatorInv.setting (Coordinator.main_pc s) = false
      /\ length (Coordinator.threads s) = S k
      /\ (Coordinator.t_pc t = Coordinator.CopyLine ->
          Coordinator.sd_line s = nth k inputLines [])
      /\ (Coordinator.t_pc t <> Coordinator.CopyLine ->
          Coordinator.t_line t = nth k inputLines [])
      /\ (Coordinator.t_pc t <> Coordinator.Unlock1 ->
          Coordinator.sd_id s = Z.of_nat k)
      /\ (Coordinator.t_pc t = Coordinator.Unlock1 ->
          Coordinator.t_localID t = Z.of_nat k)).
Proof.
  intros Hmax Hr Hk.
  assert (Hinv : CoordinatorInv.inv cs inputLines s)
    by (apply CoordinatorFacts.reachable_inv; assumption).
  split.
  - now apply (CoordinatorMore.own_after_copying cs inputLines s).
  - now apply (CoordinatorMore.staging_while_copying cs inputLines s).
Qed.

Lemma handoff_delivers_own_line_witness :
  let inputLines := [lit "aab"; lit "aaaa"; lit "xy"] in
  let s := Coordinator.run true inputLines 31 [2; 1; 0]%nat Coordinator.init in
  let t := Coordinator.mkThread Coordinator.Encode (lit "aaaa") 1 in
  Z.of_nat (length inputLines) <= INT_MAX
  /\ Coordinator.reachable true inputLines s
  /\ nth_error (Coordinator.threads s) 1 = Some t
  /\ Coordinator.t_line t = nth 1 inputLines []
  /\ Coordinator.t_localID t = 1.
Proof.
  intros inputLines s t.
  assert (H1 : Z.of_nat (length inputLines) <= INT_MAX) by (vm_compute; discriminate).
  assert (H2 : Coordinator.reachable true inputLines s)
    by (apply CoordinatorFacts.run_reachable; constructor).
  assert (H3 : nth_error (Coordinator.threads s) 1 = Some t) by (vm_compute; reflexivity).
  split; [exact H1|]. split; [exact H2|]. split; [exact H3|].
  exact (proj1 (handoff_delivers_own_line true inputLines s 1 t H1 H2 H3) eq_refl).
Defined.

(** X18.  In every reachable state the counter lies between 0 and the
    number of threads created, which is at most the number of lines, and
    the console holds the complete printing blocks of the lines before
    the counter, in input order, followed by an initial part of the block
    of the line at the counter: no output of a later line, and no block
    cut short or interleaved with another. *)
Theorem console_holds_whole_blocks
    (cs : bool) (inputLines : list str) (s : Coordinator.state) :
  Z.of_nat (length inputLines) <= INT_MAX ->
  Coordinator.reachable cs inputLines s ->
  0 <= Coordinator.counter s <= Z.of_nat (length (Coordinator.threads s))
  /\ (length (Coordinator.threads s) <= length inputLines)%nat
  /\ exists done rest,
       Coordinator.display cs (nth (Z.to_nat (Coordinator.counter s)) inputLines [])
       = done ++ rest
       /\ Coordinator.out s
          = Coordinator.blocks cs inputLines (Z.to_nat (Coordinator.counter s))
              ++ map (pair (Coordinator.counter s)) done.
Proof.
  intros Hmax Hr.
  assert (Hinv : CoordinatorInv.inv cs inputLines s)
    by (apply CoordinatorFacts.reachable_inv; assumption).
  destruct (CoordinatorMore.counter_range cs inputLines s Hinv) as [Hc Hn].
  split; [exact Hc|]. split; [exact Hn|].
  now apply (CoordinatorMore.out_shape cs inputLines s).
Qed.

Lemma console_holds_whole_blocks_witness :
  let inputLines := [lit "aab"; lit "aaaa"; lit "xy"] in
  let s := Coordinator.run true inputLines 38 [2; 1; 0]%nat Coordinator.init in
  Z.of_nat (length inputLines) <= INT_MAX
  /\ Coordinator.reachable true inputLines s
  /\ Coordinator.counter s = 1
  /\ exists done rest,
       Coordinator.display true (nth (Z.to_nat (Coordinator.counter s)) inputLines [])
       = done ++ rest
       /\ Coordinator.out s
          = Coordinator.blocks true inputLines (Z.to_nat (Coordinator.counter s))
              ++ map (pair (Coordinator.counter s)) done.
Proof.
  intros inputLines s.
  assert (H1 : Z.of_nat (length inputLines) <= INT_MAX) by (vm_compute; discriminate).
  assert (H2 : Coordinator.reachable true inputLines s)
    by (apply CoordinatorFacts.run_reachable; constructor).
  assert (H3 : Coordinator.counter s = 1) by (vm_compute; reflexivity).
  split; [exact H1|]. split; [exact H2|]. split; [exact H3|].
  exact (proj2 (proj2 (console_holds_whole_blocks true inputLines s H1 H2))).
Defined.



(** X20.  No wake-up is lost: whenever a worker sleeps in
    [pthread_cond_wait] although the counter already equals its index,
    another worker stands between its increment of the counter and its
    [pthread_cond_broadcast], so the broadcast that wakes the sleeper is
    still to come. *)
Theorem no_wakeup_is_lost
    (cs : bool) (inputLines : list str) (s : Coordinator.state)
    (k : nat) (t : Coordinator.thread) :
  Z.of_nat (length inputLines) <= INT_MAX ->
  Coordinator.reachable cs inputLines s ->
  nth_error (Coordinator.threads s) k = Some t ->
  Coordinator.t_pc t = Coordinator.Waiting ->
  Coordinator.counter s = Z.of_nat k ->
  exists j tj, nth_error (Coordinator.threads s) j = Some tj
               /\ Coordinator.t_pc tj = Coordinator.Broadcast /\ j <> k.
Proof.
  intros Hmax Hr Hk Hpc Hc.
  assert (Hinv : CoordinatorInv.inv cs inputLines s)
    by (apply CoordinatorFacts.reachable_inv; assumption).
  now apply (CoordinatorMore.no_lost_wakeup cs inputLines s k t).
Qed.

Lemma no_wakeup_is_lost_witness :
  let inputLines := [lit "aab"; lit "aaaa"; lit "xy"] in
  let s1 := Coordinator.run true inputLines 7 [0]%nat Coordinator.init in
  let s2 := Coordinator.run true inputLines 10 [1]%nat s1 in
  let s := Coordinator.run true inputLines 15 [0]%nat s2 in
  let t := Coordinator.mkThread Coordinator.Waiting (lit "aaaa") 1 in
  Z.of_nat (length inputLines) <= INT_MAX
  /\ Coordinator.reachable true inputLines s
  /\ nth_error (Coordinator.threads s) 1 = Some t
  /\ Coordinator.counter s = 1
  /\ exists j tj, nth_error (Coordinator.threads s) j = Some tj
                  /\ Coordinator.t_pc tj = Coordinator.Broadcast /\ j <> 1%nat.
Proof.
  intros inputLines s1 s2 s t.
  assert (H1 : Z.of_nat (length inputLines) <= INT_MAX) by (vm_compute; discriminate).
  assert (H2 : Coordinator.reachable true inputLines s)
    by (do 3 apply CoordinatorFacts.run_reachable; constructor).
  assert (H3 : nth_error (Coordinator.threads s) 1 = Some t) by (vm_compute; reflexivity).
  assert (H4 : Coordinator.counter s = 1) by (vm_compute; reflexivity).
  split; [exact H1|]. split; [exact H2|]. split; [exact H3|]. split; [exact H4|].
  exact (no_wakeup_is_lost true inputLines s 1 t H1 H2 H3 eq_refl H4).
Defined.

(* ================================================================== *)
(** * The programs that print after joining *)

(** X21.  [main] of [src/multiThreading.cpp], whatever the order in which
    its threads run, prints what [src/mutex.cpp] has printed when it
    returns: the printing blocks of the lines in input order. *)
Theorem multiThreading_prints_the_same_blocks
    (cs : bool) (inputLines : list str) (order : list nat) :
  Permutation order (seq 0 (length inputLines)) ->
  MultiThreadingMain.main cs inputLines order
  = Coordinator.blocks cs inputLines (length inputLines).
Proof.
  intros Hp. unfold MultiThreadingMain.main.
  rewrite (mt_run_threads cs inputLines order Hp).
  exact (mt_print_from cs [] inputLines).
Qed.

Lemma multiThreading_prints_the_same_blocks_witness :
  let inputLines := [lit "aab"; lit "aaaa"; lit "xy"] in
  Permutation [2; 0; 1]%nat (seq 0 (length inputLines))
  /\ MultiThreadingMain.main true inputLines [2; 0; 1]%nat
     = Coordinator.blocks true inputLines (length inputLines).
Proof.
  intros inputLines.
  assert (P : Permutation [2; 0; 1]%nat (seq 0 (length inputLines))).
  { change (Permutation (2 :: [0; 1]) ([0; 1] ++ 2 :: []))%nat.
    apply Permutation_cons_app. apply Permutation_refl. }
  split; [exact P|].
  exact (multiThreading_prints_the_same_blocks true inputLines [2; 0; 1]%nat P).
Defined.



(* ================================================================== *)
(** * Binary expansions and prefix freedom *)

(** X23.  For every normal binary32 number [decimal] of the interval
    (0, 1) and every [precision >= 0], [decimalToBinary] returns the
    first [precision] digits of the binary expansion of [decimal]: read
    as a binary number the result is [floor (decimal * 2^precision)].
    No rounding enters: the doubling, the comparison with 1 and the
    subtraction of 1 in the loop are all exact. *)
Theorem decimalToBinary_writes_expansion (m : positive) (e precision : Z) :
  canonical32 m -> -149 <= e <= -24 -> 0 <= precision ->
  decimalToBinary (S754_finite false m e) precision
  = binary_digits (Z.to_nat precision) (scaled_floor (S754_finite false m e) precision)
  /\ binary_value (decimalToBinary (S754_finite false m e) precision)
     = scaled_floor (S754_finite false m e) precision
  /\ 0 <= scaled_floor (S754_finite false m e) precision < 2 ^ precision
  /\ scaled_floor (S754_finite false m e) precision * 2 ^ (- e)
     <= Zpos m * 2 ^ precision
     < (scaled_floor (S754_finite false m e) precision + 1) * 2 ^ (- e).
Proof.
  intros Hm He Hp.
  pose proof (decimalToBinary_digits m e precision Hm He) as Hd.
  rewrite Z2Nat.id in Hd by lia.
  destruct (scaled_floor_spec m e precision Hm He Hp) as (HK & Hfloor).
  split; [exact Hd|]. split; [|split; [exact HK|exact Hfloor]].
  rewrite Hd, binary_value_digits, Z2Nat.id by lia.
  apply Z.mod_small. exact HK.
Qed.

Lemma decimalToBinary_writes_expansion_witness :
  canonical32 11184811 /\ -149 <= -24 <= -24 /\ 0 <= 5
  /\ F32.div (F32.of_int 2) (F32.of_int 3) = S754_finite false 11184811 (-24)
  /\ decimalToBinary (S754_finite false 11184811 (-24)) 5 = lit "10101"
  /\ binary_value (decimalToBinary (S754_finite false 11184811 (-24)) 5) = 21.
Proof.
  assert (H1 : canonical32 11184811) by (unfold canonical32; lia).
  assert (H2 : -149 <= -24 <= -24) by lia.
  assert (H3 : 0 <= 5) by lia.
  split; [exact H1|]. split; [exact H2|]. split; [exact H3|].
  split; [vm_compute; reflexivity|].
  destruct (decimalToBinary_writes_expansion 11184811 (-24) 5 H1 H2 H3) as (E1 & E2 & _).
  split; [rewrite E1|rewrite E2]; vm_compute; reflexivity.
Defined.

(** X24.  On a line of at most 65536 characters the codes are
    prefix-free: the code of one character of the alphabet is never a
    prefix of the code of another.  The cumulative probability, kept in
    binary32, stays below one before every entry and moves ahead by at
    least [2^-length] of the entry's code at every step. *)
Theorem codes_are_prefix_free (cs : bool) (l : str) (x y : CharCode) :
  Z.of_nat (length l) <= 2 ^ 16 ->
  In x (Mutex.charCodeVec cs l) -> In y (Mutex.charCodeVec cs l) ->
  character x <> character y ->
  ~ is_prefix (code x) (code y).
Proof. apply codes_prefix_free. Qed.

Lemma codes_are_prefix_free_witness :
  let l := lit "abcab" in
  let x := mkCharCode "b" 2 (lit "00") in
  let y := mkCharCode "c" 1 (lit "110") in
  Z.of_nat (length l) <= 2 ^ 16
  /\ In x (Mutex.charCodeVec true l) /\ In y (Mutex.charCodeVec true l)
  /\ character x <> character y
  /\ ~ is_prefix (code x) (code y).
Proof.
  intros l x y.
  assert (H1 : Z.of_nat (length l) <= 2 ^ 16) by (vm_compute; discriminate).
  assert (Hv : Mutex.charCodeVec true l
               = [x; mkCharCode "a" 2 (lit "01"); y]) by (vm_compute; reflexivity).
  assert (H2 : In x (Mutex.charCodeVec true l)) by (rewrite Hv; simpl; tauto).
  assert (H3 : In y (Mutex.charCodeVec true l)) by (rewrite Hv; simpl; tauto).
  assert (H4 : character x <> character y) by discriminate.
  split; [exact H1|]. split; [exact H2|]. split; [exact H3|]. split; [exact H4|].
  exact (codes_are_prefix_free true l x y H1 H2 H3 H4).
Defined.

(** X25.  On lines of at most 65536 characters the encoding can be
    undone: two different lines with the same alphabet never have the
    same encoded line. *)
Theorem encoded_line_determines_line (cs : bool) (s t : str) :
  Z.of_nat (length s) <= 2 ^ 16 -> Z.of_nat (length t) <= 2 ^ 16 ->
  Mutex.charCodeVec cs s = Mutex.charCodeVec cs t ->
  s <> t ->
  Mutex.encodedLine cs s <> Mutex.encodedLine cs t.
Proof.
  intros Hs Ht Hvec Hne Henc. apply Hne.
  now apply (encodedLine_injective cs s t).
Qed.

Lemma encoded_line_determines_line_witness :
  Z.of_nat (length (lit "aab")) <= 2 ^ 16 /\ Z.of_nat (length (lit "aba")) <= 2 ^ 16
  /\ Mutex.charCodeVec true (lit "aab") = Mutex.charCodeVec true (lit "aba")
  /\ lit "aab" <> lit "aba"
  /\ Mutex.encodedLine true (lit "aab") <> Mutex.encodedLine true (lit "aba").
Proof.
  assert (H1 : Z.of_nat (length (lit "aab")) <= 2 ^ 16) by (vm_compute; discriminate).
  assert (H2 : Z.of_nat (length (lit "aba")) <= 2 ^ 16) by (vm_compute; discriminate).
  assert (H3 : Mutex.charCodeVec true (lit "aab") = Mutex.charCodeVec true (lit "aba"))
    by (vm_compute; reflexivity).
  assert (H4 : lit "aab" <> lit "aba") by discriminate.
  split; [exact H1|]. split; [exact H2|]. split; [exact H3|]. split; [exact H4|].
  exact (encoded_line_determines_line true _ _ H1 H2 H3 H4).
Defined.

(** X26.  Whatever the message, its length and the previous content of
    the buffers, the request that [sendMessage] of
    [src/src/network/client.cpp] writes is answered by the server of
    [src/server.cpp], and the answer read back holds the alphabet and
    the encoded line of the first 31 characters of the message before
    its first NUL: a longer message is cut, never refused. *)
Theorem sendMessage_is_always_answered
    (cs : bool) (stale_c stale_s : list ascii) (message : str) :
  exists req resp,
    NetworkClient.sendMessage true stale_c message = inl req
    /\ Handler.handle cs stale_s req = Some resp
    /\ Client.receive resp
       = Some (Mutex.charCodeVec cs (firstn 31 (c_str message)),
               Mutex.encodedLine cs (firstn 31 (c_str message))).
Proof.
  destruct (sendMessage_truncates stale_c message) as (buf & Hs & Hl & Hlast & Hc).
  assert (Hn : In NUL buf).
  { rewrite <- Hlast. apply nth_In. lia. }
  destruct (handle_terminated cs stale_s buf ltac:(lia) Hn) as (resp & Hh & Hr).
  exists buf, resp. split; [exact Hs|]. split; [exact Hh|].
  now rewrite Hc in Hr.
Qed.


